(** * Process lifecycle, swap engine and configuration loader

    A shallow embedding of the JavaScript modules of the repository:

    - [ProcessManager]: the classes [Process], [ProcessGroup] and
      [ProcessManager] of the process-manager module;
    - [ConfigLoader]: the class [ConfigLoader] of the config-loader module;
    - [Server]: the construction of the process manager and the routes of
      the server that load and unload models.

    JavaScript objects become records, the [Map]s of the source become
    association lists in insertion order, and [async] methods become
    functions in a small monad that threads the state of the program and
    a schedule describing what the rest of the world does whenever the
    method is suspended on a timer or on network I/O. *)

From Stdlib Require Import ZArith List String Ascii Bool Lia DecimalString Permutation Sorted.
Import ListNotations.
Local Open Scope string_scope.
Local Open Scope Z_scope.

(** ** Association lists in insertion order (JavaScript [Map] and plain objects) *)

Section Assoc.
Context {A : Type}.

Fixpoint lookup (k : string) (l : list (string * A)) : option A :=
  match l with
  | [] => None
  | (k', v) :: l' => if String.eqb k k' then Some v else lookup k l'
  end.

(** [Map.prototype.set]: an existing key keeps its position. *)
Fixpoint map_set (k : string) (v : A) (l : list (string * A)) : list (string * A) :=
  match l with
  | [] => [(k, v)]
  | (k', v') :: l' =>
      if String.eqb k k' then (k', v) :: l' else (k', v') :: map_set k v l'
  end.

(** In-place modification of the value stored under a key. *)
Fixpoint adjust (k : string) (f : A -> A) (l : list (string * A)) : list (string * A) :=
  match l with
  | [] => []
  | (k', v) :: l' =>
      if String.eqb k k' then (k', f v) :: l' else (k', v) :: adjust k f l'
  end.

Definition has_key (k : string) (l : list (string * A)) : bool :=
  match lookup k l with Some _ => true | None => false end.
End Assoc.

(** [Array.prototype.includes] on an array of strings. *)
Definition includes (x : string) (l : list string) : bool :=
  existsb (String.eqb x) l.

Module ProcessManager.

(** ** Data model *)

Inductive ProcessState := STOPPED | STARTING | READY | STOPPING | SHUTDOWN.

Inductive StopStrategy := IMMEDIATELY | WAIT_FOR_INFLIGHT.

Definition state_eqb (a b : ProcessState) : bool :=
  match a, b with
  | STOPPED, STOPPED | STARTING, STARTING | READY, READY
  | STOPPING, STOPPING | SHUTDOWN, SHUTDOWN => true
  | _, _ => false
  end.

(** The fields of a model configuration that [Process] reads. *)
Record ModelConfig := mkModelConfig {
  cmd : string;
  cmdStop : option string;
  proxy : string;
  checkEndpoint : string;
  env : list string;
  unloadAfter : Z
}.

(** [Process]: [p_process] is the handle of the child created by the last
    [spawn] (its pid), [None] for the initial [null]. *)
Record Process := mkProcess {
  p_id : string;
  p_config : ModelConfig;
  p_process : option nat;
  p_healthCheckTimeout : Z;
  p_state : ProcessState;
  p_inFlightRequests : Z;
  p_failedStartCount : Z;
  p_lastRequestHandled : Z
}.

Definition healthCheckLoopInterval : Z := 5000.

Record ProcessGroup := mkProcessGroup {
  g_id : string;
  g_swap : bool;
  g_exclusive : bool;
  g_persistent : bool;
  g_members : list string;                 (* config.groups[id].members *)
  g_processes : list (string * Process);   (* Map modelID -> Process *)
  g_lastUsedProcess : string
}.

(** What the program does to the outside world, in order. *)
Inductive Effect :=
| StateChange (id : string) (oldState newState : ProcessState)
| Spawned (id : string) (executable : string) (args : list string) (pid : nat)
| Killed (pid : nat)
| Executed (command : string)
| TTLArmed (id : string)
| Responded (status : Z).

(** The state of the program: the [ProcessManager] object (with the
    [models] keys and the [aliases] table of its [config]) and the part
    of the runtime the code observes: the clock behind [Date.now()], the
    children that have not exited yet with the [Process] whose [close]
    handler they carry, the armed TTL intervals, and the effects so far. *)
Record World := mkWorld {
  config_models : list string;
  config_aliases : list (string * string);
  processGroups : list (string * ProcessGroup);
  shutdown : bool;
  lastActiveGroup : option string;
  now : Z;
  nextPid : nat;
  children : list (nat * (string * string));
  ttlTimers : list (string * string);
  trace : list Effect
}.

(** ** Record updates *)

Definition set_state (s : ProcessState) (p : Process) : Process :=
  mkProcess (p_id p) (p_config p) (p_process p) (p_healthCheckTimeout p) s
            (p_inFlightRequests p) (p_failedStartCount p) (p_lastRequestHandled p).

Definition set_process (c : option nat) (p : Process) : Process :=
  mkProcess (p_id p) (p_config p) c (p_healthCheckTimeout p) (p_state p)
            (p_inFlightRequests p) (p_failedStartCount p) (p_lastRequestHandled p).

Definition set_inFlightRequests (n : Z) (p : Process) : Process :=
  mkProcess (p_id p) (p_config p) (p_process p) (p_healthCheckTimeout p) (p_state p)
            n (p_failedStartCount p) (p_lastRequestHandled p).

Definition set_failedStartCount (n : Z) (p : Process) : Process :=
  mkProcess (p_id p) (p_config p) (p_process p) (p_healthCheckTimeout p) (p_state p)
            (p_inFlightRequests p) n (p_lastRequestHandled p).

Definition set_lastRequestHandled (t : Z) (p : Process) : Process :=
  mkProcess (p_id p) (p_config p) (p_process p) (p_healthCheckTimeout p) (p_state p)
            (p_inFlightRequests p) (p_failedStartCount p) t.

Definition set_processes (ps : list (string * Process)) (g : ProcessGroup) : ProcessGroup :=
  mkProcessGroup (g_id g) (g_swap g) (g_exclusive g) (g_persistent g) (g_members g)
                 ps (g_lastUsedProcess g).

Definition set_lastUsedProcess (m : string) (g : ProcessGroup) : ProcessGroup :=
  mkProcessGroup (g_id g) (g_swap g) (g_exclusive g) (g_persistent g) (g_members g)
                 (g_processes g) m.

Definition set_processGroups (gs : list (string * ProcessGroup)) (w : World) : World :=
  mkWorld (config_models w) (config_aliases w) gs (shutdown w) (lastActiveGroup w)
          (now w) (nextPid w) (children w) (ttlTimers w) (trace w).

Definition set_shutdown (b : bool) (w : World) : World :=
  mkWorld (config_models w) (config_aliases w) (processGroups w) b (lastActiveGroup w)
          (now w) (nextPid w) (children w) (ttlTimers w) (trace w).

Definition set_lastActiveGroup (g : option string) (w : World) : World :=
  mkWorld (config_models w) (config_aliases w) (processGroups w) (shutdown w) g
          (now w) (nextPid w) (children w) (ttlTimers w) (trace w).

Definition set_now (t : Z) (w : World) : World :=
  mkWorld (config_models w) (config_aliases w) (processGroups w) (shutdown w)
          (lastActiveGroup w) t (nextPid w) (children w) (ttlTimers w) (trace w).

Definition set_nextPid (n : nat) (w : World) : World :=
  mkWorld (config_models w) (config_aliases w) (processGroups w) (shutdown w)
          (lastActiveGroup w) (now w) n (children w) (ttlTimers w) (trace w).

Definition set_children (c : list (nat * (string * string))) (w : World) : World :=
  mkWorld (config_models w) (config_aliases w) (processGroups w) (shutdown w)
          (lastActiveGroup w) (now w) (nextPid w) c (ttlTimers w) (trace w).

Definition set_ttlTimers (t : list (string * string)) (w : World) : World :=
  mkWorld (config_models w) (config_aliases w) (processGroups w) (shutdown w)
          (lastActiveGroup w) (now w) (nextPid w) (children w) t (trace w).

(** Append effects to the trace. *)
Definition emit (es : list Effect) (w : World) : World :=
  mkWorld (config_models w) (config_aliases w) (processGroups w) (shutdown w)
          (lastActiveGroup w) (now w) (nextPid w) (children w) (ttlTimers w)
          (trace w ++ es).

(** A [Process] object is addressed by the id of its group and its model id. *)
Definition getProcess (g m : string) (w : World) : option Process :=
  match lookup g (processGroups w) with
  | Some grp => lookup m (g_processes grp)
  | None => None
  end.

Definition updProcess (g m : string) (f : Process -> Process) (w : World) : World :=
  set_processGroups
    (adjust g (fun grp => set_processes (adjust m f (g_processes grp)) grp)
            (processGroups w)) w.

Definition updGroup (g : string) (f : ProcessGroup -> ProcessGroup) (w : World) : World :=
  set_processGroups (adjust g f (processGroups w)) w.

Definition stateOf (g m : string) (w : World) : option ProcessState :=
  option_map p_state (getProcess g m w).

Definition state_is (g m : string) (s : ProcessState) (w : World) : bool :=
  match getProcess g m w with
  | Some p => state_eqb (p_state p) s
  | None => false
  end.


(** ** Strings *)

(** [String.prototype.replace] with a string pattern: the first occurrence only. *)
Fixpoint replaceFirst (pat rep s : string) : string :=
  if String.prefix pat s
  then rep ++ substring (String.length pat) (String.length s - String.length pat) s
  else match s with
       | EmptyString => EmptyString
       | String c s' => String c (replaceFirst pat rep s')
       end.

(** White space of [trim] and of the class [\s], below 256. *)
Definition is_space (c : ascii) : bool :=
  let n := nat_of_ascii c in
  (Nat.leb 9 n && Nat.leb n 13) || Nat.eqb n 32 || Nat.eqb n 160.

Fixpoint tokens_from (acc s : string) : list string :=
  match s with
  | EmptyString => if String.eqb acc "" then [] else [acc]
  | String c s' =>
      if is_space c
      then (if String.eqb acc "" then tokens_from "" s' else acc :: tokens_from "" s')
      else tokens_from (acc ++ String c "") s'
  end.

(** [cmdStr.trim().split(/\s+/)]: the words of the command, and [[""]] for
    a blank command. *)
Definition parseCommand (cmdStr : string) : list string :=
  match tokens_from "" cmdStr with
  | [] => [""]
  | parts => parts
  end.

Definition pid_string (pid : nat) : string :=
  NilZero.string_of_uint (Nat.to_uint pid).

(** ** The synchronous methods of [Process] *)

(** [setState]: the assignment and the [stateChange] event. *)
Definition setState (newState : ProcessState) (p : Process) : Process * list Effect :=
  (set_state newState p, [StateChange (p_id p) (p_state p) newState]).

(** [stopCommand]: nothing without a child; the stop command with the pid
    substituted when [cmdStop] is a non-empty string, SIGTERM otherwise. *)
Definition stopCommand (p : Process) : list Effect :=
  match p_process p with
  | None => []
  | Some pid =>
      match cmdStop (p_config p) with
      | Some c =>
          if String.eqb c "" then [Killed pid]
          else [Executed (replaceFirst "${PID}" (pid_string pid) c)]
      | None => [Killed pid]
      end
  end.

Definition handleProcessExit (p : Process) : Process * list Effect :=
  match p_state p with
  | STOPPING => setState STOPPED p
  | STARTING => setState STOPPED p
  | _ => setState STOPPED p
  end.

Definition addInFlightRequest (date : Z) (p : Process) : Process :=
  set_lastRequestHandled date (set_inFlightRequests (p_inFlightRequests p + 1) p).

Definition removeInFlightRequest (p : Process) : Process :=
  let n := p_inFlightRequests p - 1 in
  set_inFlightRequests (if n <? 0 then 0 else n) p.

(** Run a method of the [Process] at an address and record its effects. *)
Definition onProcess (g m : string) (f : Process -> Process * list Effect)
  (w : World) : World :=
  match getProcess g m w with
  | Some p => let '(p', es) := f p in emit es (updProcess g m (fun _ => p') w)
  | None => w
  end.

Definition stopCommandAt (g m : string) (w : World) : World :=
  match getProcess g m w with
  | Some p => emit (stopCommand p) w
  | None => w
  end.

(** The part of [stop] before its first suspension: the guard and the
    transition to STOPPING.  The boolean tells whether [stop] goes on. *)
Definition stopBeginAt (g m : string) (w : World) : bool * World :=
  match getProcess g m w with
  | None => (false, w)
  | Some p =>
      match p_state p with
      | STOPPED | STOPPING | SHUTDOWN => (false, w)
      | _ => (true, onProcess g m (setState STOPPING) w)
      end
  end.

(** [stop(IMMEDIATELY)], which is never suspended on a timer: the guard,
    the transition to STOPPING and the stop command. *)
Definition stopNow (g m : string) (w : World) : World :=
  let '(go, w1) := stopBeginAt g m w in
  if go then stopCommandAt g m w1 else w1.

Fixpoint remove_timer (g m : string) (l : list (string * string)) : list (string * string) :=
  match l with
  | [] => []
  | (g', m') :: l' =>
      if String.eqb g g' && String.eqb m m' then l' else (g', m') :: remove_timer g m l'
  end.

Definition has_timer (g m : string) (l : list (string * string)) : bool :=
  existsb (fun e => String.eqb g (fst e) && String.eqb m (snd e)) l.

(** [clearInterval(ttlInterval)] *)
Definition clearInterval (g m : string) (w : World) : World :=
  set_ttlTimers (remove_timer g m (ttlTimers w)) w.

(** One firing of the interval armed by [startTTLCheck].  Its
    [stop(IMMEDIATELY)] never waits on a timer, so the callback runs to
    its end before anything else happens. *)
Definition ttlCallback (g m : string) (w : World) : World :=
  match getProcess g m w with
  | None => w
  | Some p =>
      if negb (state_eqb (p_state p) READY) then clearInterval g m w
      else if p_inFlightRequests p >? 0 then w
      else if now w - p_lastRequestHandled p >? unloadAfter (p_config p) * 1000
      then clearInterval g m (stopNow g m w)
      else w
  end.

(** ** The environment *)

(** What can happen while an [async] method is suspended on a timer or on
    a network request: a child exits (its [close] handler runs
    [handleProcessExit]), the proxy layer begins or ends a request, a TTL
    interval fires, or another asynchronous call that is suspended at the
    same time runs one of its steps, about which nothing is assumed. *)
Inductive EnvAction :=
| ChildExit (pid : nat)
| RequestBegin (g m : string)
| RequestEnd (g m : string)
| TTLTick (g m : string)
| OtherTask (f : World -> World).

Fixpoint child_owner (pid : nat) (l : list (nat * (string * string))) : option (string * string) :=
  match l with
  | [] => None
  | (pid', a) :: l' => if Nat.eqb pid pid' then Some a else child_owner pid l'
  end.

Definition remove_child (pid : nat) (l : list (nat * (string * string))) :=
  filter (fun e => negb (Nat.eqb pid (fst e))) l.

Definition apply_action (a : EnvAction) (w : World) : World :=
  match a with
  | ChildExit pid =>
      match child_owner pid (children w) with
      | Some (g, m) =>
          onProcess g m handleProcessExit
                    (set_children (remove_child pid (children w)) w)
      | None => w
      end
  | RequestBegin g m => updProcess g m (addInFlightRequest (now w)) w
  | RequestEnd g m => updProcess g m removeInFlightRequest w
  | TTLTick g m => if has_timer g m (ttlTimers w) then ttlCallback g m w else w
  | OtherTask f => f w
  end.

(** One suspension: the time that passes, what happens meanwhile, and,
    when the suspension is a health probe, how the probe ends (the HTTP
    status, or [None] for a connection error or the 5 s timeout). *)
Record Tick := mkTick {
  elapsed : Z;
  events : list EnvAction;
  probe : option Z
}.

Definition apply_actions (l : list EnvAction) (w : World) : World :=
  fold_left (fun w a => apply_action a w) l w.

Definition apply_tick (t : Tick) (w : World) : World :=
  apply_actions (events t) (set_now (now w + elapsed t) w).

Definition apply_ticks (l : list Tick) (w : World) : World :=
  fold_left (fun w t => apply_tick t w) l w.

(** ** Asynchronous methods

    An [async] method consumes one [Tick] of the schedule at each
    suspension on a timer or on I/O.  [OutOfFuel] is the result of a
    method that is still suspended when the schedule ends. *)

Inductive Outcome (A : Type) :=
| Returned (a : A)
| Threw (message : string)
| OutOfFuel.
Arguments Returned {A} a.
Arguments Threw {A} message.
Arguments OutOfFuel {A}.

Definition Async (A : Type) : Type :=
  World -> list Tick -> Outcome A * World * list Tick.

Definition ret {A} (a : A) : Async A := fun w s => (Returned a, w, s).

Definition throw {A} (msg : string) : Async A := fun w s => (Threw msg, w, s).

Definition bind {A B} (c : Async A) (k : A -> Async B) : Async B :=
  fun w s =>
    match c w s with
    | (Returned a, w', s') => k a w' s'
    | (Threw msg, w', s') => (Threw msg, w', s')
    | (OutOfFuel, w', s') => (OutOfFuel, w', s')
    end.

Definition try_catch {A} (c : Async A) (handler : string -> Async A) : Async A :=
  fun w s =>
    match c w s with
    | (Threw msg, w', s') => handler msg w' s'
    | r => r
    end.

(** A synchronous state change. *)
Definition exec (f : World -> World) : Async unit := fun w s => (Returned tt, f w, s).

Definition read {A} (f : World -> A) : Async A := fun w s => (Returned (f w), w, s).

(** [await new Promise(resolve => setTimeout(resolve, ms))] *)
Definition sleep : Async unit :=
  fun w s =>
    match s with
    | [] => (OutOfFuel, w, [])
    | t :: s' => (Returned tt, apply_tick t w, s')
    end.

(** [await this.checkHealthEndpoint(url)] inside its [try]: the status, or
    [None] when the promise is rejected. *)
Definition checkHealthEndpoint : Async (option Z) :=
  fun w s =>
    match s with
    | [] => (OutOfFuel, w, [])
    | t :: s' => (Returned (probe t), apply_tick t w, s')
    end.

Notation "x <- c1 ;; c2" := (bind c1 (fun x => c2))
  (at level 61, c1 at next level, right associativity).
Notation "c1 ;; c2" := (bind c1 (fun _ => c2))
  (at level 61, right associativity).

(** A lookup whose failure is an exception. *)
Definition orThrow {A} (msg : string) (f : World -> option A) : Async A :=
  fun w s =>
    match f w with
    | Some a => (Returned a, w, s)
    | None => (Threw msg, w, s)
    end.

(** [while (cond) { await sleep }] *)
Fixpoint wait_while (cond : World -> bool) (w : World) (s : list Tick) {struct s}
  : Outcome unit * World * list Tick :=
  if cond w then
    match s with
    | [] => (OutOfFuel, w, [])
    | t :: s' => wait_while cond (apply_tick t w) s'
    end
  else (Returned tt, w, s).

(** The receiver of a method call; the call throws when there is none. *)
Definition this (g m : string) : Async Process :=
  orThrow "Cannot read properties of undefined" (getProcess g m).

Definition inFlight_positive (g m : string) (w : World) : bool :=
  match getProcess g m w with
  | Some p => p_inFlightRequests p >? 0
  | None => false
  end.

(** [Process.stop] *)
Definition stop (g m : string) (strategy : StopStrategy) : Async unit :=
  p <- this g m ;;
  match p_state p with
  | STOPPED | STOPPING | SHUTDOWN => ret tt
  | _ =>
      exec (onProcess g m (setState STOPPING)) ;;
      match strategy with
      | WAIT_FOR_INFLIGHT => wait_while (inFlight_positive g m)
      | IMMEDIATELY => ret tt
      end ;;
      exec (stopCommandAt g m)
  end.

(** A successful [spawn]: the child gets a fresh pid, [this.process] holds
    it, and the child carries the [close] handler of this [Process]. *)
Definition spawnChild (g m id executable : string) (args : list string)
  (w : World) : World :=
  let pid := nextPid w in
  emit [Spawned id executable args pid]
    (set_children (children w ++ [(pid, (g, m))])
       (set_nextPid (S pid)
          (updProcess g m (set_process (Some pid)) w))).

(** [spawn(executable, args, ...)] and the assignment to [this.process];
    Node throws synchronously when the executable is the empty string. *)
Definition spawn (g m : string) : Async unit :=
  p <- this g m ;;
  match parseCommand (cmd (p_config p)) with
  | [] => throw "The argument 'file' cannot be empty"
  | executable :: args =>
      if String.eqb executable ""
      then throw "The argument 'file' cannot be empty"
      else exec (spawnChild g m (p_id p) executable args)
  end.

Inductive HealthCheck := Passed | StateChanged | Expired.

(** [status === 200], and [false] when the probe was rejected. *)
Definition probePassed (r : option Z) : bool :=
  match r with
  | Some status => status =? 200
  | None => false
  end.

(** The health-check loop of [start]. *)
Fixpoint healthLoop (g m : string) (checkStartTime maxDuration : Z)
  (w : World) (s : list Tick) {struct s} : Outcome HealthCheck * World * list Tick :=
  if now w - checkStartTime <? maxDuration then
    if negb (state_is g m STARTING w) then (Returned StateChanged, w, s)
    else
      match s with
      | [] => (OutOfFuel, w, [])
      | t :: s1 =>
          let w1 := apply_tick t w in
          if probePassed (probe t) then (Returned Passed, w1, s1)
          else
            match s1 with
            | [] => (OutOfFuel, w1, [])
            | t' :: s2 => healthLoop g m checkStartTime maxDuration (apply_tick t' w1) s2
            end
      end
  else (Returned Expired, w, s).

(** [startTTLCheck] arms the interval. *)
Definition startTTLCheck (g m : string) (w : World) : World :=
  match getProcess g m w with
  | Some p => emit [TTLArmed (p_id p)] (set_ttlTimers (ttlTimers w ++ [(g, m)]) w)
  | None => w
  end.

Section WithURL.

(** [validURL input base] tells whether [new URL(input, base)] succeeds;
    the URL parser is a library of the runtime. *)
Variable validURL : string -> string -> bool.

(** [Process.start] *)
Definition start (g m : string) : Async bool :=
  p <- this g m ;;
  match p_state p with
  | READY => ret true
  | STARTING =>
      wait_while (state_is g m STARTING) ;;
      read (state_is g m READY)
  | SHUTDOWN => ret false
  | STOPPED | STOPPING =>
      exec (onProcess g m (setState STARTING)) ;;
      try_catch
        (spawn g m ;;
         sleep ;;
         passed <-
           (if negb (String.eqb (checkEndpoint (p_config p)) "none")
            then
              (if validURL (checkEndpoint (p_config p)) (proxy (p_config p))
               then ret tt else throw "Invalid URL") ;;
              checkStartTime <- read now ;;
              healthLoop g m checkStartTime (p_healthCheckTimeout p * 1000)
            else ret Passed) ;;
         match passed with
         | StateChanged => ret false
         | Expired => throw "Health check timed out"
         | Passed =>
             (if unloadAfter (p_config p) >? 0
              then exec (startTTLCheck g m) else ret tt) ;;
             exec (onProcess g m (setState READY)) ;;
             exec (updProcess g m (set_failedStartCount 0)) ;;
             ret true
         end)
        (fun _ =>
           exec (onProcess g m (setState STOPPED)) ;;
           ret false)
  end.

(** ** [ProcessGroup] *)

Definition thisGroup (g : string) : Async ProcessGroup :=
  orThrow "Cannot read properties of undefined"
          (fun w => lookup g (processGroups w)).

Definition hasMember (grp : ProcessGroup) (modelName : string) : bool :=
  includes modelName (g_members grp).

(** [processes.map(process => process.stop(strategy))]: every call runs up
    to its first [await]; the result lists the members whose [stop] goes on. *)
Fixpoint stopBeginAll (g : string) (ms : list string) (w : World) : list string * World :=
  match ms with
  | [] => ([], w)
  | m :: ms' =>
      let '(go, w1) := stopBeginAt g m w in
      let '(pending, w2) := stopBeginAll g ms' w1 in
      (if go then m :: pending else pending, w2)
  end.

(** The suspended [stop(WAIT_FOR_INFLIGHT)] calls wake up in order: a call
    whose process has nothing in flight runs the stop command and ends,
    the others go back to sleep. *)
Fixpoint pollInFlight (g : string) (pending : list string) (w : World) : list string * World :=
  match pending with
  | [] => ([], w)
  | m :: rest =>
      if inFlight_positive g m w
      then let '(pending', w') := pollInFlight g rest w in (m :: pending', w')
      else pollInFlight g rest (stopCommandAt g m w)
  end.

Fixpoint awaitAllStopped (g : string) (pending : list string) (w : World)
  (s : list Tick) {struct s} : Outcome unit * World * list Tick :=
  let '(pending', w') := pollInFlight g pending w in
  match pending' with
  | [] => (Returned tt, w', s)
  | _ :: _ =>
      match s with
      | [] => (OutOfFuel, w', [])
      | t :: s' => awaitAllStopped g pending' (apply_tick t w') s'
      end
  end.

Definition stopCommandAll (g : string) (pending : list string) (w : World) : World :=
  fold_left (fun w m => stopCommandAt g m w) pending w.

(** [ProcessGroup.stopProcesses] *)
Definition stopProcesses (g : string) (strategy : StopStrategy) : Async unit :=
  grp <- thisGroup g ;;
  fun w s =>
    let '(pending, w1) := stopBeginAll g (map fst (g_processes grp)) w in
    match strategy with
    | IMMEDIATELY => (Returned tt, stopCommandAll g pending w1, s)
    | WAIT_FOR_INFLIGHT => awaitAllStopped g pending w1 s
    end.

(** [ProcessGroup.stopProcess] *)
Definition stopProcess (g modelID : string) (strategy : StopStrategy) : Async unit :=
  grp <- thisGroup g ;;
  if negb (has_key modelID (g_processes grp)) then throw "process not found"
  else
    (if String.eqb (g_lastUsedProcess grp) modelID
     then exec (updGroup g (set_lastUsedProcess "")) else ret tt) ;;
    stop g modelID strategy.

(** The body of the [map] callback of [ProcessGroup.shutdown] on every
    member: [stop(IMMEDIATELY)] up to its first [await], then
    [setState(SHUTDOWN)]. *)
Fixpoint shutdownBegin (g : string) (ms : list string) (w : World) : list string * World :=
  match ms with
  | [] => ([], w)
  | m :: ms' =>
      let '(go, w1) := stopBeginAt g m w in
      let w2 := onProcess g m (setState SHUTDOWN) w1 in
      let '(pending, w3) := shutdownBegin g ms' w2 in
      (if go then m :: pending else pending, w3)
  end.

(** [ProcessGroup.shutdown]: the suspended [stop] calls run their stop
    command once the [map] is over. *)
Definition group_shutdown (g : string) : Async unit :=
  grp <- thisGroup g ;;
  fun w s =>
    let '(pending, w1) := shutdownBegin g (map fst (g_processes grp)) w in
    (Returned tt, stopCommandAll g pending w1, s).

(** [ProcessGroup.proxyRequest]; [Responded 501] is the placeholder answer. *)
Definition proxyRequest (g modelID : string) : Async unit :=
  grp <- thisGroup g ;;
  if negb (hasMember grp modelID) then throw "model not part of group"
  else
    (if g_swap grp && negb (String.eqb (g_lastUsedProcess grp) modelID)
     then
       (if negb (String.eqb (g_lastUsedProcess grp) "")
           && has_key (g_lastUsedProcess grp) (g_processes grp)
        then
          oldProcess <- this g (g_lastUsedProcess grp) ;;
          if state_eqb (p_state oldProcess) READY
          then stop g (g_lastUsedProcess grp) WAIT_FOR_INFLIGHT
          else ret tt
        else ret tt) ;;
       success <- start g modelID ;;
       if negb success then throw "Failed to start process"
       else exec (updGroup g (set_lastUsedProcess modelID))
     else ret tt) ;;
    _ <- this g modelID ;;
    now_ <- read now ;;
    exec (updProcess g modelID (addInFlightRequest now_)) ;;
    exec (emit [Responded 501]) ;;
    exec (updProcess g modelID removeInFlightRequest).

End WithURL.

(** ** [ProcessManager] *)

(** [ProcessManager.findGroupByModelName]: the first group, in the order
    of the [Map], that lists the model; the group is returned by
    reference, here the key under which the [Map] holds it. *)
Fixpoint findGroup (modelName : string) (gs : list (string * ProcessGroup))
  : option (string * ProcessGroup) :=
  match gs with
  | [] => None
  | (k, grp) :: gs' =>
      if hasMember grp modelName then Some (k, grp) else findGroup modelName gs'
  end.

Definition findGroupByModelName (modelName : string) (w : World)
  : option (string * ProcessGroup) :=
  findGroup modelName (processGroups w).

(** [config.aliases[name] || (config.models[name] ? name : null)], with
    [None] for a result that is not truthy. *)
Definition resolveModelName (requestedModel : string) (w : World) : option string :=
  let realModelName :=
    match lookup requestedModel (config_aliases w) with
    | Some a =>
        if negb (String.eqb a "") then Some a
        else if includes requestedModel (config_models w) then Some requestedModel else None
    | None =>
        if includes requestedModel (config_models w) then Some requestedModel else None
    end in
  match realModelName with
  | Some r => if String.eqb r "" then None else Some r
  | None => None
  end.

(** [ProcessManager.realModelName] *)
Definition realModelName (search : string) (w : World) : option string :=
  if includes search (config_models w) then Some search
  else match lookup search (config_aliases w) with
       | Some a => if String.eqb a "" then None else Some a
       | None => None
       end.

Definition persistent_of (g : string) (w : World) : bool :=
  match lookup g (processGroups w) with
  | Some grp => g_persistent grp
  | None => false
  end.

(** The loop of the exclusive mode over the entries of [processGroups]. *)
Fixpoint stopOtherGroups (targetId : string) (gs : list (string * ProcessGroup))
  : Async unit :=
  match gs with
  | [] => ret tt
  | (groupId, otherGroup) :: gs' =>
      (if negb (String.eqb groupId targetId) && negb (g_persistent otherGroup)
       then
         stopProcesses groupId WAIT_FOR_INFLIGHT ;;
         exec (updGroup groupId (set_lastUsedProcess ""))
       else ret tt) ;;
      stopOtherGroups targetId gs'
  end.

(** [ProcessManager.swapProcessGroup]; the result is the target group (by
    reference) and the real model name. *)
Definition swapProcessGroup (requestedModel : string) : Async (string * string) :=
  realModelName <-
    orThrow "Could not find real modelID" (resolveModelName requestedModel) ;;
  found <-
    orThrow "Could not find process group for model"
            (findGroupByModelName realModelName) ;;
  let '(target, processGroup) := found in
  (* Cross-group swapping *)
  last <- read lastActiveGroup ;;
  match last with
  | Some last =>
      lastPersistent <- read (persistent_of last) ;;
      if negb (String.eqb last target)
         && negb lastPersistent
         && negb (g_persistent processGroup)
      then
        stopProcesses last WAIT_FOR_INFLIGHT ;;
        exec (updGroup last (set_lastUsedProcess ""))
      else ret tt
  | None => ret tt
  end ;;
  (* Exclusive mode *)
  (if g_exclusive processGroup
   then gs <- read processGroups ;; stopOtherGroups (g_id processGroup) gs
   else ret tt) ;;
  (* Within-group swapping *)
  grp <- thisGroup target ;;
  (if g_swap grp && negb (String.eqb (g_lastUsedProcess grp) realModelName)
   then
     if negb (String.eqb (g_lastUsedProcess grp) "")
        && has_key (g_lastUsedProcess grp) (g_processes grp)
     then
       oldProcess <- this target (g_lastUsedProcess grp) ;;
       if state_eqb (p_state oldProcess) READY
       then
         stop target (g_lastUsedProcess grp) WAIT_FOR_INFLIGHT ;;
         wait_while (state_is target (g_lastUsedProcess grp) STOPPING)
       else ret tt
     else ret tt
   else ret tt) ;;
  exec (set_lastActiveGroup (Some target)) ;;
  exec (updGroup target (set_lastUsedProcess realModelName)) ;;
  ret (target, realModelName).

(** The synchronous part of every [group.shutdown()] of [shutdownAll]. *)
Fixpoint shutdownBeginAll (gs : list (string * ProcessGroup)) (w : World)
  : list (string * string) * World :=
  match gs with
  | [] => ([], w)
  | (g, grp) :: gs' =>
      let '(pending, w1) := shutdownBegin g (map fst (g_processes grp)) w in
      let '(pending', w2) := shutdownBeginAll gs' w1 in
      ((map (fun m => (g, m)) pending ++ pending')%list, w2)
  end.

(** [ProcessManager.shutdownAll] *)
Definition shutdownAll : Async unit :=
  exec (set_shutdown true) ;;
  fun w s =>
    let '(pending, w1) := shutdownBeginAll (processGroups w) w in
    (Returned tt,
     fold_left (fun w a => stopCommandAt (fst a) (snd a) w) pending w1, s).

(** ** Vocabulary of the specifications *)

(** The world and the rest of the schedule after a call. *)
Definition world_after {A} (r : Outcome A * World * list Tick) : World := snd (fst r).
Definition outcome_of {A} (r : Outcome A * World * list Tick) : Outcome A := fst (fst r).
Definition schedule_after {A} (r : Outcome A * World * list Tick) : list Tick := snd r.

(** Ticks in which only this program acts: no step of an unknown task. *)
Definition own_action (a : EnvAction) : Prop :=
  match a with OtherTask _ => False | _ => True end.

Definition own_tick (t : Tick) : Prop := Forall own_action (events t).

(** Ticks in which requests begin and end and nothing else happens. *)
Definition quiet_action (a : EnvAction) : Prop :=
  match a with RequestBegin _ _ | RequestEnd _ _ => True | _ => False end.

Definition quiet_tick (t : Tick) : Prop := Forall quiet_action (events t).

(** An asynchronous method keeps an invariant of the program state, at its
    end and wherever it is left suspended, provided the ticks do. *)
Definition preserves (Inv : World -> Prop) (okTick : Tick -> Prop) {A}
  (c : Async A) : Prop :=
  forall w s, Forall okTick s -> Inv w ->
    Inv (world_after (c w s)) /\ Forall okTick (schedule_after (c w s)).

(** Every in-flight counter is at least 0. *)
Definition inflight_nonneg (w : World) : Prop :=
  forall g m p, getProcess g m w = Some p -> 0 <= p_inFlightRequests p.

(** The calls the rest of the program makes, and what happens between them. *)
Inductive Op :=
| OpStart (g m : string)
| OpStop (g m : string) (strategy : StopStrategy)
| OpStopProcess (g m : string) (strategy : StopStrategy)
| OpStopProcesses (g : string) (strategy : StopStrategy)
| OpGroupShutdown (g : string)
| OpProxyRequest (g m : string)
| OpSwap (requestedModel : string)
| OpShutdownAll
| OpEnv (t : Tick).

(** The state in which a call leaves the program, with the schedule of
    its suspensions; a call whose schedule ends early is left suspended. *)
Definition run_op (validURL : string -> string -> bool) (op : Op) (s : list Tick)
  (w : World) : World :=
  match op with
  | OpStart g m => world_after (start validURL g m w s)
  | OpStop g m strategy => world_after (stop g m strategy w s)
  | OpStopProcess g m strategy => world_after (stopProcess g m strategy w s)
  | OpStopProcesses g strategy => world_after (stopProcesses g strategy w s)
  | OpGroupShutdown g => world_after (group_shutdown g w s)
  | OpProxyRequest g m => world_after (proxyRequest validURL g m w s)
  | OpSwap name => world_after (swapProcessGroup name w s)
  | OpShutdownAll => world_after (shutdownAll w s)
  | OpEnv t => apply_tick t w
  end.

Fixpoint run_ops (validURL : string -> string -> bool) (l : list (Op * list Tick))
  (w : World) : World :=
  match l with
  | [] => w
  | (op, s) :: l' => run_ops validURL l' (run_op validURL op s w)
  end.

Definition own_op (c : Op * list Tick) : Prop :=
  Forall own_tick (snd c) /\
  match fst c with OpEnv t => own_tick t | _ => True end.

Definition inFlightOf (g m : string) (w : World) : option Z :=
  option_map p_inFlightRequests (getProcess g m w).

(** The same as a test over the processes of every group. *)
Definition inflight_check (w : World) : bool :=
  forallb (fun ge =>
             forallb (fun pe => 0 <=? p_inFlightRequests (snd pe))
                     (g_processes (snd ge)))
          (processGroups w).

Definition has_process (g m : string) (w : World) : Prop :=
  exists p, getProcess g m w = Some p.

(** The effects by which [start] shows: a child is spawned, a process
    enters STARTING or READY. *)
Definition start_effect (e : Effect) : Prop :=
  match e with
  | Spawned _ _ _ _ => True
  | StateChange _ _ STARTING => True
  | StateChange _ _ READY => True
  | _ => False
  end.

(** Since the trace was [t0], nothing was started. *)
Definition no_start_since (t0 : list Effect) (w : World) : Prop :=
  exists es, trace w = (t0 ++ es)%list /\ Forall (fun e => ~ start_effect e) es.

(** The groups of the manager are those with the keys [K]. *)
Definition same_groups (K : list string) (w : World) : Prop :=
  map fst (processGroups w) = K.

Definition lastUsedOf (g : string) (w : World) : option string :=
  option_map g_lastUsedProcess (lookup g (processGroups w)).

(** [lastActiveGroup] refers to a group of the manager. *)
Definition lastActiveGroup_valid (w : World) : Prop :=
  match lastActiveGroup w with
  | Some last => In last (map fst (processGroups w))
  | None => True
  end.

(** Nothing to wait for in a swap towards the group [target]: no request
    is in flight and no member of the target group is READY. *)
Definition calm (target : string) (w : World) : Prop :=
  (forall g m p, getProcess g m w = Some p -> p_inFlightRequests p <= 0) /\
  (forall m p, getProcess target m w = Some p -> p_state p <> READY).

(** A call that cannot throw: from a state with [P] (and the invariant
    [Inv]) it either returns with [Post], or it is still suspended when
    the schedule ends.  From a state that is [Calm] it returns without
    having been suspended, in a state that is [Calm] again. *)
Definition safe (Inv Calm : World -> Prop) {A} (P : World -> Prop)
  (c : Async A) (Post : A -> World -> Prop) : Prop :=
  forall w s, Forall own_tick s -> Inv w -> P w ->
    match c w s with
    | (Returned a, w', s') =>
        Inv w' /\ Post a w' /\ Forall own_tick s' /\ (Calm w -> s' = s /\ Calm w')
    | (Threw _, _, _) => False
    | (OutOfFuel, _, s') => s' = [] /\ ~ Calm w
    end.

(** The same as a test over the processes of every group. *)
Definition calm_check (target : string) (w : World) : bool :=
  forallb (fun ge =>
             forallb (fun pe => p_inFlightRequests (snd pe) <=? 0)
                     (g_processes (snd ge)))
          (processGroups w)
  && match lookup target (processGroups w) with
     | Some grp =>
         forallb (fun pe => negb (state_eqb (p_state (snd pe)) READY))
                 (g_processes grp)
     | None => true
     end.

(** A call does not look at the [shutdown] flag of the manager: with the
    flag set to [b] beforehand it does what it does otherwise, and leaves
    the flag as it was set. *)
Definition with_shutdown {A} (b : bool) (r : Outcome A * World * list Tick)
  : Outcome A * World * list Tick :=
  (outcome_of r, set_shutdown b (world_after r), schedule_after r).

Definition flag_blind {A} (c : Async A) : Prop :=
  forall b w s, Forall own_tick s ->
    c (set_shutdown b w) s = with_shutdown b (c w s) /\
    Forall own_tick (schedule_after (c w s)).

(** Hoare triples for asynchronous methods under ticks that satisfy
    [okTick]: from a state with [P], the method returns in a state with
    [Q], throws in a state with [E], or is left suspended in a state with
    [F]. *)
Definition hoare (okTick : Tick -> Prop) {A} (P : World -> Prop) (c : Async A)
  (Q : A -> World -> Prop) (E F : World -> Prop) : Prop :=
  forall w s, Forall okTick s -> P w ->
    match c w s with
    | (Returned a, w', s') => Q a w' /\ Forall okTick s'
    | (Threw _, w', s') => E w' /\ Forall okTick s'
    | (OutOfFuel, w', _) => F w'
    end.









(** What an invariant has to survive for the stopping side of the program
    (the environment, [stop], the group and manager methods) to keep it. *)
Record stop_prims (Inv : World -> Prop) : Prop := {
  sp_state : forall g m st w,
    st = STOPPING \/ st = STOPPED \/ st = SHUTDOWN ->
    Inv w -> Inv (onProcess g m (setState st) w);
  sp_stopCommand : forall g m w, Inv w -> Inv (stopCommandAt g m w);
  sp_lastUsed : forall g x w, Inv w -> Inv (updGroup g (set_lastUsedProcess x) w);
  sp_lastActive : forall x w, Inv w -> Inv (set_lastActiveGroup x w);
  sp_shutdown : forall b w, Inv w -> Inv (set_shutdown b w);
  sp_now : forall t w, Inv w -> Inv (set_now t w);
  sp_children : forall c w, Inv w -> Inv (set_children c w);
  sp_timers : forall t w, Inv w -> Inv (set_ttlTimers t w);
  sp_add : forall g m t w, Inv w -> Inv (updProcess g m (addInFlightRequest t) w);
  sp_remove : forall g m w, Inv w -> Inv (updProcess g m removeInFlightRequest w)
}.

(** The same for the starting side ([start] and [proxyRequest]). *)
Record start_prims (Inv : World -> Prop) : Prop := {
  tp_state : forall g m st w,
    st = STARTING \/ st = READY ->
    Inv w -> Inv (onProcess g m (setState st) w);
  tp_spawn : forall g m id exe args w, Inv w -> Inv (spawnChild g m id exe args w);
  tp_ttl : forall g m w, Inv w -> Inv (startTTLCheck g m w);
  tp_failed : forall g m w, Inv w -> Inv (updProcess g m (set_failedStartCount 0) w);
  tp_respond : forall w, Inv w -> Inv (emit [Responded 501] w)
}.

(** ** A small installation used in the examples

    Group [G1] swaps between the models [A] and [B] and is exclusive; the
    persistent group [GP] holds [D]; [a] is an alias of [A]. *)

Definition ex_config (c : string) : ModelConfig :=
  mkModelConfig c None "http://localhost:5800" "/health" [] 0.

Definition ex_process (id : string) (st : ProcessState) (child : option nat) : Process :=
  mkProcess id (ex_config "llama-server --port 5800") child 15 st 0 0 0.

Definition ex_G1 (a b : Process) (lastUsed : string) : ProcessGroup :=
  mkProcessGroup "G1" true true false ["A"; "B"] [("A", a); ("B", b)] lastUsed.

Definition ex_GP (d : Process) : ProcessGroup :=
  mkProcessGroup "GP" false false true ["D"] [("D", d)] "".

Definition ex_world (a b d : Process) (lastUsed : string)
  (kids : list (nat * (string * string))) : World :=
  mkWorld ["A"; "B"; "D"] [("a", "A")]
          [("G1", ex_G1 a b lastUsed); ("GP", ex_GP d)]
          false None 0 100 kids [] [].

(** Everything stopped, as after construction. *)
Definition ex_cold : World :=
  ex_world (ex_process "A" STOPPED None) (ex_process "B" STOPPED None)
           (ex_process "D" STOPPED None) "" [].

(** [A] is serving, its child has pid 7. *)
Definition ex_warm : World :=
  ex_world (ex_process "A" READY (Some 7%nat)) (ex_process "B" STOPPED None)
           (ex_process "D" STOPPED None) "A" [(7%nat, ("G1", "A"))].

(** [A] is being started by some caller, its child has pid 7. *)
Definition ex_starting : World :=
  ex_world (ex_process "A" STARTING (Some 7%nat)) (ex_process "B" STOPPED None)
           (ex_process "D" STOPPED None) "" [(7%nat, ("G1", "A"))].

(** After a shutdown of a cold installation. *)
Definition ex_down : World :=
  ex_world (ex_process "A" SHUTDOWN None) (ex_process "B" SHUTDOWN None)
           (ex_process "D" SHUTDOWN None) "" [].

(** 100 ms during which nothing happens. *)
Definition tick_idle : Tick := mkTick 100 [] None.

(** 100 ms during which the call that is starting [A] ends with success. *)
Definition tick_ready : Tick :=
  mkTick 100 [OtherTask (onProcess "G1" "A" (setState READY))] None.

(** 100 ms during which the child with the given pid exits. *)
Definition tick_exit (pid : nat) : Tick := mkTick 100 [ChildExit pid] None.

(** [A] is serving one request. *)
Definition ex_busy : World :=
  ex_world (set_inFlightRequests 1 (ex_process "A" READY (Some 7%nat)))
           (ex_process "B" STOPPED None) (ex_process "D" STOPPED None) "A"
           [(7%nat, ("G1", "A"))].

(** A start of [A] from the cold installation that succeeds at the first
    probe; the child gets pid 100. *)
Definition ex_start_A : Op * list Tick :=
  (OpStart "G1" "A", [mkTick 250 [] None; mkTick 20 [] (Some 200)]).


(** Scenario S5 of the specification: the command never serves the health
    endpoint, the deadline is 15 s. *)
Definition ex_S5 : World :=
  mkWorld ["S"] []
          [("G", mkProcessGroup "G" true true false ["S"]
                   [("S", mkProcess "S"
                            (mkModelConfig "/bin/sleep 999" None
                               "http://localhost:5800" "/health" [] 0)
                            None 15 STOPPED 0 0 0)] "")]
          false None 0 100 [] [] [].

(** The 250 ms delay, then three probes that are refused at once, each
    followed by the 5 s pause. *)
Definition ex_S5_schedule : list Tick :=
  [mkTick 250 [] None;
   mkTick 5 [] None; mkTick 5000 [] None;
   mkTick 5 [] None; mkTick 5000 [] None;
   mkTick 5 [] None; mkTick 5000 [] None].

(** Nothing was killed and no stop command was run since the trace was [t0]. *)
Definition no_kill_since (t0 : list Effect) (w : World) : Prop :=
  exists es, trace w = (t0 ++ es)%list /\
             Forall (fun e => match e with
                              | Killed _ | Executed _ => False
                              | _ => True
                              end) es.

(** A URL parser that accepts everything. *)
Definition any_url (_ _ : string) : bool := true.

(** ** The environment of the child *)

(** [const [key, ...valueParts] = envString.split('=')] with
    [valueParts.join('=')]: the text before the first [=] and the text
    after it. *)
Fixpoint splitEnv (envString : string) : string * string :=
  match envString with
  | EmptyString => (EmptyString, EmptyString)
  | String c rest =>
      if Ascii.eqb c "="%char then (EmptyString, rest)
      else let '(key, value) := splitEnv rest in (String c key, value)
  end.

(** [Process.parseEnv]: the assignments in order.  An assignment of a
    string to [__proto__] does not create a property. *)
Definition parseEnv (envArray : list string) : list (string * string) :=
  fold_left (fun envObj envString =>
               let '(key, value) := splitEnv envString in
               if String.eqb key "__proto__" then envObj
               else map_set key value envObj)
            envArray [].

(** ** Vocabulary of the further properties *)

(** No character of the string is white space. *)
Fixpoint no_space (s : string) : bool :=
  match s with
  | EmptyString => true
  | String c s' => negb (is_space c) && no_space s'
  end.

(** A word: not empty and without white space. *)
Definition is_word (s : string) : bool := negb (String.eqb s "") && no_space s.

(** [words.join(' ')] *)
Fixpoint joinWords (l : list string) : string :=
  match l with
  | [] => ""
  | [x] => x
  | x :: l' => x ++ " " ++ joinWords l'
  end.

(** No [=] in the string. *)
Fixpoint no_equals (s : string) : bool :=
  match s with
  | EmptyString => true
  | String c s' => negb (Ascii.eqb c "="%char) && no_equals s'
  end.

(** [String.prototype.includes] *)
Fixpoint occurs (pat s : string) : bool :=
  String.prefix pat s ||
  match s with
  | EmptyString => false
  | String _ s' => occurs pat s'
  end.

(** The process is not running: neither READY nor STARTING. *)
Definition not_running (g m : string) (w : World) : Prop :=
  forall p, getProcess g m w = Some p -> p_state p <> READY /\ p_state p <> STARTING.

(** No process of the group is running. *)
Definition group_stopped (g : string) (w : World) : Prop :=
  forall m, not_running g m w.

(** The process at the address has the child and the configuration of [p]. *)
Definition same_child (p : Process) (g m : string) (w : World) : Prop :=
  exists q, getProcess g m w = Some q /\
            p_process q = p_process p /\ p_config q = p_config p.

(** The trace continues [t0]. *)
Definition trace_since (t0 : list Effect) (w : World) : Prop :=
  exists es, trace w = (t0 ++ es)%list.

(** Since the trace was [t0], the stop command of [p] has been run: the
    signal to its child, or its [cmdStop]. *)
Definition stop_issued (t0 : list Effect) (p : Process) (w : World) : Prop :=
  exists es, trace w = (t0 ++ es)%list /\ forall e, In e (stopCommand p) -> In e es.

(** The process keeps its child and the trace goes on. *)
Definition tracked (t0 : list Effect) (p : Process) (g m : string) (w : World) : Prop :=
  same_child p g m w /\ trace_since t0 w.

(** The process, if there is one, is in SHUTDOWN. *)
Definition in_shutdown (g m : string) (w : World) : Prop :=
  forall p, getProcess g m w = Some p -> p_state p = SHUTDOWN.

(** The group is there, with the flags of [grp]. *)
Definition same_flags (g : string) (grp : ProcessGroup) (w : World) : Prop :=
  exists grp', lookup g (processGroups w) = Some grp' /\
               g_persistent grp' = g_persistent grp /\
               g_swap grp' = g_swap grp.

(** A swap towards the group [target] crosses from the group [g], which
    was the active one in [w0]. *)
Definition crossing (target : string) (tgrp : ProcessGroup) (w0 : World)
  (g : string) (grp : ProcessGroup) : Prop :=
  lastActiveGroup w0 = Some g /\ g <> target /\
  g_persistent grp = false /\ g_persistent tgrp = false.

(** The target group is exclusive and [g] is another group that is not
    persistent. *)
Definition excluding (tgrp : ProcessGroup) (g : string) (grp : ProcessGroup) : Prop :=
  g_exclusive tgrp = true /\ g <> g_id tgrp /\ g_persistent grp = false.

(** ** Two groups that exclude each other

    [G1] holds [A], which is serving with the child 7, and [G2] holds [C];
    [G1] is the active group. *)
Definition ex_two_groups : World :=
  mkWorld ["A"; "C"] []
          [("G1", mkProcessGroup "G1" true true false ["A"]
                    [("A", ex_process "A" READY (Some 7%nat))] "A");
           ("G2", mkProcessGroup "G2" true true false ["C"]
                    [("C", ex_process "C" STOPPED None)] "")]
          false (Some "G1") 0 100 [(7%nat, ("G1", "A"))] [] [].

(** A process with a stop command that mentions the pid twice. *)
Definition ex_process_cmdStop : Process :=
  mkProcess "A"
    (mkModelConfig "llama-server --port 5800" (Some "kill ${PID}; wait ${PID}")
                   "http://localhost:5800" "/health" [] 0)
    (Some 42%nat) 15 READY 0 0 0.

(** ** Vocabulary of the properties of a manager that serves requests *)

(** What an invariant has to survive for the environment, [stop] and
    [stopProcesses] to keep it: the steps of [stop_prims] that leave the
    fields of the groups and of the manager alone. *)
Record frame_prims (Inv : World -> Prop) : Prop := {
  fp_state : forall g m st w,
    st = STOPPING \/ st = STOPPED \/ st = SHUTDOWN ->
    Inv w -> Inv (onProcess g m (setState st) w);
  fp_stopCommand : forall g m w, Inv w -> Inv (stopCommandAt g m w);
  fp_now : forall t w, Inv w -> Inv (set_now t w);
  fp_children : forall c w, Inv w -> Inv (set_children c w);
  fp_timers : forall t w, Inv w -> Inv (set_ttlTimers t w);
  fp_add : forall g m t w, Inv w -> Inv (updProcess g m (addInFlightRequest t) w);
  fp_remove : forall g m w, Inv w -> Inv (updProcess g m removeInFlightRequest w)
}.

(** A field of every group, under the key of the group. *)
Definition groupView {X} (h : ProcessGroup -> X) (w : World) : list (string * X) :=
  map (fun ge => (fst ge, h (snd ge))) (processGroups w).

(** A property of the state of every process. *)
Definition state_inv (phi : string -> string -> option ProcessState -> Prop)
  (w : World) : Prop :=
  forall g m, phi g m (stateOf g m w).

(** Every group is held under its own id. *)
Definition well_keyed (w : World) : Prop :=
  forall g grp, In (g, grp) (processGroups w) -> g_id grp = g.

(** No process is STARTING. *)
Definition none_starting (w : World) : Prop :=
  forall g m, stateOf g m w <> Some STARTING.

(** In a group that swaps, a READY process is the last used one, and its
    id is not the empty string, which [lastUsedProcess] holds when no
    process of the group has been used. *)
Definition ready_is_lastUsed (w : World) : Prop :=
  forall g grp m,
    lookup g (processGroups w) = Some grp -> g_swap grp = true ->
    stateOf g m w = Some READY -> g_lastUsedProcess grp = m /\ m <> "".

(** The state of the manager between two requests. *)
Definition serving (w : World) : Prop :=
  well_keyed w /\ none_starting w /\ ready_is_lastUsed w.

(** The same as a test over the groups and their processes. *)
Definition serving_check (w : World) : bool :=
  forallb (fun ge =>
             String.eqb (g_id (snd ge)) (fst ge) &&
             forallb (fun pe =>
                        negb (state_eqb (p_state (snd pe)) STARTING) &&
                        (negb (g_swap (snd ge))
                         || negb (state_eqb (p_state (snd pe)) READY)
                         || String.eqb (g_lastUsedProcess (snd ge)) (fst pe)
                            && negb (String.eqb (fst pe) "")))
                     (g_processes (snd ge)))
          (processGroups w).

(** The id and the [swap] flag of a group. *)
Definition shapeOf (grp : ProcessGroup) : string * bool := (g_id grp, g_swap grp).

(** Since [w0] the groups have kept their ids and [swap] flags, no process
    has become READY and none is STARTING. *)
Definition settled (w0 w : World) : Prop :=
  groupView shapeOf w = groupView shapeOf w0 /\
  state_inv (fun g m st =>
               st <> Some STARTING /\
               (st = Some READY -> stateOf g m w0 = Some READY)) w.

(** During a swap towards the group [target]: in every group the last
    used process is the one of [w0], or the group is another one than
    [target] and is stopped. *)
Definition lastUsed_or_stopped (target : string) (w0 : World) (g : string)
  (w : World) : Prop :=
  lastUsedOf g w = lastUsedOf g w0 \/ (g <> target /\ group_stopped g w).

Definition swapping (target : string) (w0 w : World) : Prop :=
  settled w0 w /\ forall g, lastUsed_or_stopped target w0 g w.

End ProcessManager.

(** * The configuration loader *)

Module ConfigLoader.

(** ** JavaScript values and strings

    A string of the model has one character per UTF-16 code unit of the
    JavaScript string; the model covers the strings whose code units are
    below 256.  An object is the list of its own properties in the order
    of their creation, which for a parsed document is the order of the
    document. *)

(** The values a macro or a substituted field can hold.  A number is kept
    as its decimal rendering, [String(value)], with its truth value;
    [VObject] stands for every value that is not a scalar ([null], arrays,
    objects). *)
Inductive Value :=
| VString (s : string)
| VNumber (rendering : string) (truthy : bool)
| VBoolean (b : bool)
| VUndefined
| VObject.

(** [String(value)] *)
Definition toString (v : Value) : string :=
  match v with
  | VString s => s
  | VNumber r _ => r
  | VBoolean true => "true"
  | VBoolean false => "false"
  | VUndefined => "undefined"
  | VObject => "[object Object]"
  end.

(** The truth value of a scalar in a condition. *)
Definition truthy_value (v : Value) : bool :=
  match v with
  | VString s => negb (String.eqb s "")
  | VNumber _ t => t
  | VBoolean b => b
  | VUndefined => false
  | VObject => true
  end.

(** [String(n)] for an integer. *)
Definition renderZ (z : Z) : string := NilZero.string_of_int (Z.to_int z).

(** The properties every plain object inherits from [Object.prototype]:
    reading one of them from an object that does not define it gives a
    value that is truthy. *)
Definition inherited (k : string) : bool :=
  includes k ["constructor"; "hasOwnProperty"; "isPrototypeOf";
              "propertyIsEnumerable"; "toLocaleString"; "toString"; "valueOf";
              "__defineGetter__"; "__defineSetter__"; "__lookupGetter__";
              "__lookupSetter__"; "__proto__"].

(** White space of [trim], below 256. *)
Definition is_white (c : ascii) : bool :=
  let n := nat_of_ascii c in
  (Nat.leb 9 n && Nat.leb n 13) || Nat.eqb n 32 || Nat.eqb n 160.

Fixpoint trimStart (s : string) : string :=
  match s with
  | EmptyString => EmptyString
  | String c s' => if is_white c then trimStart s' else s
  end.

Fixpoint trimEnd (s : string) : string :=
  match s with
  | EmptyString => EmptyString
  | String c s' =>
      let r := trimEnd s' in
      if is_white c && String.eqb r "" then EmptyString else String c r
  end.

(** [String.prototype.trim] *)
Definition trim (s : string) : string := trimEnd (trimStart s).

(** [String.prototype.startsWith] *)
Definition startsWith (s pre : string) : bool := String.prefix pre s.

(** [String.prototype.includes] *)
Fixpoint includesStr (s needle : string) : bool :=
  String.prefix needle s ||
  match s with
  | EmptyString => false
  | String _ s' => includesStr s' needle
  end.

Definition newline : ascii := ascii_of_nat 10.

(** [s.split('\n')] *)
Fixpoint splitLines (s : string) : list string :=
  match s with
  | EmptyString => [EmptyString]
  | String c s' =>
      if Ascii.eqb c newline then EmptyString :: splitLines s'
      else match splitLines s' with
           | l :: ls => String c l :: ls
           | [] => [String c EmptyString]
           end
  end.

(** [lines.join('\n')] *)
Fixpoint joinLines (l : list string) : string :=
  match l with
  | [] => EmptyString
  | x :: l' =>
      match l' with
      | [] => x
      | _ :: _ => x ++ String newline (joinLines l')
      end
  end.

Fixpoint drop (n : nat) (s : string) : string :=
  match n, s with
  | O, _ => s
  | S n', String _ s' => drop n' s'
  | S _, EmptyString => EmptyString
  end.

(** The replacement template of [String.prototype.replace], for a pattern
    without capture groups: [$$] is a dollar sign, [$&] the match, [$`]
    the text before the match and [$'] the text after it. *)
Fixpoint getSubstitution (matched before after template : string) : string :=
  match template with
  | EmptyString => EmptyString
  | String c rest =>
      if Ascii.eqb c "$"%char then
        match rest with
        | String d rest' =>
            if Ascii.eqb d "$"%char
            then String "$"%char (getSubstitution matched before after rest')
            else if Ascii.eqb d "&"%char
            then matched ++ getSubstitution matched before after rest'
            else if Ascii.eqb d "`"%char
            then before ++ getSubstitution matched before after rest'
            else if Ascii.eqb d "'"%char
            then after ++ getSubstitution matched before after rest'
            else String c (getSubstitution matched before after rest)
        | EmptyString => String c EmptyString
        end
      else String c (getSubstitution matched before after rest)
  end.

(** [value.replace(new RegExp(escaped, 'g'), template)] for the literal,
    non-empty pattern [pat]: every occurrence, from left to right, without
    overlap.  [skip] counts the characters of the current match that are
    still to be passed, [before] is the text already passed. *)
Fixpoint replaceAllFrom (pat template : string) (skip : nat)
  (before rest : string) : string :=
  match rest with
  | EmptyString => EmptyString
  | String c rest' =>
      match skip with
      | S k =>
          replaceAllFrom pat template k (before ++ String c EmptyString) rest'
      | O =>
          if String.prefix pat rest
          then getSubstitution pat before (drop (String.length pat) rest) template
               ++ replaceAllFrom pat template (String.length pat - 1)
                                 (before ++ String c EmptyString) rest'
          else String c (replaceAllFrom pat template 0
                                        (before ++ String c EmptyString) rest')
      end
  end.

Definition replaceAll (pat template s : string) : string :=
  replaceAllFrom pat template 0 EmptyString s.

(** The characters of a macro name, [[a-zA-Z0-9_-]]. *)
Definition is_name_char (c : ascii) : bool :=
  let n := nat_of_ascii c in
  (Nat.leb 97 n && Nat.leb n 122) || (Nat.leb 65 n && Nat.leb n 90)
  || (Nat.leb 48 n && Nat.leb n 57) || Nat.eqb n 95 || Nat.eqb n 45.

Fixpoint all_name_chars (s : string) : bool :=
  match s with
  | EmptyString => true
  | String c s' => is_name_char c && all_name_chars s'
  end.

(** [macroNameRegex.test(name)] *)
Definition macroNameRegex_test (name : string) : bool :=
  negb (String.eqb name "") && all_name_chars name.

(** The longest run of name characters at the head of a string, and the rest. *)
Fixpoint takeName (s : string) : string * string :=
  match s with
  | EmptyString => (EmptyString, EmptyString)
  | String c s' =>
      if is_name_char c
      then let '(n, r) := takeName s' in (String c n, r)
      else (EmptyString, s)
  end.

(** A match of [macroPatternRegex] at the head of a string: its name. *)
Definition macroAt (s : string) : option string :=
  if String.prefix "${" s then
    let '(name, rest) := takeName (drop 2 s) in
    if negb (String.eqb name "") && String.prefix "}" rest then Some name else None
  else None.

Fixpoint macroMatchesFrom (skip : nat) (s : string) : list string :=
  match s with
  | EmptyString => []
  | String _ s' =>
      match skip with
      | S k => macroMatchesFrom k s'
      | O =>
          match macroAt s with
          | Some name => name :: macroMatchesFrom (String.length name + 2) s'
          | None => macroMatchesFrom 0 s'
          end
      end
  end.

(** [value.match(macroPatternRegex)]: the names of the macros that occur. *)
Definition macroMatches (s : string) : list string := macroMatchesFrom 0 s.

(** [Array.prototype.sort] without a comparator, on strings. *)
Fixpoint insertSorted (x : string) (l : list string) : list string :=
  match l with
  | [] => [x]
  | y :: l' => if String.leb x y then x :: l else y :: insertSorted x l'
  end.

Fixpoint sortStrings (l : list string) : list string :=
  match l with
  | [] => []
  | x :: l' => insertSorted x (sortStrings l')
  end.

(** *** The order of the keys of an object

    JavaScript enumerates the keys that are array indices first, in
    increasing order, and the other keys in the order of their creation. *)

Definition is_digit (c : ascii) : bool :=
  let n := nat_of_ascii c in Nat.leb 48 n && Nat.leb n 57.

Fixpoint all_digits (s : string) : bool :=
  match s with
  | EmptyString => true
  | String c s' => is_digit c && all_digits s'
  end.

Fixpoint digitsValue (acc : N) (s : string) : N :=
  match s with
  | EmptyString => acc
  | String c s' => digitsValue (acc * 10 + N.of_nat (nat_of_ascii c - 48)) s'
  end.

(** The array index a key denotes: a canonical numeric string below
    2^32 - 1. *)
Definition arrayIndex (k : string) : option N :=
  match k with
  | EmptyString => None
  | String c rest =>
      if all_digits k
         && (negb (Ascii.eqb c "0"%char) || String.eqb rest "")
         && Nat.leb (String.length k) 10
         && N.leb (digitsValue 0 k) 4294967294
      then Some (digitsValue 0 k) else None
  end.

Section Objects.
Context {A : Type}.

Fixpoint insertIndex (n : N) (e : string * A) (l : list (N * (string * A)))
  : list (N * (string * A)) :=
  match l with
  | [] => [(n, e)]
  | (n', e') :: l' =>
      if N.leb n n' then (n, e) :: l else (n', e') :: insertIndex n e l'
  end.

Fixpoint indexKeys (l : list (string * A)) : list (N * (string * A)) :=
  match l with
  | [] => []
  | (k, v) :: l' =>
      match arrayIndex k with
      | Some n => insertIndex n (k, v) (indexKeys l')
      | None => indexKeys l'
      end
  end.

Definition otherKeys (l : list (string * A)) : list (string * A) :=
  filter (fun e => match arrayIndex (fst e) with Some _ => false | None => true end) l.

(** The properties in the order of [Object.keys]. *)
Definition enumerate (l : list (string * A)) : list (string * A) :=
  (map snd (indexKeys l) ++ otherKeys l)%list.

(** [{ ...a, ...b }] *)
Definition spread (a b : list (string * A)) : list (string * A) :=
  fold_left (fun acc e => map_set (fst e) (snd e) acc) (enumerate b) (enumerate a).

(** [obj[k]] is truthy, for an object whose own values are truthy when
    [ok] says so. *)
Definition truthyAt (ok : A -> bool) (k : string) (l : list (string * A)) : bool :=
  match lookup k l with
  | Some v => ok v
  | None => inherited k
  end.

End Objects.

(** ** The data of a configuration *)

(** A value of the [metadata] of a model. *)
#[local] Unset Elimination Schemes.
Inductive Json :=
| JString (s : string)
| JNumber (rendering : string) (truthy : bool)
| JBoolean (b : bool)
| JNull
| JArray (items : list Json)
| JObject (fields : list (string * Json)).
#[local] Set Elimination Schemes.

(** A model as the YAML document gives it; an absent property is [None]. *)
Record ModelYaml := mkModelYaml {
  y_cmd : string;
  y_cmdStop : option string;
  y_proxy : option string;
  y_checkEndpoint : option string;
  y_aliases : option (list string);
  y_env : option (list string);
  y_macros : option (list (string * Value));
  y_filters : option (option string);      (* filters, and filters.stripParams *)
  y_metadata : option Json
}.

Record GroupConfig := mkGroupConfig {
  swap : bool;
  exclusive : bool;
  persistent : bool;
  members : list string
}.

(** The YAML document: the top-level properties the loader reads. *)
Record YamlData := mkYamlData {
  yaml_healthCheckTimeout : option Z;
  yaml_startPort : option Z;
  yaml_macros : option (list (string * Value));
  yaml_models : option (list (string * ModelYaml));
  yaml_groups : option (list (string * GroupConfig));
  yaml_preload : option (list string)      (* hooks.on_startup.preload *)
}.

(** A model after [loadConfig]. *)
Record ModelConfig := mkModelConfig {
  cmd : Value;
  cmdStop : option Value;
  proxy : Value;
  checkEndpoint : Value;
  aliases : list string;
  env : list string;
  macros : list (string * Value);
  stripParams : Value;
  metadata : Json
}.

Record Config := mkConfig {
  healthCheckTimeout : Z;
  startPort : Z;
  config_macros : list (string * Value);
  models : list (string * ModelConfig);
  groups : list (string * GroupConfig);
  config_aliases : list (string * string);
  preload : list string
}.

Inductive Error :=
| StartPortTooSmall
| InvalidMacro (name : string)
| DuplicateAlias (alias : string)
| PortNotInCmd (modelId : string)
| UnsubstitutedMacro (modelId : string)
| MetadataMacro (modelId : string)
| InvalidProxyURL (modelId : string)
| DuplicateMember (member : string)
| MemberInSeveralGroups (member : string)
| TypeError.

Inductive Result (A : Type) :=
| Ok (a : A)
| Throw (e : Error).
Arguments Ok {A} a.
Arguments Throw {A} e.

Definition andThen {A B} (r : Result A) (k : A -> Result B) : Result B :=
  match r with
  | Ok a => k a
  | Throw e => Throw e
  end.

Notation "x <- r1 ;; r2" := (andThen r1 (fun x => r2))
  (at level 61, r1 at next level, right associativity).
Notation "r1 ;; r2" := (andThen r1 (fun _ => r2))
  (at level 61, right associativity).

Definition check (b : bool) (e : Error) : Result unit :=
  if b then Ok tt else Throw e.

Fixpoint forEach {A} (l : list A) (body : A -> Result unit) : Result unit :=
  match l with
  | [] => Ok tt
  | x :: l' => body x ;; forEach l' body
  end.

(** ** Macros *)

Definition macroSlug (name : string) : string := "${" ++ name ++ "}".

(** [validateMacro] *)
Definition validateMacro (name : string) (value : Value) : Result unit :=
  check (negb (Nat.leb 64 (String.length name))) (InvalidMacro name) ;;
  check (macroNameRegex_test name) (InvalidMacro name) ;;
  match value with
  | VString s =>
      check (negb (Nat.leb 1024 (String.length s))) (InvalidMacro name) ;;
      check (negb (includesStr s (macroSlug name))) (InvalidMacro name)
  | VNumber _ _ | VBoolean _ => Ok tt
  | VUndefined | VObject => Throw (InvalidMacro name)
  end ;;
  check (negb (includes name ["PORT"; "MODEL_ID"])) (InvalidMacro name).

(** [substituteMacroInValue] on a value that is not an array or an object. *)
Definition substituteMacroInValue (value : Value) (macroName : string)
  (macroValue : Value) : Value :=
  match value with
  | VString s =>
      if String.eqb s (macroSlug macroName) then macroValue
      else if includesStr s (macroSlug macroName)
      then VString (replaceAll (macroSlug macroName) (toString macroValue) s)
      else value
  | _ => value
  end.

Definition jsonOfValue (v : Value) : Json :=
  match v with
  | VString s => JString s
  | VNumber r t => JNumber r t
  | VBoolean b => JBoolean b
  | VUndefined | VObject => JNull
  end.

(** [substituteMacroInValue] on the values of the metadata. *)
Fixpoint substituteMacroInJson (value : Json) (macroName : string)
  (macroValue : Value) : Json :=
  match value with
  | JString s => jsonOfValue (substituteMacroInValue (VString s) macroName macroValue)
  | JArray items =>
      JArray (map (fun item => substituteMacroInJson item macroName macroValue) items)
  | JObject fields =>
      JObject (map (fun kv => (fst kv, substituteMacroInJson (snd kv) macroName macroValue))
                   fields)
  | scalar => scalar
  end.

(** [validateMetadataForUnknownMacros] throws: a macro is left in a string. *)
Fixpoint metadataHasMacro (value : Json) : bool :=
  match value with
  | JString s => match macroMatches s with [] => false | _ :: _ => true end
  | JArray items => existsb metadataHasMacro items
  | JObject fields => existsb (fun kv => metadataHasMacro (snd kv)) fields
  | _ => false
  end.

(** [metadata && Object.keys(metadata).length > 0] *)
Definition hasKeys (value : Json) : bool :=
  match value with
  | JString s => negb (String.eqb s "")
  | JArray items => match items with [] => false | _ :: _ => true end
  | JObject fields => match fields with [] => false | _ :: _ => true end
  | _ => false
  end.

(** [!metadata] *)
Definition falsyJson (value : Json) : bool :=
  match value with
  | JString s => String.eqb s ""
  | JNumber _ t => negb t
  | JBoolean b => negb b
  | JNull => true
  | JArray _ | JObject _ => false
  end.

(** [stripComments] *)
Definition stripComments (cmdStr : string) : string :=
  joinLines (filter (fun line => negb (startsWith (trim line) "#"))
                    (splitLines cmdStr)).

Definition orElse {A} (o : option A) (d : A) : A :=
  match o with Some a => a | None => d end.

(** [value || d] for an optional string. *)
Definition stringOr (o : option string) (d : string) : string :=
  match o with
  | Some s => if String.eqb s "" then d else s
  | None => d
  end.

(** The fields of a model the macros are substituted into. *)
Record Fields := mkFields {
  f_cmd : Value;
  f_cmdStop : option Value;
  f_proxy : Value;
  f_checkEndpoint : Value;
  f_stripParams : Value;
  f_metadata : Json
}.

(** The body of the loop over the macros of a model. *)
Definition substituteOne (f : Fields) (macro : string * Value) : Fields :=
  let '(macroName, macroValue) := macro in
  mkFields
    (substituteMacroInValue (f_cmd f) macroName macroValue)
    (match f_cmdStop f with
     | Some c =>
         if truthy_value c
         then Some (substituteMacroInValue c macroName macroValue)
         else Some c
     | None => None
     end)
    (substituteMacroInValue (f_proxy f) macroName macroValue)
    (substituteMacroInValue (f_checkEndpoint f) macroName macroValue)
    (substituteMacroInValue (f_stripParams f) macroName macroValue)
    (if hasKeys (f_metadata f)
     then substituteMacroInJson (f_metadata f) macroName macroValue
     else f_metadata f).

(** The check of one entry of [fieldMap]: a field that is not truthy is
    skipped, a truthy field that is not a string has no [match] method, and
    in a string only [${PID}] in [cmdStop] may be left. *)
Definition checkField (modelId : string) (isCmdStop : bool) (fieldValue : Value)
  : Result unit :=
  if negb (truthy_value fieldValue) then Ok tt
  else
    match fieldValue with
    | VString s =>
        forEach (macroMatches s)
                (fun macroName =>
                   if String.eqb macroName "PID" && isCmdStop then Ok tt
                   else Throw (UnsubstitutedMacro modelId))
    | _ => Throw TypeError
    end.

(** The command of a model as the loader sees it, and its proxy with the
    default. *)
Definition cmdOf (y : ModelYaml) : string := stripComments (y_cmd y).

Definition proxyOf (y : ModelYaml) : string :=
  stringOr (y_proxy y) "http://localhost:${PORT}".

Definition cmdHasPort (y : ModelYaml) : bool := includesStr (cmdOf y) "${PORT}".

Definition proxyHasPort (y : ModelYaml) : bool := includesStr (proxyOf y) "${PORT}".

Section WithURL.

(** [validURL s] tells whether [new URL(s)] succeeds; the URL parser is a
    library of the runtime. *)
Variable validURL : string -> bool.

(** One turn of the loop over the sorted model ids.  The result is the
    processed model, the value bound to the macro [PORT] when the model
    got one, and the next free port. *)
Definition processModel (globalMacros : list (string * Value)) (nextPort : Z)
  (modelId : string) (y : ModelYaml)
  : Result (ModelConfig * option Z * Z) :=
  (* default values *)
  let proxy0 := proxyOf y in
  let checkEndpoint0 := stringOr (y_checkEndpoint y) "/health" in
  let aliases0 := orElse (y_aliases y) [] in
  let env0 := orElse (y_env y) [] in
  let macros0 := orElse (y_macros y) [] in
  let stripParams0 :=
    match y_filters y with
    | Some (Some s) => VString s
    | Some None => VUndefined
    | None => VString ""
    end in
  let metadata0 :=
    match y_metadata y with
    | Some j => if falsyJson j then JObject [] else j
    | None => JObject []
    end in
  (* comments *)
  let cmd0 := cmdOf y in
  let cmdStop0 :=
    match y_cmdStop y with
    | Some c => if String.eqb c "" then Some c else Some (stripComments c)
    | None => None
    end in
  (* macros of the model *)
  forEach (enumerate macros0) (fun nv => validateMacro (fst nv) (snd nv)) ;;
  let mergedMacros0 :=
    map_set "MODEL_ID" (VString modelId) (spread globalMacros macros0) in
  (* PORT *)
  let cmdHasPortOriginal := cmdHasPort y in
  let proxyHasPortOriginal := proxyHasPort y in
  portStep <-
    (if cmdHasPortOriginal || proxyHasPortOriginal then
       if negb cmdHasPortOriginal && proxyHasPortOriginal
       then Throw (PortNotInCmd modelId)
       else Ok (map_set "PORT" (VNumber (renderZ nextPort) (negb (nextPort =? 0)))
                        mergedMacros0,
                Some nextPort, nextPort + 1)
     else Ok (mergedMacros0, None, nextPort)) ;;
  let '(mergedMacros, port, nextPort') := portStep in
  (* substitution, last macro first *)
  let fields :=
    fold_left substituteOne (rev (enumerate mergedMacros))
              (mkFields (VString cmd0) (option_map VString cmdStop0)
                        (VString proxy0) (VString checkEndpoint0)
                        stripParams0 metadata0) in
  (* unknown macros *)
  checkField modelId false (f_cmd fields) ;;
  checkField modelId true (orElse (f_cmdStop fields) (VString "")) ;;
  checkField modelId false (f_proxy fields) ;;
  checkField modelId false (f_checkEndpoint fields) ;;
  checkField modelId false (f_stripParams fields) ;;
  check (negb (hasKeys (f_metadata fields) && metadataHasMacro (f_metadata fields)))
        (MetadataMacro modelId) ;;
  check (validURL (toString (f_proxy fields))) (InvalidProxyURL modelId) ;;
  Ok (mkModelConfig (f_cmd fields) (f_cmdStop fields) (f_proxy fields)
                    (f_checkEndpoint fields) aliases0 env0 macros0
                    (f_stripParams fields) (f_metadata fields),
      port, nextPort').

(** The loop over the sorted model ids: the processed models and the
    ports given out, in the order of processing. *)
Fixpoint processModels (globalMacros : list (string * Value))
  (yamlModels : list (string * ModelYaml)) (nextPort : Z) (modelIds : list string)
  : Result (list (string * ModelConfig) * list (string * Z)) :=
  match modelIds with
  | [] => Ok ([], [])
  | modelId :: rest =>
      match lookup modelId yamlModels with
      | None => Throw TypeError
      | Some y =>
          r <- processModel globalMacros nextPort modelId y ;;
          let '(modelConfig, port, nextPort') := r in
          rs <- processModels globalMacros yamlModels nextPort' rest ;;
          let '(ms, ports) := rs in
          Ok ((modelId, modelConfig) :: ms,
              match port with
              | Some p => (modelId, p) :: ports
              | None => ports
              end)
      end
  end.

(** The population of the [aliases] map. *)
Fixpoint addAliases (modelName : string) (l : list string)
  (acc : list (string * string)) : Result (list (string * string)) :=
  match l with
  | [] => Ok acc
  | alias :: l' =>
      if truthyAt (fun m => negb (String.eqb m "")) alias acc
      then Throw (DuplicateAlias alias)
      else addAliases modelName l' (map_set alias modelName acc)
  end.

Fixpoint populateAliases (ms : list (string * ModelYaml))
  (acc : list (string * string)) : Result (list (string * string)) :=
  match ms with
  | [] => Ok acc
  | (modelName, y) :: ms' =>
      acc' <- match y_aliases y with
              | Some l => addAliases modelName l acc
              | None => Ok acc
              end ;;
      populateAliases ms' acc'
  end.

(** [addDefaultGroupToConfig] *)
Definition addDefaultGroupToConfig (modelNames : list string)
  (groups0 : list (string * GroupConfig)) : list (string * GroupConfig) :=
  let defaultMembers :=
    match groups0 with
    | [] => modelNames
    | _ :: _ =>
        filter (fun modelName =>
                  negb (existsb (fun g => includes modelName (members (snd g)))
                                (enumerate groups0)))
               modelNames
    end in
  map_set "(default)" (mkGroupConfig true true false (sortStrings defaultMembers))
          groups0.

(** The check that the members are unique, within a group and over the
    groups; the state is [memberUsage]. *)
Fixpoint checkMembers (groupID : string) (l prevSet : list string)
  (memberUsage : list (string * string)) : Result (list (string * string)) :=
  match l with
  | [] => Ok memberUsage
  | member :: l' =>
      if includes member prevSet then Throw (DuplicateMember member)
      else if truthyAt (fun g => negb (String.eqb g "")) member memberUsage
      then Throw (MemberInSeveralGroups member)
      else checkMembers groupID l' (member :: prevSet)
                        (map_set member groupID memberUsage)
  end.

Fixpoint checkGroups (gs : list (string * GroupConfig))
  (memberUsage : list (string * string)) : Result unit :=
  match gs with
  | [] => Ok tt
  | (groupID, groupConfig) :: gs' =>
      usage <- checkMembers groupID (members groupConfig) [] memberUsage ;;
      checkGroups gs' usage
  end.

(** [ConfigLoader.realModelName] gives a truthy result. *)
Definition realModelNameFound (ms : list (string * ModelConfig))
  (als : list (string * string)) (search : string) : bool :=
  truthyAt (fun _ => true) search ms
  || truthyAt (fun m => negb (String.eqb m "")) search als.

(** The clean-up of [hooks.on_startup.preload]. *)
Definition cleanPreload (ms : list (string * ModelConfig))
  (als : list (string * string)) (l : list string) : list string :=
  filter (fun trimmed => negb (String.eqb trimmed "") && realModelNameFound ms als trimmed)
         (map trim l).

(** [loadConfig] on a loader fresh from its constructor (whose defaults are
    a [healthCheckTimeout] of 120 and a [startPort] of 5800), from the
    parsed document on.  Next to the configuration the result lists the
    value of the macro [PORT] of every model that got one, which the loader
    substitutes into the model and then drops. *)
Definition loadConfig (y : YamlData) : Result (Config * list (string * Z)) :=
  let healthCheckTimeout0 := orElse (yaml_healthCheckTimeout y) 120 in
  let healthCheckTimeout :=
    if healthCheckTimeout0 <? 15 then 15 else healthCheckTimeout0 in
  let startPort := orElse (yaml_startPort y) 5800 in
  check (negb (startPort <? 1)) StartPortTooSmall ;;
  let macros := orElse (yaml_macros y) [] in
  forEach (enumerate macros) (fun nv => validateMacro (fst nv) (snd nv)) ;;
  let yamlModels := orElse (yaml_models y) [] in
  aliases <- populateAliases (enumerate yamlModels) [] ;;
  let modelIds := sortStrings (map fst (enumerate yamlModels)) in
  processed <- processModels macros yamlModels startPort modelIds ;;
  let '(byId, ports) := processed in
  let models :=
    flat_map (fun kv => match lookup (fst kv) byId with
                        | Some m => [(fst kv, m)]
                        | None => []
                        end) yamlModels in
  let groups :=
    addDefaultGroupToConfig (map fst (enumerate models))
                            (orElse (yaml_groups y) []) in
  checkGroups (enumerate groups) [] ;;
  let preload :=
    match yaml_preload y with
    | Some (x :: l) => cleanPreload models aliases (x :: l)
    | Some [] => []
    | None => []
    end in
  Ok (mkConfig healthCheckTimeout startPort macros models groups aliases preload,
      ports).

End WithURL.

(** ** Vocabulary of the specifications *)

(** The model references [${PORT}] in its command. *)
Definition usesPort (yamlModels : list (string * ModelYaml)) (modelId : string) : bool :=
  match lookup modelId yamlModels with
  | Some y => cmdHasPort y
  | None => false
  end.

(** The ports [p], [p + 1], ... given to the models of a list, in order. *)
Fixpoint numberFrom (p : Z) (modelIds : list string) : list (string * Z) :=
  match modelIds with
  | [] => []
  | modelId :: rest => (modelId, p) :: numberFrom (p + 1) rest
  end.


Definition with_healthCheckTimeout (h : Z) (y : YamlData) : YamlData :=
  mkYamlData (Some h) (yaml_startPort y) (yaml_macros y) (yaml_models y)
             (yaml_groups y) (yaml_preload y).

(** ** A small configuration used in the examples

    Three models: [big] and [small] take their port from the loader,
    [remote] names its own; one macro; a health-check timeout of 5 s. *)

Definition ex_model (c : string) (p : option string) : ModelYaml :=
  mkModelYaml c None p None None None None None None.

Definition ex_yaml : YamlData :=
  mkYamlData (Some 5) (Some 9000)
    (Some [("bin", VString "/usr/bin/llama-server")])
    (Some [("small", ex_model "${bin} -m small.gguf --port ${PORT}" None);
           ("remote", ex_model "${bin} -m remote.gguf --port 7000"
                               (Some "http://localhost:7000"));
           ("big", ex_model "${bin} -m big.gguf --port ${PORT}" None)])
    None None.


Definition any_url (_ : string) : bool := true.

(** ** Looking a model up *)

(** [ConfigLoader.realModelName] on a loaded configuration; [None] is
    [null].  When [models[search]] is not truthy, [search] is no property
    of [Object.prototype], so that [aliases[search]] is an entry of the
    table or [undefined]. *)
Definition realModelName (config : Config) (search : string) : option string :=
  if truthyAt (fun _ => true) search (models config) then Some search
  else match lookup search (config_aliases config) with
       | Some modelName => if String.eqb modelName "" then None else Some modelName
       | None => None
       end.

(** The result of [findConfig]; [fr_config] is [None] for [null] and for a
    value that is no model (a method of [Object.prototype]). *)
Record FindResult := mkFindResult {
  fr_config : option ModelConfig;
  fr_name : option string;
  fr_found : bool
}.

(** [ConfigLoader.findConfig] *)
Definition findConfig (config : Config) (modelName : string) : FindResult :=
  match realModelName config modelName with
  | None => mkFindResult None None false
  | Some realName =>
      mkFindResult (lookup realName (models config)) (Some realName) true
  end.

(** ** Vocabulary of the properties of a loaded configuration *)

(** A line of a command that [stripComments] drops. *)
Definition is_comment (line : string) : bool := startsWith (trim line) "#".

Fixpoint no_newline (s : string) : bool :=
  match s with
  | EmptyString => true
  | String c s' => negb (Ascii.eqb c newline) && no_newline s'
  end.

(** A field after the load: empty (or another value that is not truthy),
    or a string in which no macro is left. *)
Definition field_ok (v : Value) : Prop :=
  truthy_value v = false \/ exists s, v = VString s /\ macroMatches s = [].

(** The same for [cmdStop], in which [${PID}] stays. *)
Definition cmdStop_ok (v : Value) : Prop :=
  truthy_value v = false \/
  exists s, v = VString s /\ Forall (fun name => name = "PID") (macroMatches s).

Definition model_ok (validURL : string -> bool) (m : ModelConfig) : Prop :=
  field_ok (cmd m) /\ field_ok (proxy m) /\ field_ok (checkEndpoint m) /\
  field_ok (stripParams m) /\
  (forall c, cmdStop m = Some c -> cmdStop_ok c) /\
  validURL (toString (proxy m)) = true.

(** The models of the loaded configuration, from the processed ones. *)
Definition loadedModels (yamlModels : list (string * ModelYaml))
  (byId : list (string * ModelConfig)) : list (string * ModelConfig) :=
  flat_map (fun kv => match lookup (fst kv) byId with
                      | Some m => [(fst kv, m)]
                      | None => []
                      end) yamlModels.

(** The pairs of an alias and the model that lists it, in the order in
    which the loader meets them. *)
Definition aliasPairs (ms : list (string * ModelYaml)) : list (string * string) :=
  flat_map (fun kv => map (fun alias => (alias, fst kv)) (orElse (y_aliases (snd kv)) []))
           ms.

(** Every entry of the table of aliases maps to a model with a name. *)
Definition named (acc : list (string * string)) : Prop :=
  Forall (fun e => snd e <> "") acc.

(** [memberUsage[member]] is truthy. *)
Definition marked (memberUsage : list (string * string)) (member : string) : bool :=
  truthyAt (fun g => negb (String.eqb g "")) member memberUsage.

(** A group with a non-empty id shares no member with the groups after it. *)
Inductive apart : list (string * GroupConfig) -> Prop :=
| apart_nil : apart []
| apart_cons g gc gs :
    (g <> "" -> forall g' gc' x, In (g', gc') gs -> In x (members gc) ->
                                 ~ In x (members gc')) ->
    apart gs -> apart ((g, gc) :: gs).

(** The order of [Array.prototype.sort]: by code units. *)
Definition string_le (a b : string) : Prop := String.leb a b = true.

(** What [validateMacro] asks of a macro. *)
Definition valid_macro (name : string) (value : Value) : Prop :=
  (1 <= String.length name < 64)%nat /\
  all_name_chars name = true /\
  name <> "PORT" /\ name <> "MODEL_ID" /\
  match value with
  | VString s => (String.length s < 1024)%nat /\ includesStr s (macroSlug name) = false
  | VNumber _ _ | VBoolean _ => True
  | VUndefined | VObject => False
  end.

(** ** A configuration with aliases, a group and a preload list

    [small] and [big] form the group [chat]; [embed] is in no group.  The
    command of [big] begins with a comment line. *)

Definition ex_cmd_big : string :=
  "# the large model" ++ String newline "${bin} -m big.gguf --port ${PORT}".

Definition ex_yaml_groups : YamlData :=
  mkYamlData (Some 30) (Some 9000)
    (Some [("bin", VString "/usr/bin/llama-server")])
    (Some [("small",
            mkModelYaml "${bin} -m small.gguf --port ${PORT}" (Some "kill ${PID}") None None
                        (Some ["s"; "tiny"]) None
                        (Some [("ctx", VNumber "4096" true)]) None None);
           ("big",
            mkModelYaml ex_cmd_big None None None (Some ["b"]) None None None None);
           ("embed",
            mkModelYaml "${bin} --embedding --port 7000" None
                        (Some "http://localhost:7000") None None None None None None)])
    (Some [("chat", mkGroupConfig true true false ["small"; "big"])])
    (Some [" s "; "ghost"; ""; "big"]).

End ConfigLoader.

(** * The request handlers of the server

    The routes of the server that load and unload models.  A handler is
    an asynchronous function over the state of the process manager; what
    it does with the response is its result. *)

Module Server.
Import ProcessManager.

(** The handler answers with a status, or hands the request to the proxy
    middleware for [target]. *)
Inductive Response :=
| Status (code : Z)
| Proxied (target : string).

(** ** The construction of the process manager

    [new ProcessManager(config, ...)], with the constructors of
    [ProcessGroup] and [Process] it calls.  A constructor that throws has
    no result. *)

(** What the constructors read of the configuration. *)
Record ManagerConfig := mkManagerConfig {
  cfg_healthCheckTimeout : Z;
  cfg_models : list (string * ModelConfig);
  cfg_aliases : list (string * string);
  cfg_groups : list (string * ConfigLoader.GroupConfig)
}.

Section Construction.

(** [parsesAsURL s] tells whether [new URL(s)] succeeds. *)
Variable parsesAsURL : string -> bool.

(** [new Process(id, healthCheckTimeout, config, ...)].  [config] is
    [config.models[modelID]]; when there is no such model, reading
    [this.config.proxy] throws, or gives [undefined], for which [new URL]
    throws as it does for a string that is no URL. *)
Definition newProcess (id : string) (healthCheckTimeout : Z)
  (config : option ModelConfig) : option Process :=
  match config with
  | Some c =>
      if parsesAsURL (proxy c)
      then Some (mkProcess id c None healthCheckTimeout STOPPED 0 0 0)
      else None
  | None => None
  end.

(** The loop over [groupConfig.members]. *)
Fixpoint newProcesses (config : ManagerConfig) (members : list string)
  (processes : list (string * Process)) : option (list (string * Process)) :=
  match members with
  | [] => Some processes
  | modelID :: rest =>
      match newProcess modelID (cfg_healthCheckTimeout config)
                       (lookup modelID (cfg_models config)) with
      | Some process => newProcesses config rest (map_set modelID process processes)
      | None => None
      end
  end.

(** [new ProcessGroup(id, config, ...)] *)
Definition newProcessGroup (config : ManagerConfig) (id : string) : option ProcessGroup :=
  match lookup id (cfg_groups config) with
  | None => None
  | Some groupConfig =>
      match newProcesses config (ConfigLoader.members groupConfig) [] with
      | Some processes =>
          Some (mkProcessGroup id (ConfigLoader.swap groupConfig)
                  (ConfigLoader.exclusive groupConfig)
                  (ConfigLoader.persistent groupConfig)
                  (ConfigLoader.members groupConfig) processes "")
      | None => None
      end
  end.

(** The loop over [Object.entries(config.groups)]. *)
Fixpoint newProcessGroups (config : ManagerConfig) (groupIDs : list string)
  (processGroups : list (string * ProcessGroup))
  : option (list (string * ProcessGroup)) :=
  match groupIDs with
  | [] => Some processGroups
  | groupID :: rest =>
      match newProcessGroup config groupID with
      | Some processGroup =>
          newProcessGroups config rest (map_set groupID processGroup processGroups)
      | None => None
      end
  end.

(** [new ProcessManager(config, ...)], at the time [date] of a runtime
    whose next child gets the pid [pid]. *)
Definition newProcessManager (config : ManagerConfig) (date : Z) (pid : nat)
  : option World :=
  match newProcessGroups config
          (map fst (ConfigLoader.enumerate (cfg_groups config))) [] with
  | Some processGroups =>
      Some (mkWorld (map fst (cfg_models config)) (cfg_aliases config)
                    processGroups false None date pid [] [] [])
  | None => None
  end.

End Construction.

(** Every member of every group is a model whose proxy parses as a URL. *)
Definition members_are_models (parsesAsURL : string -> bool)
  (config : ManagerConfig) : Prop :=
  forall g groupConfig m,
    lookup g (cfg_groups config) = Some groupConfig ->
    In m (ConfigLoader.members groupConfig) ->
    exists c, lookup m (cfg_models config) = Some c /\ parsesAsURL (proxy c) = true.

(** The configuration of the small installation of the examples. *)
Definition ex_manager_config : ManagerConfig :=
  mkManagerConfig 15
    [("A", ex_config "llama-server --port 5800");
     ("B", ex_config "llama-server --port 5800");
     ("D", ex_config "llama-server --port 5800")]
    [("a", "A")]
    [("G1", ConfigLoader.mkGroupConfig true true false ["A"; "B"]);
     ("GP", ConfigLoader.mkGroupConfig false false true ["D"])].

(** ** The routes *)

Section WithConfig.

Variable validURL : string -> string -> bool.

(** [config.models], as far as the handlers read it. *)
Variable models : list (string * ModelConfig).

(** [app.get('/upstream/:model/')] *)
Definition upstream_model (modelName : string) : Async Response :=
  try_catch
    (found <- swapProcessGroup modelName ;;
     let '(processGroup, realModelName) := found in
     process <- orThrow "Could not find process for model"
                        (getProcess processGroup realModelName) ;;
     (if negb (state_eqb (p_state process) READY)
      then
        success <- start validURL processGroup realModelName ;;
        if negb success then throw "Failed to start process for model" else ret tt
      else ret tt) ;;
     match lookup realModelName models with
     | Some modelConfig =>
         if String.eqb (proxy modelConfig) ""
         then throw "No proxy configuration found for model"
         else ret (Proxied (proxy modelConfig))
     | None => throw "No proxy configuration found for model"
     end)
    (fun _ => ret (Status 500)).

(** [app.post('/api/models/unload/:model')] *)
Definition api_models_unload_model (modelName : string) : Async Response :=
  try_catch
    (found <- read (findGroupByModelName modelName) ;;
     match found with
     | None => ret (Status 404)
     | Some (processGroup, _) =>
         stopProcess processGroup modelName IMMEDIATELY ;;
         ret (Status 200)
     end)
    (fun _ => ret (Status 500)).

(** [app.post('/api/models/unload')] and [app.get('/unload')] *)
Definition unload : Async Response :=
  try_catch (shutdownAll ;; ret (Status 200)) (fun _ => ret (Status 500)).

(** The body of the startup hook over [config.hooks.on_startup.preload]. *)
Fixpoint preload (names : list string) : Async unit :=
  match names with
  | [] => ret tt
  | modelName :: rest =>
      try_catch (_ <- swapProcessGroup modelName ;; ret tt) (fun _ => ret tt) ;;
      preload rest
  end.

(** The requests of a client. *)
Inductive Request :=
| GetUpstream (modelName : string)
| PostUnloadModel (modelName : string)
| PostUnload.

Definition handle (r : Request) : Async Response :=
  match r with
  | GetUpstream modelName => upstream_model modelName
  | PostUnloadModel modelName => api_models_unload_model modelName
  | PostUnload => unload
  end.

(** Requests served one after the other.  Each comes with a schedule:
    the handler runs to its end through the ticks it is suspended for,
    and the ticks that are left pass before the next request.  There is
    no result when a handler is still suspended at the end of its
    schedule. *)
Fixpoint serve (l : list (Request * list Tick)) (w : World)
  : option (list Response * World) :=
  match l with
  | [] => Some ([], w)
  | (r, s) :: l' =>
      match handle r w s with
      | (Returned response, w', s') =>
          match serve l' (apply_ticks s' w') with
          | Some (responses, w'') => Some (response :: responses, w'')
          | None => None
          end
      | _ => None
      end
  end.

End WithConfig.

End Server.

(** * Properties of the process manager *)

Module ProcessManagerProofs.
Import ProcessManager.
Local Open Scope list_scope.

(** ** Association lists *)

Lemma lookup_adjust_same {A} k (f : A -> A) l :
  lookup k (adjust k f l) = option_map f (lookup k l).
Proof.
  induction l as [|[k' v] l IH]; simpl; [reflexivity|].
  destruct (String.eqb k k') eqn:E; simpl; rewrite E; [reflexivity|exact IH].
Qed.

Lemma lookup_adjust_other {A} k k' (f : A -> A) l :
  k <> k' -> lookup k (adjust k' f l) = lookup k l.
Proof.
  intros Hne. induction l as [|[k0 v] l IH]; simpl; [reflexivity|].
  destruct (String.eqb k' k0) eqn:E; simpl.
  - apply String.eqb_eq in E. subst k0.
    destruct (String.eqb k k') eqn:E'; [apply String.eqb_eq in E'; contradiction|reflexivity].
  - destruct (String.eqb k k0); [reflexivity|exact IH].
Qed.

Lemma map_fst_adjust {A} k (f : A -> A) l :
  map fst (adjust k f l) = map fst l.
Proof.
  induction l as [|[k' v] l IH]; simpl; [reflexivity|].
  destruct (String.eqb k k'); simpl; [reflexivity|now rewrite IH].
Qed.

(** ** States *)

Lemma state_eqb_spec a b : reflect (a = b) (state_eqb a b).
Proof. destruct a, b; simpl; constructor; congruence. Qed.

Lemma state_eqb_refl a : state_eqb a a = true.
Proof. now destruct a. Qed.

(** ** Reading a process after an update *)

Lemma getProcess_updProcess_same g m f w :
  getProcess g m (updProcess g m f w) = option_map f (getProcess g m w).
Proof.
  unfold getProcess, updProcess; simpl.
  rewrite lookup_adjust_same.
  destruct (lookup g (processGroups w)) as [grp|]; simpl; [|reflexivity].
  apply lookup_adjust_same.
Qed.

Lemma getProcess_updProcess_other g m g' m' f w :
  (g, m) <> (g', m') ->
  getProcess g m (updProcess g' m' f w) = getProcess g m w.
Proof.
  intros Hne. unfold getProcess, updProcess; simpl.
  destruct (String.eqb_spec g g') as [->|Hg].
  - rewrite lookup_adjust_same.
    destruct (lookup g' (processGroups w)) as [grp|]; simpl; [|reflexivity].
    apply lookup_adjust_other. congruence.
  - now rewrite lookup_adjust_other.
Qed.

Lemma getProcess_updGroup_lastUsed g m g' x w :
  getProcess g m (updGroup g' (set_lastUsedProcess x) w) = getProcess g m w.
Proof.
  unfold getProcess, updGroup; simpl.
  destruct (String.eqb_spec g g') as [->|Hg].
  - rewrite lookup_adjust_same.
    now destruct (lookup g' (processGroups w)).
  - now rewrite lookup_adjust_other.
Qed.


Lemma getProcess_onProcess_other g m g' m' f w :
  (g, m) <> (g', m') ->
  getProcess g m (onProcess g' m' f w) = getProcess g m w.
Proof.
  intros Hne. unfold onProcess.
  destruct (getProcess g' m' w) as [p|]; [|reflexivity].
  destruct (f p) as [p' es].
  change (getProcess g m (emit es (updProcess g' m' (fun _ => p') w)))
    with (getProcess g m (updProcess g' m' (fun _ => p') w)).
  now apply getProcess_updProcess_other.
Qed.

Lemma adjust_ext_at {A} k (f f' : A -> A) l v :
  lookup k l = Some v -> f v = f' v -> adjust k f l = adjust k f' l.
Proof.
  induction l as [|[k' v'] l IH]; simpl; [discriminate|].
  destruct (String.eqb k k').
  - intros H E. inversion H; subst. now rewrite E.
  - intros H E. now rewrite IH.
Qed.

Lemma updProcess_ext g m f f' w p :
  getProcess g m w = Some p -> f p = f' p ->
  updProcess g m f w = updProcess g m f' w.
Proof.
  intros Hp E. unfold getProcess in Hp. unfold updProcess.
  destruct (lookup g (processGroups w)) as [grp|] eqn:Eg; [|discriminate].
  f_equal. apply (adjust_ext_at g _ _ _ grp Eg).
  f_equal. now apply (adjust_ext_at m f f' _ p).
Qed.

(** [setState] at an address, spelled out. *)
Lemma onProcess_setState g m st w :
  onProcess g m (setState st) w =
  match getProcess g m w with
  | Some p => emit [StateChange (p_id p) (p_state p) st] (updProcess g m (set_state st) w)
  | None => w
  end.
Proof.
  unfold onProcess. destruct (getProcess g m w) as [p|] eqn:E; [|reflexivity].
  simpl. f_equal. now apply (updProcess_ext g m _ _ w p).
Qed.

(** ** Waiting loops *)

Lemma apply_ticks_app l1 l2 w :
  apply_ticks (l1 ++ l2) w = apply_ticks l2 (apply_ticks l1 w).
Proof. unfold apply_ticks. apply fold_left_app. Qed.

Lemma wait_while_leaves cond pre : forall t post w,
  (forall k, (k <= List.length pre)%nat -> cond (apply_ticks (firstn k pre) w) = true) ->
  cond (apply_ticks (pre ++ [t]) w) = false ->
  wait_while cond w (pre ++ t :: post) =
    (Returned tt, apply_ticks (pre ++ [t]) w, post).
Proof.
  induction pre as [|t0 pre IH]; intros t post w Hstay Hleave.
  - pose proof (Hstay 0%nat (Nat.le_refl _)) as H0. simpl in H0.
    simpl in *. rewrite H0.
    destruct post as [|t1 post]; simpl; now rewrite Hleave.
  - pose proof (Hstay 0%nat (Nat.le_0_l _)) as H0. simpl in H0.
    simpl. rewrite H0.
    apply IH.
    + intros k Hk. apply (Hstay (S k)). simpl. lia.
    + exact Hleave.
Qed.

Lemma wait_while_starves cond s : forall w,
  (forall k, (k <= List.length s)%nat -> cond (apply_ticks (firstn k s) w) = true) ->
  wait_while cond w s = (OutOfFuel, apply_ticks s w, []).
Proof.
  induction s as [|t s IH]; intros w Hstay.
  - pose proof (Hstay 0%nat (Nat.le_refl _)) as H0. simpl in H0.
    simpl. now rewrite H0.
  - pose proof (Hstay 0%nat (Nat.le_0_l _)) as H0. simpl in H0.
    simpl. rewrite H0.
    apply IH. intros k Hk. apply (Hstay (S k)). simpl. lia.
Qed.

(** ** Invariants kept by asynchronous methods *)

Section Preserves.
Variable Inv : World -> Prop.
Variable okTick : Tick -> Prop.
Hypothesis Inv_tick : forall t w, okTick t -> Inv w -> Inv (apply_tick t w).

Lemma preserves_ret {A} (a : A) : preserves Inv okTick (ret a).
Proof. intros w s Hs Hw. now split. Qed.

Lemma preserves_throw {A} msg : preserves Inv okTick (@throw A msg).
Proof. intros w s Hs Hw. now split. Qed.

Lemma preserves_read {A} (f : World -> A) : preserves Inv okTick (read f).
Proof. intros w s Hs Hw. now split. Qed.

Lemma preserves_exec f :
  (forall w, Inv w -> Inv (f w)) -> preserves Inv okTick (exec f).
Proof. intros Hf w s Hs Hw. split; [now apply Hf|exact Hs]. Qed.

Lemma preserves_bind {A B} (c : Async A) (k : A -> Async B) :
  preserves Inv okTick c -> (forall a, preserves Inv okTick (k a)) ->
  preserves Inv okTick (bind c k).
Proof.
  intros Hc Hk w s Hs Hw. specialize (Hc w s Hs Hw).
  unfold bind, world_after, schedule_after in *.
  destruct (c w s) as [[[a|msg|] w1] s1]; simpl in *; try exact Hc.
  destruct Hc as [Hw1 Hs1]. exact (Hk a w1 s1 Hs1 Hw1).
Qed.

Lemma preserves_try_catch {A} (c : Async A) h :
  preserves Inv okTick c -> (forall msg, preserves Inv okTick (h msg)) ->
  preserves Inv okTick (try_catch c h).
Proof.
  intros Hc Hh w s Hs Hw. specialize (Hc w s Hs Hw).
  unfold try_catch, world_after, schedule_after in *.
  destruct (c w s) as [[[a|msg|] w1] s1]; simpl in *; try exact Hc.
  destruct Hc as [Hw1 Hs1]. exact (Hh msg w1 s1 Hs1 Hw1).
Qed.

Lemma preserves_sleep : preserves Inv okTick sleep.
Proof.
  intros w s Hs Hw. destruct s as [|t s]; simpl; [now split|].
  inversion Hs; subst. split; [now apply Inv_tick|assumption].
Qed.

Lemma preserves_checkHealthEndpoint : preserves Inv okTick checkHealthEndpoint.
Proof.
  intros w s Hs Hw. destruct s as [|t s]; simpl; [now split|].
  inversion Hs; subst. split; [now apply Inv_tick|assumption].
Qed.

Lemma preserves_wait_while cond : preserves Inv okTick (wait_while cond).
Proof.
  intros w s. revert w. induction s as [|t s IH]; intros w Hs Hw; simpl.
  - destruct (cond w); now split.
  - destruct (cond w); [|now split].
    inversion Hs; subst. apply IH; [assumption|now apply Inv_tick].
Qed.

Lemma preserves_orThrow {A} msg (f : World -> option A) :
  preserves Inv okTick (orThrow msg f).
Proof.
  intros w s Hs Hw. unfold orThrow. destruct (f w); now split.
Qed.

Lemma preserves_this g m : preserves Inv okTick (this g m).
Proof. apply preserves_orThrow. Qed.

Lemma preserves_thisGroup g : preserves Inv okTick (thisGroup g).
Proof. apply preserves_orThrow. Qed.

Lemma preserves_healthLoop g m t0 maxd :
  preserves Inv okTick (healthLoop g m t0 maxd).
Proof.
  assert (H : forall n w s, (List.length s <= n)%nat -> Forall okTick s -> Inv w ->
            Inv (world_after (healthLoop g m t0 maxd w s)) /\
            Forall okTick (schedule_after (healthLoop g m t0 maxd w s))).
  { induction n as [|n IH]; intros w s Hn Hs Hw.
    - destruct s; [|simpl in Hn; lia]. simpl.
      destruct (now w - t0 <? maxd); [|now split].
      destruct (negb (state_is g m STARTING w)); now split.
    - destruct s as [|t s1]; simpl.
      + destruct (now w - t0 <? maxd); [|now split].
        destruct (negb (state_is g m STARTING w)); now split.
      + destruct (now w - t0 <? maxd); [|now split].
        destruct (negb (state_is g m STARTING w)); [now split|].
        inversion Hs as [|? ? Ht Hs1]; subst.
        assert (Hw1 : Inv (apply_tick t w)) by now apply Inv_tick.
        destruct (probePassed (probe t)); [now split|].
        destruct s1 as [|t' s2]; [now split|].
        inversion Hs1; subst.
        apply IH; [simpl in Hn; lia|assumption|now apply Inv_tick]. }
  intros w s. exact (H (List.length s) w s (Nat.le_refl _)).
Qed.

End Preserves.

(** *** [start] keeps what its steps and the ticks keep *)

Section StartUnder.
Variable Inv : World -> Prop.
Variable okTick : Tick -> Prop.
Hypothesis Inv_tick : forall t w, okTick t -> Inv w -> Inv (apply_tick t w).
Hypothesis Hstate : forall g m st w, Inv w -> Inv (onProcess g m (setState st) w).
Hypothesis Hspawn : forall g m id exe args w, Inv w -> Inv (spawnChild g m id exe args w).
Hypothesis Httl : forall g m w, Inv w -> Inv (startTTLCheck g m w).
Hypothesis Hfailed : forall g m w, Inv w -> Inv (updProcess g m (set_failedStartCount 0) w).

Lemma preserves_spawn_under g m : preserves Inv okTick (spawn g m).
Proof.
  unfold spawn. apply preserves_bind; [apply preserves_this|intros p].
  destruct (parseCommand (cmd (p_config p))) as [|exe args]; [apply preserves_throw|].
  destruct (String.eqb exe ""); [apply preserves_throw|].
  apply preserves_exec; intros; now apply Hspawn.
Qed.

Lemma preserves_start_under validURL g m : preserves Inv okTick (start validURL g m).
Proof.
  unfold start. apply preserves_bind; [apply preserves_this|intros p].
  assert (Hbody : preserves Inv okTick
    (exec (onProcess g m (setState STARTING)) ;;
     try_catch
       (spawn g m ;;
        sleep ;;
        passed <-
          (if negb (String.eqb (checkEndpoint (p_config p)) "none")
           then
             (if validURL (checkEndpoint (p_config p)) (proxy (p_config p))
              then ret tt else throw "Invalid URL") ;;
             checkStartTime <- read now ;;
             healthLoop g m checkStartTime (p_healthCheckTimeout p * 1000)
           else ret Passed) ;;
        match passed with
        | StateChanged => ret false
        | Expired => throw "Health check timed out"
        | Passed =>
            (if unloadAfter (p_config p) >? 0
             then exec (startTTLCheck g m) else ret tt) ;;
            exec (onProcess g m (setState READY)) ;;
            exec (updProcess g m (set_failedStartCount 0)) ;;
            ret true
        end)
       (fun _ =>
          exec (onProcess g m (setState STOPPED)) ;;
          ret false))).
  { apply preserves_bind;
      [apply preserves_exec; intros; now apply Hstate|intros _].
    apply preserves_try_catch.
    - apply preserves_bind; [apply preserves_spawn_under|intros _].
      apply preserves_bind; [apply preserves_sleep, Inv_tick|intros _].
      apply preserves_bind.
      + destruct (negb (String.eqb (checkEndpoint (p_config p)) "none"));
          [|apply preserves_ret].
        apply preserves_bind.
        * destruct (validURL _ _); [apply preserves_ret|apply preserves_throw].
        * intros _. apply preserves_bind; [apply preserves_read|intros t0].
          apply preserves_healthLoop, Inv_tick.
      + intros [| |]; [|apply preserves_ret|apply preserves_throw].
        apply preserves_bind.
        * destruct (unloadAfter (p_config p) >? 0); [|apply preserves_ret].
          apply preserves_exec; intros; now apply Httl.
        * intros _. apply preserves_bind;
            [apply preserves_exec; intros; now apply Hstate|intros _].
          apply preserves_bind;
            [apply preserves_exec; intros; now apply Hfailed|intros _].
          apply preserves_ret.
    - intros _. apply preserves_bind;
        [apply preserves_exec; intros; now apply Hstate|intros _].
      apply preserves_ret. }
  destruct (p_state p); try exact Hbody; try apply preserves_ret.
  apply preserves_bind; [apply preserves_wait_while, Inv_tick|intros _].
  apply preserves_read.
Qed.

End StartUnder.

(** ** The methods keep what their steps keep *)

Lemma handleProcessExit_setState p : handleProcessExit p = setState STOPPED p.
Proof. unfold handleProcessExit. now destruct (p_state p). Qed.

Lemma onProcess_handleProcessExit g m w :
  onProcess g m handleProcessExit w = onProcess g m (setState STOPPED) w.
Proof.
  unfold onProcess. destruct (getProcess g m w); [|reflexivity].
  now rewrite handleProcessExit_setState.
Qed.

Section Ops.
Variable Inv : World -> Prop.
Hypothesis SP : stop_prims Inv.

Lemma Inv_stopBeginAt g m w : Inv w -> Inv (snd (stopBeginAt g m w)).
Proof.
  intros Hw. unfold stopBeginAt.
  destruct (getProcess g m w) as [p|]; [|exact Hw].
  destruct (p_state p); simpl; try exact Hw; apply (sp_state _ SP); auto.
Qed.

Lemma Inv_stopNow g m w : Inv w -> Inv (stopNow g m w).
Proof.
  intros Hw. unfold stopNow.
  pose proof (Inv_stopBeginAt g m w Hw) as H.
  destruct (stopBeginAt g m w) as [go w1]; simpl in H.
  destruct go; [now apply (sp_stopCommand _ SP)|exact H].
Qed.

Lemma Inv_ttlCallback g m w : Inv w -> Inv (ttlCallback g m w).
Proof.
  intros Hw. unfold ttlCallback, clearInterval.
  destruct (getProcess g m w) as [p|]; [|exact Hw].
  destruct (negb (state_eqb (p_state p) READY)); [now apply (sp_timers _ SP)|].
  destruct (p_inFlightRequests p >? 0); [exact Hw|].
  destruct (now w - p_lastRequestHandled p >? unloadAfter (p_config p) * 1000);
    [|exact Hw].
  apply (sp_timers _ SP). now apply Inv_stopNow.
Qed.

Lemma Inv_action a w : own_action a -> Inv w -> Inv (apply_action a w).
Proof.
  intros Ha Hw. destruct a as [pid|g m|g m|g m|f]; simpl.
  - destruct (child_owner pid (children w)) as [[g m]|]; [|exact Hw].
    rewrite onProcess_handleProcessExit.
    apply (sp_state _ SP); auto. now apply (sp_children _ SP).
  - now apply (sp_add _ SP).
  - now apply (sp_remove _ SP).
  - destruct (has_timer g m (ttlTimers w)); [now apply Inv_ttlCallback|exact Hw].
  - destruct Ha.
Qed.

Lemma Inv_actions l : forall w, Forall own_action l -> Inv w -> Inv (apply_actions l w).
Proof.
  induction l as [|a l IH]; intros w Hl Hw; [exact Hw|].
  inversion Hl; subst. unfold apply_actions in *. simpl.
  apply IH; [assumption|now apply Inv_action].
Qed.

Lemma Inv_own_tick t w : own_tick t -> Inv w -> Inv (apply_tick t w).
Proof.
  intros Ht Hw. unfold apply_tick. apply Inv_actions; [exact Ht|].
  now apply (sp_now _ SP).
Qed.

Lemma Inv_stopBeginAll g ms : forall w, Inv w -> Inv (snd (stopBeginAll g ms w)).
Proof.
  induction ms as [|m ms IH]; intros w Hw; simpl; [exact Hw|].
  pose proof (Inv_stopBeginAt g m w Hw) as H1.
  destruct (stopBeginAt g m w) as [go w1]; simpl in H1.
  specialize (IH w1 H1).
  destruct (stopBeginAll g ms w1) as [pending w2]; exact IH.
Qed.

Lemma Inv_stopCommandAll g pending : forall w, Inv w -> Inv (stopCommandAll g pending w).
Proof.
  induction pending as [|m l IH]; intros w Hw; [exact Hw|].
  unfold stopCommandAll in *. simpl. apply IH. now apply (sp_stopCommand _ SP).
Qed.

Lemma Inv_pollInFlight g pending : forall w, Inv w -> Inv (snd (pollInFlight g pending w)).
Proof.
  induction pending as [|m l IH]; intros w Hw; simpl; [exact Hw|].
  destruct (inFlight_positive g m w).
  - specialize (IH w Hw). destruct (pollInFlight g l w); exact IH.
  - apply IH. now apply (sp_stopCommand _ SP).
Qed.

Lemma preserves_awaitAllStopped g pending :
  preserves Inv own_tick (awaitAllStopped g pending).
Proof.
  intros w s. revert pending w.
  induction s as [|t s IH]; intros pending w Hs Hw; simpl;
    pose proof (Inv_pollInFlight g pending w Hw) as H1;
    destruct (pollInFlight g pending w) as [pending' w']; simpl in H1.
  - destruct pending'; now split.
  - destruct pending'; [now split|].
    inversion Hs; subst.
    apply IH; [assumption|now apply Inv_own_tick].
Qed.

Lemma preserves_stop g m strategy : preserves Inv own_tick (stop g m strategy).
Proof.
  unfold stop. apply preserves_bind; [apply preserves_this|intros p].
  destruct (p_state p); try apply preserves_ret;
    (apply preserves_bind;
     [apply preserves_exec; intros; apply (sp_state _ SP); auto|intros _];
     apply preserves_bind;
     [destruct strategy;
      [apply preserves_ret|apply preserves_wait_while; apply Inv_own_tick]
     |intros _; apply preserves_exec; intros; now apply (sp_stopCommand _ SP)]).
Qed.

Lemma preserves_stopProcesses g strategy :
  preserves Inv own_tick (stopProcesses g strategy).
Proof.
  unfold stopProcesses. apply preserves_bind; [apply preserves_thisGroup|intros grp].
  intros w s Hs Hw.
  pose proof (Inv_stopBeginAll g (map fst (g_processes grp)) w Hw) as H1.
  destruct (stopBeginAll g (map fst (g_processes grp)) w) as [pending w1].
  simpl in H1. destruct strategy.
  - split; [now apply Inv_stopCommandAll|exact Hs].
  - now apply preserves_awaitAllStopped.
Qed.

Lemma preserves_stopProcess g m strategy :
  preserves Inv own_tick (stopProcess g m strategy).
Proof.
  unfold stopProcess. apply preserves_bind; [apply preserves_thisGroup|intros grp].
  destruct (negb (has_key m (g_processes grp))); [apply preserves_throw|].
  apply preserves_bind; [|intros _; apply preserves_stop].
  destruct (String.eqb (g_lastUsedProcess grp) m); [|apply preserves_ret].
  apply preserves_exec; intros; now apply (sp_lastUsed _ SP).
Qed.

Lemma Inv_shutdownBegin g ms : forall w, Inv w -> Inv (snd (shutdownBegin g ms w)).
Proof.
  induction ms as [|m ms IH]; intros w Hw; simpl; [exact Hw|].
  pose proof (Inv_stopBeginAt g m w Hw) as H1.
  destruct (stopBeginAt g m w) as [go w1]; simpl in H1.
  assert (H2 : Inv (onProcess g m (setState SHUTDOWN) w1))
    by (apply (sp_state _ SP); auto).
  specialize (IH _ H2).
  destruct (shutdownBegin g ms (onProcess g m (setState SHUTDOWN) w1)); exact IH.
Qed.

Lemma preserves_group_shutdown g : preserves Inv own_tick (group_shutdown g).
Proof.
  unfold group_shutdown. apply preserves_bind; [apply preserves_thisGroup|intros grp].
  intros w s Hs Hw.
  pose proof (Inv_shutdownBegin g (map fst (g_processes grp)) w Hw) as H1.
  destruct (shutdownBegin g (map fst (g_processes grp)) w) as [pending w1].
  simpl in H1. split; [now apply Inv_stopCommandAll|exact Hs].
Qed.

Lemma preserves_stopOtherGroups targetId gs :
  preserves Inv own_tick (stopOtherGroups targetId gs).
Proof.
  induction gs as [|[groupId otherGroup] gs IH]; simpl; [apply preserves_ret|].
  apply preserves_bind; [|intros _; exact IH].
  destruct (negb (String.eqb groupId targetId) && negb (g_persistent otherGroup));
    [|apply preserves_ret].
  apply preserves_bind; [apply preserves_stopProcesses|intros _].
  apply preserves_exec; intros; now apply (sp_lastUsed _ SP).
Qed.

Lemma preserves_swapProcessGroup name :
  preserves Inv own_tick (swapProcessGroup name).
Proof.
  unfold swapProcessGroup.
  apply preserves_bind; [apply preserves_orThrow|intros real].
  apply preserves_bind; [apply preserves_orThrow|intros [target grp]].
  apply preserves_bind; [apply preserves_read|intros last].
  apply preserves_bind.
  { destruct last as [last|]; [|apply preserves_ret].
    apply preserves_bind; [apply preserves_read|intros lp].
    destruct (negb (String.eqb last target) && negb lp && negb (g_persistent grp));
      [|apply preserves_ret].
    apply preserves_bind; [apply preserves_stopProcesses|intros _].
    apply preserves_exec; intros; now apply (sp_lastUsed _ SP). }
  intros _. apply preserves_bind.
  { destruct (g_exclusive grp); [|apply preserves_ret].
    apply preserves_bind; [apply preserves_read|intros gs].
    apply preserves_stopOtherGroups. }
  intros _. apply preserves_bind; [apply preserves_thisGroup|intros grp'].
  apply preserves_bind.
  { destruct (g_swap grp' && negb (String.eqb (g_lastUsedProcess grp') real));
      [|apply preserves_ret].
    destruct (negb (String.eqb (g_lastUsedProcess grp') "")
              && has_key (g_lastUsedProcess grp') (g_processes grp'));
      [|apply preserves_ret].
    apply preserves_bind; [apply preserves_this|intros old].
    destruct (state_eqb (p_state old) READY); [|apply preserves_ret].
    apply preserves_bind; [apply preserves_stop|intros _].
    apply preserves_wait_while. apply Inv_own_tick. }
  intros _.
  apply preserves_bind;
    [apply preserves_exec; intros; now apply (sp_lastActive _ SP)|intros _].
  apply preserves_bind;
    [apply preserves_exec; intros; now apply (sp_lastUsed _ SP)|intros _].
  apply preserves_ret.
Qed.

Lemma Inv_shutdownBeginAll gs : forall w, Inv w -> Inv (snd (shutdownBeginAll gs w)).
Proof.
  induction gs as [|[g grp] gs IH]; intros w Hw; simpl; [exact Hw|].
  pose proof (Inv_shutdownBegin g (map fst (g_processes grp)) w Hw) as H1.
  destruct (shutdownBegin g (map fst (g_processes grp)) w) as [pending w1].
  simpl in H1. specialize (IH w1 H1).
  destruct (shutdownBeginAll gs w1); exact IH.
Qed.

Lemma preserves_shutdownAll : preserves Inv own_tick shutdownAll.
Proof.
  unfold shutdownAll.
  apply preserves_bind;
    [apply preserves_exec; intros; now apply (sp_shutdown _ SP)|intros _].
  intros w s Hs Hw.
  pose proof (Inv_shutdownBeginAll (processGroups w) w Hw) as H1.
  destruct (shutdownBeginAll (processGroups w) w) as [pending w1].
  simpl in H1. split; [|exact Hs].
  unfold world_after; simpl. clear Hw. revert w1 H1.
  induction pending as [|[g m] l IH]; intros w1 H1; [exact H1|].
  simpl. apply IH. now apply (sp_stopCommand _ SP).
Qed.

Hypothesis TP : start_prims Inv.

Lemma preserves_start validURL g m : preserves Inv own_tick (start validURL g m).
Proof.
  apply preserves_start_under.
  - apply Inv_own_tick.
  - intros g' m' st w Hw.
    destruct st; [apply (sp_state _ SP)|apply (tp_state _ TP)|apply (tp_state _ TP)
                 |apply (sp_state _ SP)|apply (sp_state _ SP)]; auto.
  - apply (tp_spawn _ TP).
  - apply (tp_ttl _ TP).
  - apply (tp_failed _ TP).
Qed.

Lemma preserves_proxyRequest validURL g m :
  preserves Inv own_tick (proxyRequest validURL g m).
Proof.
  unfold proxyRequest. apply preserves_bind; [apply preserves_thisGroup|intros grp].
  destruct (negb (hasMember grp m)); [apply preserves_throw|].
  apply preserves_bind.
  { destruct (g_swap grp && negb (String.eqb (g_lastUsedProcess grp) m));
      [|apply preserves_ret].
    apply preserves_bind.
    - destruct (negb (String.eqb (g_lastUsedProcess grp) "")
                && has_key (g_lastUsedProcess grp) (g_processes grp));
        [|apply preserves_ret].
      apply preserves_bind; [apply preserves_this|intros old].
      destruct (state_eqb (p_state old) READY);
        [apply preserves_stop|apply preserves_ret].
    - intros _. apply preserves_bind; [apply preserves_start|intros ok].
      destruct (negb ok); [apply preserves_throw|].
      apply preserves_exec; intros; now apply (sp_lastUsed _ SP). }
  intros _. apply preserves_bind; [apply preserves_this|intros _].
  apply preserves_bind; [apply preserves_read|intros t].
  apply preserves_bind;
    [apply preserves_exec; intros; now apply (sp_add _ SP)|intros _].
  apply preserves_bind;
    [apply preserves_exec; intros; now apply (tp_respond _ TP)|intros _].
  apply preserves_exec; intros; now apply (sp_remove _ SP).
Qed.

End Ops.

(** ** The in-flight counter *)

Lemma inflight_nonneg_updProcess g m f w :
  (forall p, 0 <= p_inFlightRequests p -> 0 <= p_inFlightRequests (f p)) ->
  inflight_nonneg w -> inflight_nonneg (updProcess g m f w).
Proof.
  intros Hf Hw g' m' p' Hget.
  destruct (String.eqb_spec g' g) as [->|Hg];
    [destruct (String.eqb_spec m' m) as [->|Hm]|].
  - rewrite getProcess_updProcess_same in Hget.
    destruct (getProcess g m w) as [p|] eqn:E; simpl in Hget; [|discriminate].
    inversion Hget; subst. apply Hf. exact (Hw g m p E).
  - rewrite getProcess_updProcess_other in Hget by congruence. exact (Hw _ _ _ Hget).
  - rewrite getProcess_updProcess_other in Hget by congruence. exact (Hw _ _ _ Hget).
Qed.

Lemma inflight_nonneg_onProcess g m f w :
  (forall p, p_inFlightRequests (fst (f p)) = p_inFlightRequests p) ->
  inflight_nonneg w -> inflight_nonneg (onProcess g m f w).
Proof.
  intros Hf Hw. unfold onProcess.
  destruct (getProcess g m w) as [p|] eqn:E; [|exact Hw].
  pose proof (Hf p) as Hp. destruct (f p) as [p' es]. simpl in Hp.
  change (inflight_nonneg (updProcess g m (fun _ => p') w)).
  apply inflight_nonneg_updProcess; [|exact Hw].
  intros _ _. rewrite Hp. exact (Hw g m p E).
Qed.

Lemma inflight_nonneg_stop_prims : stop_prims inflight_nonneg.
Proof.
  constructor; try (intros; assumption).
  - intros g m st w _ Hw. now apply inflight_nonneg_onProcess.
  - intros g m w Hw. unfold stopCommandAt. now destruct (getProcess g m w).
  - intros g x w Hw g' m' p'. rewrite getProcess_updGroup_lastUsed. apply Hw.
  - intros g m t w Hw. apply inflight_nonneg_updProcess; [|exact Hw].
    intros p Hp. simpl. lia.
  - intros g m w Hw. apply inflight_nonneg_updProcess; [|exact Hw].
    intros p Hp. simpl. destruct (p_inFlightRequests p - 1 <? 0) eqn:E; lia.
Qed.

Lemma inflight_nonneg_start_prims : start_prims inflight_nonneg.
Proof.
  constructor.
  - intros g m st w _ Hw. now apply inflight_nonneg_onProcess.
  - intros g m id exe args w Hw.
    change (inflight_nonneg (updProcess g m (set_process (Some (nextPid w))) w)).
    now apply inflight_nonneg_updProcess.
  - intros g m w Hw. unfold startTTLCheck. now destruct (getProcess g m w).
  - intros g m w Hw. now apply inflight_nonneg_updProcess.
  - intros w Hw. exact Hw.
Qed.

Lemma inflight_nonneg_run_op validURL op s w :
  own_op (op, s) -> inflight_nonneg w -> inflight_nonneg (run_op validURL op s w).
Proof.
  intros [Hs Hop] Hw. simpl in Hs, Hop.
  pose proof inflight_nonneg_stop_prims as SP.
  pose proof inflight_nonneg_start_prims as TP.
  destruct op; simpl.
  - now apply (preserves_start _ SP TP).
  - now apply (preserves_stop _ SP).
  - now apply (preserves_stopProcess _ SP).
  - now apply (preserves_stopProcesses _ SP).
  - now apply (preserves_group_shutdown _ SP).
  - now apply (preserves_proxyRequest _ SP TP).
  - now apply (preserves_swapProcessGroup _ SP).
  - now apply (preserves_shutdownAll _ SP).
  - now apply (Inv_own_tick _ SP).
Qed.

Lemma inflight_nonneg_run_ops validURL l : forall w,
  Forall own_op l -> inflight_nonneg w -> inflight_nonneg (run_ops validURL l w).
Proof.
  induction l as [|[op s] l IH]; intros w Hl Hw; [exact Hw|].
  inversion Hl; subst. simpl. apply IH; [assumption|].
  now apply inflight_nonneg_run_op.
Qed.

(** Processes are never removed. *)
Lemma has_process_updProcess g m g' m' f w :
  has_process g m w -> has_process g m (updProcess g' m' f w).
Proof.
  intros [p Hp].
  destruct (String.eqb_spec g g') as [->|Hg];
    [destruct (String.eqb_spec m m') as [->|Hm]|].
  - exists (f p). now rewrite getProcess_updProcess_same, Hp.
  - exists p. now rewrite getProcess_updProcess_other by congruence.
  - exists p. now rewrite getProcess_updProcess_other by congruence.
Qed.

Lemma has_process_onProcess g m g' m' f w :
  has_process g m w -> has_process g m (onProcess g' m' f w).
Proof.
  intros H. unfold onProcess.
  destruct (getProcess g' m' w) as [q|]; [|exact H].
  destruct (f q) as [q' es].
  exact (has_process_updProcess g m g' m' (fun _ => q') w H).
Qed.

Lemma has_process_stop_prims g m : stop_prims (has_process g m).
Proof.
  constructor; try (intros; assumption).
  - intros; now apply has_process_onProcess.
  - intros g' m' w Hw. unfold stopCommandAt. now destruct (getProcess g' m' w).
  - intros g' x w [p Hp]. exists p. now rewrite getProcess_updGroup_lastUsed.
  - intros; now apply has_process_updProcess.
  - intros; now apply has_process_updProcess.
Qed.

Lemma wait_while_returned cond s : forall w w' s',
  wait_while cond w s = (Returned tt, w', s') -> cond w' = false.
Proof.
  induction s as [|t s IH]; intros w w' s' H; simpl in H.
  - destruct (cond w) eqn:E; [discriminate|]. now inversion H; subst.
  - destruct (cond w) eqn:E; [now apply IH in H|]. now inversion H; subst.
Qed.

Lemma stop_waiting_drains g m p w s w' s' :
  inflight_nonneg w -> Forall own_tick s ->
  getProcess g m w = Some p ->
  p_state p = STARTING \/ p_state p = READY ->
  stop g m WAIT_FOR_INFLIGHT w s = (Returned tt, w', s') ->
  inFlightOf g m w' = Some 0.
Proof.
  intros Hnn Hs Hp Hst Hstop.
  unfold stop, bind, this, orThrow in Hstop. rewrite Hp in Hstop.
  set (w1 := onProcess g m (setState STOPPING) w) in *.
  assert (Hrun : match wait_while (inFlight_positive g m) w1 s with
                 | (Returned _, w2, s2) => (Returned tt, stopCommandAt g m w2, s2)
                 | (Threw msg, w2, s2) => (Threw msg, w2, s2)
                 | (OutOfFuel, w2, s2) => (OutOfFuel, w2, s2)
                 end = (Returned tt, w', s')).
  { destruct Hst as [E|E]; rewrite E in Hstop; exact Hstop. }
  clear Hstop.
  assert (Hnn1 : inflight_nonneg w1)
    by (apply (sp_state _ inflight_nonneg_stop_prims); auto).
  assert (Hex1 : has_process g m w1)
    by (apply has_process_onProcess; now exists p).
  pose proof (preserves_wait_while inflight_nonneg own_tick
                (Inv_own_tick _ inflight_nonneg_stop_prims)
                (inFlight_positive g m) w1 s Hs Hnn1) as [Hnn2 _].
  pose proof (preserves_wait_while (has_process g m) own_tick
                (Inv_own_tick _ (has_process_stop_prims g m))
                (inFlight_positive g m) w1 s Hs Hex1) as [Hex2 _].
  destruct (wait_while (inFlight_positive g m) w1 s) as [[[[]|msg|] w2] s2] eqn:Ew;
    try discriminate.
  inversion Hrun; subst. unfold world_after in *; simpl in *.
  apply wait_while_returned in Ew.
  destruct Hex2 as [p2 Hp2].
  unfold inFlightOf, stopCommandAt. rewrite Hp2.
  change (getProcess g m (emit (stopCommand p2) w2)) with (getProcess g m w2).
  rewrite Hp2. simpl. f_equal.
  unfold inFlight_positive in Ew. rewrite Hp2 in Ew.
  pose proof (Hnn2 g m p2 Hp2). lia.
Qed.

Lemma lookup_In {A} k (v : A) l : lookup k l = Some v -> In (k, v) l.
Proof.
  induction l as [|[k' v'] l IH]; simpl; [discriminate|].
  destruct (String.eqb_spec k k') as [->|Hne].
  - intros H; inversion H; subst. now left.
  - intros H. right. now apply IH.
Qed.

Lemma inflight_check_sound w : inflight_check w = true -> inflight_nonneg w.
Proof.
  intros H g m p Hp. unfold getProcess in Hp.
  destruct (lookup g (processGroups w)) as [grp|] eqn:Eg; [|discriminate].
  apply lookup_In in Eg. apply lookup_In in Hp.
  unfold inflight_check in H. rewrite forallb_forall in H.
  specialize (H _ Eg). simpl in H. rewrite forallb_forall in H.
  specialize (H _ Hp). simpl in H. lia.
Qed.

(** C6 (amended).  The in-flight counter of every process is at least 0
    after every sequence of calls and events ([removeInFlightRequest]
    clamps at 0), also in the states in which a call is left suspended; and
    when [stop(WAIT_FOR_INFLIGHT)] has issued its stop command the counter
    of the process is 0.  Nothing ties the counter to the states STOPPED
    and SHUTDOWN. *)
Theorem inflight_nonneg_and_zero_after_waiting_stop :
  (forall validURL l w,
     Forall own_op l -> inflight_nonneg w ->
     inflight_nonneg (run_ops validURL l w)) /\
  (forall g m p w s w' s',
     inflight_nonneg w -> Forall own_tick s ->
     getProcess g m w = Some p ->
     p_state p = STARTING \/ p_state p = READY ->
     stop g m WAIT_FOR_INFLIGHT w s = (Returned tt, w', s') ->
     inFlightOf g m w' = Some 0).
Proof.
  split.
  - intros. now apply inflight_nonneg_run_ops.
  - intros. eapply stop_waiting_drains; eauto.
Qed.

Lemma inflight_nonneg_and_zero_after_waiting_stop_witness :
  inflight_nonneg
    (run_ops any_url
       [ex_start_A;
        (OpEnv (mkTick 10 [RequestBegin "G1" "A"] None), []);
        (OpEnv (mkTick 10 [RequestEnd "G1" "A"; RequestEnd "G1" "A"] None), [])]
       ex_cold) /\
  inFlightOf "G1" "A"
    (world_after (stop "G1" "A" WAIT_FOR_INFLIGHT ex_busy
                    [mkTick 100 [RequestEnd "G1" "A"] None])) = Some 0.
Proof.
  destruct inflight_nonneg_and_zero_after_waiting_stop as [H1 H2].
  split.
  - apply H1.
    + repeat constructor.
    + apply inflight_check_sound. reflexivity.
  - apply (H2 "G1" "A" (set_inFlightRequests 1 (ex_process "A" READY (Some 7%nat)))
              ex_busy [mkTick 100 [RequestEnd "G1" "A"] None]
              (world_after (stop "G1" "A" WAIT_FOR_INFLIGHT ex_busy
                              [mkTick 100 [RequestEnd "G1" "A"] None])) []).
    + apply inflight_check_sound. reflexivity.
    + repeat constructor.
    + reflexivity.
    + right. reflexivity.
    + vm_compute. reflexivity.
Defined.

(** C6 as stated fails: after a successful start of [A], a request begins
    and the child then exits; [A] is STOPPED with one request in flight. *)
Lemma inflight_positive_while_STOPPED :
  let w := run_ops any_url
             [ex_start_A;
              (OpEnv (mkTick 10 [RequestBegin "G1" "A"] None), []);
              (OpEnv (mkTick 10 [ChildExit 100] None), [])]
             ex_cold in
  stateOf "G1" "A" w = Some STOPPED /\ inFlightOf "G1" "A" w = Some 1 /\
  inFlightOf "G1" "A" w <> Some 0.
Proof. repeat split; vm_compute; try reflexivity. discriminate. Qed.

(** ** What a swap does not do *)

Lemma trace_onProcess_setState g m st w :
  trace (onProcess g m (setState st) w) =
  trace w ++ match getProcess g m w with
             | Some p => [StateChange (p_id p) (p_state p) st]
             | None => []
             end.
Proof.
  unfold onProcess. destruct (getProcess g m w); simpl; [reflexivity|].
  now rewrite app_nil_r.
Qed.

Lemma no_start_since_stop_prims t0 : stop_prims (no_start_since t0).
Proof.
  constructor; try (intros; assumption).
  - intros g m st w Hst [es0 [E H0]].
    exists (es0 ++ match getProcess g m w with
                   | Some p => [StateChange (p_id p) (p_state p) st]
                   | None => []
                   end).
    split.
    + rewrite trace_onProcess_setState, E. now rewrite app_assoc.
    + apply Forall_app. split; [exact H0|].
      destruct (getProcess g m w); constructor; [|constructor].
      destruct Hst as [ -> | [ -> | -> ] ]; simpl; tauto.
  - intros g m w [es0 [E H0]]. unfold stopCommandAt.
    destruct (getProcess g m w) as [p|]; [|now exists es0].
    exists (es0 ++ stopCommand p). split.
    + simpl. rewrite E. now rewrite app_assoc.
    + apply Forall_app. split; [exact H0|].
      unfold stopCommand. destruct (p_process p); [|constructor].
      destruct (cmdStop (p_config p)) as [c|];
        [destruct (String.eqb c "")|]; repeat constructor; simpl; tauto.
Qed.

Lemma same_groups_updProcess K g m f w :
  same_groups K w -> same_groups K (updProcess g m f w).
Proof. unfold same_groups, updProcess. simpl. now rewrite map_fst_adjust. Qed.

Lemma same_groups_stop_prims K : stop_prims (same_groups K).
Proof.
  constructor; try (intros; assumption).
  - intros g m st w _ Hw. unfold onProcess.
    destruct (getProcess g m w) as [p|]; [|exact Hw].
    simpl. exact (same_groups_updProcess K g m _ w Hw).
  - intros g m w Hw. unfold stopCommandAt. now destruct (getProcess g m w).
  - intros g x w Hw. unfold same_groups, updGroup. simpl. now rewrite map_fst_adjust.
  - intros; now apply same_groups_updProcess.
  - intros; now apply same_groups_updProcess.
Qed.

(** ** Calls that cannot throw *)

Section Safe.
Variable Inv Calm : World -> Prop.

Lemma safe_ret {A} (a : A) (P : World -> Prop) (Post : A -> World -> Prop) :
  (forall w, Inv w -> P w -> Post a w) -> safe Inv Calm P (ret a) Post.
Proof. intros H w s Hs Hi Hp. simpl. repeat split; auto. Qed.

Lemma safe_read {A} (f : World -> A) (P : World -> Prop) (Post : A -> World -> Prop) :
  (forall w, Inv w -> P w -> Post (f w) w) -> safe Inv Calm P (read f) Post.
Proof. intros H w s Hs Hi Hp. simpl. repeat split; auto. Qed.

Lemma safe_exec f (P : World -> Prop) (Post : unit -> World -> Prop) :
  (forall w, Inv w -> P w -> Inv (f w) /\ Post tt (f w)) ->
  (forall w, Inv w -> P w -> Calm w -> Calm (f w)) ->
  safe Inv Calm P (exec f) Post.
Proof.
  intros H Hc w s Hs Hi Hp. simpl. destruct (H w Hi Hp). repeat split; auto.
Qed.

Lemma safe_orThrow {A} msg (f : World -> option A) (P : World -> Prop)
  (Post : A -> World -> Prop) :
  (forall w, Inv w -> P w -> exists a, f w = Some a /\ Post a w) ->
  safe Inv Calm P (orThrow msg f) Post.
Proof.
  intros H w s Hs Hi Hp. unfold orThrow.
  destruct (H w Hi Hp) as [a [E Ha]]. rewrite E. repeat split; auto.
Qed.

Lemma safe_bind {A B} (c : Async A) (k : A -> Async B) P Mid Post :
  safe Inv Calm P c Mid -> (forall a, safe Inv Calm (Mid a) (k a) Post) ->
  safe Inv Calm P (bind c k) Post.
Proof.
  intros Hc Hk w s Hs Hi Hp. specialize (Hc w s Hs Hi Hp). unfold bind.
  destruct (c w s) as [[[a|msg|] w1] s1]; [|contradiction|exact Hc].
  destruct Hc as (Hi1 & Hm & Hs1 & Hcalm).
  specialize (Hk a w1 s1 Hs1 Hi1 Hm).
  destruct (k a w1 s1) as [[[b|msg|] w2] s2]; [|contradiction|].
  - destruct Hk as (Hi2 & Hpost & Hs2 & Hcalm2). repeat split; auto.
    + destruct (Hcalm H) as [-> Hc1]. now apply Hcalm2.
    + destruct (Hcalm H) as [-> Hc1]. now apply Hcalm2.
  - destruct Hk as [-> Hn]. split; [reflexivity|].
    intros Hcw. apply Hn. now apply Hcalm.
Qed.

Lemma safe_weaken {A} (c : Async A) (P P' : World -> Prop) (Post Post' : A -> World -> Prop) :
  (forall w, Inv w -> P' w -> P w) ->
  (forall a w, Inv w -> Post a w -> Post' a w) ->
  safe Inv Calm P c Post -> safe Inv Calm P' c Post'.
Proof.
  intros HP HPost Hc w s Hs Hi Hp. specialize (Hc w s Hs Hi (HP w Hi Hp)).
  destruct (c w s) as [[[a|msg|] w1] s1]; auto.
  destruct Hc as (Hi1 & Hm & Hs1 & Hcalm). repeat split; auto; now apply Hcalm.
Qed.

End Safe.

(** A call that is safe without any promise about calm states is safe
    with one wherever the precondition excludes a calm state. *)
Lemma safe_not_calm Inv Calm {A} (c : Async A) P Post :
  (forall w, Inv w -> P w -> ~ Calm w) ->
  safe Inv (fun _ => False) P c Post -> safe Inv Calm P c Post.
Proof.
  intros Hn Hc w s Hs Hi Hp. specialize (Hc w s Hs Hi Hp).
  destruct (c w s) as [[[a|msg|] w1] s1]; auto.
  - destruct Hc as (Hi1 & Hm & Hs1 & _).
    split; [auto|split; [auto|split; [auto|]]].
    intros Hcw. destruct (Hn w Hi Hp Hcw).
  - destruct Hc as [-> _]. split; [reflexivity|]. now apply Hn.
Qed.

Lemma wait_while_shape cond s : forall w,
  match wait_while cond w s with
  | (Threw _, _, _) => False
  | (OutOfFuel, _, s') => s' = []
  | (Returned _, _, _) => True
  end.
Proof.
  induction s as [|t s IH]; intros w; simpl.
  - now destruct (cond w).
  - destruct (cond w); [apply IH|exact I].
Qed.

Lemma safe_wait_while Inv cond P :
  (forall t w, own_tick t -> Inv w -> Inv (apply_tick t w)) ->
  safe Inv (fun _ => False) P (wait_while cond) (fun _ _ => True).
Proof.
  intros Htick w s Hs Hi _.
  pose proof (preserves_wait_while Inv own_tick Htick cond w s Hs Hi) as [H1 H2].
  pose proof (wait_while_shape cond s w) as H3.
  unfold world_after, schedule_after in *.
  destruct (wait_while cond w s) as [[[a|msg|] w1] s1]; simpl in *; try tauto.
Qed.

Lemma In_keys_lookup {A} k (l : list (string * A)) :
  In k (map fst l) -> exists v, lookup k l = Some v.
Proof.
  induction l as [|[k' v'] l IH]; simpl; [tauto|].
  intros [->|H].
  - rewrite String.eqb_refl. now exists v'.
  - destruct (String.eqb k k'); [now exists v'|now apply IH].
Qed.

Lemma lookup_In_keys {A} k (v : A) l : lookup k l = Some v -> In k (map fst l).
Proof. intros H. apply lookup_In in H. now apply (in_map fst) in H. Qed.

Lemma safe_of_shape Inv {A} (c : Async A) (P : World -> Prop) :
  preserves Inv own_tick c ->
  (forall w s, P w ->
     match c w s with
     | (Threw _, _, _) => False
     | (OutOfFuel, _, s') => s' = []
     | (Returned _, _, _) => True
     end) ->
  safe Inv (fun _ => False) P c (fun _ _ => True).
Proof.
  intros Hpres Hshape w s Hs Hi Hp.
  destruct (Hpres w s Hs Hi) as [H1 H2]. specialize (Hshape w s Hp).
  unfold world_after, schedule_after in *.
  destruct (c w s) as [[[a|msg|] w1] s1]; simpl in *; tauto.
Qed.

Lemma safe_stop K g m strategy :
  safe (same_groups K) (fun _ => False) (has_process g m) (stop g m strategy)
       (fun _ _ => True).
Proof.
  apply safe_of_shape; [apply preserves_stop, same_groups_stop_prims|].
  intros w s [p Hp]. unfold stop, bind, this, orThrow. rewrite Hp.
  destruct (p_state p), strategy; simpl; try exact I;
    match goal with
    | |- context [wait_while ?c ?w ?s] =>
        pose proof (wait_while_shape c s w) as H;
        destruct (wait_while c w s) as [[[a|msg|] w1] s1]; simpl; auto
    end.
Qed.

(** *** Calm states *)

Lemma calm_updProcess target g m f w :
  (forall p, p_inFlightRequests (f p) = p_inFlightRequests p) ->
  (forall p, p_state (f p) <> READY) ->
  calm target w -> calm target (updProcess g m f w).
Proof.
  intros Hf Hst [Hc1 Hc2]. split.
  - intros g' m' p' Hget.
    destruct (String.eqb_spec g' g) as [->|Hg];
      [destruct (String.eqb_spec m' m) as [->|Hm]|].
    + rewrite getProcess_updProcess_same in Hget.
      destruct (getProcess g m w) as [p|] eqn:E; simpl in Hget; [|discriminate].
      inversion Hget; subst. rewrite Hf. exact (Hc1 g m p E).
    + rewrite getProcess_updProcess_other in Hget by congruence. exact (Hc1 _ _ _ Hget).
    + rewrite getProcess_updProcess_other in Hget by congruence. exact (Hc1 _ _ _ Hget).
  - intros m' p' Hget.
    destruct (String.eqb_spec target g) as [->|Hg];
      [destruct (String.eqb_spec m' m) as [->|Hm]|].
    + rewrite getProcess_updProcess_same in Hget.
      destruct (getProcess g m w) as [p|] eqn:E; simpl in Hget; [|discriminate].
      inversion Hget; subst. apply Hst.
    + rewrite getProcess_updProcess_other in Hget by congruence. exact (Hc2 _ _ Hget).
    + rewrite getProcess_updProcess_other in Hget by congruence. exact (Hc2 _ _ Hget).
Qed.

Lemma calm_onProcess_setState target g m st w :
  st <> READY -> calm target w -> calm target (onProcess g m (setState st) w).
Proof.
  intros Hst Hc. rewrite onProcess_setState.
  destruct (getProcess g m w) as [p|]; [|exact Hc].
  change (calm target (updProcess g m (set_state st) w)).
  now apply calm_updProcess.
Qed.

Lemma calm_stopCommandAt target g m w :
  calm target w -> calm target (stopCommandAt g m w).
Proof. intros H. unfold stopCommandAt. now destruct (getProcess g m w). Qed.

Lemma calm_lastUsed target g x w :
  calm target w -> calm target (updGroup g (set_lastUsedProcess x) w).
Proof.
  intros [H1 H2]. split.
  - intros g' m' p'. rewrite getProcess_updGroup_lastUsed. apply H1.
  - intros m' p'. rewrite getProcess_updGroup_lastUsed. apply H2.
Qed.

Lemma calm_stopBeginAt target g m w :
  calm target w -> calm target (snd (stopBeginAt g m w)).
Proof.
  intros Hc. unfold stopBeginAt.
  destruct (getProcess g m w) as [p|]; [|exact Hc].
  destruct (p_state p); simpl; try exact Hc;
    apply calm_onProcess_setState; auto; discriminate.
Qed.

Lemma calm_stopBeginAll target g ms : forall w,
  calm target w -> calm target (snd (stopBeginAll g ms w)).
Proof.
  induction ms as [|m ms IH]; intros w Hw; simpl; [exact Hw|].
  pose proof (calm_stopBeginAt target g m w Hw) as H1.
  destruct (stopBeginAt g m w) as [go w1]; simpl in H1.
  specialize (IH w1 H1).
  destruct (stopBeginAll g ms w1) as [pending w2]; exact IH.
Qed.

Lemma calm_not_inFlight target g m w :
  calm target w -> inFlight_positive g m w = false.
Proof.
  intros [H _]. unfold inFlight_positive.
  destruct (getProcess g m w) as [p|] eqn:E; [|reflexivity].
  specialize (H g m p E). lia.
Qed.

Lemma pollInFlight_calm target g pending : forall w,
  calm target w ->
  fst (pollInFlight g pending w) = [] /\ calm target (snd (pollInFlight g pending w)).
Proof.
  induction pending as [|m l IH]; intros w Hw; simpl; [now split|].
  rewrite (calm_not_inFlight target g m w Hw).
  apply IH. now apply calm_stopCommandAt.
Qed.

Lemma awaitAllStopped_shape g s : forall pending w,
  match awaitAllStopped g pending w s with
  | (Threw _, _, _) => False
  | (OutOfFuel, _, s') => s' = []
  | (Returned _, _, _) => True
  end.
Proof.
  induction s as [|t s IH]; intros pending w; simpl;
    destruct (pollInFlight g pending w) as [pending' w'].
  - now destruct pending'.
  - destruct pending'; [exact I|apply IH].
Qed.

Lemma awaitAllStopped_calm target g pending w s :
  calm target w ->
  awaitAllStopped g pending w s = (Returned tt, snd (pollInFlight g pending w), s).
Proof.
  intros Hw. destruct (pollInFlight_calm target g pending w Hw) as [H1 _].
  destruct s as [|t s]; simpl;
    destruct (pollInFlight g pending w) as [pending' w']; simpl in *; now subst.
Qed.

Lemma safe_stopProcesses K target g :
  safe (same_groups K) (calm target) (fun _ => In g K)
       (stopProcesses g WAIT_FOR_INFLIGHT) (fun _ _ => True).
Proof.
  intros w s Hs Hi Hin.
  destruct (preserves_stopProcesses _ (same_groups_stop_prims K) g WAIT_FOR_INFLIGHT
              w s Hs Hi) as [H1 H2].
  unfold world_after, schedule_after in *.
  unfold stopProcesses, bind, thisGroup, orThrow in *.
  unfold same_groups in Hi. rewrite <- Hi in Hin.
  destruct (In_keys_lookup g _ Hin) as [grp Eg]. rewrite Eg in *.
  pose proof (calm_stopBeginAll target g (map fst (g_processes grp)) w) as Hc1.
  destruct (stopBeginAll g (map fst (g_processes grp)) w) as [pending w1].
  simpl in Hc1.
  pose proof (awaitAllStopped_shape g s pending w1) as Hshape.
  pose proof (awaitAllStopped_calm target g pending w1 s) as Hcalm.
  pose proof (pollInFlight_calm target g pending w1) as Hpoll.
  destruct (awaitAllStopped g pending w1 s) as [[[a|msg|] w2] s2]; simpl in *.
  - split; [exact H1|]. split; [exact I|]. split; [exact H2|].
    intros Hcw. specialize (Hcalm (Hc1 Hcw)). inversion Hcalm; subst.
    split; [reflexivity|]. now apply Hpoll, Hc1.
  - exact Hshape.
  - split; [exact Hshape|]. intros Hcw. specialize (Hcalm (Hc1 Hcw)). discriminate.
Qed.

Lemma safe_stopOtherGroups K target targetId gs :
  (forall k, In k (map fst gs) -> In k K) ->
  safe (same_groups K) (calm target) (fun _ => True)
       (stopOtherGroups targetId gs) (fun _ _ => True).
Proof.
  induction gs as [|[groupId otherGroup] gs IH]; intros Hk; simpl.
  - now apply safe_ret.
  - eapply safe_bind with (Mid := fun _ _ => True).
    + destruct (negb (String.eqb groupId targetId) && negb (g_persistent otherGroup));
        [|now apply safe_ret].
      eapply safe_bind with (Mid := fun _ _ => True).
      * eapply safe_weaken; [| |apply (safe_stopProcesses K target groupId)].
        -- intros w _ _. apply Hk. now left.
        -- auto.
      * intros _. apply safe_exec.
        -- intros w Hi _. split; [|exact I].
           now apply (sp_lastUsed _ (same_groups_stop_prims K)).
        -- intros w _ _ Hc. now apply calm_lastUsed.
    + intros _. apply IH. intros k Hin. apply Hk. now right.
Qed.

Lemma safe_pure Inv Calm {A} (phi : Prop) (P : World -> Prop) (c : Async A) Post :
  (phi -> safe Inv Calm P c Post) ->
  safe Inv Calm (fun w => phi /\ P w) c Post.
Proof. intros H w s Hs Hi [Hphi Hp]. exact (H Hphi w s Hs Hi Hp). Qed.

Lemma findGroup_In modelName gs k grp :
  findGroup modelName gs = Some (k, grp) -> In k (map fst gs).
Proof.
  induction gs as [|[k' g'] gs IH]; simpl; [discriminate|].
  destruct (hasMember g' modelName).
  - intros H; inversion H; subst. now left.
  - intros H. right. now apply IH.
Qed.

Lemma safe_swapProcessGroup name K target real grp :
  safe (same_groups K) (calm target)
       (fun w => resolveModelName name w = Some real /\
                 findGroupByModelName real w = Some (target, grp) /\
                 lastActiveGroup_valid w)
       (swapProcessGroup name)
       (fun r w' => r = (target, real) /\
                    lastActiveGroup w' = Some target /\
                    lastUsedOf target w' = Some real).
Proof.
  unfold swapProcessGroup.
  eapply safe_bind with
    (Mid := fun r w => r = real /\
                       (findGroupByModelName real w = Some (target, grp) /\
                        lastActiveGroup_valid w)).
  { apply safe_orThrow. intros w _ (H1 & H2 & H3). exists real. auto. }
  intros r. apply safe_pure. intros ->.
  eapply safe_bind with
    (Mid := fun found w => (found = (target, grp) /\ In target K) /\
                           lastActiveGroup_valid w).
  { apply safe_orThrow. intros w Hi (H2 & H3). exists (target, grp).
    repeat split; auto. unfold same_groups in Hi. rewrite <- Hi.
    exact (findGroup_In _ _ _ _ H2). }
  intros found. apply safe_pure. intros [-> HinT].
  eapply safe_bind with
    (Mid := fun last w => match last with Some l => In l K | None => True end /\ True).
  { apply safe_read. intros w Hi Hv. split; [|exact I].
    unfold lastActiveGroup_valid in Hv. unfold same_groups in Hi.
    destruct (lastActiveGroup w); [now rewrite <- Hi|exact I]. }
  intros last. apply safe_pure. intros Hlast.
  eapply safe_bind with (Mid := fun _ _ => True).
  { destruct last as [last|]; [|now apply safe_ret].
    eapply safe_bind with (Mid := fun _ _ => True); [now apply safe_read|].
    intros lp.
    destruct (negb (String.eqb last target) && negb lp && negb (g_persistent grp));
      [|now apply safe_ret].
    eapply safe_bind with (Mid := fun _ _ => True).
    - eapply safe_weaken; [| |apply (safe_stopProcesses K target last)]; auto.
    - intros _. apply safe_exec.
      + intros w Hi _. split; [|exact I].
        now apply (sp_lastUsed _ (same_groups_stop_prims K)).
      + intros w _ _ Hc. now apply calm_lastUsed. }
  intros _.
  eapply safe_bind with (Mid := fun _ _ => True).
  { destruct (g_exclusive grp); [|now apply safe_ret].
    eapply safe_bind with (Mid := fun gs w => map fst gs = K /\ True).
    - apply safe_read. intros w Hi _. split; [exact Hi|exact I].
    - intros gs. apply safe_pure. intros Hgs.
      apply safe_stopOtherGroups. intros k Hk. now rewrite <- Hgs. }
  intros _.
  eapply safe_bind with
    (Mid := fun grp' w => lookup target (processGroups w) = Some grp').
  { apply safe_orThrow. intros w Hi _. unfold same_groups in Hi.
    rewrite <- Hi in HinT. destruct (In_keys_lookup _ _ HinT) as [v Hv].
    now exists v. }
  intros grp'.
  eapply safe_bind with (Mid := fun _ _ => True).
  { destruct (g_swap grp' && negb (String.eqb (g_lastUsedProcess grp') real));
      [|now apply safe_ret].
    destruct (negb (String.eqb (g_lastUsedProcess grp') "")
              && has_key (g_lastUsedProcess grp') (g_processes grp')) eqn:Ehas;
      [|now apply safe_ret].
    apply andb_prop in Ehas. destruct Ehas as [_ Ehas].
    eapply safe_bind with
      (Mid := fun old w => getProcess target (g_lastUsedProcess grp') w = Some old).
    - apply safe_orThrow. intros w _ Hl. unfold getProcess. rewrite Hl.
      unfold has_key in Ehas.
      destruct (lookup (g_lastUsedProcess grp') (g_processes grp')) as [old|];
        [now exists old|discriminate].
    - intros old. destruct (state_eqb (p_state old) READY) eqn:Eready;
        [|now apply safe_ret].
      apply safe_not_calm.
      + intros w _ Hold [_ Hc]. apply (Hc _ _ Hold).
        now destruct (state_eqb_spec (p_state old) READY).
      + eapply safe_bind with (Mid := fun _ _ => True).
        * eapply safe_weaken; [| |apply (safe_stop K)]; auto.
          intros w _ Hold. now exists old.
        * intros _. apply safe_wait_while.
          apply Inv_own_tick, same_groups_stop_prims. }
  intros _.
  eapply safe_bind with (Mid := fun _ w => lastActiveGroup w = Some target).
  { apply safe_exec.
    - intros w Hi _. split; [exact Hi|reflexivity].
    - intros w _ _ Hc. exact Hc. }
  intros _.
  eapply safe_bind with
    (Mid := fun _ w => lastActiveGroup w = Some target /\
                       lastUsedOf target w = Some real).
  { apply safe_exec.
    - intros w Hi Hla. split; [|split].
      + now apply (sp_lastUsed _ (same_groups_stop_prims K)).
      + exact Hla.
      + unfold lastUsedOf, updGroup. simpl. rewrite lookup_adjust_same.
        unfold same_groups in Hi. rewrite <- Hi in HinT.
        destruct (In_keys_lookup _ _ HinT) as [v Hv]. now rewrite Hv.
    - intros w _ _ Hc. now apply calm_lastUsed. }
  intros _. apply safe_ret. intros w _ [H1 H2]. auto.
Qed.

(** ** The swap entry point *)

Lemma calm_check_sound target w : calm_check target w = true -> calm target w.
Proof.
  unfold calm_check. intros H. apply andb_prop in H. destruct H as [H1 H2]. split.
  - intros g m p Hp. unfold getProcess in Hp.
    destruct (lookup g (processGroups w)) as [grp|] eqn:Eg; [|discriminate].
    apply lookup_In in Eg. apply lookup_In in Hp.
    rewrite forallb_forall in H1. specialize (H1 _ Eg). simpl in H1.
    rewrite forallb_forall in H1. specialize (H1 _ Hp). simpl in H1. lia.
  - intros m p Hp. unfold getProcess in Hp.
    destruct (lookup target (processGroups w)) as [grp|]; [|discriminate].
    apply lookup_In in Hp. rewrite forallb_forall in H2.
    specialize (H2 _ Hp). simpl in H2. intros E. rewrite E in H2. discriminate.
Qed.

Lemma no_start_since_refl w : no_start_since (trace w) w.
Proof. exists []. split; [now rewrite app_nil_r|constructor]. Qed.

(** C1 (amended).  A call of [swapProcessGroup] with a name that resolves
    to the model [real] of the group [target] never calls [start]: it
    spawns no child and moves no process to STARTING or READY.  It does
    not throw; unless it is still suspended when the schedule ends, it
    returns the group [target] (not a [Process]) with the resolved model
    id, having recorded the group as [lastActiveGroup] and the model as
    the [lastUsedProcess] of the group.  When no request is in flight and
    no member of the target group is READY it returns without being
    suspended at all. *)
Theorem swap_returns_group_without_start name w s real target grp :
  resolveModelName name w = Some real ->
  findGroupByModelName real w = Some (target, grp) ->
  lastActiveGroup_valid w ->
  Forall own_tick s ->
  let r := swapProcessGroup name w s in
  no_start_since (trace w) (world_after r) /\
  ((outcome_of r = Returned (target, real) /\
    lastActiveGroup (world_after r) = Some target /\
    lastUsedOf target (world_after r) = Some real) \/
   (outcome_of r = OutOfFuel /\ schedule_after r = [])) /\
  (calm target w -> outcome_of r = Returned (target, real) /\ schedule_after r = s).
Proof.
  intros Hres Hfind Hvalid Hs r. split.
  - apply (preserves_swapProcessGroup _ (no_start_since_stop_prims (trace w))
             name w s Hs (no_start_since_refl w)).
  - pose proof (safe_swapProcessGroup name (map fst (processGroups w)) target real grp
                  w s Hs eq_refl (conj Hres (conj Hfind Hvalid))) as H.
    subst r. unfold outcome_of, world_after, schedule_after.
    destruct (swapProcessGroup name w s) as [[[a|msg|] w1] s1]; simpl.
    + destruct H as (_ & (-> & H2 & H3) & _ & Hc). split; [left; auto|].
      intros Hcalm. split; [reflexivity|]. now apply Hc.
    + contradiction.
    + destruct H as [-> Hn]. split; [right; auto|]. intros Hcalm. contradiction.
Qed.

Lemma swap_returns_group_without_start_witness :
  let r := swapProcessGroup "a" ex_warm [] in
  resolveModelName "a" ex_warm = Some "A" /\
  findGroupByModelName "A" ex_warm = Some ("G1", ex_G1 (ex_process "A" READY (Some 7%nat))
                                                     (ex_process "B" STOPPED None) "A") /\
  no_start_since (trace ex_warm) (world_after r) /\
  outcome_of r = Returned ("G1", "A") /\
  (let r' := swapProcessGroup "B" ex_cold [tick_idle] in
   outcome_of r' = Returned ("G1", "B") /\ schedule_after r' = [tick_idle]).
Proof.
  split; [reflexivity|]. split; [reflexivity|].
  destruct (swap_returns_group_without_start "a" ex_warm [] "A" "G1"
              (ex_G1 (ex_process "A" READY (Some 7%nat)) (ex_process "B" STOPPED None) "A")
              eq_refl eq_refl I (Forall_nil _)) as (H1 & H2 & _).
  split; [exact H1|]. split; [reflexivity|].
  destruct (swap_returns_group_without_start "B" ex_cold [tick_idle] "B" "G1"
              (ex_G1 (ex_process "A" STOPPED None) (ex_process "B" STOPPED None) "")
              eq_refl eq_refl I
              (Forall_cons _ (Forall_nil _ : own_tick tick_idle) (Forall_nil _)))
    as (_ & _ & H3).
  apply H3. apply calm_check_sound. reflexivity.
Defined.

(** C1 as stated fails: on the cold installation the call returns the
    group [G1] for the alias [a]; nothing was spawned and the process of
    [A] is STOPPED, not READY. *)
Lemma swap_leaves_target_STOPPED :
  let r := swapProcessGroup "a" ex_cold [] in
  outcome_of r = Returned ("G1", "A") /\
  trace (world_after r) = [] /\
  children (world_after r) = [] /\
  stateOf "G1" "A" (world_after r) = Some STOPPED /\
  stateOf "G1" "A" (world_after r) <> Some READY.
Proof. repeat split; vm_compute; try reflexivity. discriminate. Qed.

(** The previous member of a swap group is stopped, and the call waits for
    its child to exit, before the group is handed to the caller. *)
Example swap_stops_previous_member :
  let r := swapProcessGroup "B" ex_warm [tick_exit 7; tick_idle] in
  outcome_of r = Returned ("G1", "B") /\
  schedule_after r = [tick_idle] /\
  trace (world_after r) =
    [StateChange "A" READY STOPPING; Killed 7; StateChange "A" STOPPING STOPPED] /\
  stateOf "G1" "B" (world_after r) = Some STOPPED.
Proof. repeat split; vm_compute; reflexivity. Qed.

Lemma bind_Returned {A B} (c : Async A) (k : A -> Async B) w s b w' s' :
  bind c k w s = (Returned b, w', s') ->
  exists a w1 s1, c w s = (Returned a, w1, s1) /\ k a w1 s1 = (Returned b, w', s').
Proof.
  unfold bind. destruct (c w s) as [[[a|msg|] w1] s1]; try discriminate.
  intros H. now exists a, w1, s1.
Qed.

Lemma orThrow_Returned {A} msg (f : World -> option A) w s a w' s' :
  orThrow msg f w s = (Returned a, w', s') -> f w = Some a /\ w' = w /\ s' = s.
Proof.
  unfold orThrow. destruct (f w); [|discriminate].
  intros H; inversion H; subst. auto.
Qed.

(** C3 (amended).  After every successful call of [swapProcessGroup],
    [lastActiveGroup] is the target group, the group of the resolved
    model, whether that group is persistent or not. *)
Theorem swap_sets_lastActiveGroup name w s target real w' s' :
  swapProcessGroup name w s = (Returned (target, real), w', s') ->
  lastActiveGroup w' = Some target /\
  resolveModelName name w = Some real /\
  exists grp, findGroupByModelName real w = Some (target, grp).
Proof.
  unfold swapProcessGroup. intros H.
  apply bind_Returned in H as (real0 & w1 & s1 & H1 & H).
  apply orThrow_Returned in H1 as (Hres & -> & ->).
  apply bind_Returned in H as ([target0 grp] & w2 & s2 & H2 & H).
  apply orThrow_Returned in H2 as (Hfind & -> & ->).
  apply bind_Returned in H as (last & w3 & s3 & _ & H).
  apply bind_Returned in H as (? & w4 & s4 & _ & H).
  apply bind_Returned in H as (? & w5 & s5 & _ & H).
  apply bind_Returned in H as (grp' & w6 & s6 & _ & H).
  apply bind_Returned in H as (? & w7 & s7 & _ & H).
  apply bind_Returned in H as (? & w8 & s8 & H8 & H).
  apply bind_Returned in H as (? & w9 & s9 & H9 & H).
  unfold exec in H8, H9. unfold ret in H.
  inversion H8; inversion H9; inversion H; subst.
  split; [reflexivity|]. split; [assumption|]. now exists grp.
Qed.

Lemma swap_sets_lastActiveGroup_witness :
  swapProcessGroup "B" ex_warm [tick_exit 7]
    = (Returned ("G1", "B"),
       world_after (swapProcessGroup "B" ex_warm [tick_exit 7]), []) /\
  lastActiveGroup (world_after (swapProcessGroup "B" ex_warm [tick_exit 7]))
    = Some "G1".
Proof.
  split; [vm_compute; reflexivity|].
  apply (swap_sets_lastActiveGroup "B" ex_warm [tick_exit 7] "G1" "B"
           (world_after (swapProcessGroup "B" ex_warm [tick_exit 7])) []).
  vm_compute; reflexivity.
Defined.

(** C3 as stated fails: a call for the model [D] of the persistent group
    [GP] succeeds and leaves [GP] as [lastActiveGroup]. *)
Lemma persistent_group_becomes_lastActiveGroup :
  let r := swapProcessGroup "D" ex_cold [] in
  outcome_of r = Returned ("GP", "D") /\
  persistent_of "GP" ex_cold = true /\
  lastActiveGroup ex_cold = None /\
  lastActiveGroup (world_after r) = Some "GP".
Proof. repeat split; vm_compute; reflexivity. Qed.

(** ** The [shutdown] flag is never read *)

Lemma blind_ret {A} (a : A) : flag_blind (ret a).
Proof. intros b w s Hs. now split. Qed.

Lemma blind_read {A} (f : World -> A) :
  (forall b w, f (set_shutdown b w) = f w) -> flag_blind (read f).
Proof. intros Hf b w s Hs. unfold read, with_shutdown. simpl. now rewrite Hf. Qed.

Lemma blind_exec f :
  (forall b w, f (set_shutdown b w) = set_shutdown b (f w)) -> flag_blind (exec f).
Proof. intros Hf b w s Hs. unfold exec, with_shutdown. simpl. now rewrite Hf. Qed.

Lemma blind_orThrow {A} msg (f : World -> option A) :
  (forall b w, f (set_shutdown b w) = f w) -> flag_blind (orThrow msg f).
Proof.
  intros Hf b w s Hs. unfold orThrow, with_shutdown. rewrite Hf.
  now destruct (f w).
Qed.

Lemma blind_bind {A B} (c : Async A) (k : A -> Async B) :
  flag_blind c -> (forall a, flag_blind (k a)) -> flag_blind (bind c k).
Proof.
  intros Hc Hk b w s Hs. destruct (Hc b w s Hs) as [E Hs1].
  unfold bind. rewrite E. unfold with_shutdown, outcome_of, world_after, schedule_after in *.
  destruct (c w s) as [[[a|msg|] w1] s1]; simpl in *; try now split.
  exact (Hk a b w1 s1 Hs1).
Qed.

Lemma blind_onProcess g m f b w :
  onProcess g m f (set_shutdown b w) = set_shutdown b (onProcess g m f w).
Proof.
  unfold onProcess.
  change (getProcess g m (set_shutdown b w)) with (getProcess g m w).
  destruct (getProcess g m w) as [p|]; [|reflexivity].
  now destruct (f p).
Qed.

Lemma blind_stopCommandAt g m b w :
  stopCommandAt g m (set_shutdown b w) = set_shutdown b (stopCommandAt g m w).
Proof.
  unfold stopCommandAt.
  change (getProcess g m (set_shutdown b w)) with (getProcess g m w).
  now destruct (getProcess g m w).
Qed.

Lemma blind_stopBeginAt g m b w :
  stopBeginAt g m (set_shutdown b w) =
  (fst (stopBeginAt g m w), set_shutdown b (snd (stopBeginAt g m w))).
Proof.
  unfold stopBeginAt.
  change (getProcess g m (set_shutdown b w)) with (getProcess g m w).
  destruct (getProcess g m w) as [p|]; [|reflexivity].
  destruct (p_state p); simpl; try reflexivity; now rewrite blind_onProcess.
Qed.

Lemma blind_stopNow g m b w :
  stopNow g m (set_shutdown b w) = set_shutdown b (stopNow g m w).
Proof.
  unfold stopNow. rewrite blind_stopBeginAt.
  destruct (stopBeginAt g m w) as [go w1]; simpl.
  destruct go; [apply blind_stopCommandAt|reflexivity].
Qed.

Lemma blind_ttlCallback g m b w :
  ttlCallback g m (set_shutdown b w) = set_shutdown b (ttlCallback g m w).
Proof.
  unfold ttlCallback.
  change (getProcess g m (set_shutdown b w)) with (getProcess g m w).
  destruct (getProcess g m w) as [p|]; [|reflexivity].
  destruct (negb (state_eqb (p_state p) READY)); [reflexivity|].
  destruct (p_inFlightRequests p >? 0); [reflexivity|].
  change (now (set_shutdown b w)) with (now w).
  destruct (now w - p_lastRequestHandled p >? unloadAfter (p_config p) * 1000);
    [|reflexivity].
  rewrite blind_stopNow. reflexivity.
Qed.

Lemma blind_action a b w :
  own_action a ->
  apply_action a (set_shutdown b w) = set_shutdown b (apply_action a w).
Proof.
  intros Ha. destruct a as [pid|g m|g m|g m|f]; simpl.
  - destruct (child_owner pid (children w)) as [[g m]|]; [|reflexivity].
    apply (blind_onProcess g m handleProcessExit b
             (set_children (remove_child pid (children w)) w)).
  - reflexivity.
  - reflexivity.
  - destruct (has_timer g m (ttlTimers w)); [apply blind_ttlCallback|reflexivity].
  - destruct Ha.
Qed.

Lemma blind_actions l : forall b w,
  Forall own_action l ->
  apply_actions l (set_shutdown b w) = set_shutdown b (apply_actions l w).
Proof.
  induction l as [|a l IH]; intros b w Hl; [reflexivity|].
  inversion Hl; subst. unfold apply_actions in *. simpl.
  rewrite blind_action by assumption. now apply IH.
Qed.

Lemma blind_tick t b w :
  own_tick t -> apply_tick t (set_shutdown b w) = set_shutdown b (apply_tick t w).
Proof.
  intros Ht. unfold apply_tick.
  exact (blind_actions (events t) b (set_now (now w + elapsed t) w) Ht).
Qed.

Lemma blind_wait_while cond :
  (forall b w, cond (set_shutdown b w) = cond w) -> flag_blind (wait_while cond).
Proof.
  intros Hc b w s. revert w.
  induction s as [|t s IH]; intros w Hs; simpl; rewrite Hc.
  - destruct (cond w); now split.
  - inversion Hs; subst. destruct (cond w); [|now split].
    rewrite blind_tick by assumption. now apply IH.
Qed.

Lemma blind_stopBeginAll g ms : forall b w,
  stopBeginAll g ms (set_shutdown b w) =
  (fst (stopBeginAll g ms w), set_shutdown b (snd (stopBeginAll g ms w))).
Proof.
  induction ms as [|m ms IH]; intros b w; simpl; [reflexivity|].
  rewrite blind_stopBeginAt. destruct (stopBeginAt g m w) as [go w1]; simpl.
  rewrite IH. now destruct (stopBeginAll g ms w1).
Qed.

Lemma blind_pollInFlight g pending : forall b w,
  pollInFlight g pending (set_shutdown b w) =
  (fst (pollInFlight g pending w), set_shutdown b (snd (pollInFlight g pending w))).
Proof.
  induction pending as [|m l IH]; intros b w; simpl; [reflexivity|].
  change (inFlight_positive g m (set_shutdown b w)) with (inFlight_positive g m w).
  destruct (inFlight_positive g m w).
  - rewrite IH. now destruct (pollInFlight g l w).
  - rewrite blind_stopCommandAt. apply IH.
Qed.

Lemma blind_awaitAllStopped g pending : flag_blind (awaitAllStopped g pending).
Proof.
  intros b w s. revert pending w.
  induction s as [|t s IH]; intros pending w Hs; simpl;
    rewrite blind_pollInFlight;
    destruct (pollInFlight g pending w) as [pending' w']; simpl.
  - destruct pending'; now split.
  - inversion Hs; subst. destruct pending'; [now split|].
    rewrite blind_tick by assumption. now apply IH.
Qed.

Lemma blind_stop g m strategy : flag_blind (stop g m strategy).
Proof.
  unfold stop. apply blind_bind; [now apply blind_orThrow|intros p].
  destruct (p_state p); try apply blind_ret;
    (apply blind_bind; [apply blind_exec; intros; apply blind_onProcess|intros _];
     apply blind_bind;
     [destruct strategy; [apply blind_ret|now apply blind_wait_while]
     |intros _; apply blind_exec; intros; apply blind_stopCommandAt]).
Qed.

Lemma blind_stopCommandAll g pending : forall b w,
  stopCommandAll g pending (set_shutdown b w) = set_shutdown b (stopCommandAll g pending w).
Proof.
  induction pending as [|m l IH]; intros b w; [reflexivity|].
  unfold stopCommandAll in *. simpl. rewrite blind_stopCommandAt. apply IH.
Qed.

Lemma blind_stopProcesses g strategy : flag_blind (stopProcesses g strategy).
Proof.
  unfold stopProcesses. apply blind_bind; [now apply blind_orThrow|intros grp].
  intros b w s Hs. rewrite blind_stopBeginAll.
  destruct (stopBeginAll g (map fst (g_processes grp)) w) as [pending w1]; simpl.
  destruct strategy.
  - rewrite blind_stopCommandAll. now split.
  - now apply blind_awaitAllStopped.
Qed.

Lemma blind_stopOtherGroups targetId gs : flag_blind (stopOtherGroups targetId gs).
Proof.
  induction gs as [|[groupId otherGroup] gs IH]; simpl; [apply blind_ret|].
  apply blind_bind; [|intros _; exact IH].
  destruct (negb (String.eqb groupId targetId) && negb (g_persistent otherGroup));
    [|apply blind_ret].
  apply blind_bind; [apply blind_stopProcesses|intros _].
  now apply blind_exec.
Qed.

Lemma blind_swapProcessGroup name : flag_blind (swapProcessGroup name).
Proof.
  unfold swapProcessGroup.
  apply blind_bind; [now apply blind_orThrow|intros real].
  apply blind_bind; [now apply blind_orThrow|intros [target grp]].
  apply blind_bind; [now apply blind_read|intros last].
  apply blind_bind.
  { destruct last as [last|]; [|apply blind_ret].
    apply blind_bind; [now apply blind_read|intros lp].
    destruct (negb (String.eqb last target) && negb lp && negb (g_persistent grp));
      [|apply blind_ret].
    apply blind_bind; [apply blind_stopProcesses|intros _].
    now apply blind_exec. }
  intros _. apply blind_bind.
  { destruct (g_exclusive grp); [|apply blind_ret].
    apply blind_bind; [now apply blind_read|intros gs].
    apply blind_stopOtherGroups. }
  intros _. apply blind_bind; [now apply blind_orThrow|intros grp'].
  apply blind_bind.
  { destruct (g_swap grp' && negb (String.eqb (g_lastUsedProcess grp') real));
      [|apply blind_ret].
    destruct (negb (String.eqb (g_lastUsedProcess grp') "")
              && has_key (g_lastUsedProcess grp') (g_processes grp'));
      [|apply blind_ret].
    apply blind_bind; [now apply blind_orThrow|intros old].
    destruct (state_eqb (p_state old) READY); [|apply blind_ret].
    apply blind_bind; [apply blind_stop|intros _].
    now apply blind_wait_while. }
  intros _.
  apply blind_bind; [now apply blind_exec|intros _].
  apply blind_bind; [now apply blind_exec|intros _].
  apply blind_ret.
Qed.

Lemma blind_shutdownBegin g ms : forall b w,
  shutdownBegin g ms (set_shutdown b w) =
  (fst (shutdownBegin g ms w), set_shutdown b (snd (shutdownBegin g ms w))).
Proof.
  induction ms as [|m ms IH]; intros b w; simpl; [reflexivity|].
  rewrite blind_stopBeginAt. destruct (stopBeginAt g m w) as [go w1]; simpl.
  rewrite blind_onProcess, IH.
  now destruct (shutdownBegin g ms (onProcess g m (setState SHUTDOWN) w1)).
Qed.

Lemma blind_shutdownBeginAll gs : forall b w,
  shutdownBeginAll gs (set_shutdown b w) =
  (fst (shutdownBeginAll gs w), set_shutdown b (snd (shutdownBeginAll gs w))).
Proof.
  induction gs as [|[g grp] gs IH]; intros b w; simpl; [reflexivity|].
  rewrite blind_shutdownBegin.
  destruct (shutdownBegin g (map fst (g_processes grp)) w) as [pending w1]; simpl.
  rewrite IH. now destruct (shutdownBeginAll gs w1).
Qed.

Lemma shutdownAll_sets_flag w s :
  outcome_of (shutdownAll w s) = Returned tt /\
  shutdown (world_after (shutdownAll w s)) = true.
Proof.
  unfold shutdownAll, bind, exec.
  change (processGroups (set_shutdown true w)) with (processGroups w).
  rewrite blind_shutdownBeginAll.
  destruct (shutdownBeginAll (processGroups w) w) as [pending w1].
  unfold outcome_of, world_after. simpl. split; [reflexivity|].
  revert w1. induction pending as [|[g m] l IH]; intros w1; [reflexivity|].
  simpl. rewrite blind_stopCommandAt. apply IH.
Qed.

(** C5 (amended).  [shutdownAll] sets the [shutdown] flag and returns, but
    [swapProcessGroup] never consults the flag: called with the flag set
    it resolves the name, stops what its policy tells it to stop and
    returns (or throws) exactly as it does with the flag clear, and it
    leaves the flag as it found it. *)
Theorem swap_ignores_shutdown_flag :
  (forall w s,
     outcome_of (shutdownAll w s) = Returned tt /\
     shutdown (world_after (shutdownAll w s)) = true) /\
  (forall name b w s,
     Forall own_tick s ->
     swapProcessGroup name (set_shutdown b w) s
       = with_shutdown b (swapProcessGroup name w s)).
Proof.
  split.
  - apply shutdownAll_sets_flag.
  - intros name b w s Hs. now apply blind_swapProcessGroup.
Qed.

Lemma swap_ignores_shutdown_flag_witness :
  let w1 := world_after (shutdownAll ex_warm []) in
  shutdown w1 = true /\
  swapProcessGroup "B" w1 [tick_exit 7]
    = with_shutdown true (swapProcessGroup "B" (set_shutdown false w1) [tick_exit 7]) /\
  outcome_of (swapProcessGroup "B" (set_shutdown false w1) [tick_exit 7])
    = Returned ("G1", "B").
Proof.
  destruct swap_ignores_shutdown_flag as [H1 H2].
  split; [apply (H1 ex_warm [])|]. split; [|vm_compute; reflexivity].
  refine (eq_trans _ (H2 "B" true
                         (set_shutdown false (world_after (shutdownAll ex_warm [])))
                         [tick_exit 7] _)).
  - vm_compute. reflexivity.
  - repeat constructor.
Defined.

(** C5 as stated fails: after [shutdownAll] a call for the alias [a]
    returns the group and the model id; nothing is thrown. *)
Lemma swap_succeeds_after_shutdownAll :
  let w1 := world_after (shutdownAll ex_warm []) in
  shutdown w1 = true /\
  outcome_of (swapProcessGroup "a" w1 []) = Returned ("G1", "A") /\
  forall msg, outcome_of (swapProcessGroup "a" w1 []) <> Threw msg.
Proof.
  repeat split; try (vm_compute; reflexivity).
  intros msg. vm_compute. discriminate.
Qed.

(** ** Hoare triples *)

Section Hoare.
Variable okTick : Tick -> Prop.

Lemma hoare_ret {A} (a : A) (P : World -> Prop) Q E F :
  (forall w, P w -> Q a w) -> hoare okTick P (ret a) Q E F.
Proof. intros H w s Hs Hp. simpl. auto. Qed.

Lemma hoare_throw {A} msg (P : World -> Prop) (Q : A -> World -> Prop) E F :
  (forall w, P w -> E w) -> hoare okTick P (throw msg) Q E F.
Proof. intros H w s Hs Hp. simpl. auto. Qed.

Lemma hoare_read {A} (f : World -> A) (P : World -> Prop) Q E F :
  (forall w, P w -> Q (f w) w) -> hoare okTick P (read f) Q E F.
Proof. intros H w s Hs Hp. simpl. auto. Qed.

Lemma hoare_exec f (P : World -> Prop) Q E F :
  (forall w, P w -> Q tt (f w)) -> hoare okTick P (exec f) Q E F.
Proof. intros H w s Hs Hp. simpl. auto. Qed.

Lemma hoare_orThrow {A} msg (f : World -> option A) (P : World -> Prop) Q E F :
  (forall w a, P w -> f w = Some a -> Q a w) ->
  (forall w, P w -> f w = None -> E w) ->
  hoare okTick P (orThrow msg f) Q E F.
Proof.
  intros H1 H2 w s Hs Hp. unfold orThrow.
  destruct (f w) as [a|] eqn:Ef; auto.
Qed.

Lemma hoare_bind {A B} (c : Async A) (k : A -> Async B) P Mid Q E F :
  hoare okTick P c Mid E F -> (forall a, hoare okTick (Mid a) (k a) Q E F) ->
  hoare okTick P (bind c k) Q E F.
Proof.
  intros Hc Hk w s Hs Hp. specialize (Hc w s Hs Hp). unfold bind.
  destruct (c w s) as [[[a|msg|] w1] s1]; try exact Hc.
  destruct Hc as [Hm Hs1]. exact (Hk a w1 s1 Hs1 Hm).
Qed.

Lemma hoare_try_catch {A} (c : Async A) h P Q E' E F :
  hoare okTick P c Q E' F -> (forall msg, hoare okTick E' (h msg) Q E F) ->
  hoare okTick P (try_catch c h) Q E F.
Proof.
  intros Hc Hh w s Hs Hp. specialize (Hc w s Hs Hp). unfold try_catch.
  destruct (c w s) as [[[a|msg|] w1] s1]; try exact Hc.
  destruct Hc as [He Hs1]. exact (Hh msg w1 s1 Hs1 He).
Qed.

Lemma hoare_weaken {A} (c : Async A) (P P' : World -> Prop)
  (Q Q' : A -> World -> Prop) (E E' F F' : World -> Prop) :
  (forall w, P' w -> P w) -> (forall a w, Q a w -> Q' a w) ->
  (forall w, E w -> E' w) -> (forall w, F w -> F' w) ->
  hoare okTick P c Q E F -> hoare okTick P' c Q' E' F'.
Proof.
  intros HP HQ HE HF Hc w s Hs Hp. specialize (Hc w s Hs (HP w Hp)).
  destruct (c w s) as [[[a|msg|] w1] s1]; intuition.
Qed.

(** A method that keeps an invariant satisfies the triple that says so. *)
Lemma hoare_preserves {A} (c : Async A) (Inv : World -> Prop) :
  preserves Inv okTick c -> hoare okTick Inv c (fun _ => Inv) Inv Inv.
Proof.
  intros Hc w s Hs Hw. destruct (Hc w s Hs Hw) as [H1 H2].
  unfold world_after, schedule_after in *.
  destruct (c w s) as [[[a|msg|] w1] s1]; simpl in *; auto.
Qed.

End Hoare.

(** ** The lifecycle *)

Lemma stateOf_updProcess_keep g m g' m' f w :
  (forall p, p_state (f p) = p_state p) ->
  stateOf g m (updProcess g' m' f w) = stateOf g m w.
Proof.
  intros Hf. unfold stateOf.
  destruct (String.eqb_spec g g') as [->|Hg];
    [destruct (String.eqb_spec m m') as [->|Hm]|].
  - rewrite getProcess_updProcess_same.
    destruct (getProcess g' m' w); simpl; [now rewrite Hf|reflexivity].
  - now rewrite getProcess_updProcess_other by congruence.
  - now rewrite getProcess_updProcess_other by congruence.
Qed.

Lemma stateOf_onProcess_setState g m g' m' st w :
  stateOf g m (onProcess g' m' (setState st) w) =
  match getProcess g' m' w with
  | Some _ => if String.eqb g g' && String.eqb m m' then Some st else stateOf g m w
  | None => stateOf g m w
  end.
Proof.
  rewrite onProcess_setState.
  destruct (getProcess g' m' w) as [p|] eqn:E; [|reflexivity].
  unfold stateOf.
  change (getProcess g m (emit [StateChange (p_id p) (p_state p) st]
                            (updProcess g' m' (set_state st) w)))
    with (getProcess g m (updProcess g' m' (set_state st) w)).
  destruct (String.eqb_spec g g') as [->|Hg];
    [destruct (String.eqb_spec m m') as [->|Hm]|]; simpl.
  - now rewrite getProcess_updProcess_same, E.
  - now rewrite getProcess_updProcess_other by congruence.
  - now rewrite getProcess_updProcess_other by congruence.
Qed.







Lemma quiet_action_same a w :
  quiet_action a ->
  trace (apply_action a w) = trace w /\
  forall g m, stateOf g m (apply_action a w) = stateOf g m w.
Proof.
  destruct a; simpl; try tauto; intros _; (split; [reflexivity|]); intros g' m';
    now apply stateOf_updProcess_keep.
Qed.

Lemma quiet_actions_same l : forall w,
  Forall quiet_action l ->
  trace (apply_actions l w) = trace w /\
  forall g m, stateOf g m (apply_actions l w) = stateOf g m w.
Proof.
  induction l as [|a l IH]; intros w Hl; [now split|].
  inversion Hl; subst. unfold apply_actions in *. simpl.
  destruct (quiet_action_same a w H1) as [E1 S1].
  destruct (IH (apply_action a w) H2) as [E2 S2]. split.
  - now rewrite E2.
  - intros g m. now rewrite S2.
Qed.

Lemma quiet_tick_same t w :
  quiet_tick t ->
  trace (apply_tick t w) = trace w /\
  forall g m, stateOf g m (apply_tick t w) = stateOf g m w.
Proof.
  intros Ht. unfold apply_tick.
  exact (quiet_actions_same (events t) (set_now (now w + elapsed t) w) Ht).
Qed.





Lemma stateOf_spawnChild g' m' g m id exe args w :
  stateOf g' m' (spawnChild g m id exe args w) = stateOf g' m' w.
Proof.
  exact (stateOf_updProcess_keep g' m' g m (set_process (Some (nextPid w))) w
           (fun _ => eq_refl)).
Qed.


Lemma stateOf_startTTLCheck g' m' g m w :
  stateOf g' m' (startTTLCheck g m w) = stateOf g' m' w.
Proof. unfold startTTLCheck. now destruct (getProcess g m w). Qed.











(** The exit handler has no case for SHUTDOWN: when the child of a process
    that was shut down exits, the process goes from SHUTDOWN to STOPPED. *)
Example exit_handler_leaves_SHUTDOWN :
  let w := run_ops any_url
             [ex_start_A; (OpGroupShutdown "G1", []); (OpEnv (tick_exit 100), [])]
             ex_cold in
  trace w =
    [StateChange "A" STOPPED STARTING;
     Spawned "A" "llama-server" ["--port"; "5800"] 100;
     StateChange "A" STARTING READY;
     StateChange "A" READY STOPPING;
     StateChange "A" STOPPING SHUTDOWN;
     StateChange "B" STOPPED SHUTDOWN;
     Killed 100;
     StateChange "A" SHUTDOWN STOPPED] /\
  stateOf "G1" "A" w = Some STOPPED.
Proof. vm_compute. split; reflexivity. Qed.

(** ** The health-check deadline *)

Lemma no_kill_since_refl w : no_kill_since (trace w) w.
Proof. exists []. split; [now rewrite app_nil_r|constructor]. Qed.

Lemma no_kill_since_emit t0 es w :
  Forall (fun e => match e with Killed _ | Executed _ => False | _ => True end) es ->
  no_kill_since t0 w -> no_kill_since t0 (emit es w).
Proof.
  intros Hes [es0 [E H0]]. exists (es0 ++ es). split.
  - simpl. now rewrite E, app_assoc.
  - now apply Forall_app.
Qed.

(** On no path does [start] kill the child or run the stop command. *)
Lemma start_never_stops_child validURL g m w s :
  Forall quiet_tick s ->
  no_kill_since (trace w) (world_after (start validURL g m w s)).
Proof.
  intros Hs.
  apply (preserves_start_under (no_kill_since (trace w)) quiet_tick); auto.
  - intros t w' Ht [es [E H]]. exists es. split; [|exact H].
    destruct (quiet_tick_same t w' Ht) as [Et _]. now rewrite Et.
  - intros g' m' st w' H. rewrite onProcess_setState.
    destruct (getProcess g' m' w'); [|exact H].
    apply (no_kill_since_emit (trace w) _ (updProcess g' m' (set_state st) w'));
      [repeat constructor|exact H].
  - intros g' m' id exe args w' H.
    apply (no_kill_since_emit (trace w) [Spawned id exe args (nextPid w')]
             (set_children (children w' ++ [(nextPid w', (g', m'))])
                (set_nextPid (S (nextPid w'))
                   (updProcess g' m' (set_process (Some (nextPid w'))) w'))));
      [repeat constructor|exact H].
  - intros g' m' w' H. unfold startTTLCheck.
    destruct (getProcess g' m' w') as [p|]; [|exact H].
    apply (no_kill_since_emit (trace w) [TTLArmed (p_id p)]
             (set_ttlTimers (ttlTimers w' ++ [(g', m')]) w'));
      [repeat constructor|exact H].
  - apply no_kill_since_refl.
Qed.

(** C4, the code at scenario S5.  With a health endpoint that never
    answers and a deadline of 15 s, [start] gives up after 15.015 s: it
    returns [false] and the process is STOPPED, but the child (pid 100) was
    not killed: it is still running and still referenced by the process.
    Nothing can stop it any more ([stop] returns at once in STOPPED), and
    the next [start] spawns a second child next to it. *)
Theorem start_health_timeout_leaves_child_running :
  let r := start any_url "G" "S" ex_S5 ex_S5_schedule in
  outcome_of r = Returned false /\
  schedule_after r = [] /\
  now (world_after r) = 15265 /\
  stateOf "G" "S" (world_after r) = Some STOPPED /\
  trace (world_after r) =
    [StateChange "S" STOPPED STARTING;
     Spawned "S" "/bin/sleep" ["999"] 100;
     StateChange "S" STARTING STOPPED] /\
  children (world_after r) = [(100%nat, ("G", "S"))] /\
  option_map p_process (getProcess "G" "S" (world_after r)) = Some (Some 100%nat) /\
  world_after (stop "G" "S" IMMEDIATELY (world_after r) []) = world_after r /\
  children (world_after (start any_url "G" "S" (world_after r)
                           [mkTick 250 [] None; mkTick 5 [] (Some 200)]))
    = [(100%nat, ("G", "S")); (101%nat, ("G", "S"))].
Proof. vm_compute. repeat split; reflexivity. Qed.

(** ** [stop] and [start] on a process that needs neither *)

(** C8. [stop] is a no-op when the state is STOPPED, STOPPING or SHUTDOWN,
    whatever the strategy: it returns at once (no tick of the schedule is
    consumed) and the whole program state is unchanged, so the state of the
    process is the same, no [stateChange] event is emitted and no stop
    command or signal is issued. *)
Theorem stop_noop_when_not_running g m strategy w s p :
  getProcess g m w = Some p ->
  p_state p = STOPPED \/ p_state p = STOPPING \/ p_state p = SHUTDOWN ->
  stop g m strategy w s = (Returned tt, w, s).
Proof.
  intros Hp Hst. unfold stop, bind, this, orThrow. rewrite Hp.
  destruct Hst as [H|[H|H]]; rewrite H; reflexivity.
Qed.

Lemma stop_noop_when_not_running_witness :
  getProcess "G1" "A" ex_cold = Some (ex_process "A" STOPPED None) /\
  (p_state (ex_process "A" STOPPED None) = STOPPED \/
   p_state (ex_process "A" STOPPED None) = STOPPING \/
   p_state (ex_process "A" STOPPED None) = SHUTDOWN) /\
  stop "G1" "A" WAIT_FOR_INFLIGHT ex_cold [mkTick 100 [] None]
    = (Returned tt, ex_cold, [mkTick 100 [] None]).
Proof.
  split; [reflexivity|]. split; [left; reflexivity|].
  apply (stop_noop_when_not_running "G1" "A" WAIT_FOR_INFLIGHT ex_cold
           [mkTick 100 [] None] (ex_process "A" STOPPED None)).
  - reflexivity.
  - left; reflexivity.
Defined.

(** C7. [start] is idempotent and coalescing.  On a READY process it
    returns [true] at once and the program state is unchanged (no child is
    spawned).  On a STARTING process it does nothing of its own: it sleeps
    as long as the state is STARTING (and is still suspended if the
    schedule ends before the state changes), and when the state has left
    STARTING it returns whether the state is READY; the program state is
    then exactly what the rest of the world made of it.  In any state other
    than STOPPED, STOPPING, STARTING and READY it returns [false] at once. *)
Theorem start_idempotent_coalescing validURL g m w s p :
  getProcess g m w = Some p ->
  (p_state p = READY -> start validURL g m w s = (Returned true, w, s)) /\
  (p_state p = STARTING ->
     (forall pre t post,
        s = pre ++ t :: post ->
        (forall k, (k <= List.length pre)%nat ->
           state_is g m STARTING (apply_ticks (firstn k pre) w) = true) ->
        state_is g m STARTING (apply_ticks (pre ++ [t]) w) = false ->
        start validURL g m w s =
          (Returned (state_is g m READY (apply_ticks (pre ++ [t]) w)),
           apply_ticks (pre ++ [t]) w, post)) /\
     ((forall k, (k <= List.length s)%nat ->
         state_is g m STARTING (apply_ticks (firstn k s) w) = true) ->
      start validURL g m w s = (OutOfFuel, apply_ticks s w, []))) /\
  (p_state p <> STOPPED -> p_state p <> STOPPING ->
   p_state p <> STARTING -> p_state p <> READY ->
   start validURL g m w s = (Returned false, w, s)).
Proof.
  intros Hp. repeat split.
  - intros H. unfold start, bind, this, orThrow. rewrite Hp, H. reflexivity.
  - intros pre t post -> Hstay Hleave.
    unfold start, bind, this, orThrow. rewrite Hp, H.
    rewrite (wait_while_leaves _ pre t post w Hstay Hleave). reflexivity.
  - intros Hstay. unfold start, bind, this, orThrow. rewrite Hp, H.
    rewrite (wait_while_starves _ s w Hstay). reflexivity.
  - intros H1 H2 H3 H4. unfold start, bind, this, orThrow. rewrite Hp.
    destruct (p_state p); try contradiction; reflexivity.
Qed.

Lemma start_idempotent_coalescing_witness :
  start any_url "G1" "A" ex_warm [tick_idle] = (Returned true, ex_warm, [tick_idle]) /\
  start any_url "G1" "A" ex_starting [tick_idle; tick_ready; tick_idle]
    = (Returned true, apply_ticks [tick_idle; tick_ready] ex_starting, [tick_idle]) /\
  start any_url "G1" "A" ex_starting [tick_idle; tick_exit 7]
    = (Returned false, apply_ticks [tick_idle; tick_exit 7] ex_starting, []) /\
  start any_url "G1" "A" ex_starting [tick_idle; tick_idle]
    = (OutOfFuel, apply_ticks [tick_idle; tick_idle] ex_starting, []) /\
  start any_url "G1" "A" ex_down [tick_idle] = (Returned false, ex_down, [tick_idle]).
Proof.
  split; [|split; [|split; [|split]]].
  - apply (start_idempotent_coalescing any_url "G1" "A" ex_warm [tick_idle]
             (ex_process "A" READY (Some 7%nat)) eq_refl).
    reflexivity.
  - destruct (start_idempotent_coalescing any_url "G1" "A" ex_starting
                [tick_idle; tick_ready; tick_idle]
                (ex_process "A" STARTING (Some 7%nat)) eq_refl)
      as (_ & H & _).
    destruct (H eq_refl) as (H1 & _).
    apply (H1 [tick_idle] tick_ready [tick_idle] eq_refl).
    + intros k Hle.
      destruct k as [|[|k]]; [reflexivity|reflexivity|].
      exfalso. apply (Nat.nle_succ_0 k). apply le_S_n. exact Hle.
    + reflexivity.
  - destruct (start_idempotent_coalescing any_url "G1" "A" ex_starting
                [tick_idle; tick_exit 7]
                (ex_process "A" STARTING (Some 7%nat)) eq_refl)
      as (_ & H & _).
    destruct (H eq_refl) as (H1 & _).
    apply (H1 [tick_idle] (tick_exit 7) [] eq_refl).
    + intros k Hle.
      destruct k as [|[|k]]; [reflexivity|reflexivity|].
      exfalso. apply (Nat.nle_succ_0 k). apply le_S_n. exact Hle.
    + reflexivity.
  - destruct (start_idempotent_coalescing any_url "G1" "A" ex_starting
                [tick_idle; tick_idle]
                (ex_process "A" STARTING (Some 7%nat)) eq_refl)
      as (_ & H & _).
    destruct (H eq_refl) as (_ & H2).
    apply H2.
    intros k Hle.
    destruct k as [|[|[|k]]]; [reflexivity|reflexivity|reflexivity|].
    exfalso. apply (Nat.nle_succ_0 k). apply le_S_n, le_S_n. exact Hle.
  - destruct (start_idempotent_coalescing any_url "G1" "A" ex_down [tick_idle]
                (ex_process "A" SHUTDOWN None) eq_refl)
      as (_ & _ & H).
    apply H; discriminate.
Defined.

(** ** The words of a command *)

Lemma no_space_app a b : no_space (a ++ b) = no_space a && no_space b.
Proof.
  induction a as [|c a IH]; simpl; [reflexivity|]. now rewrite IH, andb_assoc.
Qed.

Lemma append_nil_r s : (s ++ "")%string = s.
Proof. induction s; simpl; congruence. Qed.

Lemma append_assoc a b c : ((a ++ b) ++ c)%string = (a ++ (b ++ c))%string.
Proof. induction a; simpl; congruence. Qed.

Lemma append_eq_nil a b : (a ++ b)%string = "" -> a = "" /\ b = "".
Proof. destruct a; simpl; [auto|discriminate]. Qed.

(** The parts are free of white space, and only the accumulator can make
    one. *)
Lemma tokens_from_no_space s : forall acc,
  no_space acc = true ->
  Forall (fun t => is_word t = true) (tokens_from acc s).
Proof.
  induction s as [|c s IH]; intros acc Hacc; simpl.
  - destruct (String.eqb acc "") eqn:E; [constructor|].
    repeat constructor. unfold is_word. now rewrite E, Hacc.
  - destruct (is_space c) eqn:Ec.
    + destruct (String.eqb acc "") eqn:E; [now apply IH|].
      constructor; [|now apply IH]. unfold is_word. now rewrite E, Hacc.
    + apply IH. rewrite no_space_app, Hacc. simpl. now rewrite Ec.
Qed.

(** A word in front of the rest of the command. *)
Lemma tokens_from_word w : forall acc,
  no_space w = true ->
  tokens_from acc w = if String.eqb (acc ++ w) "" then [] else [(acc ++ w)%string].
Proof.
  induction w as [|c w IH]; intros acc Hw; simpl.
  - now rewrite append_nil_r.
  - simpl in Hw. apply andb_true_iff in Hw as [Hc Hw]. apply negb_true_iff in Hc.
    rewrite Hc, (IH _ Hw), append_assoc. reflexivity.
Qed.

Lemma tokens_from_word_space w rest : forall acc,
  no_space w = true ->
  tokens_from acc (w ++ " " ++ rest) =
    if String.eqb (acc ++ w) "" then tokens_from "" rest
    else (acc ++ w)%string :: tokens_from "" rest.
Proof.
  induction w as [|c w IH]; intros acc Hw.
  - cbn [append tokens_from]. rewrite append_nil_r.
    change (is_space " ") with true. cbn iota. reflexivity.
  - cbn [no_space] in Hw. apply andb_true_iff in Hw as [Hc Hw].
    apply negb_true_iff in Hc.
    cbn [append tokens_from]. rewrite Hc, (IH _ Hw), append_assoc. reflexivity.
Qed.

Lemma tokens_from_words l :
  Forall (fun w => is_word w = true) l -> tokens_from "" (joinWords l) = l.
Proof.
  induction 1 as [|w l Hw Hl IH]; [reflexivity|].
  unfold is_word in Hw. apply andb_true_iff in Hw as [Hne Hns].
  apply negb_true_iff in Hne.
  destruct l as [|w' l'].
  - cbn [joinWords]. rewrite tokens_from_word by exact Hns.
    cbn [append]. now rewrite Hne.
  - change (joinWords (w :: w' :: l')) with (w ++ " " ++ joinWords (w' :: l'))%string.
    rewrite tokens_from_word_space by exact Hns.
    cbn [append]. rewrite Hne. now rewrite IH.
Qed.

(** X9. [parseCommand] splits the command at white space: the result is
    the single empty string, or a non-empty list of words, none of them
    empty and none with white space in it; and words joined by single
    spaces are split into the same words again. *)
Theorem parseCommand_splits_on_white_space cmdStr :
  (parseCommand cmdStr = [""] \/
   Forall (fun part => is_word part = true) (parseCommand cmdStr) /\
   parseCommand cmdStr <> []) /\
  (forall words, words <> [] -> Forall (fun w => is_word w = true) words ->
                 parseCommand (joinWords words) = words).
Proof.
  split.
  - unfold parseCommand.
    pose proof (tokens_from_no_space cmdStr "" eq_refl) as H.
    destruct (tokens_from "" cmdStr) as [|t l]; [now left|].
    right. split; [exact H|discriminate].
  - intros words Hne Hw. unfold parseCommand. rewrite (tokens_from_words _ Hw).
    destruct words; [congruence|reflexivity].
Qed.

Lemma parseCommand_splits_on_white_space_witness :
  ["llama-server"; "--port"; "9000"] <> [] /\
  Forall (fun w => is_word w = true) ["llama-server"; "--port"; "9000"] /\
  parseCommand (joinWords ["llama-server"; "--port"; "9000"])
    = ["llama-server"; "--port"; "9000"].
Proof.
  assert (H : Forall (fun w => is_word w = true) ["llama-server"; "--port"; "9000"])
    by (repeat constructor).
  split; [discriminate|]. split; [exact H|].
  apply (proj2 (parseCommand_splits_on_white_space "")); [discriminate|exact H].
Defined.

(** ** The environment of the child *)

Lemma splitEnv_assignment key value :
  no_equals key = true -> splitEnv (key ++ String "="%char value) = (key, value).
Proof.
  induction key as [|c key IH]; intros H.
  - reflexivity.
  - cbn [no_equals] in H. apply andb_true_iff in H as [Hc Hk].
    apply negb_true_iff in Hc.
    cbn [append splitEnv]. rewrite Hc, (IH Hk). reflexivity.
Qed.

Lemma splitEnv_bare key :
  no_equals key = true -> splitEnv key = (key, "").
Proof.
  induction key as [|c key IH]; intros H; [reflexivity|].
  cbn [no_equals] in H. apply andb_true_iff in H as [Hc Hk].
  apply negb_true_iff in Hc.
  cbn [splitEnv]. rewrite Hc, (IH Hk). reflexivity.
Qed.

Lemma splitEnv_key s : no_equals (fst (splitEnv s)) = true.
Proof.
  induction s as [|c s IH]; [reflexivity|].
  cbn [splitEnv]. destruct (Ascii.eqb c "=") eqn:E; [reflexivity|].
  destruct (splitEnv s) as [k v]. cbn [fst no_equals] in *. now rewrite E, IH.
Qed.

Lemma lookup_map_set_eq {A} k (v : A) l : lookup k (map_set k v l) = Some v.
Proof.
  induction l as [|[k' v'] l IH]; simpl.
  - now rewrite String.eqb_refl.
  - destruct (String.eqb k k') eqn:E; simpl; now rewrite E.
Qed.

Lemma lookup_map_set_neq {A} k k' (v : A) l :
  k' <> k -> lookup k' (map_set k v l) = lookup k' l.
Proof.
  intros Hne. induction l as [|[k0 v0] l IH]; simpl.
  - apply String.eqb_neq in Hne. now rewrite Hne.
  - destruct (String.eqb k k0) eqn:E; simpl.
    + apply String.eqb_eq in E. subst k0. apply String.eqb_neq in Hne.
      now rewrite Hne.
    + destruct (String.eqb k' k0); auto.
Qed.

Lemma parseEnv_snoc envArray envString :
  parseEnv (envArray ++ [envString]) =
    let '(key, value) := splitEnv envString in
    if String.eqb key "__proto__" then parseEnv envArray
    else map_set key value (parseEnv envArray).
Proof. unfold parseEnv. rewrite fold_left_app. reflexivity. Qed.

(** X10. In [parseEnv] a later assignment wins: after a last entry
    [key=value], whose key has no [=] and is not [__proto__], the key is
    bound to the whole text after the first [=], every other key is bound
    as without that entry, and no key of the result has an [=] in it. *)
Theorem parseEnv_last_assignment_wins envArray key value :
  no_equals key = true -> key <> "__proto__" ->
  let envObj := parseEnv (envArray ++ [(key ++ "=" ++ value)%string]) in
  lookup key envObj = Some value /\
  (forall other, other <> key -> lookup other envObj = lookup other (parseEnv envArray)) /\
  (forall k v, lookup k envObj = Some v -> no_equals k = true).
Proof.
  intros Hk Hp envObj. subst envObj.
  rewrite parseEnv_snoc.
  change (key ++ "=" ++ value)%string with (key ++ String "="%char value)%string.
  rewrite (splitEnv_assignment _ _ Hk).
  apply String.eqb_neq in Hp. rewrite Hp.
  split; [apply lookup_map_set_eq|]. split.
  - intros other Ho. now apply lookup_map_set_neq.
  - assert (Hall : forall l k v, lookup k (parseEnv l) = Some v -> no_equals k = true).
    { intros l. induction l as [|e l IH] using rev_ind; intros k v Hl.
      - discriminate.
      - rewrite parseEnv_snoc in Hl.
        pose proof (splitEnv_key e) as He.
        destruct (splitEnv e) as [k0 v0]. cbn [fst] in He.
        destruct (String.eqb k0 "__proto__"); [eauto|].
        destruct (string_dec k k0) as [->|Hne]; [exact He|].
        rewrite lookup_map_set_neq in Hl by exact Hne. eauto. }
    intros k v Hl.
    destruct (string_dec k key) as [->|Hne]; [exact Hk|].
    rewrite lookup_map_set_neq in Hl by exact Hne. eauto.
Qed.

Lemma parseEnv_last_assignment_wins_witness :
  no_equals "OPTS" = true /\ "OPTS" <> "__proto__" /\
  lookup "OPTS" (parseEnv (["OPTS=old"; "HOME=/root"] ++ ["OPTS" ++ "=" ++ "a=b"]%string))
    = Some "a=b".
Proof.
  split; [reflexivity|]. split; [discriminate|].
  apply (parseEnv_last_assignment_wins ["OPTS=old"; "HOME=/root"] "OPTS" "a=b");
    [reflexivity|discriminate].
Defined.

(** ** The stop command *)

Lemma prefix_nil s : String.prefix "" s = true.
Proof. now destruct s. Qed.

Lemma prefix_append_same pat : forall rest, String.prefix pat (pat ++ rest) = true.
Proof.
  induction pat as [|c pat IH]; intros rest; [apply prefix_nil|].
  cbn [append String.prefix]. destruct (ascii_dec c c); [apply IH|congruence].
Qed.

Lemma substring_append_skip pat : forall rest,
  substring (String.length pat) (String.length (pat ++ rest) - String.length pat)
            (pat ++ rest) = rest.
Proof.
  induction pat as [|c pat IH]; intros rest.
  - cbn [append String.length]. rewrite Nat.sub_0_r.
    induction rest as [|d rest IHr]; [reflexivity|].
    cbn [String.length substring]. now rewrite IHr.
  - cbn [append String.length substring]. apply IH.
Qed.

Ltac peel a Hp Ha :=
  destruct a as [|? a];
  [ exfalso; cbn in Hp; discriminate Hp
  | cbn [append String.prefix] in Hp;
    match type of Hp with
    | context [ascii_dec ?x ?y] => destruct (ascii_dec x y) as [<-|]; [|discriminate Hp]
    end;
    cbn [String.prefix] in Ha;
    match type of Ha with
    | context [ascii_dec ?x ?x] => destruct (ascii_dec x x); [|congruence]
    end ].

(** [${PID}] does not overlap itself: after a text in which it does not
    occur, its first occurrence is the one written. *)
Lemma no_match_before a rest :
  occurs "${PID}" a = false -> a <> "" ->
  String.prefix "${PID}" (a ++ "${PID}" ++ rest) = false.
Proof.
  intros Ho Hne.
  destruct (String.prefix "${PID}" (a ++ "${PID}" ++ rest)) eqn:Hp; [|reflexivity].
  exfalso.
  assert (Ha : String.prefix "${PID}" a = false).
  { destruct a; [congruence|]. cbn [occurs] in Ho. now apply orb_false_iff in Ho. }
  clear Ho.
  destruct a as [|c a]; [congruence|]. clear Hne.
  cbn [append String.prefix] in Hp.
  match type of Hp with
  | context [ascii_dec ?x ?y] => destruct (ascii_dec x y) as [<-|]; [|discriminate Hp]
  end.
  cbn [String.prefix] in Ha.
  match type of Ha with
  | context [ascii_dec ?x ?x] => destruct (ascii_dec x x); [|congruence]
  end.
  do 5 peel a Hp Ha.
  now rewrite prefix_nil in Ha.
Qed.

Lemma occurs_tail c a : occurs "${PID}" (String c a) = false -> occurs "${PID}" a = false.
Proof. cbn [occurs]. intros H. now apply orb_false_iff in H. Qed.

Lemma replaceFirst_eq pat rep s :
  replaceFirst pat rep s =
    if String.prefix pat s
    then (rep ++ substring (String.length pat) (String.length s - String.length pat) s)%string
    else match s with
         | EmptyString => EmptyString
         | String c s' => String c (replaceFirst pat rep s')
         end.
Proof. destruct s; reflexivity. Qed.

Lemma replaceFirst_first_pid rep a : forall rest,
  occurs "${PID}" a = false ->
  replaceFirst "${PID}" rep (a ++ "${PID}" ++ rest) = (a ++ rep ++ rest)%string.
Proof.
  induction a as [|c a IH]; intros rest Ho.
  - change ("" ++ "${PID}" ++ rest)%string with ("${PID}" ++ rest)%string.
    rewrite replaceFirst_eq, prefix_append_same, substring_append_skip. reflexivity.
  - rewrite replaceFirst_eq, (no_match_before (String c a) rest Ho) by discriminate.
    cbn [append]. f_equal. apply IH. now apply occurs_tail in Ho.
Qed.

Lemma replaceFirst_absent pat rep s :
  occurs pat s = false -> replaceFirst pat rep s = s.
Proof.
  induction s as [|c s IH]; intros Ho; rewrite replaceFirst_eq.
  - cbn [occurs] in Ho. apply orb_false_iff in Ho as [Hp _]. now rewrite Hp.
  - cbn [occurs] in Ho. apply orb_false_iff in Ho as [Hp Ho]. rewrite Hp.
    f_equal. now apply IH.
Qed.

(** X11. [stopCommand] of a process with a child: a [cmdStop] is run with
    its first [${PID}] replaced by the pid of the child, and only the
    first; a [cmdStop] without [${PID}] is run as it is; without a
    [cmdStop], or with an empty one, the child is sent SIGTERM. *)
Theorem stopCommand_replaces_first_pid p pid :
  p_process p = Some pid ->
  (forall before rest,
     cmdStop (p_config p) = Some (before ++ "${PID}" ++ rest)%string ->
     occurs "${PID}" before = false ->
     stopCommand p = [Executed (before ++ pid_string pid ++ rest)]) /\
  (forall command,
     cmdStop (p_config p) = Some command -> command <> "" ->
     occurs "${PID}" command = false ->
     stopCommand p = [Executed command]) /\
  (cmdStop (p_config p) = None \/ cmdStop (p_config p) = Some "" ->
   stopCommand p = [Killed pid]).
Proof.
  intros Hpid. unfold stopCommand. rewrite Hpid. split; [|split].
  - intros before rest Hc Ho. rewrite Hc.
    destruct (String.eqb (before ++ "${PID}" ++ rest) "") eqn:E.
    + apply String.eqb_eq in E. destruct before; discriminate.
    + now rewrite replaceFirst_first_pid.
  - intros command Hc Hne Ho. rewrite Hc.
    apply String.eqb_neq in Hne. rewrite Hne.
    now rewrite replaceFirst_absent.
  - intros [Hc|Hc]; rewrite Hc; reflexivity.
Qed.

Lemma stopCommand_replaces_first_pid_witness :
  p_process ex_process_cmdStop = Some 42%nat /\
  cmdStop (p_config ex_process_cmdStop) = Some ("kill " ++ "${PID}" ++ "; wait ${PID}")%string /\
  occurs "${PID}" "kill " = false /\
  stopCommand ex_process_cmdStop = [Executed "kill 42; wait ${PID}"].
Proof.
  split; [reflexivity|]. split; [reflexivity|]. split; [reflexivity|].
  exact (proj1 (stopCommand_replaces_first_pid ex_process_cmdStop 42 eq_refl)
           "kill " "; wait ${PID}" eq_refl eq_refl).
Defined.

(** ** What [start] reports *)

Lemma stateOf_set_children g m c w : stateOf g m (set_children c w) = stateOf g m w.
Proof. reflexivity. Qed.

Lemma stateOf_stopCommandAt g m g' m' w :
  stateOf g m (stopCommandAt g' m' w) = stateOf g m w.
Proof. unfold stopCommandAt. now destruct (getProcess g' m' w). Qed.

Lemma stateOf_clearInterval g m g' m' w :
  stateOf g m (clearInterval g' m' w) = stateOf g m w.
Proof. reflexivity. Qed.

(** What the environment does to the state of a process: nothing, or it
    makes it STOPPED (the child exits), or STOPPING from READY (the TTL). *)
Lemma own_action_state a w g m st :
  own_action a -> stateOf g m w = Some st ->
  stateOf g m (apply_action a w) = Some st \/
  stateOf g m (apply_action a w) = Some STOPPED \/
  (st = READY /\ stateOf g m (apply_action a w) = Some STOPPING).
Proof.
  intros Ha Hst. destruct a as [pid|g' m'|g' m'|g' m'|f]; simpl.
  - destruct (child_owner pid (children w)) as [[g' m']|]; [|now left].
    rewrite onProcess_handleProcessExit, stateOf_onProcess_setState.
    change (getProcess g' m' (set_children (remove_child pid (children w)) w))
      with (getProcess g' m' w).
    rewrite stateOf_set_children.
    destruct (getProcess g' m' w); [|now left].
    destruct (String.eqb g g' && String.eqb m m'); [right; now left|now left].
  - left. now rewrite stateOf_updProcess_keep.
  - left. now rewrite stateOf_updProcess_keep.
  - destruct (has_timer g' m' (ttlTimers w)); [|now left].
    unfold ttlCallback.
    destruct (getProcess g' m' w) as [p|] eqn:Ep; [|now left].
    destruct (state_eqb_spec (p_state p) READY) as [Hr|Hr]; cbn [negb];
      [|left; now rewrite stateOf_clearInterval].
    destruct (p_inFlightRequests p >? 0); [now left|].
    destruct (now w - p_lastRequestHandled p >? unloadAfter (p_config p) * 1000);
      [|now left].
    rewrite stateOf_clearInterval. unfold stopNow, stopBeginAt.
    rewrite Ep, Hr. rewrite stateOf_stopCommandAt, stateOf_onProcess_setState, Ep.
    destruct (String.eqb_spec g g') as [->|Hg];
      [destruct (String.eqb_spec m m') as [->|Hm]|]; cbn [andb]; try now left.
    right. right. split; [|reflexivity].
    unfold stateOf in Hst. rewrite Ep in Hst. simpl in Hst. congruence.
  - destruct Ha.
Qed.

Lemma own_actions_state l g m : forall w st,
  Forall own_action l -> stateOf g m w = Some st ->
  stateOf g m (apply_actions l w) = Some st \/
  stateOf g m (apply_actions l w) = Some STOPPED \/
  (st = READY /\ stateOf g m (apply_actions l w) = Some STOPPING).
Proof.
  induction l as [|a l IH]; intros w st Hl Hst; [now left|].
  inversion Hl; subst. unfold apply_actions in *. cbn [fold_left].
  destruct (own_action_state a w g m st H1 Hst) as [H|[H|[-> H]]].
  - now apply IH.
  - destruct (IH _ _ H2 H) as [H'|[H'|[? H']]]; auto; discriminate.
  - destruct (IH _ _ H2 H) as [H'|[H'|[? H']]]; auto; discriminate.
Qed.

Lemma own_tick_state t w g m st :
  own_tick t -> stateOf g m w = Some st ->
  stateOf g m (apply_tick t w) = Some st \/
  stateOf g m (apply_tick t w) = Some STOPPED \/
  (st = READY /\ stateOf g m (apply_tick t w) = Some STOPPING).
Proof.
  intros Ht Hst. unfold apply_tick. now apply own_actions_state.
Qed.

(** While [start] runs its body the process is in STARTING, or STOPPED
    when its child has exited. *)
Lemma starting_own_tick g m t w :
  own_tick t ->
  stateOf g m w = Some STARTING \/ stateOf g m w = Some STOPPED ->
  stateOf g m (apply_tick t w) = Some STARTING \/
  stateOf g m (apply_tick t w) = Some STOPPED.
Proof.
  intros Ht [H|H]; destruct (own_tick_state t w g m _ Ht H) as [H'|[H'|[? _]]];
    auto; discriminate.
Qed.

(** A waiting loop does not throw. *)
Lemma hoare_wait_while okTick (Inv : World -> Prop) cond :
  (forall t w, okTick t -> Inv w -> Inv (apply_tick t w)) ->
  hoare okTick Inv (wait_while cond)
        (fun _ w => Inv w /\ cond w = false) (fun _ => False) Inv.
Proof.
  intros Htick w s. revert w. induction s as [|t s IH]; intros w Hs Hw; simpl.
  - destruct (cond w) eqn:E; [exact Hw|]. now repeat split.
  - destruct (cond w) eqn:E; [|now repeat split].
    inversion Hs; subst. apply IH; [assumption|now apply Htick].
Qed.

Lemma hoare_healthLoop okTick (Inv : World -> Prop) g m t0 maxd :
  (forall t w, okTick t -> Inv w -> Inv (apply_tick t w)) ->
  hoare okTick Inv (healthLoop g m t0 maxd)
        (fun passed w => Inv w /\
                         (passed = StateChanged -> state_is g m STARTING w = false))
        Inv Inv.
Proof.
  intros Htick.
  assert (H : forall n w s, (List.length s <= n)%nat -> Forall okTick s -> Inv w ->
            match healthLoop g m t0 maxd w s with
            | (Returned passed, w', s') =>
                (Inv w' /\ (passed = StateChanged -> state_is g m STARTING w' = false)) /\
                Forall okTick s'
            | (Threw _, w', s') => Inv w' /\ Forall okTick s'
            | (OutOfFuel, w', _) => Inv w'
            end).
  { induction n as [|n IH]; intros w s Hn Hs Hw.
    - destruct s; [|simpl in Hn; lia]. simpl.
      destruct (now w - t0 <? maxd); [|repeat split; auto; discriminate].
      destruct (state_is g m STARTING w) eqn:E; cbn [negb]; auto.
    - destruct s as [|t s1]; simpl.
      + destruct (now w - t0 <? maxd); [|repeat split; auto; discriminate].
        destruct (state_is g m STARTING w) eqn:E; cbn [negb]; auto.
      + destruct (now w - t0 <? maxd); [|repeat split; auto; discriminate].
        destruct (state_is g m STARTING w) eqn:E; cbn [negb]; [|auto].
        inversion Hs as [|? ? Ht Hs1]; subst.
        assert (Hw1 : Inv (apply_tick t w)) by now apply Htick.
        destruct (probePassed (probe t)); [repeat split; auto; discriminate|].
        destruct s1 as [|t' s2]; [exact Hw1|].
        inversion Hs1; subst.
        apply IH; [simpl in Hn; lia|assumption|now apply Htick]. }
  intros w s. exact (H (List.length s) w s (Nat.le_refl _)).
Qed.

Lemma state_is_stateOf g m st w :
  state_is g m st w = true <-> stateOf g m w = Some st.
Proof.
  unfold state_is, stateOf. destruct (getProcess g m w) as [p|]; simpl.
  - destruct (state_eqb_spec (p_state p) st); split; congruence.
  - split; discriminate.
Qed.

Lemma state_is_false g m st w :
  state_is g m st w = false <-> stateOf g m w <> Some st.
Proof.
  rewrite <- state_is_stateOf. destruct (state_is g m st w); split; congruence.
Qed.

Lemma hoare_start_reports validURL g m :
  hoare own_tick (has_process g m) (start validURL g m)
        (fun b w => (b = true <-> stateOf g m w = Some READY) /\
                    stateOf g m w <> Some STARTING)
        (fun _ => False) (fun _ => True).
Proof.
  set (J' := fun w => stateOf g m w = Some STARTING \/ stateOf g m w = Some STOPPED).
  set (Post := fun (b : bool) w => (b = true <-> stateOf g m w = Some READY) /\
                                   stateOf g m w <> Some STARTING).
  assert (HJ' : forall t w, own_tick t -> J' w -> J' (apply_tick t w))
    by (intros; now apply starting_own_tick).
  assert (Hin : forall b st w, stateOf g m w = Some st -> st <> STARTING ->
                               (b = true <-> st = READY) -> Post b w).
  { intros b st w H Hne Hb. unfold Post. rewrite H. split; [|congruence].
    rewrite Hb. split; congruence. }
  set (Q := fun (passed : HealthCheck) w =>
              J' w /\ (passed = StateChanged -> state_is g m STARTING w = false)).
  assert (Hset : forall st w, J' w -> stateOf g m (onProcess g m (setState st) w) = Some st).
  { intros st w Hs. rewrite stateOf_onProcess_setState.
    destruct (getProcess g m w) as [q|] eqn:Eq.
    - now rewrite !String.eqb_refl.
    - unfold J', stateOf in Hs. rewrite Eq in Hs. destruct Hs; discriminate. }
  unfold start.
  eapply hoare_bind with (Mid := fun p w => getProcess g m w = Some p).
  { apply hoare_orThrow; auto. intros w [p Hp] Hn. congruence. }
  intros p.
  assert (Hbody :
    hoare own_tick (fun w => getProcess g m w = Some p)
      (exec (onProcess g m (setState STARTING)) ;;
       try_catch
         (spawn g m ;;
          sleep ;;
          passed <-
            (if negb (String.eqb (checkEndpoint (p_config p)) "none")
             then
               (if validURL (checkEndpoint (p_config p)) (proxy (p_config p))
                then ret tt else throw "Invalid URL") ;;
               checkStartTime <- read now ;;
               healthLoop g m checkStartTime (p_healthCheckTimeout p * 1000)
             else ret Passed) ;;
          match passed with
          | StateChanged => ret false
          | Expired => throw "Health check timed out"
          | Passed =>
              (if unloadAfter (p_config p) >? 0
               then exec (startTTLCheck g m) else ret tt) ;;
              exec (onProcess g m (setState READY)) ;;
              exec (updProcess g m (set_failedStartCount 0)) ;;
              ret true
          end)
         (fun _ =>
            exec (onProcess g m (setState STOPPED)) ;;
            ret false))
      Post (fun _ => False) (fun _ => True)).
  { eapply hoare_bind with (Mid := fun _ => J').
    { apply hoare_exec. intros w Hp. left.
      rewrite stateOf_onProcess_setState, Hp. now rewrite !String.eqb_refl. }
    intros _. apply hoare_try_catch with (E' := J').
    - eapply hoare_bind with (Mid := fun _ => J').
      { unfold spawn.
        eapply hoare_bind with (Mid := fun _ => J'); [apply hoare_orThrow; auto|].
        intros q. destruct (parseCommand (cmd (p_config q))) as [|exe args];
          [apply hoare_throw; auto|].
        destruct (String.eqb exe ""); [apply hoare_throw; auto|].
        apply hoare_exec. intros w Hs. unfold J'. now rewrite stateOf_spawnChild. }
      intros _. eapply hoare_bind with (Mid := fun _ => J').
      { eapply hoare_weaken; [| | |
          |apply (hoare_preserves own_tick sleep J' (preserves_sleep J' own_tick HJ'))];
          auto. }
      intros _. eapply hoare_bind with (Mid := Q).
      { destruct (negb (String.eqb (checkEndpoint (p_config p)) "none"));
          [|apply hoare_ret; intros w Hs; split; [exact Hs|discriminate]].
        eapply hoare_bind with (Mid := fun _ => J').
        - destruct (validURL _ _); [apply hoare_ret|apply hoare_throw]; auto.
        - intros _. eapply hoare_bind with (Mid := fun _ => J');
            [apply hoare_read; auto|].
          intros t0.
          eapply hoare_weaken; [| | |
            |apply (hoare_healthLoop own_tick J' g m t0 _ HJ')]; auto. }
      intros [| |].
      + eapply hoare_bind with (Mid := fun _ => J').
        { destruct (unloadAfter (p_config p) >? 0);
            [|apply hoare_ret; now intros w [Hs _]].
          apply hoare_exec. intros w [Hs _]. unfold J'.
          now rewrite stateOf_startTTLCheck. }
        intros _.
        eapply hoare_bind with (Mid := fun _ w => stateOf g m w = Some READY).
        { apply hoare_exec. intros w Hs. now apply Hset. }
        intros _.
        eapply hoare_bind with (Mid := fun _ w => stateOf g m w = Some READY).
        { apply hoare_exec. intros w Hs. now rewrite stateOf_updProcess_keep. }
        intros _. apply hoare_ret. intros w Hs.
        apply (Hin true READY w Hs); [discriminate|now split].
      + apply hoare_ret. intros w [[Hs|Hs] Hc].
        * specialize (Hc eq_refl). apply state_is_false in Hc. contradiction.
        * apply (Hin false STOPPED w Hs); [discriminate|split; discriminate].
      + apply hoare_throw. now intros w [Hs _].
    - intros _.
      eapply hoare_bind with (Mid := fun _ w => stateOf g m w = Some STOPPED).
      { apply hoare_exec. intros w Hs. now apply Hset. }
      intros _. apply hoare_ret. intros w Hs.
      apply (Hin false STOPPED w Hs); [discriminate|split; discriminate]. }
  assert (Hst : forall w, getProcess g m w = Some p -> stateOf g m w = Some (p_state p)).
  { intros w Hp. unfold stateOf. now rewrite Hp. }
  destruct (p_state p) eqn:Est.
  - exact Hbody.
  - eapply hoare_bind with (Mid := fun _ w => state_is g m STARTING w = false).
    + eapply hoare_weaken; [| | |
        |apply (hoare_wait_while own_tick (fun _ => True) _ (fun _ _ _ _ => I))];
        cbv beta; auto.
      now intros _ w [_ H].
    + intros _. apply hoare_read. intros w Hn. apply state_is_false in Hn.
      split; [apply state_is_stateOf|exact Hn].
  - apply hoare_ret. intros w Hp.
    apply (Hin true READY w); [now rewrite (Hst w Hp)|discriminate|now split].
  - exact Hbody.
  - apply hoare_ret. intros w Hp.
    apply (Hin false SHUTDOWN w); [now rewrite (Hst w Hp)|discriminate|split; discriminate].
Qed.

(** X12. [start] never throws, whatever the child and the health checks
    do, and what it returns tells the state: it returns [true] exactly
    when it leaves the process READY. *)
Theorem start_reports_readiness validURL g m w s :
  has_process g m w -> Forall own_tick s ->
  let r := start validURL g m w s in
  (forall message, outcome_of r <> Threw message) /\
  (forall success, outcome_of r = Returned success ->
     (success = true <-> stateOf g m (world_after r) = Some READY)).
Proof.
  intros Hp Hs r. pose proof (hoare_start_reports validURL g m w s Hs Hp) as H.
  subst r. unfold outcome_of, world_after.
  destruct (start validURL g m w s) as [[[b|msg|] w1] s1]; simpl.
  - split; [discriminate|]. intros b' Hb. inversion Hb; subst.
    exact (proj1 (proj1 H)).
  - destruct H as [[] _].
  - split; discriminate.
Qed.

Lemma start_reports_readiness_witness :
  let s := [mkTick 250 [] None; mkTick 20 [] (Some 200)] in
  let r := start any_url "G1" "A" ex_cold s in
  has_process "G1" "A" ex_cold /\ Forall own_tick s /\
  outcome_of r = Returned true /\
  stateOf "G1" "A" (world_after r) = Some READY.
Proof.
  assert (Hp : has_process "G1" "A" ex_cold) by (eexists; reflexivity).
  assert (Hs : Forall own_tick [mkTick 250 [] None; mkTick 20 [] (Some 200)])
    by (repeat constructor).
  split; [exact Hp|]. split; [exact Hs|]. split; [vm_compute; reflexivity|].
  apply (proj2 (start_reports_readiness any_url "G1" "A" ex_cold _ Hp Hs) true);
    [vm_compute; reflexivity|reflexivity].
Defined.

(** ** Stopping *)

Lemma stop_prims_and (A B : World -> Prop) :
  stop_prims A -> stop_prims B -> stop_prims (fun w => A w /\ B w).
Proof.
  intros HA HB. constructor.
  - intros g m st w Hst [Ha Hb]. split; [now apply (sp_state _ HA)|now apply (sp_state _ HB)].
  - intros g m w [Ha Hb]. split; [now apply (sp_stopCommand _ HA)|now apply (sp_stopCommand _ HB)].
  - intros g x w [Ha Hb]. split; [now apply (sp_lastUsed _ HA)|now apply (sp_lastUsed _ HB)].
  - intros x w [Ha Hb]. split; [now apply (sp_lastActive _ HA)|now apply (sp_lastActive _ HB)].
  - intros b w [Ha Hb]. split; [now apply (sp_shutdown _ HA)|now apply (sp_shutdown _ HB)].
  - intros t w [Ha Hb]. split; [now apply (sp_now _ HA)|now apply (sp_now _ HB)].
  - intros c w [Ha Hb]. split; [now apply (sp_children _ HA)|now apply (sp_children _ HB)].
  - intros t w [Ha Hb]. split; [now apply (sp_timers _ HA)|now apply (sp_timers _ HB)].
  - intros g m t w [Ha Hb]. split; [now apply (sp_add _ HA)|now apply (sp_add _ HB)].
  - intros g m w [Ha Hb]. split; [now apply (sp_remove _ HA)|now apply (sp_remove _ HB)].
Qed.

Lemma not_running_stateOf g m w :
  not_running g m w <->
  stateOf g m w <> Some READY /\ stateOf g m w <> Some STARTING.
Proof.
  unfold not_running, stateOf. destruct (getProcess g m w) as [p|]; simpl.
  - split.
    + intros H. destruct (H p eq_refl). split; congruence.
    + intros [H1 H2] q Hq. inversion Hq; subst. split; congruence.
  - split; [split; discriminate|intros _ q; discriminate].
Qed.

Lemma not_running_stop_prims g m : stop_prims (not_running g m).
Proof.
  constructor; intros; rewrite not_running_stateOf in *.
  - rewrite stateOf_onProcess_setState.
    destruct (getProcess g0 m0 w); [|assumption].
    destruct (String.eqb g g0 && String.eqb m m0); [|assumption].
    destruct H as [ -> | [ -> | -> ] ]; split; discriminate.
  - unfold stopCommandAt. now destruct (getProcess g0 m0 w).
  - unfold stateOf in *. now rewrite getProcess_updGroup_lastUsed.
  - assumption.
  - assumption.
  - assumption.
  - assumption.
  - assumption.
  - now rewrite stateOf_updProcess_keep.
  - now rewrite stateOf_updProcess_keep.
Qed.

Lemma group_stopped_stop_prims g : stop_prims (group_stopped g).
Proof.
  constructor; intros; intros m'.
  - now apply (sp_state _ (not_running_stop_prims g m')).
  - now apply (sp_stopCommand _ (not_running_stop_prims g m')).
  - now apply (sp_lastUsed _ (not_running_stop_prims g m')).
  - now apply (sp_lastActive _ (not_running_stop_prims g m')).
  - now apply (sp_shutdown _ (not_running_stop_prims g m')).
  - now apply (sp_now _ (not_running_stop_prims g m')).
  - now apply (sp_children _ (not_running_stop_prims g m')).
  - now apply (sp_timers _ (not_running_stop_prims g m')).
  - now apply (sp_add _ (not_running_stop_prims g m')).
  - now apply (sp_remove _ (not_running_stop_prims g m')).
Qed.

Lemma same_child_updProcess p g m g' m' f w :
  (forall q, p_process (f q) = p_process q /\ p_config (f q) = p_config q) ->
  same_child p g m w -> same_child p g m (updProcess g' m' f w).
Proof.
  intros Hf (q & Hq & H1 & H2).
  destruct (String.eqb_spec g g') as [->|Hg];
    [destruct (String.eqb_spec m m') as [->|Hm]|].
  - exists (f q). rewrite getProcess_updProcess_same, Hq. destruct (Hf q) as [E1 E2].
    repeat split; congruence.
  - exists q. now rewrite getProcess_updProcess_other by congruence.
  - exists q. now rewrite getProcess_updProcess_other by congruence.
Qed.

Lemma same_child_stop_prims p g m : stop_prims (same_child p g m).
Proof.
  constructor; try (intros; assumption).
  - intros g' m' st w _ H. rewrite onProcess_setState.
    destruct (getProcess g' m' w); [|exact H].
    change (same_child p g m (updProcess g' m' (set_state st) w)).
    apply same_child_updProcess; [|exact H]. now intros q.
  - intros g' m' w H. unfold stopCommandAt. now destruct (getProcess g' m' w).
  - intros g' x w (q & Hq & H). exists q. now rewrite getProcess_updGroup_lastUsed.
  - intros g' m' t w H. apply same_child_updProcess; [|exact H]. now intros q.
  - intros g' m' w H. apply same_child_updProcess; [|exact H]. now intros q.
Qed.

Lemma trace_stopCommandAt g m w :
  trace (stopCommandAt g m w) =
  trace w ++ match getProcess g m w with Some p => stopCommand p | None => [] end.
Proof.
  unfold stopCommandAt. destruct (getProcess g m w); [reflexivity|].
  now rewrite app_nil_r.
Qed.

Lemma trace_since_stop_prims t0 : stop_prims (trace_since t0).
Proof.
  constructor; try (intros; assumption).
  - intros g m st w _ [es E]. rewrite onProcess_setState.
    destruct (getProcess g m w) as [q|]; [|now exists es].
    eexists. cbn [trace emit]. change (trace (updProcess g m (set_state st) w)) with (trace w).
    rewrite E, <- app_assoc. reflexivity.
  - intros g m w [es E]. eexists. rewrite trace_stopCommandAt, E, <- app_assoc. reflexivity.
Qed.

Lemma stop_issued_stop_prims t0 p : stop_prims (stop_issued t0 p).
Proof.
  constructor; try (intros; assumption).
  - intros g m st w _ (es & E & H). rewrite onProcess_setState.
    destruct (getProcess g m w) as [q|]; [|now exists es].
    eexists. cbn [trace emit]. change (trace (updProcess g m (set_state st) w)) with (trace w).
    rewrite E, <- app_assoc. split; [reflexivity|].
    intros e He. apply in_or_app. left. auto.
  - intros g m w (es & E & H). eexists.
    rewrite trace_stopCommandAt, E, <- app_assoc. split; [reflexivity|].
    intros e He. apply in_or_app. left. auto.
Qed.

Lemma stopCommand_same p q :
  p_process q = p_process p -> p_config q = p_config p -> stopCommand q = stopCommand p.
Proof. intros E1 E2. unfold stopCommand. now rewrite E1, E2. Qed.

(** The stop command at the address of a process that has the child of [p]. *)
Lemma stopCommandAt_issues t0 p g m w :
  trace_since t0 w -> same_child p g m w -> stop_issued t0 p (stopCommandAt g m w).
Proof.
  intros [es E] (q & Hq & E1 & E2). exists (es ++ stopCommand p).
  rewrite trace_stopCommandAt, Hq, E, <- app_assoc, (stopCommand_same p q E1 E2).
  split; [reflexivity|]. intros e He. apply in_or_app. now right.
Qed.

Lemma stop_issued_trace_since t0 p w : stop_issued t0 p w -> trace_since t0 w.
Proof. intros (es & E & _). now exists es. Qed.

(** *** [stop] on a running process *)

(** X13. [stop] of a process that is READY or STARTING never throws and
    leaves it neither READY nor STARTING, under both strategies; when it
    returns, the stop command of the process (the signal to its child, or
    its [cmdStop]) has been run. *)
Theorem stop_marks_and_signals g m strategy w s p :
  getProcess g m w = Some p ->
  p_state p = READY \/ p_state p = STARTING ->
  Forall own_tick s ->
  let r := stop g m strategy w s in
  (forall message, outcome_of r <> Threw message) /\
  not_running g m (world_after r) /\
  (outcome_of r = Returned tt -> stop_issued (trace w) p (world_after r)).
Proof.
  intros Hp Hst Hs r. subst r.
  set (Inv := fun w' => (not_running g m w' /\ same_child p g m w') /\ trace_since (trace w) w').
  assert (SP : stop_prims Inv).
  { apply stop_prims_and; [apply stop_prims_and|].
    - apply not_running_stop_prims.
    - apply same_child_stop_prims.
    - apply trace_since_stop_prims. }
  set (w1 := onProcess g m (setState STOPPING) w).
  assert (H1 : Inv w1).
  { unfold Inv, w1. split; [split|].
    - apply not_running_stateOf.
      rewrite stateOf_onProcess_setState, Hp, !String.eqb_refl. split; discriminate.
    - exists (set_state STOPPING p). rewrite onProcess_setState, Hp.
      change (getProcess g m (emit [StateChange (p_id p) (p_state p) STOPPING]
                               (updProcess g m (set_state STOPPING) w)))
        with (getProcess g m (updProcess g m (set_state STOPPING) w)).
      rewrite getProcess_updProcess_same, Hp. now repeat split.
    - eexists. rewrite trace_onProcess_setState. reflexivity. }
  assert (Hcmd : forall w2, Inv w2 ->
            not_running g m (stopCommandAt g m w2) /\
            stop_issued (trace w) p (stopCommandAt g m w2)).
  { intros w2 [[Hn Hc] Ht]. split.
    - now apply (sp_stopCommand _ (not_running_stop_prims g m)).
    - now apply stopCommandAt_issues. }
  assert (Hrun :
    stop g m strategy w s =
      match strategy with
      | IMMEDIATELY => (Returned tt, stopCommandAt g m w1, s)
      | WAIT_FOR_INFLIGHT =>
          match wait_while (inFlight_positive g m) w1 s with
          | (Returned _, w2, s2) => (Returned tt, stopCommandAt g m w2, s2)
          | (Threw msg, w2, s2) => (Threw msg, w2, s2)
          | (OutOfFuel, w2, s2) => (OutOfFuel, w2, s2)
          end
      end).
  { unfold stop, bind, this, orThrow. rewrite Hp.
    destruct Hst as [E|E]; rewrite E; destruct strategy; reflexivity. }
  rewrite Hrun. unfold outcome_of, world_after. destruct strategy; cbn [fst snd].
  - destruct (Hcmd w1 H1) as [Hn Hi]. split; [discriminate|]. split; [exact Hn|auto].
  - pose proof (hoare_wait_while own_tick Inv (inFlight_positive g m)
                  (Inv_own_tick _ SP) w1 s Hs H1) as Hw.
    destruct (wait_while (inFlight_positive g m) w1 s) as [[[[]|msg|] w2] s2];
      cbn [fst snd].
    + destruct Hw as [[Hi _] _]. destruct (Hcmd w2 Hi) as [Hn Hiss].
      split; [discriminate|]. split; [exact Hn|auto].
    + destruct Hw as [[] _].
    + split; [discriminate|]. split; [apply Hw|discriminate].
Qed.

Lemma stop_marks_and_signals_witness :
  let r := stop "G1" "A" WAIT_FOR_INFLIGHT ex_warm [] in
  getProcess "G1" "A" ex_warm = Some (ex_process "A" READY (Some 7%nat)) /\
  not_running "G1" "A" (world_after r) /\
  outcome_of r = Returned tt /\
  stop_issued (trace ex_warm) (ex_process "A" READY (Some 7%nat)) (world_after r).
Proof.
  destruct (stop_marks_and_signals "G1" "A" WAIT_FOR_INFLIGHT ex_warm []
              (ex_process "A" READY (Some 7%nat)) eq_refl (or_introl eq_refl)
              (Forall_nil _)) as (_ & Hn & Hi).
  split; [reflexivity|]. split; [exact Hn|]. split; [reflexivity|].
  apply Hi. reflexivity.
Defined.

(** *** [stopProcesses] *)

Lemma absent_stop_prims g m : stop_prims (fun w => getProcess g m w = None).
Proof.
  assert (Hupd : forall g' m' f w, getProcess g m w = None ->
                                   getProcess g m (updProcess g' m' f w) = None).
  { intros g' m' f w H.
    destruct (String.eqb_spec g g') as [->|Hg];
      [destruct (String.eqb_spec m m') as [->|Hm]|].
    - now rewrite getProcess_updProcess_same, H.
    - now rewrite getProcess_updProcess_other by congruence.
    - now rewrite getProcess_updProcess_other by congruence. }
  constructor; try (intros; assumption).
  - intros g' m' st w _ H. rewrite onProcess_setState.
    destruct (getProcess g' m' w); [|exact H]. now apply Hupd.
  - intros g' m' w H. unfold stopCommandAt. now destruct (getProcess g' m' w).
  - intros g' x w H. now rewrite getProcess_updGroup_lastUsed.
  - intros; now apply Hupd.
  - intros; now apply Hupd.
Qed.

Lemma lookup_None_absent {A} k (l : list (string * A)) :
  ~ In k (map fst l) -> lookup k l = None.
Proof.
  induction l as [|[k' v] l IH]; simpl; [reflexivity|].
  intros H. destruct (String.eqb_spec k k') as [->|Hne]; [tauto|]. apply IH. tauto.
Qed.

Lemma stopBeginAt_other g m g' m' w :
  (g', m') <> (g, m) ->
  getProcess g' m' (snd (stopBeginAt g m w)) = getProcess g' m' w.
Proof.
  intros Hne. unfold stopBeginAt.
  destruct (getProcess g m w) as [p|]; [|reflexivity].
  destruct (p_state p); cbn [snd]; try reflexivity;
    now apply getProcess_onProcess_other.
Qed.

Lemma stopBeginAt_not_running g m w : not_running g m (snd (stopBeginAt g m w)).
Proof.
  apply not_running_stateOf. unfold stopBeginAt.
  destruct (getProcess g m w) as [p|] eqn:Ep.
  - destruct (p_state p) eqn:Est; cbn [snd];
      try (unfold stateOf; rewrite Ep; cbn [option_map]; rewrite Est;
           split; discriminate);
      rewrite stateOf_onProcess_setState, Ep, !String.eqb_refl; split; discriminate.
  - cbn [snd]. unfold stateOf. rewrite Ep. split; discriminate.
Qed.

Lemma stopBeginAt_go g m w p :
  getProcess g m w = Some p -> p_state p = READY \/ p_state p = STARTING ->
  fst (stopBeginAt g m w) = true.
Proof.
  intros Hp Hst. unfold stopBeginAt. rewrite Hp.
  destruct Hst as [E|E]; rewrite E; reflexivity.
Qed.

Lemma stopBeginAll_not_running g ms : forall w m,
  In m ms -> not_running g m (snd (stopBeginAll g ms w)).
Proof.
  induction ms as [|m0 ms IH]; intros w m Hin; [destruct Hin|].
  cbn [stopBeginAll].
  pose proof (stopBeginAt_not_running g m0 w) as H0.
  destruct (stopBeginAt g m0 w) as [go w1]. cbn [snd] in H0.
  destruct Hin as [->|Hin].
  - pose proof (Inv_stopBeginAll _ (not_running_stop_prims g m) g ms w1 H0) as H.
    destruct (stopBeginAll g ms w1) as [pending w2]. exact H.
  - specialize (IH w1 m Hin).
    destruct (stopBeginAll g ms w1) as [pending w2]. exact IH.
Qed.

Lemma stopBeginAll_pending g ms : forall w m p,
  In m ms -> getProcess g m w = Some p ->
  p_state p = READY \/ p_state p = STARTING ->
  In m (fst (stopBeginAll g ms w)).
Proof.
  induction ms as [|m0 ms IH]; intros w m p Hin Hp Hst; [destruct Hin|].
  cbn [stopBeginAll].
  destruct (String.eqb_spec m m0) as [->|Hne].
  - pose proof (stopBeginAt_go g m0 w p Hp Hst) as Hgo.
    destruct (stopBeginAt g m0 w) as [go w1]. cbn [fst] in Hgo. subst go.
    destruct (stopBeginAll g ms w1) as [pending w2]. now left.
  - destruct Hin as [E|Hin]; [congruence|].
    pose proof (stopBeginAt_other g m0 g m w) as Ho.
    destruct (stopBeginAt g m0 w) as [go w1]. cbn [snd] in Ho.
    rewrite <- Ho in Hp by congruence.
    specialize (IH w1 m p Hin Hp Hst).
    destruct (stopBeginAll g ms w1) as [pending w2]. cbn [fst] in *.
    destruct go; [now right|exact IH].
Qed.

(** The group is stopped once every [stop] has begun. *)
Lemma stopBeginAll_group_stopped g grp w :
  lookup g (processGroups w) = Some grp ->
  group_stopped g (snd (stopBeginAll g (map fst (g_processes grp)) w)).
Proof.
  intros Hg m.
  destruct (in_dec string_dec m (map fst (g_processes grp))) as [Hin|Hout].
  - now apply stopBeginAll_not_running.
  - assert (Hn : getProcess g m w = None).
    { unfold getProcess. rewrite Hg. now apply lookup_None_absent. }
    pose proof (Inv_stopBeginAll _ (absent_stop_prims g m) g
                  (map fst (g_processes grp)) w Hn) as H.
    intros p Hp. congruence.
Qed.

Lemma getProcess_key g m w p grp :
  lookup g (processGroups w) = Some grp -> getProcess g m w = Some p ->
  In m (map fst (g_processes grp)).
Proof.
  intros Hg Hp. unfold getProcess in Hp. rewrite Hg in Hp.
  apply lookup_In in Hp. now apply (in_map fst) in Hp.
Qed.

Section Issued.
Variables (t0 : list Effect) (p : Process) (g m : string).

Lemma tracked_stop_prims : stop_prims (tracked t0 p g m).
Proof.
  unfold tracked.
  apply stop_prims_and; [apply same_child_stop_prims|apply trace_since_stop_prims].
Qed.

Lemma stopCommandAll_issues pending : forall w,
  tracked t0 p g m w -> In m pending \/ stop_issued t0 p w ->
  stop_issued t0 p (stopCommandAll g pending w).
Proof.
  induction pending as [|m0 l IH]; intros w Ht H.
  - destruct H as [[]|H]; exact H.
  - unfold stopCommandAll in *. cbn [fold_left].
    apply IH; [now apply (sp_stopCommand _ tracked_stop_prims)|].
    destruct H as [[->|Hin]|H].
    + right. destruct Ht. now apply stopCommandAt_issues.
    + now left.
    + right. now apply (sp_stopCommand _ (stop_issued_stop_prims t0 p)).
Qed.

Lemma pollInFlight_issues pending : forall w,
  tracked t0 p g m w -> In m pending \/ stop_issued t0 p w ->
  In m (fst (pollInFlight g pending w)) \/
  stop_issued t0 p (snd (pollInFlight g pending w)).
Proof.
  induction pending as [|m0 l IH]; intros w Ht H; cbn [pollInFlight].
  - destruct H as [[]|H]. now right.
  - destruct (inFlight_positive g m0 w).
    + assert (H' : m0 = m \/ (In m l \/ stop_issued t0 p w)).
      { destruct H as [[E|Hin]|H]; auto. }
      destruct H' as [->|H'].
      * destruct (pollInFlight g l w). left. now left.
      * specialize (IH w Ht H'). destruct (pollInFlight g l w). cbn [fst snd] in *.
        destruct IH; [left; now right|now right].
    + apply IH; [now apply (sp_stopCommand _ tracked_stop_prims)|].
      destruct H as [[->|Hin]|H].
      * right. destruct Ht. now apply stopCommandAt_issues.
      * now left.
      * right. now apply (sp_stopCommand _ (stop_issued_stop_prims t0 p)).
Qed.

Lemma awaitAllStopped_issues s : forall pending w,
  Forall own_tick s -> tracked t0 p g m w -> In m pending \/ stop_issued t0 p w ->
  match awaitAllStopped g pending w s with
  | (Returned _, w', _) => stop_issued t0 p w'
  | (Threw _, _, _) => False
  | (OutOfFuel, _, _) => True
  end.
Proof.
  induction s as [|t s IH]; intros pending w Hs Ht H; cbn [awaitAllStopped];
    pose proof (pollInFlight_issues pending w Ht H) as H1;
    pose proof (Inv_pollInFlight _ tracked_stop_prims g pending w Ht) as H2;
    destruct (pollInFlight g pending w) as [pending' w']; cbn [fst snd] in *.
  - destruct pending'; [|exact I]. destruct H1 as [[]|H1]; exact H1.
  - destruct pending' as [|m1 l]; [destruct H1 as [[]|H1]; exact H1|].
    inversion Hs; subst.
    apply IH; [assumption|now apply (Inv_own_tick _ tracked_stop_prims)|].
    destruct H1 as [H1|H1]; [now left|right].
    now apply (Inv_own_tick _ (stop_issued_stop_prims t0 p)).
Qed.

End Issued.

Lemma awaitAllStopped_no_throw g s : forall pending w message,
  fst (fst (awaitAllStopped g pending w s)) <> Threw message.
Proof.
  induction s as [|t s IH]; intros pending w message; cbn [awaitAllStopped];
    destruct (pollInFlight g pending w) as [pending' w'];
    destruct pending'; try discriminate. apply IH.
Qed.

Lemma stopProcesses_spec g strategy w s grp :
  lookup g (processGroups w) = Some grp ->
  Forall own_tick s ->
  let r := stopProcesses g strategy w s in
  (forall message, outcome_of r <> Threw message) /\
  group_stopped g (world_after r) /\
  (outcome_of r = Returned tt ->
   forall m p, getProcess g m w = Some p ->
               p_state p = READY \/ p_state p = STARTING ->
               stop_issued (trace w) p (world_after r)).
Proof.
  intros Hg Hs r. subst r.
  unfold stopProcesses, bind, thisGroup, orThrow. rewrite Hg.
  pose proof (stopBeginAll_group_stopped g grp w Hg) as Hstopped.
  assert (Hpend : forall m p, getProcess g m w = Some p ->
                    p_state p = READY \/ p_state p = STARTING ->
                    In m (fst (stopBeginAll g (map fst (g_processes grp)) w))).
  { intros m p Hp Hst. apply (stopBeginAll_pending g _ w m p); auto.
    eapply getProcess_key; eauto. }
  assert (Htr : forall m p, getProcess g m w = Some p ->
                  tracked (trace w) p g m
                          (snd (stopBeginAll g (map fst (g_processes grp)) w))).
  { intros m p Hp. apply (Inv_stopBeginAll _ (tracked_stop_prims (trace w) p g m)).
    split; [now exists p|exists []; now rewrite app_nil_r]. }
  destruct (stopBeginAll g (map fst (g_processes grp)) w) as [pending w1].
  cbn [fst snd] in *. unfold outcome_of, world_after.
  destruct strategy; cbn [fst snd].
  - split; [discriminate|]. split.
    + now apply (Inv_stopCommandAll _ (group_stopped_stop_prims g)).
    + intros _ m p Hp Hst.
      apply (stopCommandAll_issues (trace w) p g m); [exact (Htr m p Hp)|].
      left. exact (Hpend m p Hp Hst).
  - pose proof (preserves_awaitAllStopped _ (group_stopped_stop_prims g) g pending
                  w1 s Hs Hstopped) as [Hgs _].
    unfold world_after in Hgs.
    assert (Hiss : forall m p, getProcess g m w = Some p ->
                     p_state p = READY \/ p_state p = STARTING ->
                     match awaitAllStopped g pending w1 s with
                     | (Returned _, w', _) => stop_issued (trace w) p w'
                     | (Threw _, _, _) => False
                     | (OutOfFuel, _, _) => True
                     end).
    { intros m p Hp Hst.
      apply (awaitAllStopped_issues (trace w) p g m); [exact Hs|exact (Htr m p Hp)|].
      left. exact (Hpend m p Hp Hst). }
    pose proof (awaitAllStopped_no_throw g s pending w1) as Hnt.
    destruct (awaitAllStopped g pending w1 s) as [[[[]|msg|] w2] s2]; cbn [fst snd] in *.
    + split; [discriminate|]. split; [exact Hgs|].
      intros _ m p Hp Hst. exact (Hiss m p Hp Hst).
    + destruct (Hnt msg eq_refl).
    + split; [discriminate|]. split; [exact Hgs|discriminate].
Qed.

(** X14. [stopProcesses] of a group never throws and leaves none of its
    processes READY or STARTING; when it returns, the stop command of
    every process of the group that was running has been run. *)
Theorem stopProcesses_stops_the_group g strategy w s grp :
  lookup g (processGroups w) = Some grp ->
  Forall own_tick s ->
  let r := stopProcesses g strategy w s in
  (forall message, outcome_of r <> Threw message) /\
  group_stopped g (world_after r) /\
  (outcome_of r = Returned tt ->
   forall m p, getProcess g m w = Some p ->
               p_state p = READY \/ p_state p = STARTING ->
               stop_issued (trace w) p (world_after r)).
Proof. exact (stopProcesses_spec g strategy w s grp). Qed.

Lemma stopProcesses_stops_the_group_witness :
  let r := stopProcesses "G1" IMMEDIATELY ex_warm [] in
  lookup "G1" (processGroups ex_warm)
    = Some (ex_G1 (ex_process "A" READY (Some 7%nat)) (ex_process "B" STOPPED None) "A") /\
  group_stopped "G1" (world_after r) /\
  stop_issued (trace ex_warm) (ex_process "A" READY (Some 7%nat)) (world_after r).
Proof.
  destruct (stopProcesses_stops_the_group "G1" IMMEDIATELY ex_warm []
              (ex_G1 (ex_process "A" READY (Some 7%nat)) (ex_process "B" STOPPED None) "A")
              eq_refl (Forall_nil _)) as (_ & Hg & Hi).
  split; [reflexivity|]. split; [exact Hg|].
  apply (Hi eq_refl "A"); [reflexivity|now left].
Defined.

(** *** Shutting down *)

Lemma in_shutdown_stateOf g m w :
  in_shutdown g m w <-> (stateOf g m w = None \/ stateOf g m w = Some SHUTDOWN).
Proof.
  unfold in_shutdown, stateOf. destruct (getProcess g m w) as [p|]; simpl.
  - split.
    + intros H. right. now rewrite (H p eq_refl).
    + intros [H|H] q Hq; [discriminate|]. inversion Hq; subst. congruence.
  - split; [now left|intros _ q; discriminate].
Qed.

Lemma stateOf_stopBeginAt g m g' m' w :
  stateOf g' m' (snd (stopBeginAt g m w)) = stateOf g' m' w \/
  ((g', m') = (g, m) /\ stateOf g' m' (snd (stopBeginAt g m w)) = Some STOPPING /\
   (stateOf g' m' w = Some READY \/ stateOf g' m' w = Some STARTING)).
Proof.
  unfold stopBeginAt. destruct (getProcess g m w) as [p|] eqn:Ep; [|now left].
  destruct (p_state p) eqn:Est; cbn [snd]; try (now left);
    rewrite stateOf_onProcess_setState, Ep;
    (destruct (String.eqb_spec g' g) as [->|Hg];
     [destruct (String.eqb_spec m' m) as [->|Hm]|]; cbn [andb]; try (now left));
    right; (split; [reflexivity|]); (split; [reflexivity|]);
    unfold stateOf; rewrite Ep; cbn [option_map]; rewrite Est; auto.
Qed.

Lemma in_shutdown_stopBeginAt g m g' m' w :
  in_shutdown g' m' w -> in_shutdown g' m' (snd (stopBeginAt g m w)).
Proof.
  rewrite !in_shutdown_stateOf. intros H.
  destruct (stateOf_stopBeginAt g m g' m' w) as [E|(_ & _ & [E|E])].
  - now rewrite E.
  - destruct H; congruence.
  - destruct H; congruence.
Qed.

Lemma in_shutdown_setState g m g' m' w :
  in_shutdown g' m' w -> in_shutdown g' m' (onProcess g m (setState SHUTDOWN) w).
Proof.
  rewrite !in_shutdown_stateOf, stateOf_onProcess_setState. intros H.
  destruct (getProcess g m w); [|exact H].
  destruct (String.eqb g' g && String.eqb m' m); [now right|exact H].
Qed.

Lemma in_shutdown_here g m w : in_shutdown g m (onProcess g m (setState SHUTDOWN) w).
Proof.
  rewrite in_shutdown_stateOf, stateOf_onProcess_setState.
  destruct (getProcess g m w) as [p|] eqn:Ep.
  - rewrite !String.eqb_refl. now right.
  - unfold stateOf. rewrite Ep. now left.
Qed.

Lemma in_shutdown_shutdownBegin g ms g' m' : forall w,
  in_shutdown g' m' w \/ (g' = g /\ In m' ms) ->
  in_shutdown g' m' (snd (shutdownBegin g ms w)).
Proof.
  induction ms as [|m0 ms IH]; intros w H; cbn [shutdownBegin].
  - destruct H as [H|[_ []]]. exact H.
  - pose proof (in_shutdown_stopBeginAt g m0 g' m' w) as H1.
    destruct (stopBeginAt g m0 w) as [go w1]. cbn [snd] in H1.
    specialize (IH (onProcess g m0 (setState SHUTDOWN) w1)).
    destruct (shutdownBegin g ms (onProcess g m0 (setState SHUTDOWN) w1)) as [pending w3].
    cbn [snd] in *. apply IH.
    destruct H as [H|[-> [->|Hin]]].
    + left. now apply in_shutdown_setState, H1.
    + left. apply in_shutdown_here.
    + right. now split.
Qed.

Lemma in_shutdown_stopCommandAt g m g' m' w :
  in_shutdown g' m' w -> in_shutdown g' m' (stopCommandAt g m w).
Proof. rewrite !in_shutdown_stateOf. now rewrite stateOf_stopCommandAt. Qed.

Lemma in_shutdown_shutdownBeginAll gs g m : forall w,
  in_shutdown g m w \/
  (exists grp, In (g, grp) gs /\ In m (map fst (g_processes grp))) ->
  in_shutdown g m (snd (shutdownBeginAll gs w)).
Proof.
  induction gs as [|[g0 grp0] gs IH]; intros w H; cbn [shutdownBeginAll].
  - destruct H as [H|(grp & [] & _)]. exact H.
  - pose proof (in_shutdown_shutdownBegin g0 (map fst (g_processes grp0)) g m w) as H1.
    destruct (shutdownBegin g0 (map fst (g_processes grp0)) w) as [pending w1].
    cbn [snd] in H1. specialize (IH w1).
    destruct (shutdownBeginAll gs w1) as [pending' w2]. cbn [snd] in *.
    apply IH. destruct H as [H|(grp & [E|Hin] & Hm)].
    + left. apply H1. now left.
    + inversion E; subst. left. apply H1. right. now split.
    + right. now exists grp.
Qed.

Lemma shutdownBegin_other g ms g' m' : forall w,
  g' <> g \/ ~ In m' ms ->
  getProcess g' m' (snd (shutdownBegin g ms w)) = getProcess g' m' w.
Proof.
  induction ms as [|m0 ms IH]; intros w H; cbn [shutdownBegin]; [reflexivity|].
  assert (Hne : (g', m') <> (g, m0)).
  { intros E. inversion E; subst. destruct H as [H|H]; [congruence|]. apply H. now left. }
  pose proof (stopBeginAt_other g m0 g' m' w Hne) as H1.
  destruct (stopBeginAt g m0 w) as [go w1]. cbn [snd] in H1.
  specialize (IH (onProcess g m0 (setState SHUTDOWN) w1)).
  destruct (shutdownBegin g ms (onProcess g m0 (setState SHUTDOWN) w1)) as [pending w3].
  cbn [snd] in *. rewrite IH.
  - now rewrite getProcess_onProcess_other.
  - destruct H as [H|H]; [now left|right]. intros Hin. apply H. now right.
Qed.

Lemma shutdownBegin_pending g ms : forall w m p,
  In m ms -> getProcess g m w = Some p ->
  p_state p = READY \/ p_state p = STARTING ->
  In m (fst (shutdownBegin g ms w)).
Proof.
  induction ms as [|m0 ms IH]; intros w m p Hin Hp Hst; [destruct Hin|].
  cbn [shutdownBegin].
  destruct (String.eqb_spec m m0) as [->|Hne].
  - pose proof (stopBeginAt_go g m0 w p Hp Hst) as Hgo.
    destruct (stopBeginAt g m0 w) as [go w1]. cbn [fst] in Hgo. subst go.
    destruct (shutdownBegin g ms _) as [pending w2]. now left.
  - destruct Hin as [E|Hin]; [congruence|].
    pose proof (stopBeginAt_other g m0 g m w) as Ho.
    destruct (stopBeginAt g m0 w) as [go w1]. cbn [snd] in Ho.
    rewrite <- Ho in Hp by congruence.
    rewrite <- (getProcess_onProcess_other g m g m0 (setState SHUTDOWN) w1) in Hp
      by congruence.
    specialize (IH _ m p Hin Hp Hst).
    destruct (shutdownBegin g ms _) as [pending w2]. cbn [fst] in *.
    destruct go; [now right|exact IH].
Qed.

Lemma shutdownBeginAll_pending gs g m p : forall w,
  (exists grp, In (g, grp) gs /\ In m (map fst (g_processes grp))) ->
  getProcess g m w = Some p ->
  p_state p = READY \/ p_state p = STARTING ->
  In (g, m) (fst (shutdownBeginAll gs w)).
Proof.
  induction gs as [|[g0 grp0] gs IH]; intros w (grp & Hin & Hm) Hp Hst;
    [destruct Hin|].
  cbn [shutdownBeginAll].
  destruct (String.eqb_spec g g0) as [->|Hg];
    [destruct (in_dec string_dec m (map fst (g_processes grp0))) as [Hk|Hk]|].
  - pose proof (shutdownBegin_pending g0 _ w m p Hk Hp Hst) as H1.
    destruct (shutdownBegin g0 (map fst (g_processes grp0)) w) as [pending w1].
    destruct (shutdownBeginAll gs w1) as [pending' w2]. cbn [fst] in *.
    apply in_or_app. left. apply in_map_iff. now exists m.
  - destruct Hin as [E|Hin]; [inversion E; subst; contradiction|].
    pose proof (shutdownBegin_other g0 (map fst (g_processes grp0)) g0 m w
                  (or_intror Hk)) as Ho.
    destruct (shutdownBegin g0 (map fst (g_processes grp0)) w) as [pending w1].
    cbn [snd] in Ho. rewrite <- Ho in Hp.
    assert (Hex : exists grp, In (g0, grp) gs /\ In m (map fst (g_processes grp)))
      by now exists grp.
    specialize (IH w1 Hex Hp Hst).
    destruct (shutdownBeginAll gs w1) as [pending' w2]. cbn [fst] in *.
    apply in_or_app. now right.
  - destruct Hin as [E|Hin]; [inversion E; subst; congruence|].
    pose proof (shutdownBegin_other g0 (map fst (g_processes grp0)) g m w
                  (or_introl Hg)) as Ho.
    destruct (shutdownBegin g0 (map fst (g_processes grp0)) w) as [pending w1].
    cbn [snd] in Ho. rewrite <- Ho in Hp.
    assert (Hex : exists grp, In (g, grp) gs /\ In m (map fst (g_processes grp)))
      by now exists grp.
    specialize (IH w1 Hex Hp Hst).
    destruct (shutdownBeginAll gs w1) as [pending' w2]. cbn [fst] in *.
    apply in_or_app. now right.
Qed.

Lemma stopCommandPairs_issues t0 p g m pending : forall w,
  tracked t0 p g m w -> In (g, m) pending \/ stop_issued t0 p w ->
  stop_issued t0 p
    (fold_left (fun w a => stopCommandAt (fst a) (snd a) w) pending w).
Proof.
  induction pending as [|[g0 m0] l IH]; intros w Ht H.
  - destruct H as [[]|H]; exact H.
  - cbn [fold_left fst snd].
    apply IH; [now apply (sp_stopCommand _ (tracked_stop_prims t0 p g m))|].
    destruct H as [[E|Hin]|H].
    + inversion E; subst. right. destruct Ht. now apply stopCommandAt_issues.
    + now left.
    + right. now apply (sp_stopCommand _ (stop_issued_stop_prims t0 p)).
Qed.

Lemma in_shutdown_stopCommandPairs g m pending : forall w,
  in_shutdown g m w ->
  in_shutdown g m (fold_left (fun w a => stopCommandAt (fst a) (snd a) w) pending w).
Proof.
  induction pending as [|[g0 m0] l IH]; intros w H; [exact H|].
  cbn [fold_left fst snd]. apply IH. now apply in_shutdown_stopCommandAt.
Qed.

Lemma shutdownAll_states w s :
  let r := shutdownAll w s in
  schedule_after r = s /\
  (forall g m p, getProcess g m (world_after r) = Some p -> p_state p = SHUTDOWN) /\
  (forall g m p, getProcess g m w = Some p ->
                 p_state p = READY \/ p_state p = STARTING ->
                 stop_issued (trace w) p (world_after r)).
Proof.
  intros r. subst r. unfold shutdownAll, bind, exec.
  change (processGroups (set_shutdown true w)) with (processGroups w).
  set (w0 := set_shutdown true w).
  assert (Hkey : forall g m p, getProcess g m w = Some p ->
            exists grp, In (g, grp) (processGroups w) /\
                        In m (map fst (g_processes grp))).
  { intros g m p Hp. unfold getProcess in Hp.
    destruct (lookup g (processGroups w)) as [grp|] eqn:Eg; [|discriminate].
    exists grp. split; [now apply lookup_In|].
    apply lookup_In in Hp. now apply (in_map fst) in Hp. }
  assert (Hdown : forall g m, in_shutdown g m (snd (shutdownBeginAll (processGroups w) w0))).
  { intros g m.
    destruct (getProcess g m w) as [p|] eqn:Ep.
    - apply in_shutdown_shutdownBeginAll. right. exact (Hkey g m p Ep).
    - pose proof (Inv_shutdownBeginAll _ (absent_stop_prims g m) (processGroups w) w0 Ep)
        as Hn.
      intros q Hq. congruence. }
  assert (Hpend : forall g m p, getProcess g m w = Some p ->
            p_state p = READY \/ p_state p = STARTING ->
            In (g, m) (fst (shutdownBeginAll (processGroups w) w0))).
  { intros g m p Hp Hst.
    exact (shutdownBeginAll_pending _ g m p w0 (Hkey g m p Hp) Hp Hst). }
  assert (Htr : forall g m p, getProcess g m w = Some p ->
            tracked (trace w) p g m (snd (shutdownBeginAll (processGroups w) w0))).
  { intros g m p Hp.
    apply (Inv_shutdownBeginAll _ (tracked_stop_prims (trace w) p g m)).
    split; [now exists p|exists []; now rewrite app_nil_r]. }
  destruct (shutdownBeginAll (processGroups w) w0) as [pending w1].
  cbn [fst snd] in *. unfold outcome_of, world_after, schedule_after. cbn [fst snd].
  split; [reflexivity|]. split.
  - intros g m p. apply in_shutdown_stopCommandPairs, Hdown.
  - intros g m p Hp Hst.
    apply (stopCommandPairs_issues (trace w) p g m); [exact (Htr g m p Hp)|].
    left. exact (Hpend g m p Hp Hst).
Qed.

(** X15. [shutdownAll] returns without waiting for anything that is not
    its own, sets the shutdown flag and leaves every process of every
    group in SHUTDOWN; the stop command of each process that was running
    has been run. *)
Theorem shutdownAll_shuts_everything_down w s :
  let r := shutdownAll w s in
  outcome_of r = Returned tt /\
  schedule_after r = s /\
  shutdown (world_after r) = true /\
  (forall g m p, getProcess g m (world_after r) = Some p -> p_state p = SHUTDOWN) /\
  (forall g m p, getProcess g m w = Some p ->
                 p_state p = READY \/ p_state p = STARTING ->
                 stop_issued (trace w) p (world_after r)).
Proof.
  intros r. destruct (shutdownAll_sets_flag w s) as [Ho Hf].
  destruct (shutdownAll_states w s) as (Hs & Hd & Hi).
  repeat split; assumption.
Qed.

Lemma shutdownAll_shuts_everything_down_witness :
  let r := shutdownAll ex_warm [] in
  getProcess "G1" "A" ex_warm = Some (ex_process "A" READY (Some 7%nat)) /\
  stop_issued (trace ex_warm) (ex_process "A" READY (Some 7%nat)) (world_after r) /\
  stateOf "G1" "A" (world_after r) = Some SHUTDOWN.
Proof.
  destruct (shutdownAll_shuts_everything_down ex_warm []) as (_ & _ & _ & _ & Hi).
  split; [reflexivity|]. split; [|reflexivity].
  apply (Hi "G1" "A"); [reflexivity|now left].
Defined.

(** ** What a swap stops *)

Lemma same_flags_adjust g grp f w :
  (forall x, g_persistent (f x) = g_persistent x /\ g_swap (f x) = g_swap x) ->
  forall g',
  same_flags g grp w -> same_flags g grp (set_processGroups (adjust g' f (processGroups w)) w).
Proof.
  intros Hf g' (grp' & Hl & H1 & H2). unfold same_flags. cbn [processGroups set_processGroups].
  destruct (String.eqb_spec g g') as [->|Hne].
  - exists (f grp'). rewrite lookup_adjust_same, Hl. destruct (Hf grp') as [E1 E2].
    repeat split; congruence.
  - exists grp'. now rewrite lookup_adjust_other.
Qed.

Lemma same_flags_updProcess g grp g' m' f w :
  same_flags g grp w -> same_flags g grp (updProcess g' m' f w).
Proof. apply same_flags_adjust. now intros x. Qed.

Lemma same_flags_stop_prims g grp : stop_prims (same_flags g grp).
Proof.
  constructor; try (intros; assumption).
  - intros g' m' st w _ H. rewrite onProcess_setState.
    destruct (getProcess g' m' w); [|exact H].
    exact (same_flags_updProcess g grp g' m' _ w H).
  - intros g' m' w H. unfold stopCommandAt. now destruct (getProcess g' m' w).
  - intros g' x w H. apply same_flags_adjust; [|exact H]. now intros y.
  - intros; now apply same_flags_updProcess.
  - intros; now apply same_flags_updProcess.
Qed.

Lemma stop_prims_impl (phi : Prop) (P : World -> Prop) :
  stop_prims P -> stop_prims (fun w => phi -> P w).
Proof.
  intros H. constructor; intros.
  - now apply (sp_state _ H); auto.
  - now apply (sp_stopCommand _ H); auto.
  - now apply (sp_lastUsed _ H); auto.
  - now apply (sp_lastActive _ H); auto.
  - now apply (sp_shutdown _ H); auto.
  - now apply (sp_now _ H); auto.
  - now apply (sp_children _ H); auto.
  - now apply (sp_timers _ H); auto.
  - now apply (sp_add _ H); auto.
  - now apply (sp_remove _ H); auto.
Qed.

(** [stopProcesses] on a group of the manager: the group is stopped. *)
Lemma hoare_stopProcesses_stopped (Inv : World -> Prop) g strategy :
  stop_prims Inv ->
  hoare own_tick Inv (stopProcesses g strategy)
        (fun _ w => Inv w /\ group_stopped g w) (fun _ => True) (fun _ => True).
Proof.
  intros SP w s Hs Hw.
  destruct (preserves_stopProcesses _ SP g strategy w s Hs Hw) as [H1 H2].
  destruct (lookup g (processGroups w)) as [grp|] eqn:Eg.
  - destruct (stopProcesses_spec g strategy w s grp Eg Hs) as (_ & Hst & _).
    unfold world_after, schedule_after in *.
    destruct (stopProcesses g strategy w s) as [[[[]|msg|] w1] s1]; cbn [fst snd] in *;
      auto.
  - unfold stopProcesses, bind, thisGroup, orThrow. rewrite Eg. auto.
Qed.

Lemma hoare_stopOtherGroups targetId gs : forall Inv : World -> Prop,
  stop_prims Inv ->
  hoare own_tick Inv (stopOtherGroups targetId gs)
        (fun _ w => Inv w /\
                    forall g grp, In (g, grp) gs -> g <> targetId ->
                                  g_persistent grp = false -> group_stopped g w)
        (fun _ => True) (fun _ => True).
Proof.
  induction gs as [|[groupId otherGroup] gs IH]; intros Inv SP; cbn [stopOtherGroups].
  - apply hoare_ret. intros w Hw. split; [exact Hw|]. intros g grp [].
  - set (Here := fun w => groupId <> targetId /\ g_persistent otherGroup = false ->
                          group_stopped groupId w).
    assert (SH : stop_prims Here)
      by (apply stop_prims_impl, group_stopped_stop_prims).
    eapply hoare_bind with (Mid := fun _ w => Inv w /\ Here w).
    + destruct (String.eqb_spec groupId targetId) as [->|Hne]; cbn [negb andb].
      * apply hoare_ret. intros w Hw. split; [exact Hw|]. intros [H _]. congruence.
      * destruct (g_persistent otherGroup) eqn:Ep; cbn [negb].
        -- apply hoare_ret. intros w Hw. split; [exact Hw|]. intros [_ H]. discriminate.
        -- eapply hoare_bind with (Mid := fun _ w => Inv w /\ group_stopped groupId w).
           ++ now apply hoare_stopProcesses_stopped.
           ++ intros _. apply hoare_exec. intros w [Hw Hst]. split.
              ** now apply (sp_lastUsed _ SP).
              ** intros _. now apply (sp_lastUsed _ (group_stopped_stop_prims groupId)).
    + intros _.
      eapply hoare_weaken;
        [| | | |apply (IH (fun w => Inv w /\ Here w) (stop_prims_and _ _ SP SH))];
        cbv beta; auto.
      intros _ w [[Hw Hh] Hall]. split; [exact Hw|].
      intros g grp [E|Hin] Hne Hp; [|now apply (Hall g grp)].
      inversion E; subst. apply Hh. now split.
Qed.

Lemma hoare_pure okTick {A} (phi : Prop) (P : World -> Prop) (c : Async A) Q E F :
  (phi -> hoare okTick P c Q E F) -> hoare okTick (fun w => phi /\ P w) c Q E F.
Proof. intros H w s Hs [Hphi Hp]. exact (H Hphi w s Hs Hp). Qed.

(** A step that keeps an invariant, as a triple in which throwing and
    being left suspended carry no obligation. *)
Lemma hoare_keeps {A} (c : Async A) (Inv : World -> Prop) :
  preserves Inv own_tick c ->
  hoare own_tick Inv c (fun _ => Inv) (fun _ => True) (fun _ => True).
Proof.
  intros Hc. eapply hoare_weaken; [| | | |apply (hoare_preserves own_tick c Inv Hc)];
    auto.
Qed.

Section SwapStops.
Variables (name real target : string) (tgrp : ProcessGroup) (w0 : World).
Variables (g : string) (grp : ProcessGroup).
Hypothesis Hres : resolveModelName name w0 = Some real.
Hypothesis Hfind : findGroupByModelName real w0 = Some (target, tgrp).
Hypothesis Hg : lookup g (processGroups w0) = Some grp.

Lemma hoare_swap_stops :
  hoare own_tick (fun w => w = w0) (swapProcessGroup name)
        (fun _ w => (crossing target tgrp w0 g grp -> group_stopped g w) /\
                    (excluding tgrp g grp -> group_stopped g w))
        (fun _ => True) (fun _ => True).
Proof.
  set (Inv := same_flags g grp).
  set (C := fun w => crossing target tgrp w0 g grp -> group_stopped g w).
  set (X := fun w => excluding tgrp g grp -> group_stopped g w).
  assert (SI : stop_prims Inv) by apply same_flags_stop_prims.
  assert (SC : stop_prims C) by apply stop_prims_impl, group_stopped_stop_prims.
  assert (SX : stop_prims X) by apply stop_prims_impl, group_stopped_stop_prims.
  assert (SIC : stop_prims (fun w => Inv w /\ C w)) by now apply stop_prims_and.
  assert (SA : stop_prims (fun w => (Inv w /\ C w) /\ X w)) by now apply stop_prims_and.
  unfold swapProcessGroup.
  eapply hoare_bind with (Mid := fun r w => r = real /\ w = w0).
  { apply hoare_orThrow; auto. intros w a -> H. split; congruence. }
  intros r. apply hoare_pure. intros ->.
  eapply hoare_bind with (Mid := fun found w => found = (target, tgrp) /\ w = w0).
  { apply hoare_orThrow; auto. intros w a -> H. split; congruence. }
  intros found. apply hoare_pure. intros ->.
  eapply hoare_bind with (Mid := fun last w => last = lastActiveGroup w0 /\ w = w0).
  { apply hoare_read. intros w ->. now split. }
  intros last. apply hoare_pure. intros ->.
  eapply hoare_bind with (Mid := fun _ w => Inv w /\ C w).
  { assert (Hi0 : Inv w0) by (exists grp; auto).
    destruct (lastActiveGroup w0) as [last|] eqn:El.
    - eapply hoare_bind with
        (Mid := fun lp w => lp = persistent_of last w0 /\ w = w0).
      { apply hoare_read. intros w ->. now split. }
      intros lp. apply hoare_pure. intros ->.
      destruct (negb (String.eqb last target) && negb (persistent_of last w0)
                && negb (g_persistent tgrp)) eqn:Econd.
      + eapply hoare_bind with (Mid := fun _ w => Inv w /\ group_stopped last w).
        * eapply hoare_weaken;
            [| | | |apply (hoare_stopProcesses_stopped Inv last WAIT_FOR_INFLIGHT SI)];
            cbv beta; auto.
          intros w ->. exact Hi0.
        * intros _. apply hoare_exec. intros w [Hi Hst]. split.
          -- now apply (sp_lastUsed _ SI).
          -- intros (Hl & _). rewrite El in Hl. inversion Hl; subst last.
             now apply (sp_lastUsed _ (group_stopped_stop_prims g)).
      + apply hoare_ret. intros w ->. split; [exact Hi0|].
        intros (Hl & Hne & Hp & Hpt). rewrite El in Hl. inversion Hl; subst last.
        exfalso.
        unfold persistent_of in Econd. rewrite Hg, Hp, Hpt in Econd.
        apply String.eqb_neq in Hne. rewrite Hne in Econd. discriminate.
    - apply hoare_ret. intros w ->. split; [exact Hi0|].
      intros (Hl & _). congruence. }
  intros _.
  eapply hoare_bind with (Mid := fun _ w => (Inv w /\ C w) /\ X w).
  { destruct (g_exclusive tgrp) eqn:Eex.
    - eapply hoare_bind with
        (Mid := fun gs w =>
                  (exists grp', In (g, grp') gs /\ g_persistent grp' = g_persistent grp)
                  /\ (Inv w /\ C w)).
      { apply hoare_read. intros w H. split; [|exact H].
        destruct H as [(grp' & Hl & Hp & _) _]. exists grp'.
        split; [now apply lookup_In|exact Hp]. }
      intros gs. apply hoare_pure. intros (grp' & Hin & Hp).
      eapply hoare_weaken;
        [| | | |apply (hoare_stopOtherGroups (g_id tgrp) gs _ SIC)]; cbv beta; auto.
      intros _ w [H Hall]. split; [exact H|].
      intros (_ & Hne & Hnp). apply (Hall g grp'); auto. congruence.
    - apply hoare_ret. intros w H. split; [exact H|].
      intros (He & _). congruence. }
  intros _.
  eapply hoare_weaken with (Q := fun _ w => (Inv w /\ C w) /\ X w);
    [| | | |apply hoare_keeps]; cbv beta; auto.
  { intros _ w [[_ Hc] Hx]. now split. }
  apply preserves_bind; [apply preserves_thisGroup|intros grp1].
  apply preserves_bind.
  { destruct (g_swap grp1 && negb (String.eqb (g_lastUsedProcess grp1) real));
      [|apply preserves_ret].
    destruct (negb (String.eqb (g_lastUsedProcess grp1) "")
              && has_key (g_lastUsedProcess grp1) (g_processes grp1));
      [|apply preserves_ret].
    apply preserves_bind; [apply preserves_this|intros old].
    destruct (state_eqb (p_state old) READY); [|apply preserves_ret].
    apply preserves_bind; [now apply preserves_stop|intros _].
    apply preserves_wait_while. now apply Inv_own_tick. }
  intros _.
  apply preserves_bind;
    [apply preserves_exec; intros; now apply (sp_lastActive _ SA)|intros _].
  apply preserves_bind;
    [apply preserves_exec; intros; now apply (sp_lastUsed _ SA)|intros _].
  apply preserves_ret.
Qed.

End SwapStops.

(** X16. When [swapProcessGroup] returns, the groups it had to stop are
    stopped: if the group of the model is exclusive, no other group that
    is not persistent has a READY or STARTING process; and the group that
    was active before, when it is another one and neither it nor the group
    of the model is persistent, has none either. *)
Theorem swap_stops_other_groups name w s real target tgrp :
  resolveModelName name w = Some real ->
  findGroupByModelName real w = Some (target, tgrp) ->
  Forall own_tick s ->
  let r := swapProcessGroup name w s in
  forall result, outcome_of r = Returned result ->
  forall g grp, lookup g (processGroups w) = Some grp ->
    (g_exclusive tgrp = true -> g <> g_id tgrp -> g_persistent grp = false ->
     group_stopped g (world_after r)) /\
    (lastActiveGroup w = Some g -> g <> target ->
     g_persistent grp = false -> g_persistent tgrp = false ->
     group_stopped g (world_after r)).
Proof.
  intros Hres Hfind Hs r result Hr g grp Hg. subst r.
  pose proof (hoare_swap_stops name real target tgrp w g grp Hres Hfind Hg
                w s Hs eq_refl) as H.
  unfold outcome_of, world_after in *.
  destruct (swapProcessGroup name w s) as [[[a|msg|] w1] s1]; cbn [fst snd] in *;
    try discriminate.
  destruct H as [[Hc Hx] _]. split.
  - intros H1 H2 H3. apply Hx. now repeat split.
  - intros H1 H2 H3 H4. apply Hc. now repeat split.
Qed.

Lemma swap_stops_other_groups_witness :
  let r := swapProcessGroup "C" ex_two_groups [] in
  resolveModelName "C" ex_two_groups = Some "C" /\
  outcome_of r = Returned ("G2", "C") /\
  group_stopped "G1" (world_after r).
Proof.
  split; [reflexivity|]. split; [reflexivity|].
  destruct (swap_stops_other_groups "C" ex_two_groups [] "C" "G2"
              (mkProcessGroup "G2" true true false ["C"]
                 [("C", ex_process "C" STOPPED None)] "")
              eq_refl eq_refl (Forall_nil _) ("G2", "C") eq_refl "G1"
              (mkProcessGroup "G1" true true false ["A"]
                 [("A", ex_process "A" READY (Some 7%nat))] "A") eq_refl) as [H _].
  apply H; [reflexivity|discriminate|reflexivity].
Defined.

(** ** What the stopping side leaves alone *)

Lemma stop_prims_frame (Inv : World -> Prop) : stop_prims Inv -> frame_prims Inv.
Proof.
  intros SP. constructor.
  - apply (sp_state _ SP).
  - apply (sp_stopCommand _ SP).
  - apply (sp_now _ SP).
  - apply (sp_children _ SP).
  - apply (sp_timers _ SP).
  - apply (sp_add _ SP).
  - apply (sp_remove _ SP).
Qed.

Section Frame.
Variable Inv : World -> Prop.
Hypothesis FP : frame_prims Inv.

Lemma frame_stopBeginAt g m w : Inv w -> Inv (snd (stopBeginAt g m w)).
Proof.
  intros Hw. unfold stopBeginAt.
  destruct (getProcess g m w) as [p|]; [|exact Hw].
  destruct (p_state p); simpl; try exact Hw; apply (fp_state _ FP); auto.
Qed.

Lemma frame_stopNow g m w : Inv w -> Inv (stopNow g m w).
Proof.
  intros Hw. unfold stopNow.
  pose proof (frame_stopBeginAt g m w Hw) as H.
  destruct (stopBeginAt g m w) as [go w1]; simpl in H.
  destruct go; [now apply (fp_stopCommand _ FP)|exact H].
Qed.

Lemma frame_ttlCallback g m w : Inv w -> Inv (ttlCallback g m w).
Proof.
  intros Hw. unfold ttlCallback, clearInterval.
  destruct (getProcess g m w) as [p|]; [|exact Hw].
  destruct (negb (state_eqb (p_state p) READY)); [now apply (fp_timers _ FP)|].
  destruct (p_inFlightRequests p >? 0); [exact Hw|].
  destruct (now w - p_lastRequestHandled p >? unloadAfter (p_config p) * 1000);
    [|exact Hw].
  apply (fp_timers _ FP). now apply frame_stopNow.
Qed.

Lemma frame_action a w : own_action a -> Inv w -> Inv (apply_action a w).
Proof.
  intros Ha Hw. destruct a as [pid|g m|g m|g m|f]; simpl.
  - destruct (child_owner pid (children w)) as [[g m]|]; [|exact Hw].
    rewrite onProcess_handleProcessExit.
    apply (fp_state _ FP); auto. now apply (fp_children _ FP).
  - now apply (fp_add _ FP).
  - now apply (fp_remove _ FP).
  - destruct (has_timer g m (ttlTimers w)); [now apply frame_ttlCallback|exact Hw].
  - destruct Ha.
Qed.

Lemma frame_own_tick t w : own_tick t -> Inv w -> Inv (apply_tick t w).
Proof.
  intros Ht Hw. unfold apply_tick, apply_actions.
  assert (H0 : Inv (set_now (now w + elapsed t) w)) by now apply (fp_now _ FP).
  revert H0. generalize (set_now (now w + elapsed t) w).
  unfold own_tick in Ht. induction Ht as [|a l Ha Hl IH]; intros w1 H1; [exact H1|].
  cbn [fold_left]. apply IH. now apply frame_action.
Qed.

Lemma frame_stop g m strategy : preserves Inv own_tick (stop g m strategy).
Proof.
  unfold stop. apply preserves_bind; [apply preserves_this|intros p].
  destruct (p_state p); try apply preserves_ret;
    (apply preserves_bind;
     [apply preserves_exec; intros; apply (fp_state _ FP); auto|intros _];
     apply preserves_bind;
     [destruct strategy;
      [apply preserves_ret|apply preserves_wait_while; apply frame_own_tick]
     |intros _; apply preserves_exec; intros; now apply (fp_stopCommand _ FP)]).
Qed.

Lemma frame_stopBeginAll g ms : forall w, Inv w -> Inv (snd (stopBeginAll g ms w)).
Proof.
  induction ms as [|m ms IH]; intros w Hw; simpl; [exact Hw|].
  pose proof (frame_stopBeginAt g m w Hw) as H1.
  destruct (stopBeginAt g m w) as [go w1]; simpl in H1.
  specialize (IH w1 H1).
  destruct (stopBeginAll g ms w1) as [pending w2]; exact IH.
Qed.

Lemma frame_pollInFlight g pending : forall w, Inv w -> Inv (snd (pollInFlight g pending w)).
Proof.
  induction pending as [|m l IH]; intros w Hw; simpl; [exact Hw|].
  destruct (inFlight_positive g m w).
  - specialize (IH w Hw). destruct (pollInFlight g l w); exact IH.
  - apply IH. now apply (fp_stopCommand _ FP).
Qed.

Lemma frame_stopProcesses g strategy : preserves Inv own_tick (stopProcesses g strategy).
Proof.
  unfold stopProcesses. apply preserves_bind; [apply preserves_thisGroup|intros grp].
  intros w s Hs Hw.
  pose proof (frame_stopBeginAll g (map fst (g_processes grp)) w Hw) as H1.
  destruct (stopBeginAll g (map fst (g_processes grp)) w) as [pending w1].
  simpl in H1. destruct strategy.
  - split; [|exact Hs]. unfold world_after. cbn [fst snd].
    unfold stopCommandAll. revert w1 H1.
    induction pending as [|m l IH]; intros w1 H1; [exact H1|].
    cbn [fold_left]. apply IH. now apply (fp_stopCommand _ FP).
  - revert pending w1 H1 Hs. generalize s as s0.
    induction s0 as [|t s0 IH]; intros pending w1 H1 Hs0; simpl;
      pose proof (frame_pollInFlight g pending w1 H1) as H2;
      destruct (pollInFlight g pending w1) as [pending' w']; simpl in H2.
    + destruct pending'; now split.
    + destruct pending'; [now split|].
      inversion Hs0; subst.
      apply IH; [now apply frame_own_tick|assumption].
Qed.

End Frame.

Lemma frame_prims_and (A B : World -> Prop) :
  frame_prims A -> frame_prims B -> frame_prims (fun w => A w /\ B w).
Proof.
  intros HA HB. constructor.
  - intros g m st w Hst [Ha Hb]. split; [now apply (fp_state _ HA)|now apply (fp_state _ HB)].
  - intros g m w [Ha Hb]. split; [now apply (fp_stopCommand _ HA)|now apply (fp_stopCommand _ HB)].
  - intros t w [Ha Hb]. split; [now apply (fp_now _ HA)|now apply (fp_now _ HB)].
  - intros c w [Ha Hb]. split; [now apply (fp_children _ HA)|now apply (fp_children _ HB)].
  - intros t w [Ha Hb]. split; [now apply (fp_timers _ HA)|now apply (fp_timers _ HB)].
  - intros g m t w [Ha Hb]. split; [now apply (fp_add _ HA)|now apply (fp_add _ HB)].
  - intros g m w [Ha Hb]. split; [now apply (fp_remove _ HA)|now apply (fp_remove _ HB)].
Qed.

Lemma frame_prims_or (A B : World -> Prop) :
  frame_prims A -> frame_prims B -> frame_prims (fun w => A w \/ B w).
Proof.
  intros HA HB. constructor.
  - intros g m st w Hst [H|H]; [left; now apply (fp_state _ HA)|right; now apply (fp_state _ HB)].
  - intros g m w [H|H]; [left; now apply (fp_stopCommand _ HA)|right; now apply (fp_stopCommand _ HB)].
  - intros t w [H|H]; [left; now apply (fp_now _ HA)|right; now apply (fp_now _ HB)].
  - intros c w [H|H]; [left; now apply (fp_children _ HA)|right; now apply (fp_children _ HB)].
  - intros t w [H|H]; [left; now apply (fp_timers _ HA)|right; now apply (fp_timers _ HB)].
  - intros g m t w [H|H]; [left; now apply (fp_add _ HA)|right; now apply (fp_add _ HB)].
  - intros g m w [H|H]; [left; now apply (fp_remove _ HA)|right; now apply (fp_remove _ HB)].
Qed.

Lemma frame_prims_forall {X} (A : X -> World -> Prop) :
  (forall x, frame_prims (A x)) -> frame_prims (fun w => forall x, A x w).
Proof.
  intros HA. constructor.
  - intros g m st w Hst H x. now apply (fp_state _ (HA x)).
  - intros g m w H x. now apply (fp_stopCommand _ (HA x)).
  - intros t w H x. now apply (fp_now _ (HA x)).
  - intros c w H x. now apply (fp_children _ (HA x)).
  - intros t w H x. now apply (fp_timers _ (HA x)).
  - intros g m t w H x. now apply (fp_add _ (HA x)).
  - intros g m w H x. now apply (fp_remove _ (HA x)).
Qed.

Lemma frame_prims_const (phi : Prop) : frame_prims (fun _ => phi).
Proof. constructor; auto. Qed.

(** *** Fields of the groups *)

Lemma view_adjust {X} (h : ProcessGroup -> X) k f l :
  (forall grp, h (f grp) = h grp) ->
  map (fun ge => (fst ge, h (snd ge))) (adjust k f l)
  = map (fun ge => (fst ge, h (snd ge))) l.
Proof.
  intros Hf. induction l as [|[k' v] l IH]; [reflexivity|].
  cbn [adjust]. destruct (String.eqb k k'); cbn [map fst snd].
  - now rewrite Hf.
  - now rewrite IH.
Qed.

Lemma lookup_view {X} (h : ProcessGroup -> X) g w :
  lookup g (groupView h w) = option_map h (lookup g (processGroups w)).
Proof.
  unfold groupView. induction (processGroups w) as [|[k v] l IH]; [reflexivity|].
  cbn [map fst snd lookup]. now destruct (String.eqb g k).
Qed.

Section View.
Context {X : Type} (h : ProcessGroup -> X).
Hypothesis h_processes : forall ps grp, h (set_processes ps grp) = h grp.

Lemma view_updProcess g m f w : groupView h (updProcess g m f w) = groupView h w.
Proof.
  unfold groupView, updProcess. cbn [processGroups set_processGroups].
  apply view_adjust. intros grp. apply h_processes.
Qed.

Lemma view_onProcess g m f w : groupView h (onProcess g m f w) = groupView h w.
Proof.
  unfold onProcess. destruct (getProcess g m w) as [p|]; [|reflexivity].
  destruct (f p) as [p' es].
  change (groupView h (emit es (updProcess g m (fun _ => p') w)))
    with (groupView h (updProcess g m (fun _ => p') w)).
  apply view_updProcess.
Qed.

Lemma view_stopCommandAt g m w : groupView h (stopCommandAt g m w) = groupView h w.
Proof. unfold stopCommandAt. now destruct (getProcess g m w). Qed.

Lemma view_spawnChild g m id exe args w :
  groupView h (spawnChild g m id exe args w) = groupView h w.
Proof.
  unfold spawnChild.
  change (groupView h (updProcess g m (set_process (Some (nextPid w))) w) = groupView h w).
  apply view_updProcess.
Qed.

Lemma view_startTTLCheck g m w : groupView h (startTTLCheck g m w) = groupView h w.
Proof. unfold startTTLCheck. now destruct (getProcess g m w). Qed.

Lemma view_frame_prims V : frame_prims (fun w => groupView h w = V).
Proof.
  constructor; try (intros; assumption).
  - intros g m st w _ H. now rewrite view_onProcess.
  - intros g m w H. now rewrite view_stopCommandAt.
  - intros g m t w H. now rewrite view_updProcess.
  - intros g m w H. now rewrite view_updProcess.
Qed.

Lemma view_own_tick V t w :
  own_tick t -> groupView h w = V -> groupView h (apply_tick t w) = V.
Proof. apply (frame_own_tick _ (view_frame_prims V)). Qed.

Lemma view_start validURL g m V :
  preserves (fun w => groupView h w = V) own_tick (start validURL g m).
Proof.
  apply preserves_start_under.
  - intros t w. apply view_own_tick.
  - intros g' m' st w H. now rewrite view_onProcess.
  - intros g' m' id exe args w H. now rewrite view_spawnChild.
  - intros g' m' w H. now rewrite view_startTTLCheck.
  - intros g' m' w H. now rewrite view_updProcess.
Qed.

Hypothesis h_lastUsed : forall x grp, h (set_lastUsedProcess x grp) = h grp.

Lemma view_updGroup_lastUsed g x w :
  groupView h (updGroup g (set_lastUsedProcess x) w) = groupView h w.
Proof.
  unfold groupView, updGroup. cbn [processGroups set_processGroups].
  apply view_adjust. intros grp. apply h_lastUsed.
Qed.

Lemma view_stop_prims V : stop_prims (fun w => groupView h w = V).
Proof.
  constructor; try (intros; assumption).
  - intros g m st w _ H. now rewrite view_onProcess.
  - intros g m w H. now rewrite view_stopCommandAt.
  - intros g x w H. now rewrite view_updGroup_lastUsed.
  - intros g m t w H. now rewrite view_updProcess.
  - intros g m w H. now rewrite view_updProcess.
Qed.

End View.

(** *** The states of the processes *)

Lemma stateOf_updGroup_lastUsed g m g' x w :
  stateOf g m (updGroup g' (set_lastUsedProcess x) w) = stateOf g m w.
Proof. unfold stateOf. now rewrite getProcess_updGroup_lastUsed. Qed.

Section States.
Variable phi : string -> string -> option ProcessState -> Prop.
Hypothesis phi_down : forall g m st st',
  st' = STOPPING \/ st' = STOPPED \/ st' = SHUTDOWN ->
  phi g m (Some st) -> phi g m (Some st').

Lemma state_inv_setState g m st w :
  st = STOPPING \/ st = STOPPED \/ st = SHUTDOWN ->
  state_inv phi w -> state_inv phi (onProcess g m (setState st) w).
Proof.
  intros Hst H g' m'. rewrite stateOf_onProcess_setState.
  destruct (getProcess g m w) as [p|] eqn:Ep; [|apply H].
  destruct (String.eqb_spec g' g) as [->|Hg];
    [destruct (String.eqb_spec m' m) as [->|Hm]|]; cbn [andb]; try apply H.
  apply (phi_down g m (p_state p)); [exact Hst|].
  specialize (H g m). unfold stateOf in H. now rewrite Ep in H.
Qed.

Lemma state_inv_stop_prims : stop_prims (state_inv phi).
Proof.
  constructor; try (intros; assumption).
  - intros. now apply state_inv_setState.
  - intros g m w H g' m'. rewrite stateOf_stopCommandAt. apply H.
  - intros g x w H g' m'. rewrite stateOf_updGroup_lastUsed. apply H.
  - intros g m t w H g' m'. rewrite stateOf_updProcess_keep by reflexivity. apply H.
  - intros g m w H g' m'. rewrite stateOf_updProcess_keep by reflexivity. apply H.
Qed.

End States.

(** [start] at an address keeps what its steps at that address keep. *)
Section StartAt.
Variable Inv : World -> Prop.
Variables g m : string.
Hypothesis Inv_tick : forall t w, own_tick t -> Inv w -> Inv (apply_tick t w).
Hypothesis Hstate : forall st w, Inv w -> Inv (onProcess g m (setState st) w).
Hypothesis Hspawn : forall id exe args w, Inv w -> Inv (spawnChild g m id exe args w).
Hypothesis Httl : forall w, Inv w -> Inv (startTTLCheck g m w).
Hypothesis Hfailed : forall w, Inv w -> Inv (updProcess g m (set_failedStartCount 0) w).

Lemma preserves_start_at validURL : preserves Inv own_tick (start validURL g m).
Proof.
  unfold start. apply preserves_bind; [apply preserves_this|intros p].
  assert (Hbody : preserves Inv own_tick
    (exec (onProcess g m (setState STARTING)) ;;
     try_catch
       (spawn g m ;;
        sleep ;;
        passed <-
          (if negb (String.eqb (checkEndpoint (p_config p)) "none")
           then
             (if validURL (checkEndpoint (p_config p)) (proxy (p_config p))
              then ret tt else throw "Invalid URL") ;;
             checkStartTime <- read now ;;
             healthLoop g m checkStartTime (p_healthCheckTimeout p * 1000)
           else ret Passed) ;;
        match passed with
        | StateChanged => ret false
        | Expired => throw "Health check timed out"
        | Passed =>
            (if unloadAfter (p_config p) >? 0
             then exec (startTTLCheck g m) else ret tt) ;;
            exec (onProcess g m (setState READY)) ;;
            exec (updProcess g m (set_failedStartCount 0)) ;;
            ret true
        end)
       (fun _ =>
          exec (onProcess g m (setState STOPPED)) ;;
          ret false))).
  { apply preserves_bind;
      [apply preserves_exec; intros; now apply Hstate|intros _].
    apply preserves_try_catch.
    - apply preserves_bind.
      { unfold spawn. apply preserves_bind; [apply preserves_this|intros q].
        destruct (parseCommand (cmd (p_config q))) as [|exe args];
          [apply preserves_throw|].
        destruct (String.eqb exe ""); [apply preserves_throw|].
        apply preserves_exec; intros; now apply Hspawn. }
      intros _.
      apply preserves_bind; [apply preserves_sleep, Inv_tick|intros _].
      apply preserves_bind.
      + destruct (negb (String.eqb (checkEndpoint (p_config p)) "none"));
          [|apply preserves_ret].
        apply preserves_bind.
        * destruct (validURL _ _); [apply preserves_ret|apply preserves_throw].
        * intros _. apply preserves_bind; [apply preserves_read|intros t0].
          apply preserves_healthLoop, Inv_tick.
      + intros [| |]; [|apply preserves_ret|apply preserves_throw].
        apply preserves_bind.
        * destruct (unloadAfter (p_config p) >? 0); [|apply preserves_ret].
          apply preserves_exec; intros; now apply Httl.
        * intros _. apply preserves_bind;
            [apply preserves_exec; intros; now apply Hstate|intros _].
          apply preserves_bind;
            [apply preserves_exec; intros; now apply Hfailed|intros _].
          apply preserves_ret.
    - intros _. apply preserves_bind;
        [apply preserves_exec; intros; now apply Hstate|intros _].
      apply preserves_ret. }
  destruct (p_state p); try exact Hbody; try apply preserves_ret.
  apply preserves_bind; [apply preserves_wait_while, Inv_tick|intros _].
  apply preserves_read.
Qed.

End StartAt.

(** While [start] runs at an address, the processes at the other
    addresses keep a property that holds of the states a process goes
    through when it stops. *)
Lemma state_inv_start validURL g m phi :
  (forall g' m' st st',
     st' = STOPPING \/ st' = STOPPED \/ st' = SHUTDOWN ->
     phi g' m' (Some st) -> phi g' m' (Some st')) ->
  (forall o, phi g m o) ->
  preserves (state_inv phi) own_tick (start validURL g m).
Proof.
  intros Hdown Hfree.
  assert (Hkeep : forall f w, (forall p, p_state (f p) = p_state p) ->
            state_inv phi w -> state_inv phi (updProcess g m f w)).
  { intros f w Hf H g' m'. rewrite stateOf_updProcess_keep by exact Hf. apply H. }
  apply preserves_start_at.
  - intros t w. apply (Inv_own_tick _ (state_inv_stop_prims phi Hdown)).
  - intros st w H g' m'. rewrite stateOf_onProcess_setState.
    destruct (getProcess g m w) as [p|]; [|apply H].
    destruct (String.eqb_spec g' g) as [->|Hg];
      [destruct (String.eqb_spec m' m) as [->|Hm]|]; cbn [andb]; try apply H.
    apply Hfree.
  - intros id exe args w H g' m'. rewrite stateOf_spawnChild. apply H.
  - intros w H g' m'. rewrite stateOf_startTTLCheck. apply H.
  - intros w H. now apply Hkeep.
Qed.

(** ** The state between two requests *)

Lemma lastUsedOf_view g w :
  lastUsedOf g w = lookup g (groupView g_lastUsedProcess w).
Proof. unfold lastUsedOf. now rewrite lookup_view. Qed.

Lemma lastUsedOf_frame_prims g x : frame_prims (fun w => lastUsedOf g w = x).
Proof.
  assert (H : forall w w', groupView g_lastUsedProcess w' = groupView g_lastUsedProcess w ->
                           lastUsedOf g w = x -> lastUsedOf g w' = x).
  { intros w w' E. rewrite !lastUsedOf_view. now rewrite E. }
  constructor; try (intros; assumption).
  - intros g' m st w _. apply H. now apply view_onProcess.
  - intros g' m w. apply H. now apply view_stopCommandAt.
  - intros g' m t w. apply H. now apply view_updProcess.
  - intros g' m w. apply H. now apply view_updProcess.
Qed.

Lemma lastUsedOf_updGroup g g' x w :
  lastUsedOf g (updGroup g' (set_lastUsedProcess x) w) =
  if String.eqb g g' then option_map (fun _ => x) (lastUsedOf g w) else lastUsedOf g w.
Proof.
  unfold lastUsedOf, updGroup. cbn [processGroups set_processGroups].
  destruct (String.eqb_spec g g') as [->|Hne].
  - rewrite lookup_adjust_same. now destruct (lookup g' (processGroups w)).
  - now rewrite lookup_adjust_other.
Qed.

Lemma settled_refl w : none_starting w -> settled w w.
Proof. intros H. split; [reflexivity|]. intros g m. split; [apply H|auto]. Qed.

Lemma settled_stop_prims w0 : stop_prims (settled w0).
Proof.
  apply stop_prims_and.
  - apply view_stop_prims; reflexivity.
  - apply state_inv_stop_prims. intros g m st st' Hst' [_ _].
    split; destruct Hst' as [->|[->| ->]]; discriminate.
Qed.

Lemma In_view {X} (h : ProcessGroup -> X) g x w :
  In (g, x) (groupView h w) <-> exists grp, In (g, grp) (processGroups w) /\ h grp = x.
Proof.
  unfold groupView. rewrite in_map_iff. split.
  - intros [[k grp] [E Hin]]. cbn [fst snd] in E. inversion E; subst. now exists grp.
  - intros [grp [Hin E]]. exists (g, grp). cbn [fst snd]. now rewrite E.
Qed.

Lemma settled_well_keyed w0 w : well_keyed w0 -> settled w0 w -> well_keyed w.
Proof.
  intros Hk [Hv _] g grp Hin.
  assert (H : In (g, shapeOf grp) (groupView shapeOf w)) by (apply In_view; eauto).
  rewrite Hv in H. apply In_view in H as [grp0 [H0 E]].
  assert (E1 : g_id grp0 = g_id grp) by (unfold shapeOf in E; congruence).
  rewrite <- E1. now apply Hk.
Qed.

Lemma settled_swap w0 w g grp :
  settled w0 w -> lookup g (processGroups w) = Some grp ->
  exists grp0, lookup g (processGroups w0) = Some grp0 /\ g_swap grp0 = g_swap grp.
Proof.
  intros [Hv _] Hl.
  assert (H : lookup g (groupView shapeOf w) = Some (shapeOf grp))
    by now rewrite lookup_view, Hl.
  rewrite Hv, lookup_view in H.
  destruct (lookup g (processGroups w0)) as [grp0|]; [|discriminate].
  exists grp0. split; [reflexivity|]. cbn in H. unfold shapeOf in H. congruence.
Qed.

Lemma settled_trans w0 w1 w2 : settled w0 w1 -> settled w1 w2 -> settled w0 w2.
Proof.
  intros [Hv1 Hs1] [Hv2 Hs2]. split; [congruence|].
  intros g m. destruct (Hs2 g m) as [Hn Hr]. split; [exact Hn|].
  intros H. apply (Hs1 g m). now apply Hr.
Qed.

(** From a state between two requests to a later one: what is left to
    show is that a process of a swapping group that is still READY, and
    was the last used one, is the last used one now. *)
Lemma serving_from w0 w :
  serving w0 -> settled w0 w ->
  (forall g grp m,
     lookup g (processGroups w) = Some grp -> g_swap grp = true ->
     stateOf g m w = Some READY -> lastUsedOf g w0 = Some m -> m <> "" ->
     g_lastUsedProcess grp = m) ->
  serving w.
Proof.
  intros (Hk & Hn & Hr) Hs H. split; [now apply (settled_well_keyed w0)|]. split.
  - intros g m. apply (proj2 Hs g m).
  - intros g grp m Hl Hsw Hst.
    destruct (settled_swap w0 w g grp Hs Hl) as (grp0 & Hl0 & E).
    destruct (Hr g grp0 m Hl0) as [H1 H2]; [congruence|now apply (proj2 Hs g m)|].
    split; [|exact H2]. apply (H g grp m Hl Hsw Hst); [|exact H2].
    unfold lastUsedOf. rewrite Hl0. cbn. now f_equal.
Qed.

Lemma serving_kept w0 w :
  serving w0 -> settled w0 w ->
  (forall g, lastUsedOf g w = lastUsedOf g w0) -> serving w.
Proof.
  intros H0 Hs Hl. apply (serving_from w0 w H0 Hs).
  intros g grp m Hg _ _ Hm _. rewrite <- Hl in Hm. unfold lastUsedOf in Hm.
  rewrite Hg in Hm. cbn in Hm. congruence.
Qed.

(** What happens between two requests keeps the manager serving. *)
Lemma serving_own_tick t w : own_tick t -> serving w -> serving (apply_tick t w).
Proof.
  intros Ht Hw. apply (serving_kept w); [exact Hw| |].
  - apply (Inv_own_tick _ (settled_stop_prims w)); [exact Ht|].
    apply settled_refl, Hw.
  - intros g. now apply (frame_own_tick _ (lastUsedOf_frame_prims g _)).
Qed.

Lemma lookup_In_pair {A} k (v : A) l : lookup k l = Some v -> In (k, v) l.
Proof.
  induction l as [|[k' v'] l IH]; simpl; [discriminate|].
  destruct (String.eqb_spec k k') as [->|Hne].
  - intros H; inversion H; now left.
  - intros H; right; now apply IH.
Qed.

Lemma serving_check_sound w : serving_check w = true -> serving w.
Proof.
  unfold serving_check. rewrite forallb_forall. intros H.
  assert (Hp : forall g grp m p,
            lookup g (processGroups w) = Some grp -> lookup m (g_processes grp) = Some p ->
            p_state p <> STARTING /\
            (g_swap grp = true -> p_state p = READY ->
             g_lastUsedProcess grp = m /\ m <> "")).
  { intros g grp m p Hg Hm. apply lookup_In_pair in Hg, Hm.
    specialize (H _ Hg). cbn [fst snd] in H.
    apply andb_true_iff in H as [_ H]. rewrite forallb_forall in H.
    specialize (H _ Hm). cbn [fst snd] in H.
    apply andb_true_iff in H as [H1 H2]. split.
    - intros E. rewrite E in H1. discriminate.
    - intros Hs Hr. rewrite Hs, Hr in H2. cbn in H2.
      apply andb_true_iff in H2 as [H2 H3]. split; [now apply String.eqb_eq|].
      apply negb_true_iff in H3. now apply String.eqb_neq. }
  split; [|split].
  - intros g grp Hin. specialize (H _ Hin). cbn [fst snd] in H.
    apply andb_true_iff in H as [H _]. now apply String.eqb_eq.
  - intros g m E. unfold stateOf, getProcess in E.
    destruct (lookup g (processGroups w)) as [grp|] eqn:Eg; [|discriminate].
    destruct (lookup m (g_processes grp)) as [p|] eqn:Em; [|discriminate].
    cbn in E. destruct (Hp g grp m p Eg Em) as [Hn _]. congruence.
  - intros g grp m Hg Hs E. unfold stateOf, getProcess in E. rewrite Hg in E.
    destruct (lookup m (g_processes grp)) as [p|] eqn:Em; [|discriminate].
    cbn in E. destruct (Hp g grp m p Hg Em) as [_ Hr]. apply Hr; congruence.
Qed.

(** ** A swap keeps the manager serving *)

Lemma not_ready_stop_prims g m : stop_prims (fun w => stateOf g m w <> Some READY).
Proof.
  constructor; try (intros; assumption).
  - intros g' m' st w Hst H. rewrite stateOf_onProcess_setState.
    destruct (getProcess g' m' w); [|exact H].
    destruct (String.eqb g g' && String.eqb m m'); [|exact H].
    destruct Hst as [->|[->| ->]]; discriminate.
  - intros g' m' w H. now rewrite stateOf_stopCommandAt.
  - intros g' x w H. now rewrite stateOf_updGroup_lastUsed.
  - intros g' m' t w H. now rewrite stateOf_updProcess_keep.
  - intros g' m' w H. now rewrite stateOf_updProcess_keep.
Qed.

Lemma not_running_not_ready g m w : not_running g m w -> stateOf g m w <> Some READY.
Proof. intros H. now apply not_running_stateOf in H. Qed.

(** After [stop] the process is not running, whatever it was. *)
Lemma hoare_stop_not_running g m strategy :
  hoare own_tick (fun _ => True) (stop g m strategy)
        (fun _ => not_running g m) (not_running g m) (not_running g m).
Proof.
  pose proof (not_running_stop_prims g m) as SP.
  unfold stop.
  eapply hoare_bind with (Mid := fun p w => getProcess g m w = Some p).
  { apply hoare_orThrow; [auto|]. intros w _ Hn q Hq. congruence. }
  intros p.
  assert (Hrun : hoare own_tick (fun w => getProcess g m w = Some p)
            (exec (onProcess g m (setState STOPPING)) ;;
             match strategy with
             | WAIT_FOR_INFLIGHT => wait_while (inFlight_positive g m)
             | IMMEDIATELY => ret tt
             end ;;
             exec (stopCommandAt g m))
            (fun _ => not_running g m) (not_running g m) (not_running g m)).
  { eapply hoare_bind with (Mid := fun _ => not_running g m).
    { apply hoare_exec. intros w Hp. apply not_running_stateOf.
      rewrite stateOf_onProcess_setState, Hp, !String.eqb_refl. split; discriminate. }
    intros _. apply hoare_preserves.
    apply preserves_bind.
    - destruct strategy; [apply preserves_ret|].
      apply preserves_wait_while, (Inv_own_tick _ SP).
    - intros _. apply preserves_exec. apply (sp_stopCommand _ SP). }
  assert (Hidle : p_state p <> READY -> p_state p <> STARTING ->
            hoare own_tick (fun w => getProcess g m w = Some p) (ret tt)
                  (fun _ => not_running g m) (not_running g m) (not_running g m)).
  { intros H1 H2. apply hoare_ret. intros w Hp q Hq. split; congruence. }
  destruct (p_state p) eqn:E; try exact Hrun; apply Hidle; discriminate.
Qed.

(** A step that keeps an invariant and establishes a fact. *)
Lemma hoare_both {A} (c : Async A) (Inv R : World -> Prop) :
  preserves Inv own_tick c ->
  hoare own_tick (fun _ => True) c (fun _ => R) R R ->
  hoare own_tick Inv c (fun _ w => Inv w /\ R w) (fun w => Inv w /\ R w)
        (fun w => Inv w /\ R w).
Proof.
  intros Hp Hr w s Hs Hw. specialize (Hr w s Hs I).
  destruct (Hp w s Hs Hw) as [H1 H2]. unfold world_after, schedule_after in *.
  destruct (c w s) as [[[a|msg|] w1] s1]; cbn [fst snd] in *; tauto.
Qed.

Lemma hoare_stopProcesses_frame (Inv : World -> Prop) g strategy :
  frame_prims Inv ->
  hoare own_tick Inv (stopProcesses g strategy)
        (fun _ w => Inv w /\ group_stopped g w) Inv (fun _ => True).
Proof.
  intros FP w s Hs Hw.
  destruct (frame_stopProcesses _ FP g strategy w s Hs Hw) as [H1 H2].
  destruct (lookup g (processGroups w)) as [grp|] eqn:Eg.
  - destruct (stopProcesses_spec g strategy w s grp Eg Hs) as (_ & Hst & _).
    unfold world_after, schedule_after in *.
    destruct (stopProcesses g strategy w s) as [[[[]|msg|] w1] s1]; cbn [fst snd] in *;
      auto.
  - unfold stopProcesses, bind, thisGroup, orThrow. rewrite Eg. auto.
Qed.

Lemma findGroup_In_pair modelName gs k grp :
  findGroup modelName gs = Some (k, grp) -> In (k, grp) gs.
Proof.
  induction gs as [|[k' g'] gs IH]; simpl; [discriminate|].
  destruct (hasMember g' modelName).
  - intros H; inversion H; subst. now left.
  - intros H. right. now apply IH.
Qed.

Lemma resolveModelName_named name w real :
  resolveModelName name w = Some real -> real <> "".
Proof.
  unfold resolveModelName.
  destruct (match lookup name (ProcessManager.config_aliases w) with
            | Some a =>
                if negb (String.eqb a "") then Some a
                else if includes name (config_models w) then Some name else None
            | None => if includes name (config_models w) then Some name else None
            end) as [r|]; [|discriminate].
  destruct (String.eqb_spec r ""); [discriminate|]. congruence.
Qed.

Section SwapServing.
Variables (target : string) (w0 : World).
Hypothesis Hserv : serving w0.

Lemma swapping_refl : swapping target w0 w0.
Proof. split; [apply settled_refl, Hserv|]. intros g. now left. Qed.

Lemma swapping_frame_prims : frame_prims (swapping target w0).
Proof.
  apply frame_prims_and; [apply stop_prims_frame, settled_stop_prims|].
  apply frame_prims_forall. intros g. apply frame_prims_or.
  - apply lastUsedOf_frame_prims.
  - apply frame_prims_and; [apply frame_prims_const|].
    apply stop_prims_frame, group_stopped_stop_prims.
Qed.

Lemma swapping_cleared g w :
  g <> target -> swapping target w0 w -> group_stopped g w ->
  swapping target w0 (updGroup g (set_lastUsedProcess "") w).
Proof.
  intros Hne [Hs Hl] Hst. split; [now apply (sp_lastUsed _ (settled_stop_prims w0))|].
  intros g'. destruct (String.eqb_spec g' g) as [->|Hg].
  - right. split; [exact Hne|]. now apply (sp_lastUsed _ (group_stopped_stop_prims g)).
  - destruct (Hl g') as [H|[H1 H2]].
    + left. rewrite lastUsedOf_updGroup.
      apply String.eqb_neq in Hg. now rewrite Hg.
    + right. split; [exact H1|].
      now apply (sp_lastUsed _ (group_stopped_stop_prims g')).
Qed.

Lemma swapping_serving w : swapping target w0 w -> serving w.
Proof.
  intros [Hs Hl]. apply (serving_from w0 w Hserv Hs).
  intros g grp m Hg _ Hst Hm _. destruct (Hl g) as [H|[_ H]].
  - rewrite <- H in Hm. unfold lastUsedOf in Hm. rewrite Hg in Hm. cbn in Hm. congruence.
  - apply not_running_not_ready in Hst; [contradiction|apply H].
Qed.

Lemma hoare_stop_group_swapping g :
  g <> target ->
  hoare own_tick (swapping target w0)
        (stopProcesses g WAIT_FOR_INFLIGHT ;;
         exec (updGroup g (set_lastUsedProcess "")))
        (fun _ => swapping target w0) (swapping target w0) (fun _ => True).
Proof.
  intros Hne.
  eapply hoare_bind with (Mid := fun _ w => swapping target w0 w /\ group_stopped g w).
  - apply hoare_stopProcesses_frame, swapping_frame_prims.
  - intros _. apply hoare_exec. intros w [H1 H2]. now apply swapping_cleared.
Qed.

Lemma hoare_stopOtherGroups_swapping gs :
  hoare own_tick (swapping target w0) (stopOtherGroups target gs)
        (fun _ => swapping target w0) (swapping target w0) (fun _ => True).
Proof.
  induction gs as [|[groupId otherGroup] gs IH]; cbn [stopOtherGroups].
  - apply hoare_ret. auto.
  - eapply hoare_bind with (Mid := fun _ => swapping target w0); [|intros _; exact IH].
    destruct (String.eqb_spec groupId target) as [->|Hne]; cbn [negb andb].
    + apply hoare_ret. auto.
    + destruct (g_persistent otherGroup); cbn [negb]; [apply hoare_ret; auto|].
      now apply hoare_stop_group_swapping.
Qed.

(** The swap inside the group of the model: afterwards the process used
    before, when it is another one than [real], is not READY. *)
Lemma hoare_swap_within real grp :
  hoare own_tick
    (fun w => lookup target (processGroups w) = Some grp /\ swapping target w0 w)
    (if g_swap grp && negb (String.eqb (g_lastUsedProcess grp) real)
     then
       if negb (String.eqb (g_lastUsedProcess grp) "")
          && has_key (g_lastUsedProcess grp) (g_processes grp)
       then
         oldProcess <- this target (g_lastUsedProcess grp) ;;
         if state_eqb (p_state oldProcess) READY
         then
           stop target (g_lastUsedProcess grp) WAIT_FOR_INFLIGHT ;;
           wait_while (state_is target (g_lastUsedProcess grp) STOPPING)
         else ret tt
       else ret tt
     else ret tt)
    (fun _ w => swapping target w0 w /\
                forall grp0, lookup target (processGroups w0) = Some grp0 ->
                             g_swap grp0 = true -> g_lastUsedProcess grp0 <> real ->
                             stateOf target (g_lastUsedProcess grp0) w <> Some READY)
    (swapping target w0) (fun _ => True).
Proof.
  pose proof swapping_frame_prims as FP.
  set (old := g_lastUsedProcess grp).
  set (phi := exists grp0, lookup target (processGroups w0) = Some grp0 /\
                           g_swap grp0 = g_swap grp /\ g_lastUsedProcess grp0 = old).
  eapply hoare_weaken with
    (P := fun w => phi /\ (lookup target (processGroups w) = Some grp /\
                           swapping target w0 w));
    [| intros a w H; exact H | intros w H; exact H | intros w H; exact H |].
  { intros w [Hg Hs]. split; [|now split].
    destruct (settled_swap w0 w target grp (proj1 Hs) Hg) as (grp0 & Hl0 & E).
    exists grp0. split; [exact Hl0|]. split; [exact E|].
    destruct (proj2 Hs target) as [H|[H _]]; [|congruence].
    unfold lastUsedOf in H. rewrite Hg, Hl0 in H. cbn in H. unfold old. congruence. }
  apply hoare_pure. intros (grp0 & Hl0 & Esw & Eold).
  eapply hoare_weaken with
    (Q := fun _ w => swapping target w0 w /\
                     (g_swap grp = true -> old <> real ->
                      stateOf target old w <> Some READY));
    [intros w H; exact H | | intros w H; exact H | intros w H; exact H |].
  { cbv beta. intros _ w [Hs Hc]. split; [exact Hs|].
    intros grp0' Hl0' Hsw Hne. rewrite Hl0 in Hl0'. inversion Hl0'; subst grp0'.
    rewrite Eold. rewrite Eold in Hne. apply Hc; congruence. }
  destruct (g_swap grp) eqn:Hsw; cbn [andb];
    [|apply hoare_ret; intros w [_ Hs]; split; [exact Hs|discriminate]].
  destruct (String.eqb_spec old real) as [Heq|Hne]; cbn [negb];
    [apply hoare_ret; intros w [_ Hs]; split; [exact Hs|intros _ H; contradiction]|].
  destruct (String.eqb_spec old "") as [Hnil|Hnn]; cbn [negb andb].
  { apply hoare_ret. intros w [_ Hs]. split; [exact Hs|]. intros _ _ Hr.
    apply (proj2 (proj1 Hs) target old) in Hr.
    destruct Hserv as (_ & _ & Hlast).
    destruct (Hlast target grp0 old Hl0) as [_ H]; [congruence|exact Hr|contradiction]. }
  destruct (has_key old (g_processes grp)) eqn:Hkey.
  2:{ apply hoare_ret. intros w [Hg Hs]. split; [exact Hs|]. intros _ _.
      unfold stateOf, getProcess. rewrite Hg. unfold has_key in Hkey.
      destruct (lookup old (g_processes grp)); [discriminate|]. discriminate. }
  eapply hoare_bind with
    (Mid := fun p w => stateOf target old w = Some (p_state p) /\ swapping target w0 w).
  { apply hoare_orThrow.
    - intros w p [_ Hs] Hp. split; [|exact Hs]. unfold stateOf. now rewrite Hp.
    - now intros w [_ Hs] _. }
  intros oldProcess.
  destruct (state_eqb_spec (p_state oldProcess) READY) as [Hr|Hr].
  2:{ apply hoare_ret. intros w [Hst Hs]. split; [exact Hs|]. intros _ _. congruence. }
  set (NR := fun w => stateOf target old w <> Some READY).
  assert (FN : frame_prims (fun w => swapping target w0 w /\ NR w)).
  { apply frame_prims_and; [exact FP|].
    apply stop_prims_frame, not_ready_stop_prims. }
  eapply hoare_bind with (Mid := fun _ w => swapping target w0 w /\ NR w).
  - eapply hoare_weaken;
      [| | | |apply (hoare_both (stop target old WAIT_FOR_INFLIGHT)
                       (swapping target w0) (not_running target old)
                       (frame_stop _ FP _ _ _) (hoare_stop_not_running _ _ _))];
      cbv beta.
    + now intros w [_ Hs].
    + intros _ w [Hs Hn]. split; [exact Hs|]. now apply not_running_not_ready.
    + now intros w [Hs _].
    + auto.
  - intros _.
    eapply hoare_weaken;
      [| | | |apply (hoare_preserves own_tick _ _
                       (preserves_wait_while _ own_tick (frame_own_tick _ FN)
                          (state_is target old STOPPING)))];
      cbv beta.
    + intros w H; exact H.
    + intros _ w [Hs Hn]. split; [exact Hs|]. intros _ _. exact Hn.
    + now intros w [Hs _].
    + auto.
Qed.

End SwapServing.

(** [swapProcessGroup] keeps the manager serving, also when it throws,
    and the model it returns is the last used one of its group. *)
Lemma hoare_swap_serving name w0 :
  serving w0 ->
  hoare own_tick (fun w => w = w0) (swapProcessGroup name)
        (fun r w => serving w /\ lastUsedOf (fst r) w = Some (snd r) /\ snd r <> "")
        serving (fun _ => True).
Proof.
  intros Hserv. unfold swapProcessGroup.
  eapply hoare_bind with (Mid := fun r w => resolveModelName name w0 = Some r /\ w = w0).
  { apply hoare_orThrow.
    - intros w a -> H. now split.
    - now intros w -> _. }
  intros real. apply hoare_pure. intros Hres.
  eapply hoare_bind with
    (Mid := fun found w => findGroupByModelName real w0 = Some found /\ w = w0).
  { apply hoare_orThrow.
    - intros w a -> H. now split.
    - now intros w -> _. }
  intros [target tgrp]. apply hoare_pure. intros Hfind.
  assert (Hid : g_id tgrp = target).
  { apply (proj1 Hserv). now apply findGroup_In_pair in Hfind. }
  assert (Hthrow : forall w, swapping target w0 w -> serving w)
    by (intros w; now apply swapping_serving).
  eapply hoare_bind with (Mid := fun _ w => w = w0).
  { apply hoare_read. auto. }
  intros last.
  eapply hoare_bind with (Mid := fun _ => swapping target w0).
  { destruct last as [last|].
    - eapply hoare_bind with (Mid := fun _ w => w = w0).
      { apply hoare_read. auto. }
      intros lp.
      destruct (String.eqb_spec last target) as [Heq|Hne]; cbn [negb andb].
      + apply hoare_ret. intros w ->. now apply swapping_refl.
      + destruct (negb lp && negb (g_persistent tgrp)).
        * eapply hoare_weaken;
            [| | | |apply (hoare_stop_group_swapping target w0 last Hne)];
            cbv beta; auto.
          intros w ->. now apply swapping_refl.
        * apply hoare_ret. intros w ->. now apply swapping_refl.
    - apply hoare_ret. intros w ->. now apply swapping_refl. }
  intros _.
  eapply hoare_bind with (Mid := fun _ => swapping target w0).
  { destruct (g_exclusive tgrp).
    - eapply hoare_bind with (Mid := fun _ => swapping target w0).
      { apply hoare_read. auto. }
      intros gs. rewrite Hid.
      eapply hoare_weaken;
        [| | | |apply (hoare_stopOtherGroups_swapping target w0 gs)]; cbv beta; auto.
    - apply hoare_ret. auto. }
  intros _.
  eapply hoare_bind with
    (Mid := fun grp w => lookup target (processGroups w) = Some grp /\
                         swapping target w0 w).
  { apply hoare_orThrow; auto. }
  intros grp.
  eapply hoare_bind with
    (Mid := fun _ w => swapping target w0 w /\
                forall grp0, lookup target (processGroups w0) = Some grp0 ->
                             g_swap grp0 = true -> g_lastUsedProcess grp0 <> real ->
                             stateOf target (g_lastUsedProcess grp0) w <> Some READY).
  { eapply hoare_weaken;
      [| | | |apply (hoare_swap_within target w0 Hserv real grp)]; cbv beta; auto. }
  intros _.
  eapply hoare_bind with
    (Mid := fun _ w => swapping target w0 w /\
                forall grp0, lookup target (processGroups w0) = Some grp0 ->
                             g_swap grp0 = true -> g_lastUsedProcess grp0 <> real ->
                             stateOf target (g_lastUsedProcess grp0) w <> Some READY).
  { apply hoare_exec. intros w [[Hs Hl] Hc]. split; [split|].
    - now apply (sp_lastActive _ (settled_stop_prims w0)).
    - exact Hl.
    - exact Hc. }
  intros _.
  eapply hoare_bind with
    (Mid := fun _ w => serving w /\ lastUsedOf target w = Some real).
  2:{ intros _. apply hoare_ret. intros w [H1 H2]. cbn [fst snd].
      split; [exact H1|]. split; [exact H2|]. eapply resolveModelName_named; eauto. }
  apply hoare_exec. intros w [[Hs Hl] Hc].
  assert (Hlt : lastUsedOf target w = lastUsedOf target w0)
    by (destruct (Hl target) as [H|[H _]]; [exact H|congruence]).
  assert (Hin : In target (map fst (processGroups w0)))
    by (unfold findGroupByModelName in Hfind; now apply findGroup_In in Hfind).
  apply In_keys_lookup in Hin as [grp0 Hl0].
  assert (Hnew : lastUsedOf target (updGroup target (set_lastUsedProcess real) w)
                 = Some real).
  { rewrite lastUsedOf_updGroup, String.eqb_refl, Hlt. unfold lastUsedOf.
    now rewrite Hl0. }
  split; [|exact Hnew].
  apply (serving_from w0 _ Hserv).
  - now apply (sp_lastUsed _ (settled_stop_prims w0)).
  - intros g grp' m Hg Hsw Hst Hm _. rewrite stateOf_updGroup_lastUsed in Hst.
    destruct (String.eqb_spec g target) as [->|Hne].
    + unfold lastUsedOf in Hnew. rewrite Hg in Hnew. cbn in Hnew.
      inversion Hnew as [Hnew']. rewrite Hnew'.
      destruct (String.eqb_spec m real) as [->|Hmr]; [reflexivity|].
      exfalso. unfold lastUsedOf in Hm. rewrite Hl0 in Hm. cbn in Hm.
      inversion Hm as [Hm'].
      assert (Hsw0 : g_swap grp0 = true).
      { destruct (settled_swap w0 _ target grp'
                    (sp_lastUsed _ (settled_stop_prims w0) target real w Hs) Hg)
          as (grp0' & Hl0' & E).
        rewrite Hl0 in Hl0'. inversion Hl0'; subst. congruence. }
      apply (Hc grp0 Hl0 Hsw0); [congruence|]. now rewrite Hm'.
    + assert (Hg' : lookup g (processGroups w) = Some grp').
      { unfold updGroup in Hg. cbn [processGroups set_processGroups] in Hg.
        now rewrite lookup_adjust_other in Hg. }
      destruct (Hl g) as [H|[_ H]].
      * rewrite <- H in Hm. unfold lastUsedOf in Hm. rewrite Hg' in Hm. cbn in Hm.
        congruence.
      * apply not_running_not_ready in Hst; [contradiction|apply H].
Qed.

(** ** Starting and unloading keep the manager serving *)

Lemma hoare_at okTick {A} (P : World -> Prop) (c : Async A) Q E F :
  (forall w1, P w1 -> hoare okTick (fun w => w = w1) c Q E F) ->
  hoare okTick P c Q E F.
Proof. intros H w s Hs Hp. exact (H w Hp w s Hs eq_refl). Qed.

Lemma view_well_keyed w0 w :
  groupView shapeOf w = groupView shapeOf w0 -> well_keyed w0 -> well_keyed w.
Proof.
  intros Hv Hk g grp Hin.
  assert (H : In (g, shapeOf grp) (groupView shapeOf w)) by (apply In_view; eauto).
  rewrite Hv in H. apply In_view in H as [grp0 [H0 E]].
  assert (E1 : g_id grp0 = g_id grp) by (unfold shapeOf in E; congruence).
  rewrite <- E1. now apply Hk.
Qed.

(** [start] of the last used process of its group. *)
Lemma hoare_start_serving validURL g m w1 :
  serving w1 -> lastUsedOf g w1 = Some m -> m <> "" -> has_process g m w1 ->
  hoare own_tick (fun w => w = w1) (start validURL g m)
        (fun b w => serving w /\ (b = true <-> stateOf g m w = Some READY))
        (fun _ => False) (fun _ => True).
Proof.
  intros (Hk & Hn & Hr) Hlast Hne Hp w s Hs ->.
  set (phi := fun g' m' (o : option ProcessState) =>
                (g' = g /\ m' = m) \/
                (o <> Some STARTING /\ (o = Some READY -> stateOf g' m' w1 = Some READY))).
  pose proof (hoare_start_reports validURL g m w1 s Hs Hp) as H1.
  destruct (view_start g_lastUsedProcess (fun _ _ => eq_refl) validURL g m _ w1 s Hs eq_refl)
    as [H2 _].
  destruct (view_start shapeOf (fun _ _ => eq_refl) validURL g m _ w1 s Hs eq_refl)
    as [H3 _].
  assert (H4 : state_inv phi (world_after (start validURL g m w1 s))).
  { apply (state_inv_start validURL g m phi).
    - intros g' m' st st' Hst' [H|[_ _]]; [now left|right].
      split; destruct Hst' as [->|[->| ->]]; discriminate.
    - intros o. now left.
    - exact Hs.
    - intros g' m'. right. split; [apply Hn|auto]. }
  unfold world_after in *.
  destruct (start validURL g m w1 s) as [[[b|msg|] w'] s']; cbn [fst snd] in *;
    [|exact H1|exact I].
  destruct H1 as [[Hb Hst] Hs']. split; [|exact Hs']. split; [|exact Hb].
  assert (Hlu : forall g' grp, lookup g' (processGroups w') = Some grp ->
            exists grp1, lookup g' (processGroups w1) = Some grp1 /\
                         g_lastUsedProcess grp1 = g_lastUsedProcess grp /\
                         g_swap grp1 = g_swap grp).
  { intros g' grp Hg.
    assert (E2 : lookup g' (groupView g_lastUsedProcess w')
                 = lookup g' (groupView g_lastUsedProcess w1)) by now rewrite H2.
    assert (E3 : lookup g' (groupView shapeOf w') = lookup g' (groupView shapeOf w1))
      by now rewrite H3.
    rewrite !lookup_view, Hg in E2. rewrite !lookup_view, Hg in E3.
    destruct (lookup g' (processGroups w1)) as [grp1|]; [|discriminate].
    exists grp1. cbn in E2, E3. unfold shapeOf in E3. repeat split; congruence. }
  split; [now apply (view_well_keyed w1)|]. split.
  - intros g' m'. destruct (H4 g' m') as [[-> ->]|[H _]]; assumption.
  - intros g' grp m' Hg Hsw Hready.
    destruct (Hlu g' grp Hg) as (grp1 & Hg1 & E1 & E2).
    destruct (H4 g' m') as [[-> ->]|[_ H]].
    + unfold lastUsedOf in Hlast. rewrite Hg1 in Hlast. cbn in Hlast.
      split; [congruence|exact Hne].
    + rewrite <- E1. apply (Hr g' grp1 m' Hg1); [congruence|now apply H].
Qed.

(** [stopProcess] *)
Lemma hoare_stopProcess_serving g m strategy w0 :
  serving w0 ->
  hoare own_tick (fun w => w = w0) (stopProcess g m strategy)
        (fun _ w => serving w /\ not_running g m w) serving (fun _ => True).
Proof.
  intros Hserv.
  set (U := fun w => settled w0 w /\
                     forall g', lastUsedOf g' w = lastUsedOf g' w0 \/
                                (g' = g /\ lastUsedOf g w0 = Some m)).
  assert (FU : frame_prims U).
  { apply frame_prims_and; [apply stop_prims_frame, settled_stop_prims|].
    apply frame_prims_forall. intros g'. apply frame_prims_or.
    - apply lastUsedOf_frame_prims.
    - apply frame_prims_const. }
  assert (HU : forall w, U w -> not_running g m w -> serving w).
  { intros w [Hs Hl] Hn. apply (serving_from w0 w Hserv Hs).
    intros g' grp m' Hg _ Hst Hm _. destruct (Hl g') as [H|[-> H]].
    - rewrite <- H in Hm. unfold lastUsedOf in Hm. rewrite Hg in Hm. cbn in Hm.
      congruence.
    - rewrite H in Hm. inversion Hm; subst m'.
      apply not_running_not_ready in Hn. contradiction. }
  assert (HU0 : U w0).
  { split; [apply settled_refl, Hserv|]. intros g'. now left. }
  unfold stopProcess.
  eapply hoare_bind with (Mid := fun grp w => lookup g (processGroups w0) = Some grp /\ w = w0).
  { apply hoare_orThrow.
    - intros w a -> H. now split.
    - now intros w -> _. }
  intros grp. apply hoare_pure. intros Hg.
  destruct (has_key m (g_processes grp)); cbn [negb];
    [|apply hoare_throw; now intros w ->].
  eapply hoare_bind with (Mid := fun _ => U).
  { destruct (String.eqb_spec (g_lastUsedProcess grp) m) as [E|E].
    - apply hoare_exec. intros w ->. split.
      + apply (sp_lastUsed _ (settled_stop_prims w0)), settled_refl, Hserv.
      + intros g'. rewrite lastUsedOf_updGroup.
        destruct (String.eqb_spec g' g) as [->|Hne]; [|now left].
        right. split; [reflexivity|]. unfold lastUsedOf. rewrite Hg. cbn. now f_equal.
    - apply hoare_ret. now intros w ->. }
  intros _.
  eapply hoare_weaken;
    [| | | |apply (hoare_both (stop g m strategy) U (not_running g m)
                     (frame_stop _ FU _ _ _) (hoare_stop_not_running _ _ _))];
    cbv beta.
  - auto.
  - intros _ w [H1 H2]. split; [now apply HU|exact H2].
  - intros w [H1 H2]. now apply HU.
  - auto.
Qed.

(** [shutdownAll] *)
Lemma shutdownAll_serving w0 s :
  well_keyed w0 -> serving (world_after (shutdownAll w0 s)).
Proof.
  intros Hk.
  destruct (shutdownAll_states w0 s) as (_ & Hdown & _).
  destruct (preserves_shutdownAll _ (view_stop_prims shapeOf (fun _ _ => eq_refl)
                                       (fun _ _ => eq_refl) _) w0 [] (Forall_nil _) eq_refl)
    as [Hv _].
  assert (Hsame : world_after (shutdownAll w0 s) = world_after (shutdownAll w0 [])).
  { unfold shutdownAll, bind, exec, world_after. cbn [fst snd].
    now destruct (shutdownBeginAll _ _). }
  rewrite Hsame in *.
  assert (Hst : forall g m st, stateOf g m (world_after (shutdownAll w0 [])) = Some st ->
                               st = SHUTDOWN).
  { intros g m st H. unfold stateOf in H.
    destruct (getProcess g m (world_after (shutdownAll w0 []))) as [p|] eqn:Ep;
      [|discriminate].
    cbn in H. inversion H; subst. exact (Hdown g m p Ep). }
  split; [now apply (view_well_keyed w0)|]. split.
  - intros g m H. apply Hst in H. discriminate.
  - intros g grp m _ _ H. apply Hst in H. discriminate.
Qed.

(** What a swap that returns has resolved. *)
Lemma swap_returned name w s target real w' s' :
  swapProcessGroup name w s = (Returned (target, real), w', s') ->
  resolveModelName name w = Some real /\
  exists grp, findGroupByModelName real w = Some (target, grp).
Proof.
  unfold swapProcessGroup. intros H.
  apply bind_Returned in H as (real0 & w1 & s1 & H1 & H).
  apply orThrow_Returned in H1 as (Hres & -> & ->).
  apply bind_Returned in H as ([target0 grp] & w2 & s2 & H2 & H).
  apply orThrow_Returned in H2 as (Hfind & -> & ->).
  apply bind_Returned in H as (last & w3 & s3 & _ & H).
  apply bind_Returned in H as (? & w4 & s4 & _ & H).
  apply bind_Returned in H as (? & w5 & s5 & _ & H).
  apply bind_Returned in H as (grp' & w6 & s6 & _ & H).
  apply bind_Returned in H as (? & w7 & s7 & _ & H).
  apply bind_Returned in H as (? & w8 & s8 & H8 & H).
  apply bind_Returned in H as (? & w9 & s9 & H9 & H).
  unfold exec in H8, H9. unfold ret in H.
  inversion H8; inversion H9; inversion H; subst.
  split; [assumption|]. now exists grp.
Qed.

(** ** Stopping at once *)

Lemma stop_immediately g m w s p :
  getProcess g m w = Some p ->
  stop g m IMMEDIATELY w s = (Returned tt, stopNow g m w, s).
Proof.
  intros Hp. unfold stop, bind, this, orThrow, stopNow, stopBeginAt. rewrite Hp.
  now destruct (p_state p).
Qed.

Lemma getProcess_stopCommandAt g m g' m' w :
  getProcess g m (stopCommandAt g' m' w) = getProcess g m w.
Proof. unfold stopCommandAt. now destruct (getProcess g' m' w). Qed.

Lemma stopNow_spec g m w p :
  getProcess g m w = Some p ->
  not_running g m (stopNow g m w) /\
  (p_state p = READY \/ p_state p = STARTING ->
   stateOf g m (stopNow g m w) = Some STOPPING /\
   stop_issued (trace w) p (stopNow g m w)) /\
  (p_state p <> READY -> p_state p <> STARTING -> stopNow g m w = w) /\
  (forall g' m', (g', m') <> (g, m) ->
     getProcess g' m' (stopNow g m w) = getProcess g' m' w).
Proof.
  intros Hp.
  assert (Hgo : p_state p = READY \/ p_state p = STARTING ->
            stopNow g m w = stopCommandAt g m (onProcess g m (setState STOPPING) w)).
  { intros H. unfold stopNow, stopBeginAt. rewrite Hp. now destruct H as [-> | ->]. }
  assert (Hno : p_state p <> READY -> p_state p <> STARTING -> stopNow g m w = w).
  { intros H1 H2. unfold stopNow, stopBeginAt. rewrite Hp.
    destruct (p_state p); try reflexivity; contradiction. }
  split; [|split; [|split]].
  - unfold stopNow. pose proof (stopBeginAt_not_running g m w) as H.
    destruct (stopBeginAt g m w) as [go w1]. cbn [snd] in H.
    destruct go; [|exact H]. now apply (sp_stopCommand _ (not_running_stop_prims g m)).
  - intros Hrun. rewrite (Hgo Hrun). split.
    + rewrite stateOf_stopCommandAt, stateOf_onProcess_setState, Hp.
      now rewrite !String.eqb_refl.
    + apply stopCommandAt_issues.
      * eexists. rewrite trace_onProcess_setState. reflexivity.
      * apply (sp_state _ (same_child_stop_prims p g m)); [now left|].
        now exists p.
  - exact Hno.
  - intros g' m' Hne.
    destruct (state_eqb_spec (p_state p) READY) as [Hr|Hr];
      [|destruct (state_eqb_spec (p_state p) STARTING) as [Hs|Hs]].
    + rewrite (Hgo (or_introl Hr)), getProcess_stopCommandAt.
      now apply getProcess_onProcess_other.
    + rewrite (Hgo (or_intror Hs)), getProcess_stopCommandAt.
      now apply getProcess_onProcess_other.
    + now rewrite (Hno Hr Hs).
Qed.

Lemma stopNow_lastUsed g m w g' : lastUsedOf g' (stopNow g m w) = lastUsedOf g' w.
Proof.
  now apply (frame_stopNow _ (lastUsedOf_frame_prims g' (lastUsedOf g' w))).
Qed.

(** ** The interval of the TTL *)

Lemma stopNow_timers g m w : ttlTimers (stopNow g m w) = ttlTimers w.
Proof.
  unfold stopNow, stopBeginAt. destruct (getProcess g m w) as [p|] eqn:Ep; [|reflexivity].
  assert (H : ttlTimers (stopCommandAt g m (onProcess g m (setState STOPPING) w))
              = ttlTimers w).
  { unfold stopCommandAt.
    destruct (getProcess g m (onProcess g m (setState STOPPING) w));
      cbn [ttlTimers emit]; rewrite onProcess_setState, Ep; reflexivity. }
  destruct (p_state p); try reflexivity; exact H.
Qed.

(** X21. One firing of the interval armed by [startTTLCheck].  It stops
    the process only when the process is READY, has no request in flight
    and has handled its last request more than [unloadAfter] seconds ago;
    it then moves the process to STOPPING, runs its stop command and
    clears the interval.  Otherwise the process and the trace are as
    before, and the interval goes on exactly when the process is READY.
    No other process is touched. *)
Theorem ttl_unloads_only_idle g m w p :
  getProcess g m w = Some p ->
  has_timer g m (ttlTimers w) = true ->
  let w' := apply_action (TTLTick g m) w in
  let expired :=
    p_state p = READY /\ p_inFlightRequests p <= 0 /\
    now w - p_lastRequestHandled p > unloadAfter (p_config p) * 1000 in
  (expired ->
   stateOf g m w' = Some STOPPING /\ stop_issued (trace w) p w' /\
   ttlTimers w' = remove_timer g m (ttlTimers w)) /\
  (~ expired ->
   getProcess g m w' = Some p /\ trace w' = trace w /\
   ttlTimers w' = if state_eqb (p_state p) READY then ttlTimers w
                  else remove_timer g m (ttlTimers w)) /\
  (forall g' m', (g', m') <> (g, m) -> getProcess g' m' w' = getProcess g' m' w).
Proof.
  intros Hp Ht w' expired. subst w'. cbn [apply_action]. rewrite Ht.
  unfold ttlCallback. rewrite Hp.
  destruct (stopNow_spec g m w p Hp) as (_ & Hrun & _ & Hother).
  destruct (state_eqb_spec (p_state p) READY) as [Hr|Hr]; cbn [negb].
  - destruct (p_inFlightRequests p >? 0) eqn:Ef.
    + split; [|split].
      * intros (_ & H & _). apply Z.gtb_lt in Ef. lia.
      * intros _. rewrite Hp. now repeat split.
      * reflexivity.
    + destruct (now w - p_lastRequestHandled p >? unloadAfter (p_config p) * 1000) eqn:Ed.
      * split; [|split].
        -- intros _. destruct (Hrun (or_introl Hr)) as [H1 H2].
           split; [exact H1|]. split.
           ++ destruct H2 as (es & E & Hin). exists es. now split.
           ++ cbn [clearInterval ttlTimers set_ttlTimers]. now rewrite stopNow_timers.
        -- intros Hn. exfalso. apply Hn. split; [exact Hr|]. split.
           ++ rewrite Z.gtb_ltb in Ef. apply Z.ltb_ge in Ef. exact Ef.
           ++ rewrite Z.gtb_ltb in Ed. apply Z.ltb_lt in Ed. lia.
        -- intros g' m' Hne. exact (Hother g' m' Hne).
      * split; [|split].
        -- intros (_ & _ & H). rewrite Z.gtb_ltb in Ed. apply Z.ltb_ge in Ed. lia.
        -- intros _. rewrite Hp. now repeat split.
        -- reflexivity.
  - split; [|split].
    + intros (H & _). contradiction.
    + intros _. split; [exact Hp|]. split; reflexivity.
    + reflexivity.
Qed.

Lemma ttl_unloads_only_idle_witness :
  let idle := mkWorld ["A"] []
                [("G", mkProcessGroup "G" true true false ["A"]
                         [("A", mkProcess "A"
                                  (mkModelConfig "llama-server" None
                                     "http://localhost:5800" "/health" [] 60)
                                  (Some 7%nat) 15 READY 0 0 1000)] "A")]
                false (Some "G") 62000 100 [(7%nat, ("G", "A"))] [("G", "A")] [] in
  has_timer "G" "A" (ttlTimers idle) = true /\
  stateOf "G" "A" (apply_action (TTLTick "G" "A") idle) = Some STOPPING /\
  ttlTimers (apply_action (TTLTick "G" "A") idle) = [].
Proof.
  intros idle. split; [reflexivity|].
  destruct (ttl_unloads_only_idle "G" "A" idle _ eq_refl eq_refl) as (H & _).
  destruct H as (H1 & _ & H3).
  - split; [reflexivity|]. split; cbn; lia.
  - split; [exact H1|exact H3].
Defined.

End ProcessManagerProofs.

(** * Properties of the configuration loader *)

Module ConfigLoaderProofs.
Import ConfigLoader.
Local Open Scope list_scope.

(** ** The results of the loader *)

Lemma andThen_Ok {A B} (r : Result A) (k : A -> Result B) b :
  andThen r k = Ok b -> exists a, r = Ok a /\ k a = Ok b.
Proof. destruct r as [a|e]; simpl; [|discriminate]. intros H. now exists a. Qed.

Lemma check_Ok b e : check b e = Ok tt -> b = true.
Proof. unfold check. now destruct b. Qed.

(** ** The port of a model *)

Lemma processModel_port validURL gm np id y m port np' :
  processModel validURL gm np id y = Ok (m, port, np') ->
  (cmdHasPort y = true /\ port = Some np /\ np' = np + 1) \/
  (cmdHasPort y = false /\ proxyHasPort y = false /\ port = None /\ np' = np).
Proof.
  unfold processModel. intros H.
  apply andThen_Ok in H as (_ & _ & H).
  apply andThen_Ok in H as ([[mm p] n] & Hstep & H).
  repeat (apply andThen_Ok in H as (_ & _ & H)).
  inversion H; subst. clear H.
  destruct (cmdHasPort y), (proxyHasPort y); simpl in Hstep;
    try discriminate; inversion Hstep; subst; auto.
Qed.


Lemma processModels_ports validURL gm ym ids : forall np ms ports,
  processModels validURL gm ym np ids = Ok (ms, ports) ->
  ports = numberFrom np (filter (usesPort ym) ids) /\ map fst ms = ids.
Proof.
  induction ids as [|id ids IH]; intros np ms ports H; simpl in H.
  - inversion H; subst. now split.
  - destruct (lookup id ym) as [y|] eqn:Ey; [|discriminate].
    apply andThen_Ok in H as ([[m port] np'] & Hm & H).
    apply andThen_Ok in H as ([ms' ports'] & Hrest & H).
    inversion H; subst. clear H.
    destruct (IH _ _ _ Hrest) as [-> Hids].
    cbn [filter map fst]. rewrite Hids.
    assert (Hu : usesPort ym id = cmdHasPort y) by (unfold usesPort; now rewrite Ey).
    rewrite Hu.
    destruct (processModel_port _ _ _ _ _ _ _ _ Hm) as [(Hc & -> & ->)|(Hc & _ & -> & ->)];
      rewrite Hc; now split.
Qed.


(** *** The ports differ *)




(** *** The order of processing *)

Lemma insertSorted_perm x l : Permutation (insertSorted x l) (x :: l).
Proof.
  induction l as [|y l IH]; simpl; [reflexivity|].
  destruct (String.leb x y); [reflexivity|].
  rewrite IH. apply perm_swap.
Qed.

Lemma sortStrings_perm l : Permutation (sortStrings l) l.
Proof.
  induction l as [|x l IH]; simpl; [reflexivity|].
  rewrite insertSorted_perm. now constructor.
Qed.

Lemma insertIndex_perm {A} n (e : string * A) l :
  Permutation (map snd (insertIndex n e l)) (e :: map snd l).
Proof.
  induction l as [|[n' e'] l IH]; simpl; [reflexivity|].
  destruct (N.leb n n'); simpl; [reflexivity|].
  rewrite IH. apply perm_swap.
Qed.

Lemma enumerate_perm {A} (l : list (string * A)) : Permutation (enumerate l) l.
Proof.
  unfold enumerate, otherKeys.
  induction l as [|[k v] l IH]; simpl; [reflexivity|].
  destruct (arrayIndex k); simpl.
  - rewrite insertIndex_perm. simpl. now constructor.
  - rewrite <- Permutation_middle. now constructor.
Qed.

Lemma modelIds_perm {A} (l : list (string * A)) :
  Permutation (sortStrings (map fst (enumerate l))) (map fst l).
Proof.
  rewrite sortStrings_perm. apply Permutation_map, enumerate_perm.
Qed.

(** *** No placeholder is left *)







Lemma lookup_Some_In {A} k (l : list (string * A)) v : lookup k l = Some v -> In (k, v) l.
Proof.
  induction l as [|[k' v'] l IH]; simpl; [discriminate|].
  destruct (String.eqb k k') eqn:E.
  - intros H. inversion H; subst. apply String.eqb_eq in E. subst. now left.
  - intros H. right. now apply IH.
Qed.



(** ** [loadConfig] *)

Lemma loadConfig_Ok validURL y cfg ports :
  loadConfig validURL y = Ok (cfg, ports) ->
  exists byId,
    processModels validURL (orElse (yaml_macros y) []) (orElse (yaml_models y) [])
                  (orElse (yaml_startPort y) 5800)
                  (sortStrings (map fst (enumerate (orElse (yaml_models y) []))))
    = Ok (byId, ports) /\
    startPort cfg = orElse (yaml_startPort y) 5800 /\
    healthCheckTimeout cfg =
      (if orElse (yaml_healthCheckTimeout y) 120 <? 15 then 15
       else orElse (yaml_healthCheckTimeout y) 120) /\
    forall id m, In (id, m) (models cfg) -> In (id, m) byId.
Proof.
  unfold loadConfig. intros H.
  apply andThen_Ok in H as (_ & _ & H).
  apply andThen_Ok in H as (_ & _ & H).
  apply andThen_Ok in H as (als & _ & H).
  apply andThen_Ok in H as ([byId ports'] & Hm & H).
  apply andThen_Ok in H as (_ & _ & H).
  inversion H; subst. clear H. cbn [startPort healthCheckTimeout models].
  exists byId. repeat split; auto.
  intros id m Hin. apply in_flat_map in Hin as ([k v] & _ & Hin).
  cbn [fst] in Hin. destruct (lookup k byId) as [m'|] eqn:E; [|destruct Hin].
  destruct Hin as [Heq|[]]. inversion Heq; subst. now apply lookup_Some_In.
Qed.


(** ** The ports of the models *)



(** ** The health-check timeout *)

(** C10. A [healthCheckTimeout] below 15 is no reason for [loadConfig] to
    fail: the loader behaves as it does on the same document with a timeout
    of 15, and when it accepts the document the loaded timeout is exactly
    15.  So every loaded configuration has [healthCheckTimeout >= 15].
    Timeouts are integers. *)
Theorem healthCheckTimeout_clamped validURL (y : YamlData) :
  (forall h,
     yaml_healthCheckTimeout y = Some h -> h < 15 ->
     loadConfig validURL y = loadConfig validURL (with_healthCheckTimeout 15 y) /\
     (forall cfg ports, loadConfig validURL y = Ok (cfg, ports) ->
                        healthCheckTimeout cfg = 15)) /\
  (forall cfg ports, loadConfig validURL y = Ok (cfg, ports) ->
                     15 <= healthCheckTimeout cfg).
Proof.
  split.
  - intros h Hh Hlt. split.
    + unfold loadConfig, with_healthCheckTimeout.
      cbn [yaml_healthCheckTimeout yaml_startPort yaml_macros yaml_models
           yaml_groups yaml_preload].
      rewrite Hh. cbn [orElse].
      apply Z.ltb_lt in Hlt. rewrite Hlt. reflexivity.
    + intros cfg ports H.
      apply loadConfig_Ok in H as (_ & _ & _ & Hc & _).
      rewrite Hc, Hh. cbn [orElse]. apply Z.ltb_lt in Hlt. now rewrite Hlt.
  - intros cfg ports H.
    apply loadConfig_Ok in H as (_ & _ & _ & Hc & _).
    rewrite Hc. destruct (Z.ltb_spec (orElse (yaml_healthCheckTimeout y) 120) 15); lia.
Qed.

Lemma healthCheckTimeout_clamped_witness :
  yaml_healthCheckTimeout ex_yaml = Some 5 /\ 5 < 15 /\
  loadConfig any_url ex_yaml = loadConfig any_url (with_healthCheckTimeout 15 ex_yaml) /\
  exists cfg ports,
    loadConfig any_url ex_yaml = Ok (cfg, ports) /\ healthCheckTimeout cfg = 15.
Proof.
  destruct (proj1 (healthCheckTimeout_clamped any_url ex_yaml) 5 eq_refl ltac:(lia))
    as [Heq H15].
  split; [reflexivity|]. split; [lia|]. split; [exact Heq|].
  clear Heq.
  destruct (loadConfig any_url ex_yaml) as [[cfg ports]|e] eqn:E;
    [|vm_compute in E; discriminate].
  exists cfg, ports. split; [reflexivity|]. now apply (H15 cfg ports).
Defined.

(** ** Comments in commands *)

Lemma splitLines_not_nil s : splitLines s <> [].
Proof.
  destruct s as [|c s]; cbn [splitLines]; [discriminate|].
  destruct (Ascii.eqb c newline); [discriminate|].
  destruct (splitLines s); discriminate.
Qed.

Lemma splitLines_no_newline s : Forall (fun l => no_newline l = true) (splitLines s).
Proof.
  induction s as [|c s IH]; cbn [splitLines].
  - repeat constructor.
  - destruct (Ascii.eqb c newline) eqn:E.
    + constructor; [reflexivity|exact IH].
    + destruct (splitLines s) as [|l ls].
      * repeat constructor. cbn [no_newline]. now rewrite E.
      * inversion IH; subst. constructor; [|assumption].
        cbn [no_newline]. now rewrite E.
Qed.

Lemma joinLines_cons x l :
  l <> [] -> joinLines (x :: l) = (x ++ String newline (joinLines l))%string.
Proof. destruct l; [congruence|reflexivity]. Qed.

Lemma splitLines_append x s :
  no_newline x = true ->
  splitLines (x ++ String newline s)%string = x :: splitLines s.
Proof.
  induction x as [|c x IH]; intros H.
  - reflexivity.
  - cbn [no_newline] in H. apply andb_true_iff in H as [Hc Hx].
    apply negb_true_iff in Hc.
    cbn [append splitLines]. rewrite Hc, (IH Hx). reflexivity.
Qed.

Lemma splitLines_single x : no_newline x = true -> splitLines x = [x].
Proof.
  induction x as [|c x IH]; intros H; [reflexivity|].
  cbn [no_newline] in H. apply andb_true_iff in H as [Hc Hx].
  apply negb_true_iff in Hc.
  cbn [splitLines]. now rewrite Hc, (IH Hx).
Qed.

Lemma splitLines_joinLines l :
  l <> [] -> Forall (fun x => no_newline x = true) l ->
  splitLines (joinLines l) = l.
Proof.
  induction l as [|x l IH]; intros Hne Hl; [congruence|].
  inversion Hl; subst.
  destruct l as [|y l'].
  - simpl. now apply splitLines_single.
  - rewrite joinLines_cons by discriminate.
    rewrite splitLines_append by assumption.
    rewrite IH; [reflexivity|discriminate|assumption].
Qed.

Lemma joinLines_splitLines s : joinLines (splitLines s) = s.
Proof.
  induction s as [|c s IH]; [reflexivity|].
  cbn [splitLines]. destruct (Ascii.eqb c newline) eqn:E.
  - apply Ascii.eqb_eq in E. subst c.
    rewrite joinLines_cons by apply splitLines_not_nil.
    now rewrite IH.
  - pose proof (splitLines_not_nil s) as Hne.
    destruct (splitLines s) as [|l ls]; [congruence|].
    destruct ls as [|l' ls'].
    + cbn [joinLines] in *. now rewrite IH.
    + rewrite joinLines_cons by discriminate.
      rewrite joinLines_cons in IH by discriminate.
      cbn [append]. now rewrite IH.
Qed.

Lemma filter_idem {A} (f : A -> bool) l : filter f (filter f l) = filter f l.
Proof.
  induction l as [|x l IH]; simpl; [reflexivity|].
  destruct (f x) eqn:E; simpl; [rewrite E|]; now rewrite ?IH.
Qed.

Lemma filter_all {A} (f : A -> bool) l : Forall (fun x => f x = true) l -> filter f l = l.
Proof.
  induction 1 as [|x l Hx Hl IH]; simpl; [reflexivity|]. now rewrite Hx, IH.
Qed.

Lemma Forall_filter_keep {A} (P : A -> Prop) (f : A -> bool) l :
  Forall P l -> Forall P (filter f l).
Proof.
  induction 1; simpl; [constructor|]. destruct (f x); [constructor|]; auto.
Qed.

Lemma stripComments_eq s :
  stripComments s = joinLines (filter (fun line => negb (is_comment line)) (splitLines s)).
Proof. reflexivity. Qed.

(** The lines of the result. *)
Lemma stripComments_splitLines s :
  splitLines (stripComments s) =
    match filter (fun line => negb (is_comment line)) (splitLines s) with
    | [] => [""]
    | kept => kept
    end.
Proof.
  rewrite stripComments_eq.
  destruct (filter (fun line => negb (is_comment line)) (splitLines s)) as [|x l] eqn:E.
  - reflexivity.
  - apply splitLines_joinLines; [discriminate|].
    rewrite <- E. apply Forall_filter_keep, splitLines_no_newline.
Qed.

(** X1. [stripComments] drops the lines that begin with [#] after leading
    white space, and only those: no line of the result is a comment, every
    other line of the command is a line of the result, stripping twice is
    stripping once, and a command without a comment line is unchanged. *)
Theorem stripComments_removes_comment_lines s :
  Forall (fun line => is_comment line = false) (splitLines (stripComments s)) /\
  (forall line, is_comment line = false ->
     In line (splitLines s) -> In line (splitLines (stripComments s))) /\
  stripComments (stripComments s) = stripComments s /\
  (Forall (fun line => is_comment line = false) (splitLines s) -> stripComments s = s).
Proof.
  split; [|split; [|split]].
  - rewrite stripComments_splitLines.
    destruct (filter _ _) as [|x l] eqn:E.
    + repeat constructor.
    + rewrite <- E. apply Forall_forall. intros y Hy.
      apply filter_In in Hy as [_ Hy]. now apply negb_true_iff in Hy.
  - intros line Hc Hin. rewrite stripComments_splitLines.
    assert (Hf : In line (filter (fun line => negb (is_comment line)) (splitLines s))).
    { apply filter_In. split; [exact Hin|]. now rewrite Hc. }
    destruct (filter _ _); [destruct Hf|exact Hf].
  - rewrite (stripComments_eq (stripComments s)), stripComments_splitLines.
    rewrite (stripComments_eq s).
    destruct (filter (fun line => negb (is_comment line)) (splitLines s)) as [|x l] eqn:E.
    + reflexivity.
    + rewrite <- E, filter_idem. reflexivity.
  - intros H. rewrite stripComments_eq.
    rewrite filter_all.
    + apply joinLines_splitLines.
    + eapply Forall_impl; [|exact H]. intros a Ha. simpl in Ha. now rewrite Ha.
Qed.

Lemma stripComments_removes_comment_lines_witness :
  let s := ("llama-server" ++ String newline "  --port 9000")%string in
  Forall (fun line => is_comment line = false) (splitLines s) /\ stripComments s = s.
Proof.
  assert (H : Forall (fun line => is_comment line = false)
                     (splitLines ("llama-server" ++ String newline "  --port 9000")%string)).
  { vm_compute. repeat constructor. }
  split; [exact H|].
  exact (proj2 (proj2 (proj2 (stripComments_removes_comment_lines
                                ("llama-server" ++ String newline "  --port 9000")%string))) H).
Defined.

Lemma loadConfig_inv validURL y cfg ports :
  loadConfig validURL y = Ok (cfg, ports) ->
  exists als byId,
    populateAliases (enumerate (orElse (yaml_models y) [])) [] = Ok als /\
    processModels validURL (orElse (yaml_macros y) []) (orElse (yaml_models y) [])
                  (orElse (yaml_startPort y) 5800)
                  (sortStrings (map fst (enumerate (orElse (yaml_models y) []))))
      = Ok (byId, ports) /\
    forEach (enumerate (orElse (yaml_macros y) []))
            (fun nv => validateMacro (fst nv) (snd nv)) = Ok tt /\
    1 <= orElse (yaml_startPort y) 5800 /\
    models cfg = loadedModels (orElse (yaml_models y) []) byId /\
    config_aliases cfg = als /\
    config_macros cfg = orElse (yaml_macros y) [] /\
    groups cfg = addDefaultGroupToConfig (map fst (enumerate (models cfg)))
                                         (orElse (yaml_groups y) []) /\
    checkGroups (enumerate (groups cfg)) [] = Ok tt /\
    preload cfg = match yaml_preload y with
                  | Some (x :: l) => cleanPreload (models cfg) als (x :: l)
                  | _ => []
                  end.
Proof.
  unfold loadConfig. intros H.
  apply andThen_Ok in H as ([] & Hsp & H).
  apply andThen_Ok in H as ([] & Hmac & H).
  apply andThen_Ok in H as (als & Hal & H).
  apply andThen_Ok in H as ([byId ports'] & Hm & H).
  apply andThen_Ok in H as ([] & Hg & H).
  inversion H; subst. clear H.
  cbn [models config_aliases config_macros groups preload].
  exists als, byId.
  split; [exact Hal|]. split; [exact Hm|]. split; [exact Hmac|].
  split.
  { apply check_Ok in Hsp. apply negb_true_iff in Hsp.
    apply Z.ltb_ge in Hsp. exact Hsp. }
  repeat (split; [reflexivity|]).
  split; [exact Hg|].
  destruct (yaml_preload y) as [[|x l]|]; reflexivity.
Qed.

Lemma forEach_Ok {A} (l : list A) body :
  forEach l body = Ok tt -> forall x, In x l -> body x = Ok tt.
Proof.
  induction l as [|a l IH]; simpl; intros H x Hin; [destruct Hin|].
  apply andThen_Ok in H as ([] & Ha & H).
  destruct Hin as [<-|Hin]; auto.
Qed.

Lemma checkField_Ok modelId v :
  checkField modelId false v = Ok tt -> field_ok v.
Proof.
  unfold checkField, field_ok.
  destruct (truthy_value v) eqn:Et; [|now left]. cbn [negb].
  destruct v as [s| | | |]; try discriminate.
  intros H. right. exists s. split; [reflexivity|].
  destruct (macroMatches s) as [|name l]; [reflexivity|].
  simpl in H. rewrite andb_false_r in H. discriminate.
Qed.

Lemma checkField_cmdStop_Ok modelId v :
  checkField modelId true v = Ok tt -> cmdStop_ok v.
Proof.
  unfold checkField, cmdStop_ok.
  destruct (truthy_value v) eqn:Et; [|now left]. cbn [negb].
  destruct v as [s| | | |]; try discriminate.
  intros H. right. exists s. split; [reflexivity|].
  apply Forall_forall. intros name Hin.
  pose proof (forEach_Ok _ _ H name Hin) as Hn. cbn beta in Hn.
  rewrite andb_true_r in Hn.
  destruct (String.eqb name "PID") eqn:E; [|discriminate].
  now apply String.eqb_eq in E.
Qed.

Lemma processModel_ok validURL gm np id y m port np' :
  processModel validURL gm np id y = Ok (m, port, np') -> model_ok validURL m.
Proof.
  unfold processModel. intros H.
  apply andThen_Ok in H as (_ & _ & H).
  apply andThen_Ok in H as ([[mm p] n] & _ & H).
  apply andThen_Ok in H as ([] & Hcmd & H).
  apply andThen_Ok in H as ([] & Hstop & H).
  apply andThen_Ok in H as ([] & Hproxy & H).
  apply andThen_Ok in H as ([] & Hcheck & H).
  apply andThen_Ok in H as ([] & Hstrip & H).
  apply andThen_Ok in H as ([] & _ & H).
  apply andThen_Ok in H as ([] & Hurl & H).
  inversion H; subst. clear H.
  unfold model_ok. cbn [cmd proxy checkEndpoint stripParams cmdStop].
  repeat split; eauto using checkField_Ok.
  - intros c Hc. rewrite Hc in Hstop. cbn [orElse] in Hstop.
    eapply checkField_cmdStop_Ok; eauto.
  - now apply check_Ok in Hurl.
Qed.

Lemma processModels_ok validURL gm ym ids : forall np ms ports id m,
  processModels validURL gm ym np ids = Ok (ms, ports) ->
  In (id, m) ms -> model_ok validURL m.
Proof.
  induction ids as [|id0 ids IH]; intros np ms ports id m H Hin; simpl in H.
  - inversion H; subst. destruct Hin.
  - destruct (lookup id0 ym) as [y|]; [|discriminate].
    apply andThen_Ok in H as ([[m0 port] np'] & Hm & H).
    apply andThen_Ok in H as ([ms' ports'] & Hrest & H).
    inversion H; subst. clear H.
    destruct Hin as [Heq|Hin].
    + inversion Heq; subst. eapply processModel_ok; eauto.
    + eapply IH; eauto.
Qed.

Lemma In_keys_lookup_Some {A} k (l : list (string * A)) :
  In k (map fst l) -> exists v, lookup k l = Some v.
Proof.
  induction l as [|[k' v'] l IH]; simpl; [intros []|].
  intros [<-|Hin].
  - rewrite String.eqb_refl. eauto.
  - destruct (String.eqb k k'); eauto.
Qed.

Lemma loadedModels_keys yamlModels byId :
  (forall k, In k (map fst yamlModels) -> In k (map fst byId)) ->
  map fst (loadedModels yamlModels byId) = map fst yamlModels.
Proof.
  intros H. unfold loadedModels.
  induction yamlModels as [|[k v] l IH]; [reflexivity|].
  cbn [flat_map fst map].
  destruct (In_keys_lookup_Some k byId) as [m Hm]; [apply H; now left|].
  rewrite Hm. cbn [app map fst]. f_equal. apply IH.
  intros k' Hk'. apply H. now right.
Qed.

Lemma loadedModels_In yamlModels byId id m :
  In (id, m) (loadedModels yamlModels byId) -> In (id, m) byId.
Proof.
  unfold loadedModels. intros Hin.
  apply in_flat_map in Hin as ([k v] & _ & Hin).
  cbn [fst] in Hin. destruct (lookup k byId) as [m'|] eqn:E; [|destruct Hin].
  destruct Hin as [Heq|[]]. inversion Heq; subst. now apply lookup_Some_In.
Qed.

Lemma loadConfig_model_keys validURL y cfg ports :
  loadConfig validURL y = Ok (cfg, ports) ->
  map fst (models cfg) = map fst (orElse (yaml_models y) []).
Proof.
  intros H. apply loadConfig_inv in H as (als & byId & _ & Hm & _ & _ & Hmod & _).
  rewrite Hmod. apply loadedModels_keys.
  destruct (processModels_ports _ _ _ _ _ _ _ Hm) as [_ Hids].
  intros k Hk. rewrite Hids.
  eapply Permutation_in; [symmetry; apply modelIds_perm|exact Hk].
Qed.

(** X2. An accepted configuration has the models of the document, under
    the same keys and in the same order.  In each of them the command, the
    proxy, the check endpoint and [filters.stripParams] are empty or
    strings without any macro left, [cmdStop] holds no macro but [${PID}],
    and the proxy parses as a URL. *)
Theorem loaded_models_are_resolved validURL y cfg ports :
  loadConfig validURL y = Ok (cfg, ports) ->
  map fst (models cfg) = map fst (orElse (yaml_models y) []) /\
  forall id m, In (id, m) (models cfg) -> model_ok validURL m.
Proof.
  intros H. split; [eapply loadConfig_model_keys; eauto|].
  apply loadConfig_inv in H as (als & byId & _ & Hm & _ & _ & Hmod & _).
  intros id m Hin. rewrite Hmod in Hin. apply loadedModels_In in Hin.
  eapply processModels_ok; eauto.
Qed.

Lemma loaded_models_are_resolved_witness :
  exists cfg ports,
    loadConfig any_url ex_yaml_groups = Ok (cfg, ports) /\
    map fst (models cfg) = map fst (orElse (yaml_models ex_yaml_groups) []) /\
    forall id m, In (id, m) (models cfg) -> model_ok any_url m.
Proof.
  destruct (loadConfig any_url ex_yaml_groups) as [[cfg ports]|e] eqn:E;
    [|vm_compute in E; discriminate].
  exists cfg, ports. split; [reflexivity|].
  exact (loaded_models_are_resolved any_url ex_yaml_groups cfg ports E).
Defined.

Lemma map_set_fresh {A} k (v : A) l :
  lookup k l = None -> map_set k v l = l ++ [(k, v)].
Proof.
  induction l as [|[k' v'] l IH]; simpl; [reflexivity|].
  destruct (String.eqb k k'); [discriminate|]. intros H. now rewrite IH.
Qed.

Lemma lookup_None_keys {A} k (l : list (string * A)) :
  lookup k l = None -> ~ In k (map fst l).
Proof.
  induction l as [|[k' v'] l IH]; simpl; [tauto|].
  destruct (String.eqb k k') eqn:E; [discriminate|].
  apply String.eqb_neq in E. intros H [Heq|Hin]; [congruence|]. now apply IH.
Qed.

Lemma lookup_NoDup_In {A} k (v : A) l :
  NoDup (map fst l) -> In (k, v) l -> lookup k l = Some v.
Proof.
  induction l as [|[k' v'] l IH]; simpl; [tauto|].
  intros Hnd [Heq|Hin].
  - inversion Heq; subst. now rewrite String.eqb_refl.
  - inversion Hnd; subst.
    destruct (String.eqb k k') eqn:E.
    + apply String.eqb_eq in E. subst. exfalso. apply H1.
      now apply (in_map fst) in Hin.
    + now apply IH.
Qed.

Lemma truthyAt_named alias acc :
  named acc ->
  truthyAt (fun m => negb (String.eqb m "")) alias acc = false ->
  lookup alias acc = None /\ inherited alias = false.
Proof.
  unfold truthyAt. intros Hn.
  destruct (lookup alias acc) as [m|] eqn:E; [|auto].
  apply lookup_Some_In in E.
  unfold named in Hn. rewrite Forall_forall in Hn. apply Hn in E. simpl in E.
  apply String.eqb_neq in E. rewrite E. discriminate.
Qed.

Lemma addAliases_inv modelName l : forall acc acc',
  modelName <> "" -> named acc ->
  addAliases modelName l acc = Ok acc' ->
  acc' = acc ++ map (fun alias => (alias, modelName)) l /\
  Forall (fun alias => inherited alias = false) l.
Proof.
  induction l as [|alias l IH]; intros acc acc' Hm Hn H; simpl in H.
  - inversion H; subst. rewrite app_nil_r. auto.
  - destruct (truthyAt _ alias acc) eqn:Et; [discriminate|].
    destruct (truthyAt_named _ _ Hn Et) as [Hl Hi].
    rewrite (map_set_fresh _ _ _ Hl) in H.
    apply IH in H as [-> Hf]; auto.
    + split; [|now constructor]. simpl. now rewrite <- app_assoc.
    + apply Forall_app. split; [exact Hn|]. now repeat constructor.
Qed.

Lemma named_app_pairs acc modelName l :
  modelName <> "" -> named acc -> named (acc ++ map (fun alias => (alias, modelName)) l).
Proof.
  intros Hm Hn. apply Forall_app. split; [exact Hn|].
  apply Forall_forall. intros e He. apply in_map_iff in He as (a & <- & _). exact Hm.
Qed.

Lemma populateAliases_inv ms : forall acc acc',
  ~ In "" (map fst ms) -> named acc ->
  populateAliases ms acc = Ok acc' ->
  acc' = acc ++ aliasPairs ms /\
  Forall (fun alias => inherited alias = false) (map fst (aliasPairs ms)).
Proof.
  induction ms as [|[modelName y] ms IH]; intros acc acc' Hne Hn H; simpl in H.
  - inversion H; subst. rewrite app_nil_r. split; [reflexivity|constructor].
  - assert (Hm : modelName <> "") by (intros ->; apply Hne; now left).
    assert (Hne' : ~ In "" (map fst ms)) by (intros Hin; apply Hne; now right).
    apply andThen_Ok in H as (acc1 & H1 & H).
    unfold aliasPairs. cbn [flat_map fst snd]. fold (aliasPairs ms).
    destruct (y_aliases y) as [l|]; cbn [orElse].
    + apply addAliases_inv in H1 as [-> Hf]; auto.
      apply IH in H as [-> Hf']; auto using named_app_pairs.
      split; [now rewrite <- app_assoc|].
      rewrite map_app. apply Forall_app. split; [|exact Hf'].
      rewrite map_map. cbn [fst]. now rewrite map_id.
    + inversion H1; subst. apply IH in H as [-> Hf']; auto.
Qed.

Lemma addAliases_NoDup modelName l : forall acc acc',
  modelName <> "" -> named acc -> NoDup (map fst acc) ->
  addAliases modelName l acc = Ok acc' -> NoDup (map fst acc').
Proof.
  induction l as [|alias l IH]; intros acc acc' Hm Hn Hnd H; simpl in H.
  - now inversion H; subst.
  - destruct (truthyAt _ alias acc) eqn:Et; [discriminate|].
    destruct (truthyAt_named _ _ Hn Et) as [Hl Hi].
    rewrite (map_set_fresh _ _ _ Hl) in H.
    apply IH in H; auto.
    + apply Forall_app. split; [exact Hn|]. now repeat constructor.
    + rewrite map_app. cbn [map fst].
      apply NoDup_app; [exact Hnd|repeat constructor; intros []|].
      intros x Hx [<-|[]]. now apply lookup_None_keys in Hl.
Qed.

Lemma addAliases_named modelName l : forall acc acc',
  modelName <> "" -> named acc ->
  addAliases modelName l acc = Ok acc' -> named acc'.
Proof.
  intros acc acc' Hm Hn H.
  apply addAliases_inv in H as [-> _]; auto using named_app_pairs.
Qed.

Lemma populateAliases_NoDup ms : forall acc acc',
  ~ In "" (map fst ms) -> named acc -> NoDup (map fst acc) ->
  populateAliases ms acc = Ok acc' -> NoDup (map fst acc').
Proof.
  induction ms as [|[modelName y] ms IH]; intros acc acc' Hne Hn Hnd H; simpl in H.
  - now inversion H; subst.
  - assert (Hm : modelName <> "") by (intros ->; apply Hne; now left).
    assert (Hne' : ~ In "" (map fst ms)) by (intros Hin; apply Hne; now right).
    apply andThen_Ok in H as (acc1 & H1 & H).
    destruct (y_aliases y) as [l|].
    + eapply IH; [exact Hne'| | |exact H].
      * eapply addAliases_named; eauto.
      * eapply addAliases_NoDup; eauto.
    + inversion H1; subst. eapply IH; eauto.
Qed.

Lemma aliasPairs_In ms alias modelName :
  In (alias, modelName) (aliasPairs ms) <->
  exists ym, In (modelName, ym) ms /\ In alias (orElse (y_aliases ym) []).
Proof.
  unfold aliasPairs. rewrite in_flat_map. split.
  - intros ([k ym] & Hin & Ha). cbn [fst snd] in Ha.
    apply in_map_iff in Ha as (a & Heq & Ha). inversion Heq; subst.
    now exists ym.
  - intros (ym & Hin & Ha). exists (modelName, ym). split; [exact Hin|].
    cbn [fst snd]. apply in_map_iff. now exists alias.
Qed.

(** X3. In an accepted configuration without a model named by the empty
    string, the table of aliases maps an alias to a model exactly when the
    model lists it; no alias is listed twice, by one model or by two, and
    none is the name of a property of [Object.prototype]. *)
Theorem aliases_table validURL y cfg ports :
  loadConfig validURL y = Ok (cfg, ports) ->
  ~ In "" (map fst (orElse (yaml_models y) [])) ->
  (forall alias modelName,
     lookup alias (config_aliases cfg) = Some modelName <->
     exists ym, In (modelName, ym) (orElse (yaml_models y) []) /\
                In alias (orElse (y_aliases ym) [])) /\
  NoDup (map fst (aliasPairs (enumerate (orElse (yaml_models y) [])))) /\
  Forall (fun alias => inherited alias = false) (map fst (config_aliases cfg)).
Proof.
  intros H Hne.
  apply loadConfig_inv in H as (als & byId & Hal & _ & _ & _ & _ & Hals & _).
  rewrite Hals. clear Hals.
  assert (Hne' : ~ In "" (map fst (enumerate (orElse (yaml_models y) [])))).
  { intros Hin. apply Hne. eapply Permutation_in; [|exact Hin].
    apply Permutation_map, enumerate_perm. }
  pose proof (populateAliases_NoDup _ _ _ Hne' (Forall_nil _) (NoDup_nil _) Hal) as Hnd.
  apply populateAliases_inv in Hal as [-> Hf]; auto; [|constructor].
  cbn [app] in *. split; [|split; [exact Hnd|exact Hf]].
  intros alias modelName. split.
  - intros Hl. apply lookup_Some_In in Hl. apply aliasPairs_In in Hl as (ym & Hin & Ha).
    exists ym. split; [|exact Ha].
    eapply Permutation_in; [apply enumerate_perm|exact Hin].
  - intros (ym & Hin & Ha). apply lookup_NoDup_In; [exact Hnd|].
    apply aliasPairs_In. exists ym. split; [|exact Ha].
    eapply Permutation_in; [symmetry; apply enumerate_perm|exact Hin].
Qed.

Lemma aliases_table_witness :
  exists cfg ports,
    loadConfig any_url ex_yaml_groups = Ok (cfg, ports) /\
    ~ In "" (map fst (orElse (yaml_models ex_yaml_groups) [])) /\
    lookup "tiny" (config_aliases cfg) = Some "small" /\
    NoDup (map fst (aliasPairs (enumerate (orElse (yaml_models ex_yaml_groups) [])))).
Proof.
  destruct (loadConfig any_url ex_yaml_groups) as [[cfg ports]|e] eqn:E;
    [|vm_compute in E; discriminate].
  exists cfg, ports. split; [reflexivity|].
  assert (Hne : ~ In "" (map fst (orElse (yaml_models ex_yaml_groups) []))).
  { vm_compute. intuition discriminate. }
  split; [exact Hne|].
  destruct (aliases_table any_url ex_yaml_groups cfg ports E Hne) as (Hl & Hnd & _).
  split; [|exact Hnd].
  apply Hl. eexists. split; [left; reflexivity|]. right. left. reflexivity.
Defined.

(** ** Groups *)

Lemma lookup_map_set_same {A} k (v : A) l : lookup k (map_set k v l) = Some v.
Proof.
  induction l as [|[k' v'] l IH]; simpl.
  - now rewrite String.eqb_refl.
  - destruct (String.eqb k k') eqn:E; simpl; now rewrite E.
Qed.

Lemma lookup_map_set_other {A} k k' (v : A) l :
  k' <> k -> lookup k' (map_set k v l) = lookup k' l.
Proof.
  intros Hne. induction l as [|[k0 v0] l IH]; simpl.
  - apply String.eqb_neq in Hne. now rewrite Hne.
  - destruct (String.eqb k k0) eqn:E; simpl.
    + apply String.eqb_eq in E. subst k0. apply String.eqb_neq in Hne.
      now rewrite Hne.
    + destruct (String.eqb k' k0); auto.
Qed.

Lemma marked_map_set_same member g u :
  marked (map_set member g u) member = negb (String.eqb g "").
Proof. unfold marked, truthyAt. now rewrite lookup_map_set_same. Qed.

Lemma marked_map_set_other member g u x :
  x <> member -> marked (map_set member g u) x = marked u x.
Proof. intros H. unfold marked, truthyAt. now rewrite lookup_map_set_other. Qed.

Lemma includes_In x l : includes x l = true <-> In x l.
Proof.
  unfold includes. rewrite existsb_exists. split.
  - intros (y & Hy & E). apply String.eqb_eq in E. now subst.
  - intros H. exists x. split; [exact H|apply String.eqb_refl].
Qed.

Lemma includes_false x l : includes x l = false <-> ~ In x l.
Proof.
  rewrite <- includes_In. destruct (includes x l); split; congruence.
Qed.

Lemma checkMembers_inv groupID l : forall prevSet u u',
  checkMembers groupID l prevSet u = Ok u' ->
  NoDup l /\
  (forall x, In x l -> ~ In x prevSet /\ marked u x = false) /\
  (forall x, marked u x = true -> marked u' x = true) /\
  (groupID <> "" -> forall x, In x l -> marked u' x = true).
Proof.
  induction l as [|member l IH]; intros prevSet u u' H; simpl in H.
  - inversion H; subst. split; [constructor|].
    split; [intros x []|]. split; [auto|intros _ x []].
  - destruct (includes member prevSet) eqn:Ei; [discriminate|].
    fold (marked u member) in H.
    destruct (marked u member) eqn:Em; [discriminate|].
    apply IH in H as (Hnd & Hfresh & Hmono & Hmark).
    apply includes_false in Ei.
    assert (Hkeep : forall x, marked u x = true ->
                              marked (map_set member groupID u) x = true).
    { intros x Hx. rewrite marked_map_set_other; [exact Hx|]. congruence. }
    split; [|split; [|split]].
    + constructor; [|exact Hnd]. intros Hin.
      destruct (Hfresh _ Hin) as [Hp _]. apply Hp. now left.
    + intros x [<-|Hin]; [now split|].
      destruct (Hfresh _ Hin) as [Hp Hm]. split.
      * intros Hq. apply Hp. now right.
      * destruct (marked u x) eqn:Ex; [|reflexivity].
        apply Hkeep in Ex. congruence.
    + intros x Hx. apply Hmono, Hkeep, Hx.
    + intros Hg x [<-|Hin]; [|now apply Hmark].
      apply Hmono. rewrite marked_map_set_same.
      apply String.eqb_neq in Hg. now rewrite Hg.
Qed.

Lemma checkGroups_fresh gs : forall u,
  checkGroups gs u = Ok tt ->
  forall g gc x, In (g, gc) gs -> In x (members gc) -> marked u x = false.
Proof.
  induction gs as [|[g0 gc0] gs IH]; intros u H g gc x Hin Hx; [destruct Hin|].
  simpl in H. apply andThen_Ok in H as (u1 & H1 & H).
  apply checkMembers_inv in H1 as (_ & Hfresh & Hmono & _).
  destruct Hin as [Heq|Hin].
  - inversion Heq; subst. now apply Hfresh.
  - pose proof (IH _ H _ _ _ Hin Hx) as Hm.
    destruct (marked u x) eqn:E; [|reflexivity].
    apply Hmono in E. congruence.
Qed.

Lemma checkGroups_inv gs : forall u,
  checkGroups gs u = Ok tt ->
  apart gs /\ forall g gc, In (g, gc) gs -> NoDup (members gc).
Proof.
  induction gs as [|[g0 gc0] gs IH]; intros u H.
  - split; [constructor|intros ? ? []].
  - simpl in H. apply andThen_Ok in H as (u1 & H1 & H).
    destruct (IH _ H) as [Hap Hnd].
    apply checkMembers_inv in H1 as (Hnd0 & _ & _ & Hmark).
    split.
    + constructor; [|exact Hap].
      intros Hg g' gc' x Hin Hx Hx'.
      pose proof (checkGroups_fresh _ _ H _ _ _ Hin Hx') as Hf.
      rewrite (Hmark Hg _ Hx) in Hf. discriminate.
    + intros g gc [Heq|Hin]; [inversion Heq; subst; exact Hnd0|eauto].
Qed.

Lemma apart_disjoint gs :
  apart gs ->
  forall g1 gc1 g2 gc2 x,
    In (g1, gc1) gs -> In (g2, gc2) gs -> g1 <> g2 -> g1 <> "" -> g2 <> "" ->
    In x (members gc1) -> ~ In x (members gc2).
Proof.
  induction 1 as [|g gc gs Hhead Hap IH]; intros g1 gc1 g2 gc2 x H1 H2 Hne Hn1 Hn2 Hx.
  - destruct H1.
  - destruct H1 as [E1|H1], H2 as [E2|H2].
    + inversion E1; inversion E2; subst. congruence.
    + inversion E1; subst. exact (Hhead Hn1 g2 gc2 x H2 Hx).
    + inversion E2; subst. intros Hx'. exact (Hhead Hn2 g1 gc1 x H1 Hx' Hx).
    + exact (IH g1 gc1 g2 gc2 x H1 H2 Hne Hn1 Hn2 Hx).
Qed.

Lemma In_enumerate {A} (l : list (string * A)) e : In e (enumerate l) <-> In e l.
Proof.
  split; intros H.
  - eapply Permutation_in; [apply enumerate_perm|exact H].
  - eapply Permutation_in; [symmetry; apply enumerate_perm|exact H].
Qed.

(** X4. In an accepted configuration no group lists a member twice, and
    two groups with different, non-empty ids have no member in common. *)
Theorem groups_share_no_member validURL y cfg ports :
  loadConfig validURL y = Ok (cfg, ports) ->
  (forall g gc, In (g, gc) (groups cfg) -> NoDup (members gc)) /\
  (forall g1 gc1 g2 gc2 member,
     In (g1, gc1) (groups cfg) -> In (g2, gc2) (groups cfg) ->
     g1 <> g2 -> g1 <> "" -> g2 <> "" ->
     In member (members gc1) -> ~ In member (members gc2)).
Proof.
  intros H.
  apply loadConfig_inv in H as (als & byId & _ & _ & _ & _ & _ & _ & _ & _ & Hg & _).
  apply checkGroups_inv in Hg as [Hap Hnd]. split.
  - intros g gc Hin. apply (Hnd g gc). now apply In_enumerate.
  - intros g1 gc1 g2 gc2 member H1 H2. apply (apart_disjoint _ Hap); now apply In_enumerate.
Qed.

Lemma groups_share_no_member_witness :
  exists cfg ports,
    loadConfig any_url ex_yaml_groups = Ok (cfg, ports) /\
    (forall g gc, In (g, gc) (groups cfg) -> NoDup (members gc)) /\
    (forall g1 gc1 g2 gc2 member,
       In (g1, gc1) (groups cfg) -> In (g2, gc2) (groups cfg) ->
       g1 <> g2 -> g1 <> "" -> g2 <> "" ->
       In member (members gc1) -> ~ In member (members gc2)).
Proof.
  destruct (loadConfig any_url ex_yaml_groups) as [[cfg ports]|e] eqn:E;
    [|vm_compute in E; discriminate].
  exists cfg, ports. split; [reflexivity|].
  exact (groups_share_no_member any_url ex_yaml_groups cfg ports E).
Defined.

(** ** The default group *)

Lemma insertSorted_HdRel a x l :
  string_le a x -> HdRel string_le a l -> HdRel string_le a (insertSorted x l).
Proof.
  intros Hax Hl. destruct l as [|y l]; simpl; [now constructor|].
  destruct (String.leb x y); constructor; auto. now inversion Hl.
Qed.

Lemma insertSorted_sorted x l :
  Sorted string_le l -> Sorted string_le (insertSorted x l).
Proof.
  induction 1 as [|y l Hl IH Hhd]; simpl.
  - repeat constructor.
  - destruct (String.leb x y) eqn:E.
    + constructor; [now constructor|]. now constructor.
    + constructor; [exact IH|].
      apply insertSorted_HdRel; [|exact Hhd].
      destruct (String.leb_total x y) as [H|H]; [congruence|exact H].
Qed.

Lemma sortStrings_sorted l : Sorted string_le (sortStrings l).
Proof.
  induction l as [|x l IH]; simpl; [constructor|]. now apply insertSorted_sorted.
Qed.

Lemma In_sortStrings x l : In x (sortStrings l) <-> In x l.
Proof.
  split; intros H.
  - eapply Permutation_in; [apply sortStrings_perm|exact H].
  - eapply Permutation_in; [symmetry; apply sortStrings_perm|exact H].
Qed.

Lemma In_map_set_other {A} k (v : A) l k' v' :
  k' <> k -> In (k', v') l -> In (k', v') (map_set k v l).
Proof.
  intros Hne. induction l as [|[k0 v0] l IH]; simpl; [tauto|].
  intros [Heq|Hin].
  - inversion Heq; subst. destruct (String.eqb k k') eqn:E.
    + apply String.eqb_eq in E. congruence.
    + now left.
  - destruct (String.eqb k k0); right; auto.
Qed.

Lemma In_map_set_same {A} k (v : A) l : In (k, v) (map_set k v l).
Proof.
  induction l as [|[k0 v0] l IH]; simpl; [now left|].
  destruct (String.eqb k k0) eqn:E.
  - apply String.eqb_eq in E. subst. now left.
  - now right.
Qed.

(** The models that no configured group lists. *)
Lemma defaultMembers_In modelNames groups0 m :
  In m (match groups0 with
        | [] => modelNames
        | _ :: _ =>
            filter (fun modelName =>
                      negb (existsb (fun g => includes modelName (members (snd g)))
                                    (enumerate groups0)))
                   modelNames
        end) <->
  In m modelNames /\ forall g gc, In (g, gc) groups0 -> ~ In m (members gc).
Proof.
  destruct groups0 as [|e groups0].
  - split.
    + intros H. split; [exact H|]. intros g gc [].
    + intros [H _]. exact H.
  - rewrite filter_In, negb_true_iff. split; intros [Hin H]; (split; [exact Hin|]).
    + intros g gc Hg Hm.
      assert (Hex : existsb (fun g0 => includes m (members (snd g0)))
                            (enumerate (e :: groups0)) = true).
      { apply existsb_exists. exists (g, gc). split; [now apply In_enumerate|].
        now apply includes_In. }
      congruence.
    + destruct (existsb _ _) eqn:Ex; [|reflexivity].
      apply existsb_exists in Ex as ([g gc] & Hg & Hm).
      apply (proj1 (In_enumerate _ _)) in Hg.
      apply (proj1 (includes_In _ _)) in Hm. cbn [snd] in Hm.
      destruct (H g gc Hg Hm).
Qed.

(** X5. An accepted configuration has a group [(default)], swapping,
    exclusive and not persistent, whose members are, in sorted order, the
    models that no group of the document lists.  When the document has no
    group of that name (which [(default)] would replace), every model is
    a member of some group. *)
Theorem default_group_takes_the_rest validURL y cfg ports :
  loadConfig validURL y = Ok (cfg, ports) ->
  exists defaultMembers,
    lookup "(default)" (groups cfg)
      = Some (mkGroupConfig true true false defaultMembers) /\
    Sorted string_le defaultMembers /\
    (forall m, In m defaultMembers <->
               In m (map fst (models cfg)) /\
               forall g gc, In (g, gc) (orElse (yaml_groups y) []) ->
                            ~ In m (members gc)) /\
    (~ In "(default)" (map fst (orElse (yaml_groups y) [])) ->
     forall m, In m (map fst (models cfg)) ->
               exists g gc, In (g, gc) (groups cfg) /\ In m (members gc)).
Proof.
  intros H.
  apply loadConfig_inv in H as (als & byId & _ & _ & _ & _ & _ & _ & _ & Hg & _).
  unfold addDefaultGroupToConfig in Hg.
  set (userGroups := orElse (yaml_groups y) []) in *.
  set (modelNames := map fst (enumerate (models cfg))) in *.
  set (rest := match userGroups with
               | [] => modelNames
               | _ :: _ => filter _ modelNames
               end) in Hg.
  assert (Hrest : forall m, In m (sortStrings rest) <->
                            In m (map fst (models cfg)) /\
                            forall g gc, In (g, gc) userGroups -> ~ In m (members gc)).
  { intros m. rewrite In_sortStrings. unfold rest.
    rewrite defaultMembers_In. unfold modelNames.
    split; intros [Hm Hn]; (split; [|exact Hn]).
    - eapply Permutation_in; [apply Permutation_map, enumerate_perm|exact Hm].
    - eapply Permutation_in; [symmetry; apply Permutation_map, enumerate_perm|exact Hm]. }
  exists (sortStrings rest). rewrite Hg.
  split; [apply lookup_map_set_same|]. split; [apply sortStrings_sorted|].
  split; [exact Hrest|].
  intros Hno m Hm.
  destruct (in_dec string_dec m (sortStrings rest)) as [Hd|Hd].
  - exists "(default)", (mkGroupConfig true true false (sortStrings rest)).
    split; [apply In_map_set_same|exact Hd].
  - assert (Hex : exists g gc, In (g, gc) userGroups /\ In m (members gc)).
    { destruct (existsb (fun g => includes m (members (snd g))) userGroups) eqn:Ex.
      - apply existsb_exists in Ex as ([g gc] & Hin & Hi).
        apply (proj1 (includes_In _ _)) in Hi. now exists g, gc.
      - exfalso. apply Hd, Hrest. split; [exact Hm|].
        intros g gc Hin Hx.
        assert (existsb (fun g => includes m (members (snd g))) userGroups = true).
        { apply existsb_exists. exists (g, gc). split; [exact Hin|].
          now apply includes_In. }
        congruence. }
    destruct Hex as (g & gc & Hin & Hx). exists g, gc. split; [|exact Hx].
    apply In_map_set_other; [|exact Hin].
    intros ->. apply Hno. now apply (in_map fst) in Hin.
Qed.

Lemma default_group_takes_the_rest_witness :
  exists cfg ports,
    loadConfig any_url ex_yaml_groups = Ok (cfg, ports) /\
    lookup "(default)" (groups cfg) = Some (mkGroupConfig true true false ["embed"]) /\
    ~ In "(default)" (map fst (orElse (yaml_groups ex_yaml_groups) [])) /\
    forall m, In m (map fst (models cfg)) ->
              exists g gc, In (g, gc) (groups cfg) /\ In m (members gc).
Proof.
  destruct (loadConfig any_url ex_yaml_groups) as [[cfg ports]|e] eqn:E;
    [|vm_compute in E; discriminate].
  exists cfg, ports. split; [reflexivity|].
  destruct (default_group_takes_the_rest any_url ex_yaml_groups cfg ports E)
    as (ms & Hl & _ & _ & Hcover).
  assert (Hno : ~ In "(default)" (map fst (orElse (yaml_groups ex_yaml_groups) []))).
  { vm_compute. intuition discriminate. }
  split; [|split; [exact Hno|exact (Hcover Hno)]].
  vm_compute in E. inversion E; subst. vm_compute. reflexivity.
Defined.

(** ** Looking a model up *)

Lemma populateAliases_targets ms : forall acc acc',
  populateAliases ms acc = Ok acc' ->
  forall alias modelName,
    lookup alias acc' = Some modelName ->
    lookup alias acc = Some modelName \/ In modelName (map fst ms).
Proof.
  assert (Hadd : forall modelName l acc acc',
            addAliases modelName l acc = Ok acc' ->
            forall alias m, lookup alias acc' = Some m ->
                            lookup alias acc = Some m \/ m = modelName).
  { intros modelName l. induction l as [|a l IH]; intros acc acc' H alias m Hl; simpl in H.
    - inversion H; subst. now left.
    - destruct (truthyAt _ a acc); [discriminate|].
      destruct (IH _ _ H _ _ Hl) as [Hl'|Hm]; [|now right].
      destruct (string_dec alias a) as [->|Hne].
      + rewrite lookup_map_set_same in Hl'. inversion Hl'. now right.
      + rewrite lookup_map_set_other in Hl' by exact Hne. now left. }
  induction ms as [|[modelName y] ms IH]; intros acc acc' H alias m Hl; simpl in H.
  - inversion H; subst. now left.
  - apply andThen_Ok in H as (acc1 & H1 & H).
    destruct (IH _ _ H _ _ Hl) as [Hl1|Hin]; [|right; now right].
    destruct (y_aliases y) as [l|].
    + destruct (Hadd _ _ _ _ H1 _ _ Hl1) as [Hl0| ->]; [now left|right; now left].
    + inversion H1; subst. now left.
Qed.

Lemma truthyAt_own {A} (l : list (string * A)) k :
  truthyAt (fun _ => true) k l = true <-> In k (map fst l) \/ inherited k = true.
Proof.
  unfold truthyAt. destruct (lookup k l) as [v|] eqn:E.
  - split; [|reflexivity]. intros _. left.
    apply lookup_Some_In in E. now apply (in_map fst) in E.
  - apply lookup_None_keys in E. split; [now right|]. intros [H|H]; [tauto|exact H].
Qed.

(** X6. On an accepted configuration, for a name that is no property of
    [Object.prototype]: when [realModelName] gives a name, the name is the
    one searched or the model its alias maps to, it is the key of a loaded
    model and resolves to itself, and [findConfig] returns that model;
    when it gives [null], the name is no model and [findConfig] reports
    that nothing was found. *)
Theorem findConfig_finds_loaded_models validURL y cfg ports search :
  loadConfig validURL y = Ok (cfg, ports) ->
  inherited search = false ->
  match realModelName cfg search with
  | Some realName =>
      (realName = search \/ lookup search (config_aliases cfg) = Some realName) /\
      realModelName cfg realName = Some realName /\
      exists m, In (realName, m) (models cfg) /\
                findConfig cfg search = mkFindResult (Some m) (Some realName) true
  | None =>
      ~ In search (map fst (models cfg)) /\
      findConfig cfg search = mkFindResult None None false
  end.
Proof.
  intros H Hinh.
  pose proof (loadConfig_model_keys _ _ _ _ H) as Hkeys.
  apply loadConfig_inv in H as (als & byId & Hal & _ & _ & _ & _ & Hals & _).
  assert (Hown : forall k, In k (map fst (models cfg)) ->
                           realModelName cfg k = Some k /\
                           exists m, In (k, m) (models cfg) /\
                                     lookup k (models cfg) = Some m).
  { intros k Hk. split.
    - unfold realModelName.
      rewrite (proj2 (truthyAt_own (models cfg) k) (or_introl Hk)). reflexivity.
    - destruct (In_keys_lookup_Some _ _ Hk) as [m Hm]. exists m.
      split; [now apply lookup_Some_In|exact Hm]. }
  unfold findConfig.
  destruct (realModelName cfg search) as [realName|] eqn:Er;
    unfold realModelName in Er;
    destruct (truthyAt (fun _ => true) search (models cfg)) eqn:Et.
  - inversion Er; subst realName.
    apply truthyAt_own in Et as [Hk|Hi]; [|congruence].
    destruct (Hown _ Hk) as [Hr (m & Hin & Hl)].
    split; [now left|]. split; [exact Hr|]. exists m. split; [exact Hin|].
    now rewrite Hl.
  - destruct (lookup search (config_aliases cfg)) as [modelName|] eqn:El;
      [|discriminate].
    destruct (String.eqb modelName "") eqn:Ee; [discriminate|].
    inversion Er; subst realName.
    rewrite Hals in El.
    destruct (populateAliases_targets _ _ _ Hal _ _ El) as [Hnil|Hin]; [discriminate|].
    assert (Hk : In modelName (map fst (models cfg))).
    { rewrite Hkeys. eapply Permutation_in; [|exact Hin].
      apply Permutation_map, enumerate_perm. }
    destruct (Hown _ Hk) as [Hr (m & Hinm & Hl)].
    split; [now right|]. split; [exact Hr|].
    exists m. split; [exact Hinm|]. now rewrite Hl.
  - discriminate.
  - split; [|reflexivity].
    intros Hk. rewrite (proj2 (truthyAt_own _ _) (or_introl Hk)) in Et. discriminate.
Qed.

Lemma findConfig_finds_loaded_models_witness :
  exists cfg ports,
    loadConfig any_url ex_yaml_groups = Ok (cfg, ports) /\
    inherited "tiny" = false /\
    realModelName cfg "tiny" = Some "small" /\
    exists m, In ("small", m) (models cfg) /\
              findConfig cfg "tiny" = mkFindResult (Some m) (Some "small") true.
Proof.
  destruct (loadConfig any_url ex_yaml_groups) as [[cfg ports]|e] eqn:E;
    [|vm_compute in E; discriminate].
  exists cfg, ports. split; [reflexivity|].
  split; [reflexivity|].
  pose proof (findConfig_finds_loaded_models any_url ex_yaml_groups cfg ports "tiny"
                E eq_refl) as H.
  assert (Hr : realModelName cfg "tiny" = Some "small").
  { vm_compute in E. inversion E; subst. vm_compute. reflexivity. }
  rewrite Hr in H. destruct H as (_ & _ & Hm). split; [exact Hr|exact Hm].
Defined.

Lemma realModelNameFound_spec cfg search :
  realModelNameFound (models cfg) (config_aliases cfg) search = true <->
  realModelName cfg search <> None.
Proof.
  unfold realModelNameFound, realModelName.
  destruct (truthyAt (fun _ => true) search (models cfg)) eqn:Et.
  - split; [discriminate|reflexivity].
  - cbn [orb]. unfold truthyAt in *.
    destruct (lookup search (models cfg)); [discriminate|].
    destruct (lookup search (config_aliases cfg)) as [m|].
    + destruct (String.eqb m ""); cbn [negb]; split; congruence.
    + rewrite Et. split; congruence.
Qed.

(** X7. Every entry of the preload list of an accepted configuration is
    an entry of the document's list with its white space trimmed, is not
    empty, and is a name that [realModelName] resolves. *)
Theorem preload_names_resolve validURL y cfg ports name :
  loadConfig validURL y = Ok (cfg, ports) ->
  In name (preload cfg) ->
  name <> "" /\
  realModelName cfg name <> None /\
  exists raw, In raw (orElse (yaml_preload y) []) /\ name = trim raw.
Proof.
  intros H Hin.
  apply loadConfig_inv in H as (als & byId & _ & _ & _ & _ & _ & Hals & _ & _ & _ & Hp).
  rewrite Hp in Hin. clear Hp.
  destruct (yaml_preload y) as [[|x l]|]; try destruct Hin.
  unfold cleanPreload in *.
  apply filter_In in Hin as [Hin Hf]. apply andb_true_iff in Hf as [Hne Hr].
  apply negb_true_iff, String.eqb_neq in Hne.
  apply in_map_iff in Hin as (raw & Hraw & Hin).
  split; [exact Hne|]. split.
  - apply realModelNameFound_spec. now rewrite Hals.
  - exists raw. split; [exact Hin|now symmetry].
Qed.

Lemma preload_names_resolve_witness :
  exists cfg ports,
    loadConfig any_url ex_yaml_groups = Ok (cfg, ports) /\
    In "s" (preload cfg) /\
    "s" <> "" /\ realModelName cfg "s" <> None /\
    exists raw, In raw (orElse (yaml_preload ex_yaml_groups) []) /\ "s" = trim raw.
Proof.
  destruct (loadConfig any_url ex_yaml_groups) as [[cfg ports]|e] eqn:E;
    [|vm_compute in E; discriminate].
  exists cfg, ports. split; [reflexivity|].
  assert (Hin : In "s" (preload cfg)).
  { vm_compute in E. inversion E; subst. left. reflexivity. }
  split; [exact Hin|].
  exact (preload_names_resolve any_url ex_yaml_groups cfg ports "s" E Hin).
Defined.

(** ** Macros *)

Lemma validateMacro_Ok name value :
  validateMacro name value = Ok tt <-> valid_macro name value.
Proof.
  unfold validateMacro, valid_macro, macroNameRegex_test. split.
  - intros H.
    apply andThen_Ok in H as ([] & Hlen & H). apply check_Ok in Hlen.
    apply andThen_Ok in H as ([] & Hre & H). apply check_Ok in Hre.
    apply andThen_Ok in H as ([] & Hval & H). apply check_Ok in H.
    apply negb_true_iff, Nat.leb_gt in Hlen.
    apply andb_true_iff in Hre as [Hne Hch].
    apply negb_true_iff, String.eqb_neq in Hne.
    apply negb_true_iff in H. cbn in H.
    apply orb_false_iff in H as [Hp H]. apply orb_false_iff in H as [Hm _].
    apply String.eqb_neq in Hp, Hm.
    split; [|split; [exact Hch|split; [exact Hp|split; [exact Hm|]]]].
    + split; [|exact Hlen]. destruct name; [congruence|simpl; lia].
    + destruct value as [s| | | |]; try exact I; try discriminate.
      apply andThen_Ok in Hval as ([] & H1 & H2).
      apply check_Ok in H1, H2.
      apply negb_true_iff in H1, H2. apply Nat.leb_gt in H1. now split.
  - intros ([Hpos Hlen] & Hch & Hp & Hm & Hval).
    apply Nat.leb_gt in Hlen. rewrite Hlen. cbn [negb check andThen].
    assert (Hne : String.eqb name "" = false).
    { apply String.eqb_neq. intros ->. simpl in Hpos. lia. }
    rewrite Hne, Hch. cbn [negb andb check andThen].
    apply String.eqb_neq in Hp, Hm.
    assert (Hres : includes name ["PORT"; "MODEL_ID"] = false).
    { cbn. now rewrite Hp, Hm. }
    rewrite Hres.
    destruct value as [s| | | |]; try reflexivity; try contradiction.
    destruct Hval as [H1 H2]. apply Nat.leb_gt in H1. rewrite H1, H2. reflexivity.
Qed.

Lemma processModel_macros validURL gm np id y m port np' :
  processModel validURL gm np id y = Ok (m, port, np') ->
  macros m = orElse (y_macros y) [] /\
  forEach (enumerate (orElse (y_macros y) []))
          (fun nv => validateMacro (fst nv) (snd nv)) = Ok tt.
Proof.
  unfold processModel. intros H.
  apply andThen_Ok in H as ([] & Hmac & H).
  apply andThen_Ok in H as ([[mm p] n] & _ & H).
  repeat (apply andThen_Ok in H as (_ & _ & H)).
  inversion H; subst. clear H. cbn [macros]. now split.
Qed.

Lemma processModels_macros validURL gm ym ids : forall np ms ports id m name value,
  processModels validURL gm ym np ids = Ok (ms, ports) ->
  In (id, m) ms -> In (name, value) (macros m) -> valid_macro name value.
Proof.
  induction ids as [|id0 ids IH]; intros np ms ports id m name value H Hin Hmac;
    simpl in H.
  - inversion H; subst. destruct Hin.
  - destruct (lookup id0 ym) as [y|]; [|discriminate].
    apply andThen_Ok in H as ([[m0 port] np'] & Hm & H).
    apply andThen_Ok in H as ([ms' ports'] & Hrest & H).
    inversion H; subst. clear H.
    destruct Hin as [Heq|Hin]; [|eapply IH; eauto].
    inversion Heq; subst.
    apply processModel_macros in Hm as [Heqm Hall]. rewrite Heqm in Hmac.
    apply validateMacro_Ok.
    apply (forEach_Ok _ _ Hall (name, value)). now apply In_enumerate.
Qed.

(** X8. Every macro of an accepted configuration, of the document or of
    a model, has a name of 1 to 63 characters among [a-zA-Z0-9_-] that is
    not [PORT] or [MODEL_ID], and a value that is a number, a boolean or a
    string of fewer than 1024 characters that does not mention the macro
    itself. *)
Theorem accepted_macros_are_valid validURL y cfg ports :
  loadConfig validURL y = Ok (cfg, ports) ->
  (forall name value, In (name, value) (config_macros cfg) -> valid_macro name value) /\
  (forall id m name value,
     In (id, m) (models cfg) -> In (name, value) (macros m) -> valid_macro name value).
Proof.
  intros H.
  apply loadConfig_inv in H as (als & byId & _ & Hm & Hmac & _ & Hmod & _ & Hcm & _).
  split.
  - intros name value Hin. rewrite Hcm in Hin. apply validateMacro_Ok.
    apply (forEach_Ok _ _ Hmac (name, value)). now apply In_enumerate.
  - intros id m name value Hin Hv. rewrite Hmod in Hin.
    apply loadedModels_In in Hin. eapply processModels_macros; eauto.
Qed.

Lemma accepted_macros_are_valid_witness :
  exists cfg ports,
    loadConfig any_url ex_yaml_groups = Ok (cfg, ports) /\
    (forall name value, In (name, value) (config_macros cfg) -> valid_macro name value) /\
    (forall id m name value,
       In (id, m) (models cfg) -> In (name, value) (macros m) -> valid_macro name value).
Proof.
  destruct (loadConfig any_url ex_yaml_groups) as [[cfg ports]|e] eqn:E;
    [|vm_compute in E; discriminate].
  exists cfg, ports. split; [reflexivity|].
  exact (accepted_macros_are_valid any_url ex_yaml_groups cfg ports E).
Defined.

End ConfigLoaderProofs.

(** * Properties of the request handlers *)

Module ServerProofs.
Import ProcessManager ProcessManagerProofs Server.
Local Open Scope list_scope.

(** ** [/upstream/:model/] *)

Lemma hoare_swap_resolved name w0 :
  hoare own_tick (fun w => w = w0) (swapProcessGroup name)
        (fun found w =>
           (resolveModelName name w0 = Some (snd found) /\
            exists grp, findGroupByModelName (snd found) w0 = Some (fst found, grp)) /\
           True)
        (fun _ => True) (fun _ => True).
Proof.
  intros w s Hs ->.
  assert (SP : stop_prims (fun _ : World => True)) by (constructor; auto).
  destruct (preserves_swapProcessGroup _ SP name w0 s Hs I) as [_ H].
  unfold schedule_after in H.
  destruct (swapProcessGroup name w0 s) as [[[[g real]|msg|] w1] s1] eqn:E;
    cbn [fst snd] in *; auto.
  apply swap_returned in E. auto.
Qed.

Section Upstream.
Variable validURL : string -> string -> bool.
Variable models : list (string * ModelConfig).
Variables (name : string) (w0 : World).

Lemma hoare_upstream_ready :
  hoare own_tick (fun w => w = w0) (upstream_model validURL models name)
        (fun r w =>
           forall target, r = Proxied target ->
             exists real g grp modelConfig,
               resolveModelName name w0 = Some real /\
               findGroupByModelName real w0 = Some (g, grp) /\
               stateOf g real w = Some READY /\
               lookup real models = Some modelConfig /\
               proxy modelConfig = target /\ target <> "")
        (fun _ => False) (fun _ => True).
Proof.
  unfold upstream_model.
  apply hoare_try_catch with (E' := fun _ => True);
    [|intros msg; apply hoare_ret; intros w _ target H; discriminate].
  eapply hoare_bind; [apply hoare_swap_resolved|].
  intros [g real]. cbn [fst snd]. apply hoare_pure. intros (Hres & grp & Hfind).
  eapply hoare_bind with (Mid := fun p w => getProcess g real w = Some p).
  { apply hoare_orThrow; auto. }
  intros p.
  eapply hoare_bind with (Mid := fun _ w => stateOf g real w = Some READY).
  { destruct (state_eqb_spec (p_state p) READY) as [Hr|Hr]; cbn [negb].
    - apply hoare_ret. intros w Hp. unfold stateOf. rewrite Hp. cbn. now f_equal.
    - eapply hoare_bind with
        (Mid := fun b w => b = true <-> stateOf g real w = Some READY).
      + eapply hoare_weaken; [| | | |apply (hoare_start_reports validURL g real)];
          cbv beta.
        * intros w Hp. now exists p.
        * now intros b w [H _].
        * intros w [].
        * auto.
      + intros [|]; cbn [negb].
        * apply hoare_ret. intros w H. now apply H.
        * apply hoare_throw. auto. }
  intros _.
  destruct (lookup real models) as [modelConfig|] eqn:El; [|apply hoare_throw; auto].
  destruct (String.eqb_spec (proxy modelConfig) "") as [Hp|Hp]; [apply hoare_throw; auto|].
  apply hoare_ret. intros w Hst target E. inversion E; subst target.
  exists real, g, grp, modelConfig. now repeat split.
Qed.

Lemma hoare_upstream_serving :
  serving w0 ->
  hoare own_tick (fun w => w = w0) (upstream_model validURL models name)
        (fun _ => serving) (fun _ => False) (fun _ => True).
Proof.
  intros Hserv. unfold upstream_model.
  apply hoare_try_catch with (E' := serving); [|intros msg; apply hoare_ret; auto].
  eapply hoare_bind; [apply (hoare_swap_serving name w0 Hserv)|].
  intros [g real]. cbn [fst snd].
  eapply hoare_bind with
    (Mid := fun p w => getProcess g real w = Some p /\
                       serving w /\ lastUsedOf g w = Some real /\ real <> "").
  { apply hoare_orThrow; [auto|]. now intros w [H _] _. }
  intros p.
  eapply hoare_bind with (Mid := fun _ => serving).
  { destruct (negb (state_eqb (p_state p) READY));
      [|apply hoare_ret; now intros w (_ & H & _)].
    eapply hoare_bind with (Mid := fun _ => serving).
    - apply hoare_at. intros w1 (Hp & Hs & Hl & Hne).
      eapply hoare_weaken;
        [| | | |apply (hoare_start_serving validURL g real w1 Hs Hl Hne)];
        cbv beta.
      + intros w H; exact H.
      + now intros b w [H _].
      + intros w [].
      + auto.
      + now exists p.
    - intros [|]; cbn [negb]; [apply hoare_ret|apply hoare_throw]; auto. }
  intros _.
  destruct (lookup real models) as [modelConfig|]; [|apply hoare_throw; auto].
  destruct (String.eqb (proxy modelConfig) ""); [apply hoare_throw|apply hoare_ret]; auto.
Qed.

End Upstream.

(** X17. The handler of [/upstream/:model/] never throws and answers an
    error with the status 500.  When it hands the request to the proxy,
    the name has been resolved to a model of a group, the process of that
    model is READY at that moment, and the target is the proxy of the
    model in [config.models], which is not empty.  A name that resolves
    to no model is answered 500 at once and nothing is changed. *)
Theorem upstream_proxies_to_ready_model validURL models name w s :
  Forall own_tick s ->
  let r := upstream_model validURL models name w s in
  (forall message, outcome_of r <> Threw message) /\
  (forall code, outcome_of r = Returned (Status code) -> code = 500) /\
  (forall target, outcome_of r = Returned (Proxied target) ->
     exists real g grp modelConfig,
       resolveModelName name w = Some real /\
       findGroupByModelName real w = Some (g, grp) /\
       stateOf g real (world_after r) = Some READY /\
       lookup real models = Some modelConfig /\
       proxy modelConfig = target /\ target <> "") /\
  (resolveModelName name w = None -> r = (Returned (Status 500), w, s)).
Proof.
  intros Hs r.
  pose proof (hoare_upstream_ready validURL models name w w s Hs eq_refl) as H.
  fold r in H. split; [|split; [|split]].
  - intros message E. unfold outcome_of in E.
    destruct r as [[[a|msg|] w1] s1]; cbn in E; try discriminate. now destruct H.
  - intros code. subst r. unfold upstream_model, try_catch, outcome_of.
    match goal with |- context [match ?c w s with _ => _ end] =>
      destruct (c w s) as [[[a|msg|] w1] s1] eqn:E end; cbn [fst].
    + intros Ha. clear H. revert E. unfold bind.
      destruct (swapProcessGroup name w s) as [[[[g real]|?|] w2] s2]; try discriminate.
      destruct (orThrow _ (getProcess g real) w2 s2) as [[[p|?|] w3] s3]; try discriminate.
      match goal with |- context [match ?c w3 s3 with _ => _ end] =>
        destruct (c w3 s3) as [[[?|?|] w4] s4] end; try discriminate.
      destruct (lookup real models) as [mc|]; [|discriminate].
      destruct (String.eqb (proxy mc) ""); [discriminate|].
      intros E'. inversion E'; subst. discriminate.
    + intros E'. now inversion E'.
    + discriminate.
  - intros target E. unfold outcome_of, world_after in *.
    destruct r as [[[a|msg|] w1] s1]; cbn [fst snd] in *; try discriminate.
    inversion E; subst a. now apply (proj1 H).
  - intros Hn. subst r.
    assert (E : swapProcessGroup name w s = (Threw "Could not find real modelID", w, s)).
    { unfold swapProcessGroup. unfold bind at 1. unfold orThrow at 1. now rewrite Hn. }
    unfold upstream_model, try_catch. unfold bind at 1. now rewrite E.
Qed.

Lemma upstream_proxies_to_ready_model_witness :
  let s := [mkTick 250 [] None; mkTick 20 [] (Some 200)] in
  let r := upstream_model any_url [("A", ex_config "llama-server --port 5800")] "a"
                          ex_cold s in
  Forall own_tick s /\
  outcome_of r = Returned (Proxied "http://localhost:5800") /\
  stateOf "G1" "A" (world_after r) = Some READY.
Proof.
  intros s r.
  assert (Hs : Forall own_tick s) by (repeat constructor).
  assert (Ho : outcome_of r = Returned (Proxied "http://localhost:5800"))
    by (vm_compute; reflexivity).
  split; [exact Hs|]. split; [exact Ho|].
  destruct (upstream_proxies_to_ready_model any_url
              [("A", ex_config "llama-server --port 5800")] "a" ex_cold s Hs)
    as (_ & _ & H & _).
  destruct (H _ Ho) as (real & g & grp & mc & Hres & Hfind & Hst & _).
  vm_compute in Hres. inversion Hres; subst real.
  vm_compute in Hfind. inversion Hfind; subst g grp. exact Hst.
Defined.

(** ** [/api/models/unload/:model] *)

Lemma unload_model_run modelName w s :
  api_models_unload_model modelName w s =
  match findGroupByModelName modelName w with
  | None => (Returned (Status 404), w, s)
  | Some (g, _) =>
      match stopProcess g modelName IMMEDIATELY w s with
      | (Returned _, w', s') => (Returned (Status 200), w', s')
      | (Threw _, w', s') => (Returned (Status 500), w', s')
      | (OutOfFuel, w', s') => (OutOfFuel, w', s')
      end
  end.
Proof.
  unfold api_models_unload_model, try_catch, bind, read.
  destruct (findGroupByModelName modelName w) as [[g grp]|]; [|reflexivity].
  now destruct (stopProcess g modelName IMMEDIATELY w s) as [[[[]|?|] ?] ?].
Qed.

Lemma stopProcess_run g m w s grp :
  lookup g (processGroups w) = Some grp ->
  stopProcess g m IMMEDIATELY w s =
  match getProcess g m w with
  | None => (Threw "process not found", w, s)
  | Some _ =>
      (Returned tt,
       stopNow g m (if String.eqb (g_lastUsedProcess grp) m
                    then updGroup g (set_lastUsedProcess "") w else w), s)
  end.
Proof.
  intros Hg. unfold stopProcess. unfold bind at 1. unfold thisGroup, orThrow at 1.
  rewrite Hg.
  assert (Hkey : has_key m (g_processes grp)
                 = match getProcess g m w with Some _ => true | None => false end).
  { unfold has_key, getProcess. now rewrite Hg. }
  rewrite Hkey. destruct (getProcess g m w) as [p|] eqn:Ep; cbn [negb]; [|reflexivity].
  unfold bind.
  destruct (String.eqb (g_lastUsedProcess grp) m); cbn [exec ret].
  - apply (stop_immediately g m _ s p). now rewrite getProcess_updGroup_lastUsed.
  - now apply (stop_immediately g m w s p).
Qed.

(** X18. The handler of [/api/models/unload/:model] answers at once,
    without waiting for requests in flight.  It answers 404 when no group
    lists the name as a member; aliases are not resolved.  When a group
    lists it and has a process for it, the answer is 200, the process is
    neither READY nor STARTING afterwards, its stop command has been run
    if it was running, it is no longer the last used process of its
    group, and no other process is touched; when the group has no process
    for it, the answer is 500 and nothing is changed. *)
Theorem unload_model_stops_the_model modelName w s :
  let r := api_models_unload_model modelName w s in
  schedule_after r = s /\
  (findGroupByModelName modelName w = None -> r = (Returned (Status 404), w, s)) /\
  (forall g grp,
     findGroupByModelName modelName w = Some (g, grp) ->
     match getProcess g modelName w with
     | None => r = (Returned (Status 500), w, s)
     | Some p =>
         outcome_of r = Returned (Status 200) /\
         not_running g modelName (world_after r) /\
         (p_state p = READY \/ p_state p = STARTING ->
          stop_issued (trace w) p (world_after r)) /\
         (lastUsedOf g w = Some modelName ->
          lastUsedOf g (world_after r) = Some "") /\
         (forall g' m', (g', m') <> (g, modelName) ->
            getProcess g' m' (world_after r) = getProcess g' m' w)
     end).
Proof.
  intros r. subst r. rewrite unload_model_run.
  destruct (findGroupByModelName modelName w) as [[g grp]|] eqn:Ef.
  2:{ split; [reflexivity|]. split; [reflexivity|]. intros g grp E. discriminate. }
  assert (Hin : In g (map fst (processGroups w)))
    by (unfold findGroupByModelName in Ef; now apply findGroup_In in Ef).
  apply In_keys_lookup in Hin as [grp' Hg].
  rewrite (stopProcess_run g modelName w s grp' Hg).
  destruct (getProcess g modelName w) as [p|] eqn:Ep.
  2:{ split; [reflexivity|]. split; [discriminate|].
      intros g0 grp0 E. inversion E; subst g0 grp0. now rewrite Ep. }
  set (w1 := if String.eqb (g_lastUsedProcess grp') modelName
             then updGroup g (set_lastUsedProcess "") w else w).
  assert (Hp1 : forall g' m', getProcess g' m' w1 = getProcess g' m' w).
  { intros g' m'. unfold w1. destruct (String.eqb _ _); [|reflexivity].
    apply getProcess_updGroup_lastUsed. }
  assert (Ht1 : trace w1 = trace w)
    by (unfold w1; now destruct (String.eqb _ _)).
  unfold schedule_after, outcome_of, world_after. cbn [fst snd].
  split; [reflexivity|]. split; [discriminate|].
  intros g0 grp0 E. inversion E; subst g0 grp0. rewrite Ep.
  assert (Hp1' : getProcess g modelName w1 = Some p) by now rewrite Hp1.
  destruct (stopNow_spec g modelName w1 p Hp1') as (Hn & Hi & _ & Ho).
  split; [reflexivity|]. split; [exact Hn|]. split; [|split].
  - intros Hr. rewrite <- Ht1. now apply Hi.
  - intros Hl. rewrite stopNow_lastUsed. unfold w1.
    unfold lastUsedOf in Hl. rewrite Hg in Hl. cbn in Hl. inversion Hl as [Hl'].
    rewrite Hl', String.eqb_refl, lastUsedOf_updGroup, String.eqb_refl.
    unfold lastUsedOf. now rewrite Hg.
  - intros g' m' Hne. now rewrite (Ho g' m' Hne).
Qed.

Lemma unload_model_stops_the_model_witness :
  let r := api_models_unload_model "A" ex_warm [] in
  findGroupByModelName "A" ex_warm
    = Some ("G1", ex_G1 (ex_process "A" READY (Some 7%nat))
                        (ex_process "B" STOPPED None) "A") /\
  outcome_of r = Returned (Status 200) /\
  not_running "G1" "A" (world_after r) /\
  lastUsedOf "G1" (world_after r) = Some "".
Proof.
  intros r. split; [reflexivity|].
  destruct (unload_model_stops_the_model "A" ex_warm []) as (_ & _ & H).
  specialize (H "G1" _ eq_refl). cbn in H. destruct H as (H1 & H2 & _ & H4 & _).
  split; [exact H1|]. split; [exact H2|]. now apply H4.
Defined.

(** ** Requests served one after the other *)

Lemma serving_own_ticks s : forall w,
  Forall own_tick s -> serving w -> serving (apply_ticks s w).
Proof.
  induction s as [|t s IH]; intros w Hs Hw; [exact Hw|].
  inversion Hs; subst. unfold apply_ticks in *. cbn [fold_left].
  apply IH; [assumption|now apply serving_own_tick].
Qed.

Lemma hoare_handle_serving validURL models request w0 :
  serving w0 ->
  hoare own_tick (fun w => w = w0) (handle validURL models request)
        (fun _ => serving) (fun _ => False) (fun _ => True).
Proof.
  intros Hserv. destruct request as [modelName|modelName|]; cbn [handle].
  - now apply hoare_upstream_serving.
  - unfold api_models_unload_model.
    apply hoare_try_catch with (E' := serving); [|intros msg; apply hoare_ret; auto].
    eapply hoare_bind with (Mid := fun _ w => w = w0).
    { apply hoare_read. auto. }
    intros [[g grp]|]; [|apply hoare_ret; now intros w ->].
    eapply hoare_bind with (Mid := fun _ => serving).
    + eapply hoare_weaken;
        [| | | |apply (hoare_stopProcess_serving g modelName IMMEDIATELY w0 Hserv)];
        cbv beta.
      * intros w H; exact H.
      * now intros _ w [H _].
      * auto.
      * auto.
    + intros _. apply hoare_ret. auto.
  - intros w s Hs ->. unfold unload, try_catch, bind.
    pose proof (shutdownAll_serving w0 s (proj1 Hserv)) as H.
    destruct (shutdownAll_sets_flag w0 s) as [Ho _].
    destruct (shutdownAll_states w0 s) as [Hsch _].
    unfold world_after, outcome_of, schedule_after in *.
    destruct (shutdownAll w0 s) as [[[[]|msg|] w1] s1]; cbn [fst snd] in *;
      try discriminate.
    subst s1. cbn. now split.
Qed.

Lemma serve_serving validURL models l : forall w0 responses w,
  serving w0 ->
  Forall (fun c => Forall own_tick (snd c)) l ->
  serve validURL models l w0 = Some (responses, w) ->
  serving w.
Proof.
  induction l as [|[request s] l IH]; intros w0 responses w Hserv Hl H.
  - cbn in H. inversion H; now subst.
  - inversion Hl as [|? ? Hs Hl']; subst. cbn [snd] in Hs. cbn [serve] in H.
    pose proof (hoare_handle_serving validURL models request w0 Hserv w0 s Hs eq_refl)
      as Hh.
    destruct (handle validURL models request w0 s) as [[[response|msg|] w1] s1];
      try discriminate.
    destruct Hh as [Hw1 Hs1].
    destruct (serve validURL models l (apply_ticks s1 w1)) as [[rs w2]|] eqn:E;
      [|discriminate].
    inversion H; subst.
    apply (IH (apply_ticks s1 w1) rs w); [|assumption|exact E].
    now apply serving_own_ticks.
Qed.

(** X19. In a group that swaps at most one model is READY, and no
    process is left STARTING, after any sequence of requests to load a
    model through [/upstream/:model/], to unload one or to unload all,
    that are served one after the other, whatever children exit, requests
    begin and end and TTL intervals fire meanwhile.  It holds from any
    state in which the groups are held under their ids, no process is
    STARTING and, in the groups that swap, a READY process is the last
    used one and is not named by the empty string; the state after
    construction is one. *)
Theorem one_ready_model_per_swapping_group validURL models l w0 responses w :
  serving w0 ->
  Forall (fun c => Forall own_tick (snd c)) l ->
  serve validURL models l w0 = Some (responses, w) ->
  serving w /\
  (forall g m, stateOf g m w <> Some STARTING) /\
  (forall g grp m1 m2,
     lookup g (processGroups w) = Some grp -> g_swap grp = true ->
     stateOf g m1 w = Some READY -> stateOf g m2 w = Some READY -> m1 = m2).
Proof.
  intros Hserv Hl H.
  pose proof (serve_serving validURL models l w0 responses w Hserv Hl H) as Hw.
  split; [exact Hw|]. destruct Hw as (_ & Hn & Hr). split; [exact Hn|].
  intros g grp m1 m2 Hg Hsw H1 H2.
  destruct (Hr g grp m1 Hg Hsw H1) as [E1 _].
  destruct (Hr g grp m2 Hg Hsw H2) as [E2 _]. congruence.
Qed.

Lemma one_ready_model_per_swapping_group_witness :
  let models := [("A", ex_config "llama-server --port 5800");
                 ("B", ex_config "llama-server --port 5800")] in
  let l := [(GetUpstream "a", [mkTick 250 [] None; mkTick 20 [] (Some 200)]);
            (GetUpstream "B", [tick_exit 100; mkTick 250 [] None;
                               mkTick 20 [] (Some 200)])] in
  let w := match serve any_url models l ex_cold with
           | Some (_, w) => w
           | None => ex_cold
           end in
  serving ex_cold /\
  option_map fst (serve any_url models l ex_cold)
    = Some [Proxied "http://localhost:5800"; Proxied "http://localhost:5800"] /\
  stateOf "G1" "A" w = Some STOPPED /\
  stateOf "G1" "B" w = Some READY /\
  serving w.
Proof.
  intros models l w.
  assert (H0 : serving ex_cold) by (apply serving_check_sound; reflexivity).
  assert (Hl : Forall (fun c => Forall own_tick (snd c)) l).
  { repeat constructor. }
  split; [exact H0|]. split; [vm_compute; reflexivity|].
  split; [vm_compute; reflexivity|]. split; [vm_compute; reflexivity|].
  subst w.
  destruct (serve any_url models l ex_cold) as [[rs w']|] eqn:E;
    [|vm_compute in E; discriminate].
  exact (proj1 (one_ready_model_per_swapping_group any_url models l ex_cold rs w'
                  H0 Hl E)).
Defined.

(** ** The startup hook *)

Lemma hoare_preload (Inv : World -> Prop) names :
  stop_prims Inv ->
  hoare own_tick Inv (preload names) (fun _ => Inv) (fun _ => False) Inv.
Proof.
  intros SP. induction names as [|modelName rest IH]; cbn [preload].
  - apply hoare_ret. auto.
  - eapply hoare_bind with (Mid := fun _ => Inv); [|intros _; exact IH].
    apply hoare_try_catch with (E' := Inv); [|intros msg; apply hoare_ret; auto].
    eapply hoare_bind with (Mid := fun _ => Inv); [|intros _; apply hoare_ret; auto].
    apply hoare_preserves. now apply preserves_swapProcessGroup.
Qed.

(** X20. The startup hook never throws and starts nothing: for every
    list of names, no child is spawned and no process becomes STARTING or
    READY while it runs; it only swaps the groups. *)
Theorem preload_starts_nothing names w s :
  Forall own_tick s ->
  let r := preload names w s in
  (forall message, outcome_of r <> Threw message) /\
  no_start_since (trace w) (world_after r) /\
  (forall g m, stateOf g m (world_after r) = Some READY -> stateOf g m w = Some READY).
Proof.
  intros Hs r.
  set (Inv := fun w' => no_start_since (trace w) w' /\
                        state_inv (fun g m st => st = Some READY ->
                                                 stateOf g m w = Some READY) w').
  assert (SP : stop_prims Inv).
  { apply stop_prims_and; [apply no_start_since_stop_prims|].
    apply state_inv_stop_prims. intros g m st st' Hst' _ E.
    destruct Hst' as [->|[->| ->]]; discriminate. }
  assert (H0 : Inv w).
  { split; [apply no_start_since_refl|]. intros g m. auto. }
  pose proof (hoare_preload Inv names SP w s Hs H0) as H. fold r in H.
  unfold outcome_of, world_after.
  destruct r as [[[a|msg|] w1] s1]; cbn [fst snd].
  - destruct H as [[H1 H2] _]. split; [discriminate|]. split; [exact H1|exact H2].
  - destruct H as [[] _].
  - destruct H as [H1 H2]. split; [discriminate|]. split; [exact H1|exact H2].
Qed.

Lemma preload_starts_nothing_witness :
  let r := preload ["a"; "ghost"; "D"] ex_cold [] in
  outcome_of r = Returned tt /\
  lastActiveGroup (world_after r) = Some "GP" /\
  stateOf "G1" "A" (world_after r) = Some STOPPED /\
  no_start_since (trace ex_cold) (world_after r).
Proof.
  intros r. split; [reflexivity|]. split; [reflexivity|]. split; [reflexivity|].
  exact (proj1 (proj2 (preload_starts_nothing ["a"; "ghost"; "D"] ex_cold []
                         (Forall_nil _)))).
Defined.

(** ** The manager after construction *)

Section Constructed.
Variable parsesAsURL : string -> bool.
Variable config : ManagerConfig.

Lemma newProcess_inv id c p :
  newProcess parsesAsURL id (cfg_healthCheckTimeout config) c = Some p ->
  exists modelConfig,
    c = Some modelConfig /\ parsesAsURL (proxy modelConfig) = true /\
    p = mkProcess id modelConfig None (cfg_healthCheckTimeout config) STOPPED 0 0 0.
Proof.
  unfold newProcess. destruct c as [modelConfig|]; [|discriminate].
  destruct (parsesAsURL (proxy modelConfig)) eqn:E; [|discriminate].
  intros H; inversion H. now exists modelConfig.
Qed.

Lemma lookup_map_set {A} k k' (v : A) l :
  lookup k (map_set k' v l) = if String.eqb k k' then Some v else lookup k l.
Proof.
  destruct (String.eqb_spec k k') as [->|Hne].
  - apply lookup_map_set_eq.
  - now apply lookup_map_set_neq.
Qed.

Lemma newProcesses_inv members : forall processes result,
  newProcesses parsesAsURL config members processes = Some result ->
  (forall m, In m members ->
     exists c, lookup m (cfg_models config) = Some c /\
               parsesAsURL (proxy c) = true /\
               lookup m result
               = Some (mkProcess m c None (cfg_healthCheckTimeout config) STOPPED 0 0 0)) /\
  (forall m, ~ In m members -> lookup m result = lookup m processes).
Proof.
  induction members as [|m0 rest IH]; intros processes result H; cbn [newProcesses] in H.
  - inversion H; subst. split; [intros m []|reflexivity].
  - destruct (newProcess parsesAsURL m0 _ _) as [p0|] eqn:E0; [|discriminate].
    apply newProcess_inv in E0 as (c0 & Hc0 & Hu0 & ->).
    destruct (IH _ _ H) as [Hin Hout]. split.
    + intros m [<-|Hm]; [|now apply Hin].
      destruct (in_dec string_dec m0 rest) as [Hr|Hr]; [now apply Hin|].
      exists c0. split; [exact Hc0|]. split; [exact Hu0|].
      rewrite (Hout m0 Hr). apply lookup_map_set_eq.
    + intros m Hm. rewrite Hout by (intros Hr; apply Hm; now right).
      apply lookup_map_set_neq. intros ->. apply Hm. now left.
Qed.

Lemma newProcesses_complete members : forall processes,
  (forall m, In m members ->
     exists c, lookup m (cfg_models config) = Some c /\ parsesAsURL (proxy c) = true) ->
  exists result, newProcesses parsesAsURL config members processes = Some result.
Proof.
  induction members as [|m0 rest IH]; intros processes H; cbn [newProcesses].
  - now exists processes.
  - destruct (H m0 (or_introl eq_refl)) as (c & Hc & Hu).
    unfold newProcess. rewrite Hc, Hu. apply IH. intros m Hm. apply H. now right.
Qed.

(** A group as its constructor leaves it. *)
Lemma newProcessGroup_inv id grp :
  newProcessGroup parsesAsURL config id = Some grp ->
  exists groupConfig,
    lookup id (cfg_groups config) = Some groupConfig /\
    g_id grp = id /\ g_lastUsedProcess grp = "" /\
    g_swap grp = ConfigLoader.swap groupConfig /\
    g_exclusive grp = ConfigLoader.exclusive groupConfig /\
    g_persistent grp = ConfigLoader.persistent groupConfig /\
    g_members grp = ConfigLoader.members groupConfig /\
    (forall m, In m (ConfigLoader.members groupConfig) ->
       exists c, lookup m (cfg_models config) = Some c /\
                 parsesAsURL (proxy c) = true /\
                 lookup m (g_processes grp)
                 = Some (mkProcess m c None (cfg_healthCheckTimeout config)
                                   STOPPED 0 0 0)) /\
    (forall m, ~ In m (ConfigLoader.members groupConfig) ->
       lookup m (g_processes grp) = None).
Proof.
  unfold newProcessGroup.
  destruct (lookup id (cfg_groups config)) as [groupConfig|]; [|discriminate].
  destruct (newProcesses parsesAsURL config _ []) as [processes|] eqn:E; [|discriminate].
  intros H; inversion H; subst grp. cbn.
  apply newProcesses_inv in E as [Hin Hout].
  exists groupConfig. repeat split; auto.
Qed.

Lemma newProcessGroups_inv ids : forall acc result,
  newProcessGroups parsesAsURL config ids acc = Some result ->
  (forall g, In g ids ->
     exists grp, newProcessGroup parsesAsURL config g = Some grp /\
                 lookup g result = Some grp) /\
  (forall g, ~ In g ids -> lookup g result = lookup g acc) /\
  (forall g grp, In (g, grp) result ->
     In (g, grp) acc \/ newProcessGroup parsesAsURL config g = Some grp).
Proof.
  induction ids as [|g0 rest IH]; intros acc result H; cbn [newProcessGroups] in H.
  - inversion H; subst. split; [intros g []|]. split; [reflexivity|auto].
  - destruct (newProcessGroup parsesAsURL config g0) as [grp0|] eqn:E0; [|discriminate].
    destruct (IH _ _ H) as (Hin & Hout & Hall). split; [|split].
    + intros g [<-|Hg]; [|now apply Hin].
      destruct (in_dec string_dec g0 rest) as [Hr|Hr]; [now apply Hin|].
      exists grp0. split; [exact E0|]. rewrite (Hout g0 Hr). apply lookup_map_set_eq.
    + intros g Hg. rewrite Hout by (intros Hr; apply Hg; now right).
      apply lookup_map_set_neq. intros ->. apply Hg. now left.
    + intros g grp Hg. destruct (Hall g grp Hg) as [Ha|Hn]; [|now right].
      clear -Ha E0. induction acc as [|[k v] acc IHa]; cbn [map_set] in Ha.
      * destruct Ha as [Ha|[]]. inversion Ha; subst. now right.
      * destruct (String.eqb_spec g0 k) as [->|Hne].
        -- destruct Ha as [Ha|Ha]; [|left; now right].
           inversion Ha; subst. now right.
        -- destruct Ha as [Ha|Ha]; [left; now left|].
           destruct (IHa Ha) as [H|H]; [left; now right|now right].
Qed.

Lemma newProcessGroups_complete ids : forall acc,
  (forall g, In g ids -> exists grp, newProcessGroup parsesAsURL config g = Some grp) ->
  exists result, newProcessGroups parsesAsURL config ids acc = Some result.
Proof.
  induction ids as [|g0 rest IH]; intros acc H; cbn [newProcessGroups].
  - now exists acc.
  - destruct (H g0 (or_introl eq_refl)) as (grp & E). rewrite E.
    apply IH. intros g Hg. apply H. now right.
Qed.

Lemma In_keys_enumerate {A} g (l : list (string * A)) :
  In g (map fst (ConfigLoader.enumerate l)) <-> In g (map fst l).
Proof.
  rewrite !in_map_iff. split; intros [e [E H]]; exists e; (split; [exact E|]).
  - now apply (proj1 (ConfigLoaderProofs.In_enumerate l e)).
  - now apply (proj2 (ConfigLoaderProofs.In_enumerate l e)).
Qed.

(** X22. [new ProcessManager(config)] succeeds exactly when every member
    of every group is a model of the configuration whose proxy parses as
    a URL; otherwise a constructor throws.  The manager it makes has a
    group for every group of the configuration, with its flags and
    members and no last used process, and in it a process for each
    member, STOPPED, without a child and with no request in flight; it
    has no other process, no active group, and it is in the state between
    two requests. *)
Theorem new_manager_is_serving date pid :
  ((exists w, newProcessManager parsesAsURL config date pid = Some w) <->
   members_are_models parsesAsURL config) /\
  forall w, newProcessManager parsesAsURL config date pid = Some w ->
    serving w /\ lastActiveGroup w = None /\ shutdown w = false /\
    (forall g groupConfig,
       lookup g (cfg_groups config) = Some groupConfig ->
       exists grp,
         lookup g (processGroups w) = Some grp /\
         g_lastUsedProcess grp = "" /\
         g_swap grp = ConfigLoader.swap groupConfig /\
         g_exclusive grp = ConfigLoader.exclusive groupConfig /\
         g_persistent grp = ConfigLoader.persistent groupConfig /\
         g_members grp = ConfigLoader.members groupConfig /\
         forall m, In m (ConfigLoader.members groupConfig) <->
                   getProcess g m w <> None) /\
    (forall g m p,
       getProcess g m w = Some p ->
       p_id p = m /\ p_state p = STOPPED /\ p_process p = None /\
       p_inFlightRequests p = 0 /\
       lookup m (cfg_models config) = Some (p_config p)).
Proof.
  assert (Hgroup : forall g grp,
            newProcessGroup parsesAsURL config g = Some grp ->
            forall m p, lookup m (g_processes grp) = Some p ->
              p_id p = m /\ p_state p = STOPPED /\ p_process p = None /\
              p_inFlightRequests p = 0 /\
              lookup m (cfg_models config) = Some (p_config p)).
  { intros g grp Hn m p Hp.
    apply newProcessGroup_inv in Hn
      as (gc & _ & _ & _ & _ & _ & _ & _ & Hin & Hout).
    destruct (in_dec string_dec m (ConfigLoader.members gc)) as [Hm|Hm].
    - destruct (Hin m Hm) as (c & Hc & _ & E). rewrite E in Hp.
      inversion Hp; subst p. cbn. now repeat split.
    - rewrite (Hout m Hm) in Hp. discriminate. }
  split.
  - unfold newProcessManager. split.
    + intros [w Hw] g gc m Hg Hm.
      destruct (newProcessGroups parsesAsURL config _ []) as [gs|] eqn:E; [|discriminate].
      apply newProcessGroups_inv in E as (Hin & _ & _).
      destruct (Hin g) as (grp & Hn & _).
      { apply In_keys_enumerate. now apply lookup_In_keys in Hg. }
      apply newProcessGroup_inv in Hn as (gc' & Hg' & _ & _ & _ & _ & _ & _ & Hp & _).
      rewrite Hg in Hg'. inversion Hg'; subst gc'.
      destruct (Hp m Hm) as (c & Hc & Hu & _). now exists c.
    + intros Hgood.
      destruct (newProcessGroups_complete
                  (map fst (ConfigLoader.enumerate (cfg_groups config))) []) as [gs E].
      { intros g Hg. apply (proj1 (In_keys_enumerate _ _)) in Hg.
        apply In_keys_lookup in Hg as [gc Hg].
        unfold newProcessGroup. rewrite Hg.
        destruct (newProcesses_complete (ConfigLoader.members gc) []) as [ps Eps].
        { intros m Hm. exact (Hgood g gc m Hg Hm). }
        rewrite Eps. eauto. }
      rewrite E. eauto.
  - intros w Hw. unfold newProcessManager in Hw.
    destruct (newProcessGroups parsesAsURL config _ []) as [gs|] eqn:E; [|discriminate].
    inversion Hw; subst w. clear Hw.
    apply newProcessGroups_inv in E as (Hin & Hout & Hall).
    assert (Hmade : forall g grp, lookup g gs = Some grp ->
                                  newProcessGroup parsesAsURL config g = Some grp).
    { intros g grp Hg. apply lookup_In in Hg.
      destruct (Hall g grp Hg) as [[]|H]. exact H. }
    assert (Hproc : forall g m p,
              getProcess g m (mkWorld (map fst (cfg_models config)) (cfg_aliases config)
                                      gs false None date pid [] [] []) = Some p ->
              p_id p = m /\ p_state p = STOPPED /\ p_process p = None /\
              p_inFlightRequests p = 0 /\
              lookup m (cfg_models config) = Some (p_config p)).
    { intros g m p Hp. unfold getProcess in Hp. cbn [processGroups] in Hp.
      destruct (lookup g gs) as [grp|] eqn:Eg; [|discriminate].
      exact (Hgroup g grp (Hmade g grp Eg) m p Hp). }
    assert (Hstate : forall g m st,
              stateOf g m (mkWorld (map fst (cfg_models config)) (cfg_aliases config)
                                   gs false None date pid [] [] []) = Some st ->
              st = STOPPED).
    { intros g m st H. unfold stateOf in H.
      destruct (getProcess g m _) as [p|] eqn:Ep; [|discriminate].
      cbn in H. inversion H; subst. now destruct (Hproc g m p Ep) as (_ & Hs & _). }
    split; [|split; [reflexivity|split; [reflexivity|split]]].
    + split; [|split].
      * intros g grp Hg. cbn [processGroups] in Hg.
        destruct (Hall g grp Hg) as [[]|H].
        now apply newProcessGroup_inv in H as (gc & _ & Hid & _).
      * intros g m H. apply Hstate in H. discriminate.
      * intros g grp m _ _ H. apply Hstate in H. discriminate.
    + intros g gc Hg.
      destruct (Hin g) as (grp & Hn & Hl).
      { apply In_keys_enumerate. now apply lookup_In_keys in Hg. }
      exists grp. cbn [processGroups]. split; [exact Hl|].
      apply newProcessGroup_inv in Hn
        as (gc' & Hg' & _ & Hlu & Hsw & Hex & Hpe & Hme & Hp & Hnp).
      rewrite Hg in Hg'. inversion Hg'; subst gc'.
      repeat split; try assumption.
      * intros Hm. unfold getProcess. cbn [processGroups]. rewrite Hl.
        destruct (Hp m Hm) as (c & _ & _ & E). now rewrite E.
      * intros Hm. destruct (in_dec string_dec m (ConfigLoader.members gc)) as [H|H];
          [exact H|].
        exfalso. apply Hm. unfold getProcess. cbn [processGroups]. rewrite Hl.
        now apply Hnp.
    + exact Hproc.
Qed.

End Constructed.

Lemma new_manager_is_serving_witness :
  members_are_models (fun _ => true) ex_manager_config /\
  newProcessManager (fun _ => true) ex_manager_config 0 100 = Some ex_cold /\
  serving ex_cold.
Proof.
  assert (E : newProcessManager (fun _ => true) ex_manager_config 0 100 = Some ex_cold)
    by reflexivity.
  destruct (new_manager_is_serving (fun _ => true) ex_manager_config 0 100) as [H1 H2].
  split; [apply H1; now exists ex_cold|]. split; [exact E|].
  exact (proj1 (H2 ex_cold E)).
Defined.

End ServerProofs.
